(** * Indexing, scheduling and routing core of the restaurant system

    A shallow embedding of the four algorithmic components of
    [daa_project.c++]: the open-addressed inventory table with automatic
    growth ([DynamicInventoryTable]), the order max-heap ([orderHeap]), the
    height-balanced customer index ([insertAVL]) and the delivery graph
    ([deliveryGraph], [dijkstraOptimized], [tspApproximation]); and of the
    code around them: lookups in the table and in the index, the traversal
    of the graph ([bfsDelivery]), the [Algorithms] namespace (searching,
    sorting, change making, string matching), the billing queue, the
    [LRUCache] and the modification and cancellation of orders.

    C++ [int] values are modelled in [Z].  Signed overflow and array accesses
    past the end are undefined behaviour in C++; where a loop can reach them
    the model stops with the outcome [Undefined].  Loops without a
    structural bound take a [fuel] argument and stop with [OutOfFuel] when
    it is used up. *)

From Stdlib Require Import ZArith Lia Ascii Znumtheory.
From stdpp Require Import base list strings sets sorting gmap.

Open Scope Z_scope.

(** ** Outcomes of a run *)

Inductive run (A : Type) : Type :=
| Ret (a : A)
| Undefined
| OutOfFuel.
Arguments Ret {A} a.
Arguments Undefined {A}.
Arguments OutOfFuel {A}.

#[global] Instance run_bind : MBind run := fun A B (k : A -> run B) (m : run A) =>
  match m with
  | Ret a => k a
  | Undefined => Undefined
  | OutOfFuel => OutOfFuel
  end.

Definition INT_MAX : Z := 2147483647.
Definition INT_MIN : Z := -2147483648.

Definition in_int (z : Z) : bool := (INT_MIN <=? z) && (z <=? INT_MAX).

(** An [int] result: the value when it fits, [Undefined] on overflow. *)
Definition int_of (z : Z) : run Z := if in_int z then Ret z else Undefined.


(** ** Arrays and counted loops *)

(** [a[i]] as an rvalue; an index outside the array is undefined. *)
Definition aget {A} (a : list A) (i : Z) : run A :=
  if i <? 0 then Undefined
  else match a !! Z.to_nat i with
       | Some x => Ret x
       | None => Undefined
       end.

(** [a[i] = x]. *)
Definition aset {A} (a : list A) (i : Z) (x : A) : run (list A) :=
  if (0 <=? i) && (i <? Z.of_nat (length a)) then Ret (<[Z.to_nat i := x]> a)
  else Undefined.

(** The body of a counted loop run once for each index of [js], in order,
    threading the loop-carried state. *)
Fixpoint for_each {S} (js : list Z) (body : Z -> S -> run S) (s : S) : run S :=
  match js with
  | [] => Ret s
  | j :: js' => s' ← body j s; for_each js' body s'
  end.

(** [for (int j = lo; j < hi; j++) body] *)
Definition for_range {S} (lo hi : Z) (body : Z -> S -> run S) (s : S) : run S :=
  for_each (seqZ lo (hi - lo)) body s.

(** ** ResizableHashStore: [class DynamicInventoryTable] *)

Module DynamicInventoryTable.
Section Table.

(** The payload [InventoryItem] is never inspected by the table. *)
Context {InventoryItem : Type}.

(** [struct HashNode { string name; InventoryItem item; bool used; }].  The
    source reads [name] and [item] only behind a test of [used], so a slot
    whose flag is false carries no data. *)
Inductive HashNode : Type :=
| Unused
| Used (name : string) (item : InventoryItem).

Definition used (n : HashNode) : bool :=
  match n with Unused => false | Used _ _ => true end.

(** The private members, and the sizes reported to the log by [rehash]
    (oldest first). *)
Record t : Type := mk {
  table : list HashNode;
  currentSize : Z;
  itemCount : Z;
  resizeLog : list Z
}.

Definition INITIAL_SIZE : Z := 53.

(** Constructor: [currentSize(INITIAL_SIZE), itemCount(0)], then
    [table.resize(currentSize)]. *)
Definition empty : t :=
  {| table := replicate (Z.to_nat INITIAL_SIZE) Unused;
     currentSize := INITIAL_SIZE;
     itemCount := 0;
     resizeLog := [] |}.

(** [(int)c] for a [char]: plain [char] is a signed byte on the usual
    targets, so the 7-bit characters keep their code and the others are
    negative. *)
Definition char_code (c : ascii) : Z :=
  let n := Z.of_nat (nat_of_ascii c) in
  if n <? 128 then n else n - 256.

(** [for (char c : key) sum += (int)c;] *)
Fixpoint char_sum (key : string) (sum : Z) : run Z :=
  match key with
  | EmptyString => Ret sum
  | String c rest => sum' ← int_of (sum + char_code c); char_sum rest sum'
  end.

(** [hash]: [sum % currentSize], the truncating remainder of C++. *)
Definition hash (key : string) (size : Z) : run Z :=
  sum ← char_sum key 0;
  if size =? 0 then Undefined else Ret (Z.rem sum size).

(** [table[idx]]. *)
Definition slot (tbl : list HashNode) (idx : Z) : run HashNode := aget tbl idx.

(** The probing loop shared by [insert] and [retrieve]:
    [while (table[idx].used && table[idx].name != name)
       { idx = (idx + step) % currentSize; step++; }]
    The result is the index at which the loop exits. *)
Fixpoint probe (fuel : nat) (tbl : list HashNode) (size : Z) (name : string)
    (idx step : Z) : run Z :=
  match fuel with
  | O => OutOfFuel
  | S fuel' =>
      n ← slot tbl idx;
      match n with
      | Unused => Ret idx
      | Used name' _ =>
          if String.eqb name' name then Ret idx
          else
            next ← int_of (idx + step);
            step' ← int_of (step + 1);
            if size =? 0 then Undefined
            else probe fuel' tbl size name (Z.rem next size) step'
      end
  end.

(** The inner loop of [nextPrime]:
    [for (int i = 2; i * i <= n; i++) if (n % i == 0) { isPrime = false; break; }] *)
Fixpoint trialDivision (fuel : nat) (n i : Z) : run bool :=
  match fuel with
  | O => OutOfFuel
  | S fuel' =>
      sq ← int_of (i * i);
      if sq <=? n then
        if Z.rem n i =? 0 then Ret false
        else trialDivision fuel' n (i + 1)
      else Ret true
  end.

(** [nextPrime]: [while (true) { ...; if (isPrime) return n; n++; }] *)
Fixpoint nextPrime (fuel : nat) (n : Z) : run Z :=
  match fuel with
  | O => OutOfFuel
  | S fuel' =>
      isPrime ← trialDivision fuel' n 2;
      if (isPrime : bool) then Ret n
      else n' ← int_of (n + 1); nextPrime fuel' n'
  end.

(** The tail of [insert] after the load test: probe, then
    [if (!table[idx].used) itemCount++;] and the three field writes. *)
Definition place (fuel : nat) (name : string) (item : InventoryItem) (s : t) : run t :=
  idx0 ← hash name (currentSize s);
  idx ← probe fuel (table s) (currentSize s) name idx0 1;
  n ← slot (table s) idx;
  count ← (if used n then Ret (itemCount s) else int_of (itemCount s + 1));
  Ret {| table := <[Z.to_nat idx := Used name item]> (table s);
         currentSize := currentSize s;
         itemCount := count;
         resizeLog := resizeLog s |}.

(** [rehash], with the recursive call to [insert] passed in as [ins].
    [table.resize(currentSize)] keeps the slots the vector already has and
    appends unused ones; the loop
    [for (int i = 0; i < oldSize; i++)
       if (oldTable[i].used) insert(oldTable[i].name, oldTable[i].item);]
    then re-inserts the entries of the copy on top. *)
Definition rehash (ins : string -> InventoryItem -> t -> run t)
    (fuel : nat) (s : t) : run t :=
  let oldTable := table s in
  let oldSize := currentSize s in
  doubled ← int_of (currentSize s * 2);
  newSize ← nextPrime fuel doubled;
  s' ← for_range 0 oldSize
         (fun i s' =>
            n ← slot oldTable i;
            match n with
            | Unused => Ret s'
            | Used name item => ins name item s'
            end)
         {| table := resize (Z.to_nat newSize) Unused (table s);
            currentSize := newSize;
            itemCount := 0;
            resizeLog := resizeLog s |};
  Ret {| table := table s';
         currentSize := currentSize s';
         itemCount := itemCount s';
         resizeLog := resizeLog s' ++ [currentSize s'] |}.

(** The load test [(double)itemCount / currentSize >= LOAD_FACTOR_THRESHOLD]
    with threshold [0.7].  For [int] operands the rounded quotient reaches
    the double nearest to 0.7 exactly when [itemCount / currentSize >= 7/10]:
    a quotient different from 7/10 differs from it by at least
    [1 / (10 * currentSize)], far more than the rounding error.  The test is
    therefore stated on integers. *)
Definition overloaded (s : t) : bool := 7 * currentSize s <=? 10 * itemCount s.

(** [insert]. *)
Fixpoint insert (fuel : nat) (name : string) (item : InventoryItem) (s : t) : run t :=
  match fuel with
  | O => OutOfFuel
  | S fuel' =>
      s1 ← (if overloaded s then rehash (insert fuel') fuel' s else Ret s);
      place fuel' name item s1
  end.

(** [retrieve]: the item when the probe ends on a used slot with the same
    name, [None] for the [false] result. *)
Definition retrieve (fuel : nat) (name : string) (s : t) : run (option InventoryItem) :=
  idx0 ← hash name (currentSize s);
  idx ← probe fuel (table s) (currentSize s) name idx0 1;
  n ← slot (table s) idx;
  match n with
  | Used name' item => if String.eqb name' name then Ret (Some item) else Ret None
  | Unused => Ret None
  end.

(** [getSize] and [getTableSize]. *)
Definition getSize (s : t) : Z := itemCount s.
Definition getTableSize (s : t) : Z := currentSize s.

(** A sequence of [insert] calls, left to right. *)
Fixpoint insertAll (fuel : nat) (kvs : list (string * InventoryItem)) (s : t) : run t :=
  match kvs with
  | [] => Ret s
  | (k, v) :: rest => s' ← insert fuel k v s; insertAll fuel rest s'
  end.

(** Number of slots whose [used] flag is set. *)
Definition occupied (s : t) : Z :=
  Z.of_nat (length (filter (fun n => used n = true) (table s))).

(** States reachable from the constructor by [insert] calls that return. *)
Inductive reachable : t -> Prop :=
| reach_empty : reachable empty
| reach_insert fuel name item s s' :
    reachable s -> insert fuel name item s = Ret s' -> reachable s'.

(** A step that neither resizes nor logs and adds at most one item. *)
Definition quiet_step (s s' : t) : Prop :=
  currentSize s' = currentSize s /\ resizeLog s' = resizeLog s /\
  itemCount s <= itemCount s' <= itemCount s + 1.


(** The value of the last pair for [k] in a sequence of inserts. *)
Fixpoint lastValue (kvs : list (string * InventoryItem)) (k : string) : option InventoryItem :=
  match kvs with
  | [] => None
  | (k', v) :: rest =>
      match lastValue rest k with
      | Some v' => Some v'
      | None => if String.eqb k' k then Some v else None
      end
  end.

(** Every entry of the table is one of [kvs]. *)
Definition entries_in (tbl : list HashNode) (kvs : list (string * InventoryItem)) : Prop :=
  forall i k v, tbl !! i = Some (Used k v) -> (k, v) ∈ kvs.

(** Every stored key sits where its own probe ends. *)
Definition homed (s : t) : Prop :=
  forall j k v, table s !! j = Some (Used k v) ->
    exists fuel h i, hash k (currentSize s) = Ret h /\
      probe fuel (table s) (currentSize s) k h 1 = Ret i /\ Z.to_nat i = j.

End Table.

(** *** Scenario data *)

(** Thirty-eight one-character keys ['0'] .. ['U'] (codes 48 .. 85), whose
    home slots at capacity 53 are pairwise different. *)
Definition key1 (code : nat) : string := String (ascii_of_nat code) EmptyString.
Definition keys38 : list (string * Z) :=
  map (fun i => (key1 (48 + i), Z.of_nat i)) (seq 0 38).

(** The table after the 38 keys, and after one more insert. *)
Definition loaded38 : @t Z :=
  Eval vm_compute in
    match insertAll 100 keys38 empty with Ret s => s | _ => empty end.
Definition loaded39 : @t Z :=
  Eval vm_compute in
    match insert 100 "p" 38 loaded38 with Ret s => s | _ => empty end.

(** Thirty-nine one-character keys ['5'] .. ['['] (codes 53 .. 91); the
    last one triggers the rehash, in which each of the first 38 is
    re-inserted into a slot other than the one it held at capacity 53. *)
Definition keys39 : list (string * Z) :=
  map (fun i => (key1 (53 + i), Z.of_nat i)) (seq 0 39).

(** Two-character keys ["0z"], ["1y"], ["2x"], ... whose character codes
    all add up to 170, so that every one of them has home slot
    [170 % 53 = 11]. *)
Definition collide (i : nat) : string :=
  String (ascii_of_nat (48 + i)) (String (ascii_of_nat (122 - i)) EmptyString).
Definition collidingKeys : list (string * Z) :=
  map (fun i => (collide i, Z.of_nat i)) (seq 0 27).

(** The table after the 27 colliding keys have been inserted. *)
Definition crowded : @t Z :=
  Eval vm_compute in
    match insertAll 100 collidingKeys empty with Ret s => s | _ => empty end.

(** A 28th key with the same character sum. *)
Definition latecomer : string := collide 27.

(** The slots visited by the probing loop, for [n] iterations. *)
Fixpoint probePath (n : nat) (size idx step : Z) : list Z :=
  match n with
  | O => []
  | S n' => idx :: probePath n' size ((idx + step) mod size) (step + 1)
  end.
Definition latecomerPath : list Z := Eval vm_compute in probePath 53 53 11 1.

(** Position [m] of the path holds another key, and the loop moves on from
    it to position [m + 1] (cyclically). *)
Definition blocked (m : Z) : bool :=
  match latecomerPath !! Z.to_nat m with
  | Some idx =>
      match table crowded !! Z.to_nat idx with
      | Some (Used n _) =>
          negb (String.eqb n latecomer) && (0 <=? idx) && (idx <? 53) &&
          bool_decide (latecomerPath !! Z.to_nat ((m + 1) mod 53)
                       = Some ((idx + m + 1) mod 53))
      | _ => false
      end
  | None => false
  end.

(** A short sequence that inserts the key ["a"] twice. *)
Definition abaInserts : list (string * Z) := [("a"%string, 1); ("b"%string, 2); ("a"%string, 3)].
Definition abaTable : @t Z :=
  Eval vm_compute in
    match insertAll 100 abaInserts empty with Ret s => s | _ => empty end.

(** A run that is still inside its loop when the fuel ends, the only other
    possibility being the overflow of a counter that has been incremented
    from [start] once per unit of fuel. *)
Definition spins {A} (start : Z) (fuel : nat) (r : run A) : Prop :=
  match r with
  | Ret _ => False
  | Undefined => INT_MAX < start + Z.of_nat fuel + 53
  | OutOfFuel => True
  end.

End DynamicInventoryTable.


(** ** PriorityScheduler: [orderHeap], [orderHeapSize] *)

Module OrderHeap.
Section Heap.

(** [Domain::Order]: the heap reads the [priority] field only and moves
    whole records. *)
Context {Order : Type} (priority : Order -> Z).

Definition MAX_ORDERS : Z := 300.

(** The global array [orderHeap[MAX_ORDERS]] (a list of [MAX_ORDERS] slots)
    and the counter [orderHeapSize]. *)
Record t : Type := mk {
  orderHeap : list Order;
  orderHeapSize : Z
}.

Definition read (a : list Order) (i : Z) : run Order := aget a i.
Definition store (a : list Order) (i : Z) (x : Order) : run (list Order) := aset a i x.

(** [swap(a[i], a[j])]. *)
Definition swap (a : list Order) (i j : Z) : run (list Order) :=
  x ← read a i;
  y ← read a j;
  a' ← store a i y;
  store a' j x.

Definition parent (index : Z) : Z := Z.shiftr (index - 1) 1.

(** [orderHeapifyUp]:
    [while (index > 0) {
       int parent = (index - 1) >> 1;
       if (orderHeap[parent].priority >= orderHeap[index].priority) break;
       swap(orderHeap[parent], orderHeap[index]);
       index = parent; }] *)
Fixpoint orderHeapifyUp (fuel : nat) (a : list Order) (index : Z) : run (list Order) :=
  if 0 <? index then
    match fuel with
    | O => OutOfFuel
    | S fuel' =>
        p ← read a (parent index);
        x ← read a index;
        if priority p >=? priority x then Ret a
        else a' ← swap a (parent index) index;
             orderHeapifyUp fuel' a' (parent index)
    end
  else Ret a.

(** The insertion sequence of [demoOrderManagement]:
    [orderHeap[orderHeapSize++] = o; orderHeapifyUp(orderHeapSize - 1);]
    There is no test of [orderHeapSize] against [MAX_ORDERS]. *)
Definition placeOrder (fuel : nat) (o : Order) (s : t) : run t :=
  a ← store (orderHeap s) (orderHeapSize s) o;
  size ← int_of (orderHeapSize s + 1);
  a' ← orderHeapifyUp fuel a (size - 1);
  Ret {| orderHeap := a'; orderHeapSize := size |}.

(** Priority found at index [i]. *)
Definition prio (a : list Order) (i : Z) : Z :=
  from_option priority 0 (a !! Z.to_nat i).

(** The array has its declared length and the counter is within it. *)
Definition wf (s : t) : Prop :=
  Z.of_nat (length (orderHeap s)) = MAX_ORDERS /\ 0 <= orderHeapSize s <= MAX_ORDERS.

(** Max-heap property of the first [orderHeapSize] slots. *)
Definition heap_ordered (s : t) : Prop :=
  forall i, 0 < i < orderHeapSize s ->
    prio (orderHeap s) i <= prio (orderHeap s) (parent i).

End Heap.

(** A heap holding [MAX_ORDERS] orders, each a bare priority. *)
Definition fullHeap : @t Z :=
  {| orderHeap := replicate 300 0; orderHeapSize := 300 |}.

(** A heap of five orders with priorities [9, 7, 8, 3, 5]. *)
Definition smallHeap : @t Z :=
  {| orderHeap := [9; 7; 8; 3; 5] ++ replicate 295 0; orderHeapSize := 5 |}.

End OrderHeap.

(** *** The rest of the order heap: [orderHeapifyDown], stored orders *)

Module OrderHeapMore.
Import OrderHeap.
Section Heap.
Context {Order : Type} (priority : Order -> Z).



(** The orders held by the heap: the first [orderHeapSize] slots. *)
Definition stored (s : t) : list Order :=
  take (Z.to_nat (orderHeapSize s)) (orderHeap s).

(** A sequence of insertions. *)
Fixpoint placeAll (fuel : nat) (os : list Order) (s : t) : run t :=
  match os with
  | [] => Ret s
  | o :: rest => s' ← placeOrder priority fuel o s; placeAll fuel rest s'
  end.

End Heap.

(** The heap before any order is placed. *)
Definition noOrders : @t Z :=
  {| orderHeap := replicate 300 0; orderHeapSize := 0 |}.

End OrderHeapMore.

(** ** BalancedIndex: [struct BSTNode], [insertAVL] *)

Module BalancedIndex.

(** [BSTNode *]: the null pointer, or a node that owns its two children and
    caches the height of its subtree. *)
Inductive BSTNode : Type :=
| Null
| Node (key : Z) (name : string) (left right : BSTNode) (height : Z).

Definition height (n : BSTNode) : Z :=
  match n with
  | Null => 0
  | Node _ _ _ _ h => h
  end.

Definition balanceFactor (n : BSTNode) : Z :=
  match n with
  | Null => 0
  | Node _ _ l r _ => height l - height r
  end.

Definition createNode (key : Z) (name : string) : BSTNode :=
  Node key name Null Null 1.

(** [n->key]; dereferencing the null pointer is undefined. *)
Definition keyOf (n : BSTNode) : run Z :=
  match n with
  | Null => Undefined
  | Node k _ _ _ _ => Ret k
  end.

(** [rightRotate(y)]: [x = y->left; T2 = x->right; x->right = y; y->left = T2;]
    then the heights of [y] and [x] are recomputed, in this order. *)
Definition rightRotate (y : BSTNode) : run BSTNode :=
  match y with
  | Node yk yn (Node xk xn xl T2 _) yr _ =>
      let y' := Node yk yn T2 yr (Z.max (height T2) (height yr) + 1) in
      Ret (Node xk xn xl y' (Z.max (height xl) (height y') + 1))
  | _ => Undefined
  end.

(** [leftRotate(x)]: [y = x->right; T2 = y->left; y->left = x; x->right = T2;]
    then the heights of [x] and [y] are recomputed. *)
Definition leftRotate (x : BSTNode) : run BSTNode :=
  match x with
  | Node xk xn xl (Node yk yn T2 yr _) _ =>
      let x' := Node xk xn xl T2 (Z.max (height xl) (height T2) + 1) in
      Ret (Node yk yn x' yr (Z.max (height x') (height yr) + 1))
  | _ => Undefined
  end.

(** The part of [insertAVL] after the recursive call: the height update and
    the four rotation tests, in source order.  Each [&&] evaluates its
    right operand, which dereferences a child, only when the left one
    holds. *)
Definition rebalance (node : BSTNode) (key : Z) : run BSTNode :=
  match node with
  | Null => Undefined
  | Node k n l r _ =>
      let node := Node k n l r (1 + Z.max (height l) (height r)) in
      let bf := balanceFactor node in
      ll ← (if 1 <? bf then lk ← keyOf l; Ret (key <? lk) else Ret false);
      if (ll : bool) then rightRotate node else
      rr ← (if bf <? -1 then rk ← keyOf r; Ret (key >? rk) else Ret false);
      if (rr : bool) then leftRotate node else
      lr ← (if 1 <? bf then lk ← keyOf l; Ret (key >? lk) else Ret false);
      if (lr : bool) then
        l' ← leftRotate l;
        rightRotate (Node k n l' r (1 + Z.max (height l) (height r)))
      else
      rl ← (if bf <? -1 then rk ← keyOf r; Ret (key <? rk) else Ret false);
      if (rl : bool) then
        r' ← rightRotate r;
        leftRotate (Node k n l r' (1 + Z.max (height l) (height r)))
      else Ret node
  end.

(** [insertAVL(node, key, name)]. *)
Fixpoint insertAVL (node : BSTNode) (key : Z) (name : string) : run BSTNode :=
  match node with
  | Null => Ret (createNode key name)
  | Node k n l r h =>
      if key <? k then
        l' ← insertAVL l key name; rebalance (Node k n l' r h) key
      else if key >? k then
        r' ← insertAVL r key name; rebalance (Node k n l r' h) key
      else Ret node
  end.

(** [inorderBST]: the [key: name] pairs in the order they are printed. *)
Fixpoint inorderBST (root : BSTNode) : list (Z * string) :=
  match root with
  | Null => []
  | Node k n l r _ => inorderBST l ++ (k, n) :: inorderBST r
  end.

(** [customerBST = insertAVL(customerBST, id, name)] for a sequence of
    customers. *)
Fixpoint insertMany (kvs : list (Z * string)) (root : BSTNode) : run BSTNode :=
  match kvs with
  | [] => Ret root
  | (k, n) :: rest => root' ← insertAVL root k n; insertMany rest root'
  end.

(** True height of a subtree. *)
Fixpoint depth (n : BSTNode) : Z :=
  match n with
  | Null => 0
  | Node _ _ l r _ => 1 + Z.max (depth l) (depth r)
  end.

(** Every node caches its true height and its two subtrees differ in
    height by at most one. *)
Fixpoint balanced (n : BSTNode) : Prop :=
  match n with
  | Null => True
  | Node _ _ l r h =>
      balanced l /\ balanced r /\ h = depth n /\
      -1 <= depth l - depth r <= 1
  end.

Fixpoint all_keys (P : Z -> Prop) (n : BSTNode) : Prop :=
  match n with
  | Null => True
  | Node k _ l r _ => P k /\ all_keys P l /\ all_keys P r
  end.

(** Search-tree order. *)
Fixpoint ordered (n : BSTNode) : Prop :=
  match n with
  | Null => True
  | Node k _ l r _ =>
      ordered l /\ ordered r /\
      all_keys (fun x => x < k) l /\ all_keys (fun x => k < x) r
  end.

(** After an insert of [key] that made the tree taller, the tree is a
    fresh leaf or leans towards the side that received [key]. *)
Definition leans (key : Z) (n : BSTNode) : Prop :=
  match n with
  | Null => False
  | Node k _ l r _ =>
      (l = Null /\ r = Null) \/
      (key < k /\ depth l = depth r + 1) \/
      (k < key /\ depth r = depth l + 1)
  end.

End BalancedIndex.

(** *** Lookup in the customer index: [searchBST] *)

Module BalancedIndexMore.
Import BalancedIndex.

(** [searchBST(root, key)]: the node found, or the null pointer. *)
Fixpoint searchBST (root : BSTNode) (key : Z) : BSTNode :=
  match root with
  | Null => Null
  | Node k _ l r _ =>
      if key =? k then root
      else if key <? k then searchBST l key
      else searchBST r key
  end.

(** The [key] and [name] fields of a node. *)
Definition fields (n : BSTNode) : option (Z * string) :=
  match n with
  | Null => None
  | Node k name _ _ _ => Some (k, name)
  end.

(** The name of the first customer of [kvs] registered under [key]. *)
Fixpoint firstName (kvs : list (Z * string)) (key : Z) : option string :=
  match kvs with
  | [] => None
  | (k, n) :: rest => if k =? key then Some n else firstName rest key
  end.

(** First pair of a listing with the given key. *)
Fixpoint assoc (x : Z) (l : list (Z * string)) : option (Z * string) :=
  match l with
  | [] => None
  | (k, n) :: rest => if k =? x then Some (k, n) else assoc x rest
  end.

(** Number of nodes. *)
Fixpoint size (n : BSTNode) : Z :=
  match n with
  | Null => 0
  | Node _ _ l r _ => 1 + size l + size r
  end.

End BalancedIndexMore.

(** ** GraphEngine: [deliveryGraph], [dijkstraOptimized], [tspApproximation] *)

Module DeliveryGraph.

Definition MAX_LOCATIONS : Z := 20.

(** The marker written by [initDeliveryGraph] between different vertices. *)
Definition NO_EDGE : Z := 99999.

(** The literal [1e9] used as "infinity" by the algorithms. *)
Definition INF : Z := 1000000000.

(** [struct AdjNode { int dest; int weight; AdjNode *next; }]: a list cell;
    the chain through [next] is a list. *)
Record AdjNode : Type := { dest : Z; weight : Z }.

(** The globals [deliveryGraph[MAX_LOCATIONS][MAX_LOCATIONS]],
    [locationCount] and [adjList[MAX_LOCATIONS]]. *)
Record t : Type := mk {
  deliveryGraph : list (list Z);
  locationCount : Z;
  adjList : list (list AdjNode)
}.

(** Zero-initialised globals at program start. *)
Definition initial : t :=
  {| deliveryGraph := replicate 20 (replicate 20 0);
     locationCount := 0;
     adjList := replicate 20 [] |}.

(** [m[i][j]] *)
Definition mget (m : list (list Z)) (i j : Z) : run Z :=
  row ← aget m i; aget row j.

(** [m[i][j] = w] *)
Definition mset (m : list (list Z)) (i j w : Z) : run (list (list Z)) :=
  row ← aget m i; row' ← aset row j w; aset m i row'.

(** [initDeliveryGraph(nodes)]. *)
Definition initDeliveryGraph (nodes : Z) (g : t) : run t :=
  for_range 0 nodes (fun i g =>
    m ← for_range 0 nodes (fun j m =>
           mset m i j (if i =? j then 0 else NO_EDGE)) (deliveryGraph g);
    adj ← aset (adjList g) i [];
    Ret {| deliveryGraph := m; locationCount := locationCount g; adjList := adj |})
  {| deliveryGraph := deliveryGraph g; locationCount := nodes; adjList := adjList g |}.

(** [addDeliveryEdge(u, v, w)]. *)
Definition addDeliveryEdge (u v w : Z) (g : t) : run t :=
  m ← mset (deliveryGraph g) u v w;
  m ← mset m v u w;
  lu ← aget (adjList g) u;
  adj ← aset (adjList g) u ({| dest := v; weight := w |} :: lu);
  lv ← aget adj v;
  adj ← aset adj v ({| dest := u; weight := w |} :: lv);
  Ret {| deliveryGraph := m; locationCount := locationCount g; adjList := adj |}.

(** A sequence of [addDeliveryEdge] calls. *)
Fixpoint addEdges (edges : list (Z * Z * Z)) (g : t) : run t :=
  match edges with
  | [] => Ret g
  | (u, v, w) :: rest => g' ← addDeliveryEdge u v w g; addEdges rest g'
  end.

(** [initDeliveryGraph(n)] followed by the [addDeliveryEdge] calls. *)
Definition build (n : Z) (edges : list (Z * Z * Z)) (g : t) : run t :=
  g' ← initDeliveryGraph n g; addEdges edges g'.

(** Both global arrays have their declared dimensions. *)
Definition wf (g : t) : Prop :=
  length (deliveryGraph g) = 20%nat /\
  Forall (fun row => length row = 20%nat) (deliveryGraph g) /\
  length (adjList g) = 20%nat.

(** Every entry among the first [n] vertices is below the [1e9] with which
    the tour search starts. *)
Definition light (n : Z) (m : list (list Z)) : Prop :=
  forall i j, 0 <= i < n -> 0 <= j < n -> exists w, mget m i j = Ret w /\ w < INF.

(** [std::priority_queue<pair<int,int>, ..., greater<...>>]: only the order
    in which pairs leave the queue is observable, and it is the
    lexicographic one; the queue is kept as a sorted list, [top]/[pop]
    taking its head. *)
Definition pair_le (a b : Z * Z) : bool :=
  (a.1 <? b.1) || ((a.1 =? b.1) && (a.2 <=? b.2)).

Fixpoint pq_push (x : Z * Z) (pq : list (Z * Z)) : list (Z * Z) :=
  match pq with
  | [] => [x]
  | y :: rest => if pair_le x y then x :: pq else y :: pq_push x rest
  end.

(** Loop-carried state of [dijkstraOptimized]. *)
Record dijkstra_state : Type := {
  dist : list Z;
  parent : list Z;
  pq : list (Z * Z)
}.

(** One iteration of [for (int v = 0; v < n; v++)]:
    [if (deliveryGraph[u][v] && dist[u] + deliveryGraph[u][v] < dist[v])
       { dist[v] = dist[u] + deliveryGraph[u][v]; parent[v] = u;
         pq.push({dist[v], v}); }] *)
Definition relax (m : list (list Z)) (u v : Z) (st : dijkstra_state)
    : run dijkstra_state :=
  w ← mget m u v;
  if w =? 0 then Ret st
  else
    du ← aget (dist st) u;
    sum ← int_of (du + w);
    dv ← aget (dist st) v;
    if sum <? dv then
      dist' ← aset (dist st) v sum;
      parent' ← aset (parent st) v u;
      Ret {| dist := dist'; parent := parent'; pq := pq_push (sum, v) (pq st) |}
    else Ret st.

(** [while (!pq.empty()) { auto [d, u] = pq.top(); pq.pop();
      if (d > dist[u]) continue; for ... }] *)
Fixpoint dijkstra_loop (fuel : nat) (m : list (list Z)) (n : Z)
    (st : dijkstra_state) : run dijkstra_state :=
  match pq st with
  | [] => Ret st
  | (d, u) :: rest =>
      match fuel with
      | O => OutOfFuel
      | S fuel' =>
          let st := {| dist := dist st; parent := parent st; pq := rest |} in
          du ← aget (dist st) u;
          if d >? du then dijkstra_loop fuel' m n st
          else st' ← for_range 0 n (relax m u) st; dijkstra_loop fuel' m n st'
      end
  end.

(** One printed line: ["Location i -> Distance: d"], followed by
    [" (via p)"] when [parent[i] != -1]. *)
Record report_line : Type := {
  location : Z;
  distance : Z;
  via : option Z
}.

(** [dijkstraOptimized(src, n)]: the lines it prints.  The distance shown
    is [(dist[i] == 1e9 ? -1 : dist[i])]. *)
Definition dijkstraOptimized (fuel : nat) (g : t) (src n : Z) : run (list report_line) :=
  let dist0 := replicate (Z.to_nat n) INF in
  let parent0 := replicate (Z.to_nat n) (-1) in
  dist0 ← aset dist0 src 0;
  st ← dijkstra_loop fuel (deliveryGraph g) n
         {| dist := dist0; parent := parent0; pq := [(0, src)] |};
  for_range 0 n (fun i lines =>
    d ← aget (dist st) i;
    p ← aget (parent st) i;
    Ret (lines ++ [{| location := i;
                      distance := if d =? INF then -1 else d;
                      via := if p =? -1 then None else Some p |}])) [].

(** Loop-carried state of [tspApproximation]. *)
Record tour_state : Type := {
  route : list Z;
  visited : list bool;
  current : Z
}.

(** The inner loop:
    [if (!visited[j] && deliveryGraph[current][j] < minDist)
       { minDist = deliveryGraph[current][j]; nearest = j; }]
    on the pair [(nearest, minDist)]. *)
Definition nearer (m : list (list Z)) (vis : list bool) (cur : Z)
    (j : Z) (best : Z * Z) : run (Z * Z) :=
  seen ← aget vis j;
  if (seen : bool) then Ret best
  else w ← mget m cur j;
       if w <? best.2 then Ret (j, w) else Ret best.

(** One iteration of the outer loop [for (int i = 1; i < n; i++)]. *)
Definition visit_nearest (m : list (list Z)) (n : Z) (i : Z) (st : tour_state)
    : run tour_state :=
  best ← for_range 0 n (nearer m (visited st) (current st)) (-1, INF);
  let nearest := best.1 in
  if nearest =? -1 then Ret st
  else
    vis ← aset (visited st) nearest true;
    Ret {| route := route st ++ [nearest]; visited := vis; current := nearest |}.

(** [tspApproximation(start, n)]. *)
Definition tspApproximation (g : t) (start n : Z) : run (list Z) :=
  vis ← aset (replicate (Z.to_nat n) false) start true;
  st ← for_range 1 n (visit_nearest (deliveryGraph g) n)
         {| route := [start]; visited := vis; current := start |};
  Ret (route st ++ [start]).

(** [displayTSPRoute(route)]: the printed legs [from -> to (Distance: d)]
    and the printed total. *)
Definition displayTSPRoute (g : t) (route : list Z) : run (list (Z * Z * Z) * Z) :=
  for_range 0 (Z.of_nat (length route) - 1) (fun i '(legs, totalDistance) =>
    a ← aget route i;
    b ← aget route (i + 1);
    d ← mget (deliveryGraph g) a b;
    total ← int_of (totalDistance + d);
    Ret (legs ++ [(a, b, d)], total)) ([], 0).

(** Dimensions of the matrix alone. *)
Definition dims (m : list (list Z)) : Prop :=
  length m = 20%nat /\ Forall (fun row => length row = 20%nat) m.

(** Loop invariant of the tour: the route lists, without repetition,
    exactly the vertices marked as visited. *)
Definition tour_inv (n start : Z) (i : Z) (st : tour_state) : Prop :=
  Z.of_nat (length (visited st)) = n /\
  Z.of_nat (length (route st)) = i /\
  NoDup (route st) /\
  (forall v, v ∈ route st <-> 0 <= v < n /\ visited st !! Z.to_nat v = Some true) /\
  0 <= current st < n /\
  head (route st) = Some start.

(** *** Scenario data *)

(** The graph of the built-in demonstration: six vertices, nine edges. *)
Definition demoEdges : list (Z * Z * Z) :=
  [(0,1,7); (0,2,9); (0,5,14); (1,2,10); (1,3,15); (2,3,11); (2,5,2); (3,4,6); (4,5,9)].

Definition demoGraph : run t := build 6 demoEdges initial.

(** Three vertices, one edge between 0 and 1; vertex 2 has no edge. *)
Definition isolatedGraph : run t := build 3 [(0,1,5)] initial.

(** Two vertices joined by an edge of weight [10^9]. *)
Definition heavyGraph : run t := build 2 [(0,1,INF)] initial.

End DeliveryGraph.

(** *** What the two representations of the delivery graph hold *)

Module DeliveryGraphMore.
Import DeliveryGraph.

(** [e] joins [i] and [j], in either direction. *)
Definition joins (e : Z * Z * Z) (i j : Z) : bool :=
  let '(u, v, _) := e in ((u =? i) && (v =? j)) || ((u =? j) && (v =? i)).

(** The weight of the last edge of [edges] that joins [i] and [j]. *)
Fixpoint lastWeight (edges : list (Z * Z * Z)) (i j : Z) : option Z :=
  match edges with
  | [] => None
  | e :: rest =>
      match lastWeight rest i j with
      | Some w => Some w
      | None => if joins e i j then Some e.2 else None
      end
  end.

(** The chain [adjList[i]]. *)
Definition neighbours (g : t) (i : Z) : list AdjNode :=
  default [] (adjList g !! Z.to_nat i).

(** *** Routes in the matrix, as [dijkstraOptimized] reads it

    The relaxation test [deliveryGraph[u][v] && ...] takes every nonzero
    entry as an edge from [u] to [v]. *)

(** Total weight of the route that starts at [u] and goes on through the
    vertices [rest], all below [n]; [None] when a step has no edge. *)
Fixpoint route_length (m : list (list Z)) (n : Z) (u : Z) (rest : list Z) : option Z :=
  match rest with
  | [] => Some 0
  | v :: rest' =>
      if (0 <=? v) && (v <? n) then
        match mget m u v with
        | Ret w => if w =? 0 then None else Z.add w <$> route_length m n v rest'
        | _ => None
        end
      else None
  end.

(** Where the route ends. *)
Definition route_end (u : Z) (rest : list Z) : Z := default u (last rest).

(** Every entry among the first [n] vertices is a weight that can be added
    to a distance below [1e9] without leaving [int]. *)
Definition weights_in (n : Z) (m : list (list Z)) : bool :=
  forallb (fun i =>
    forallb (fun j =>
      match mget m i j with
      | Ret w => (0 <=? w) && (w <=? INT_MAX - INF)
      | _ => false
      end) (seqZ 0 n)) (seqZ 0 n).

(** Every edge leaving [u] has been relaxed. *)
Definition closed (m : list (list Z)) (n : Z) (dist : list Z) (u : Z) : Prop :=
  forall v w du, 0 <= v < n -> mget m u v = Ret w -> w <> 0 ->
    dist !! Z.to_nat u = Some du ->
    exists dv, dist !! Z.to_nat v = Some dv /\ dv <= du + w.

(** A vertex with a finite tentative distance is either waiting in the
    queue with that distance or has all its edges relaxed. *)
Definition settled (m : list (list Z)) (n : Z) (st : dijkstra_state) (u : Z) : Prop :=
  forall du, dist st !! Z.to_nat u = Some du -> du < INF ->
    (du, u) ∈ pq st \/ closed m n (dist st) u.

(** What holds of [dist], [parent] and [pq] throughout [dijkstraOptimized]. *)
Record dijkstra_inv (m : list (list Z)) (n src : Z) (st : dijkstra_state) : Prop := {
  inv_dist_size : Z.of_nat (length (dist st)) = n;
  inv_parent_size : Z.of_nat (length (parent st)) = n;
  inv_src : dist st !! Z.to_nat src = Some 0;
  inv_pq : forall d u, (d, u) ∈ pq st ->
    0 <= u < n /\ d < INF /\ exists du, dist st !! Z.to_nat u = Some du /\ du <= d;
  inv_route : forall v dv, 0 <= v -> dist st !! Z.to_nat v = Some dv ->
    0 <= dv <= INF /\
    (dv < INF -> exists p, route_end src p = v /\ route_length m n src p = Some dv);
  inv_parent : forall v p, 0 <= v -> parent st !! Z.to_nat v = Some p ->
    if p =? -1 then v = src \/ dist st !! Z.to_nat v = Some INF
    else 0 <= p < n /\ v <> src /\
         exists dp w dv, dist st !! Z.to_nat p = Some dp /\ mget m p v = Ret w /\
           w <> 0 /\ dist st !! Z.to_nat v = Some dv /\ dp + w <= dv /\ dv < INF
}.

(** The queue is ordered by distance. *)
Definition by_key (a b : Z * Z) : Prop := a.1 <= b.1.

(** The vertices [P] have had their edges relaxed: nothing in the queue
    is nearer than they are, and no pair of the queue carries their own
    distance. *)
Definition processed (st : dijkstra_state) (P : list Z) : Prop :=
  forall x dx d y, x ∈ P -> dist st !! Z.to_nat x = Some dx -> (d, y) ∈ pq st ->
    dx <= d /\ (y = x -> dx < d).

(** What holds of the queue and of the processed vertices [P] each time the
    loop [while (!pq.empty())] is entered. *)
Definition queue_inv (n : Z) (st : dijkstra_state) (P : list Z) : Prop :=
  NoDup (pq st) /\ StronglySorted by_key (pq st) /\
  NoDup P /\ Forall (fun x => 0 <= x < n) P /\ processed st P.

(** The state of the inner loop [for (int v = 0; v < n; v++)] run for the
    vertex [u] taken from the queue with the distance [du]: the edges to
    the vertices below [j] are relaxed, and at most [j] pairs were pushed. *)
Definition relaxing (m : list (list Z)) (n src : Z) (u du : Z) (P : list Z)
    (bound : Z) (j : Z) (st : dijkstra_state) : Prop :=
  dijkstra_inv m n src st /\
  dist st !! Z.to_nat u = Some du /\
  (forall x, 0 <= x < n -> x <> u -> settled m n st x) /\
  (forall v w, 0 <= v < j -> mget m u v = Ret w -> w <> 0 ->
     exists dv, dist st !! Z.to_nat v = Some dv /\ dv <= du + w) /\
  queue_inv n st P /\
  (forall x dx, x ∈ P -> dist st !! Z.to_nat x = Some dx -> dx <= du) /\
  (forall d y, (d, y) ∈ pq st -> du <= d /\ (y = u -> du < d)) /\
  Z.of_nat (length (pq st)) <= bound + j.

(** The graph of the demonstration, once built. *)
Definition demoBuilt : t :=
  Eval vm_compute in match demoGraph with Ret g => g | _ => initial end.

End DeliveryGraphMore.

(** *** Breadth-first traversal of the adjacency chains: [bfsDelivery] *)

Module Traversal.
Import DeliveryGraph DeliveryGraphMore.

(** The locals of [bfsDelivery]: [visited[MAX_LOCATIONS]],
    [q[MAX_LOCATIONS]], [front], [rear], and the vertices printed so far.
    [q] is not initialised by the code; no slot is read before it is
    written, and the model starts it with zeros. *)
Record bfs_state : Type := {
  visited : list bool;
  q : list Z;
  front : Z;
  rear : Z;
  printed : list Z
}.

(** [if (!visited[cur->dest]) { visited[cur->dest] = true;
      q[rear++] = cur->dest; }] *)
Definition visit_cell (c : AdjNode) (st : bfs_state) : run bfs_state :=
  seen ← aget (visited st) (dest c);
  if (seen : bool) then Ret st
  else
    vis ← aset (visited st) (dest c) true;
    q' ← aset (q st) (rear st) (dest c);
    rear' ← int_of (rear st + 1);
    Ret {| visited := vis; q := q'; front := front st; rear := rear';
           printed := printed st |}.

(** [while (cur) { ...; cur = cur->next; }] along one chain. *)
Fixpoint visit_chain (cells : list AdjNode) (st : bfs_state) : run bfs_state :=
  match cells with
  | [] => Ret st
  | c :: rest => st' ← visit_cell c st; visit_chain rest st'
  end.

(** [while (front < rear) { int u = q[front++]; cout << u; ... }] *)
Fixpoint bfs_loop (fuel : nat) (g : t) (st : bfs_state) : run bfs_state :=
  if front st <? rear st then
    match fuel with
    | O => OutOfFuel
    | S fuel' =>
        u ← aget (q st) (front st);
        front' ← int_of (front st + 1);
        chain ← aget (adjList g) u;
        st' ← visit_chain chain
                {| visited := visited st; q := q st; front := front';
                   rear := rear st; printed := printed st ++ [u] |};
        bfs_loop fuel' g st'
    end
  else Ret st.

(** [bfsDelivery(start)]: the vertices it prints, in order. *)
Definition bfsDelivery (fuel : nat) (g : t) (start : Z) : run (list Z) :=
  vis ← aset (replicate 20 false) start true;
  q0 ← aset (replicate 20 0) 0 start;
  st ← bfs_loop fuel g
         {| visited := vis; q := q0; front := 0; rear := 1; printed := [] |};
  Ret (printed st).

(** A cell of the chain of [u] leads to [v]. *)
Definition linked (g : t) (u v : Z) : Prop :=
  exists c, c ∈ neighbours g u /\ dest c = v.

(** The chains of the first [n] vertices lead to vertices below [n]. *)
Definition chains_in (n : Z) (g : t) : bool :=
  forallb (fun u =>
    forallb (fun c => (0 <=? dest c) && (dest c <? n)) (neighbours g u))
    (seqZ 0 n).

(** The vertices put into the queue so far. *)
Definition queued (st : bfs_state) : list Z := take (Z.to_nat (rear st)) (q st).

(** What holds of the locals throughout [bfsDelivery]. *)
Record bfs_inv (g : t) (n start : Z) (st : bfs_state) : Prop := {
  inv_visited_size : length (visited st) = 20%nat;
  inv_q_size : length (q st) = 20%nat;
  inv_front : 0 <= front st <= rear st;
  inv_rear : 1 <= rear st <= n;
  inv_first : q st !! 0%nat = Some start;
  inv_nodup : NoDup (queued st);
  inv_range : Forall (fun v => 0 <= v < n) (queued st);
  inv_marks : forall v, 0 <= v < 20 ->
    visited st !! Z.to_nat v = Some true <-> v ∈ queued st;
  inv_printed : printed st = take (Z.to_nat (front st)) (q st);
  inv_reach : forall v, v ∈ queued st -> rtc (linked g) start v
}.

(** The chains of the printed vertices lead to queued vertices. *)
Definition explored (g : t) (st : bfs_state) : Prop :=
  forall u c, u ∈ printed st -> c ∈ neighbours g u -> dest c ∈ queued st.

End Traversal.

(** ** The [Algorithms] namespace *)

Module Algorithms.

(** [static_cast<int>(v.size())]; a size that does not fit an [int] is
    outside the model. *)
Definition size_int {A} (v : list A) : run Z := int_of (Z.of_nat (length v)).

(** The loop of [binarySearch]:
    [while (l <= r) {
       int mid = l + (r - l) / 2;
       if (arr[mid] == target) return mid;
       if (arr[mid] < target) l = mid + 1; else r = mid - 1; }
     return -1;] *)
Fixpoint binarySearchLoop (fuel : nat) (arr : list Z) (target l r : Z) : run Z :=
  if l <=? r then
    match fuel with
    | O => OutOfFuel
    | S fuel' =>
        d ← int_of (r - l);
        mid ← int_of (l + Z.quot d 2);
        x ← aget arr mid;
        if x =? target then Ret mid
        else if x <? target then
          l' ← int_of (mid + 1); binarySearchLoop fuel' arr target l' r
        else
          r' ← int_of (mid - 1); binarySearchLoop fuel' arr target l r'
    end
  else Ret (-1).

(** [binarySearch(arr, target)] *)
Definition binarySearch (fuel : nat) (arr : list Z) (target : Z) : run Z :=
  n ← size_int arr;
  r ← int_of (n - 1);
  binarySearchLoop fuel arr target 0 r.

(** [a / b] and [a % b] on [int]: undefined for [b == 0] and for
    [INT_MIN / -1]; the quotient is truncated towards zero. *)
Definition int_div (a b : Z) : run Z :=
  if b =? 0 then Undefined else int_of (Z.quot a b).
Definition int_rem (a b : Z) : run Z :=
  if b =? 0 then Undefined else _ ← int_of (Z.quot a b); Ret (Z.rem a b).

(** The loop of [greedyChange], carrying [amount] and [take]:
    [for (size_t i = 0; i < denoms.size(); ++i) {
       take[i] = amount / denoms[i];
       amount %= denoms[i]; }] *)
Definition greedyStep (denoms : list Z) (i : Z) (s : Z * list Z) : run (Z * list Z) :=
  let '(amount, take) := s in
  d ← aget denoms i;
  q ← int_div amount d;
  take' ← aset take i q;
  amount' ← int_rem amount d;
  Ret (amount', take').

Definition greedyLoop (amount : Z) (denoms : list Z) : run (Z * list Z) :=
  for_range 0 (Z.of_nat (length denoms)) (greedyStep denoms)
    (amount, replicate (length denoms) 0).

(** [greedyChange(amount, denoms)]: [take] is returned, what is left of
    [amount] is dropped. *)
Definition greedyChange (amount : Z) (denoms : list Z) : run (list Z) :=
  s ← greedyLoop amount denoms; Ret s.2.

(** Value of the coins taken. *)
Fixpoint changeValue (take denoms : list Z) : Z :=
  match take, denoms with
  | t :: take', d :: denoms' => t * d + changeValue take' denoms'
  | _, _ => 0
  end.

(** [vector<int>(a.begin() + lo, a.begin() + hi)]: the iterators must lie
    within the vector and be in order. *)
Definition slice (a : list Z) (lo hi : Z) : run (list Z) :=
  if (0 <=? lo) && (lo <=? hi) && (hi <=? Z.of_nat (length a))
  then Ret (take (Z.to_nat (hi - lo)) (drop (Z.to_nat lo) a))
  else Undefined.

(** First loop of [merge]:
    [while (i < left.size() && j < right.size()) {
       if (left[i] <= right[j]) a[k++] = left[i++]; else a[k++] = right[j++]; }] *)
Fixpoint mergeBoth (fuel : nat) (left right a : list Z) (i j k : Z)
    : run (list Z * Z * Z * Z) :=
  if (i <? Z.of_nat (length left)) && (j <? Z.of_nat (length right)) then
    match fuel with
    | O => OutOfFuel
    | S fuel' =>
        x ← aget left i;
        y ← aget right j;
        if x <=? y then
          a' ← aset a k x; k' ← int_of (k + 1); i' ← int_of (i + 1);
          mergeBoth fuel' left right a' i' j k'
        else
          a' ← aset a k y; k' ← int_of (k + 1); j' ← int_of (j + 1);
          mergeBoth fuel' left right a' i j' k'
    end
  else Ret (a, i, j, k).

(** The two closing loops of [merge]:
    [while (i < src.size()) a[k++] = src[i++];] *)
Fixpoint mergeRest (fuel : nat) (src a : list Z) (i k : Z) : run (list Z * Z) :=
  if i <? Z.of_nat (length src) then
    match fuel with
    | O => OutOfFuel
    | S fuel' =>
        x ← aget src i;
        a' ← aset a k x; k' ← int_of (k + 1); i' ← int_of (i + 1);
        mergeRest fuel' src a' i' k'
    end
  else Ret (a, k).

(** [merge(a, l, m, r)] *)
Definition merge (fuel : nat) (a : list Z) (l m r : Z) : run (list Z) :=
  left ← slice a l (m + 1);
  right ← slice a (m + 1) (r + 1);
  '(a1, i, j, k) ← mergeBoth fuel left right a 0 0 l;
  '(a2, k2) ← mergeRest fuel left a1 i k;
  '(a3, _) ← mergeRest fuel right a2 j k2;
  Ret a3.

(** [mergeSortRec(a, l, r)]; [fuel] bounds the depth of the recursion and
    the length of each loop of [merge]. *)
Fixpoint mergeSortRec (fuel : nat) (a : list Z) (l r : Z) : run (list Z) :=
  match fuel with
  | O => OutOfFuel
  | S fuel' =>
      if l >=? r then Ret a
      else
        d ← int_of (r - l);
        m ← int_of (l + Z.quot d 2);
        a1 ← mergeSortRec fuel' a l m;
        m1 ← int_of (m + 1);
        a2 ← mergeSortRec fuel' a1 m1 r;
        merge fuel a2 l m r
  end.

(** [mergeSort(a)] *)
Definition mergeSort (fuel : nat) (a : list Z) : run (list Z) :=
  match a with
  | [] => Ret a
  | _ => n ← size_int a; r ← int_of (n - 1); mergeSortRec fuel a 0 r
  end.

(** [swap(a[i], a[j])] *)
Definition swap (a : list Z) (i j : Z) : run (list Z) :=
  x ← aget a i;
  y ← aget a j;
  a' ← aset a i y;
  aset a' j x.

(** The loop body of [partition], carrying the array and [i]:
    [if (a[j] <= pivot) { swap(a[i], a[j]); ++i; }] *)
Definition partitionStep (pivot : Z) (j : Z) (s : list Z * Z) : run (list Z * Z) :=
  let '(a, i) := s in
  x ← aget a j;
  if x <=? pivot then
    a' ← swap a i j; i' ← int_of (i + 1); Ret (a', i')
  else Ret (a, i).

(** [partition(a, l, r)]: the array left behind and the index returned. *)
Definition partition (a : list Z) (l r : Z) : run (list Z * Z) :=
  pivot ← aget a r;
  '(a1, i) ← for_range l r (partitionStep pivot) (a, l);
  a2 ← swap a1 i r;
  Ret (a2, i).

(** [quickSortRec(a, l, r)] *)
Fixpoint quickSortRec (fuel : nat) (a : list Z) (l r : Z) : run (list Z) :=
  if l <? r then
    match fuel with
    | O => OutOfFuel
    | S fuel' =>
        '(a1, p) ← partition a l r;
        pl ← int_of (p - 1);
        a2 ← quickSortRec fuel' a1 l pl;
        pr ← int_of (p + 1);
        quickSortRec fuel' a2 pr r
    end
  else Ret a.

(** [quickSort(a)] *)
Definition quickSort (fuel : nat) (a : list Z) : run (list Z) :=
  match a with
  | [] => Ret a
  | _ => n ← size_int a; r ← int_of (n - 1); quickSortRec fuel a 0 r
  end.

(** Every element at an index of [[l, r]] satisfies [P]. *)
Definition seg_all (P : Z -> Prop) (a : list Z) (l r : Z) : Prop :=
  forall (k : nat) x, l <= Z.of_nat k <= r -> a !! k = Some x -> P x.

(** [a'] comes from [a] by rearranging the slots of [[l, r]] only. *)
Definition within (a a' : list Z) (l r : Z) : Prop :=
  length a' = length a /\ a' ≡ₚ a /\
  (forall k : nat, Z.of_nat k < l \/ r < Z.of_nat k -> a' !! k = a !! k) /\
  (forall P, seg_all P a l r -> seg_all P a' l r).

(** Ascending order on the slots of [[l, r]]. *)
Definition sorted_seg (a : list Z) (l r : Z) : Prop :=
  forall (k1 k2 : nat) x y, l <= Z.of_nat k1 -> (k1 <= k2)%nat -> Z.of_nat k2 <= r ->
    a !! k1 = Some x -> a !! k2 = Some y -> x <= y.

(** *** [rabinKarpSearch]

    A [std::string] is given by the list of its [char] values, each
    converted to [int] ([-128 .. 127] where plain [char] is signed). *)

(** [for (int i = 0; i < m - 1; ++i) h = (h * base) % mod;] *)
Definition rkPower (m base md : Z) : run Z :=
  for_range 0 (m - 1) (fun _ h => x ← int_of (h * base); int_rem x md) 1.

(** One step of either hash: [(base * p + c) % mod]. *)
Definition rkStep (base md p c : Z) : run Z :=
  x ← int_of (base * p);
  y ← int_of (x + c);
  int_rem y md.

(** [for (int i = 0; i < m; ++i) {
       p = (base * p + pat[i]) % mod; t = (base * t + text[i]) % mod; }] *)
Definition rkHashes (text pat : list Z) (m base md : Z) : run (Z * Z) :=
  for_range 0 m (fun i '(p, t) =>
    pc ← aget pat i;
    p' ← rkStep base md p pc;
    tc ← aget text i;
    t' ← rkStep base md t tc;
    Ret (p', t')) (0, 0).

(** [for (int j = 0; j < m; ++j)
       if (text[i + j] != pat[j]) { match = false; break; }] *)
Fixpoint rkCompare (js : list Z) (text pat : list Z) (i : Z) : run bool :=
  match js with
  | [] => Ret true
  | j :: rest =>
      k ← int_of (i + j);
      a ← aget text k;
      b ← aget pat j;
      if a =? b then rkCompare rest text pat i else Ret false
  end.

(** [t = (base * (t - text[i] * h % mod + mod) + text[i + m]) % mod;] *)
Definition rkRoll (text : list Z) (m base md h i t : Z) : run Z :=
  c ← aget text i;
  x ← int_of (c * h);
  x ← int_rem x md;
  y ← int_of (t - x);
  y ← int_of (y + md);
  z ← int_of (base * y);
  k ← int_of (i + m);
  d ← aget text k;
  z ← int_of (z + d);
  int_rem z md.

(** The body of the main loop, carrying [res] and [t]. *)
Definition rkShift (text pat : list Z) (n m base md h p : Z) (i : Z)
    (s : list Z * Z) : run (list Z * Z) :=
  let '(res, t) := s in
  res' ← (if p =? t then
            found ← rkCompare (seqZ 0 m) text pat i;
            Ret (if (found : bool) then res ++ [i] else res)
          else Ret res);
  t' ← (if i <? n - m then rkRoll text m base md h i t else Ret t);
  Ret (res', t').

(** [rabinKarpSearch(text, pat, base, mod)] *)
Definition rabinKarpSearch (text pat : list Z) (base md : Z) : run (list Z) :=
  n ← size_int text;
  m ← size_int pat;
  if (m =? 0) || (m >? n) then Ret []
  else
    h ← rkPower m base md;
    '(p, t) ← rkHashes text pat m base md;
    last ← int_of (n - m);
    '(res, _) ← for_range 0 (last + 1) (rkShift text pat n m base md h p) ([], t);
    Ret res.

(** [pat] occurs in [text] at index [i]. *)
Definition occurs_at (text pat : list Z) (i : Z) : Prop :=
  0 <= i /\ take (length pat) (drop (Z.to_nat i) text) = pat.

(** The values of a [char] string. *)
Definition chars (l : list Z) : Prop := Forall (fun c => -128 <= c <= 127) l.
Definition chars7 (l : list Z) : Prop := Forall (fun c => 0 <= c <= 127) l.

(** The polynomial value of a string in [base], over the integers. *)
Definition polyValue (base : Z) (l : list Z) : Z :=
  fold_left (fun acc c => base * acc + c) l 0.

(** [for (int i = hi; i >= lo; --i) body] *)
Definition for_down {S} (hi lo : Z) (body : Z -> S -> run S) (s : S) : run S :=
  for_each (reverse (seqZ lo (hi - lo + 1))) body s.

(** [heapify(a, n, i)]:
    [int largest = i; int l = 2 * i + 1; int r = 2 * i + 2;
     if (l < n && a[l] > a[largest]) largest = l;
     if (r < n && a[r] > a[largest]) largest = r;
     if (largest != i) { swap(a[i], a[largest]); heapify(a, n, largest); }] *)
Fixpoint heapify (fuel : nat) (a : list Z) (n i : Z) : run (list Z) :=
  match fuel with
  | O => OutOfFuel
  | S fuel' =>
      l ← int_of (2 * i + 1);
      r ← int_of (2 * i + 2);
      largest ← (if l <? n then
                   x ← aget a l; y ← aget a i;
                   Ret (if x >? y then l else i)
                 else Ret i);
      largest ← (if r <? n then
                   x ← aget a r; y ← aget a largest;
                   Ret (if x >? y then r else largest)
                 else Ret largest);
      if largest =? i then Ret a
      else a' ← swap a i largest; heapify fuel' a' n largest
  end.

(** [heapSort(a)]:
    [for (int i = n / 2 - 1; i >= 0; --i) heapify(a, n, i);
     for (int i = n - 1; i > 0; --i) { swap(a[0], a[i]); heapify(a, i, 0); }] *)
Definition heapSort (fuel : nat) (a : list Z) : run (list Z) :=
  n ← size_int a;
  a1 ← for_down (Z.quot n 2 - 1) 0 (fun i a => heapify fuel a n i) a;
  for_down (n - 1) 1 (fun i a => a' ← swap a 0 i; heapify fuel a' i 0) a1.

(** The value at index [i] (0 outside the array). *)
Definition val (a : list Z) (i : Z) : Z := default 0 (a !! Z.to_nat i).

(** Among the first [n] slots, every child whose parent has index [lo] or
    more is at most its parent. *)
Definition heap_from (a : list Z) (n lo : Z) : Prop :=
  forall c, 0 < c < n -> lo <= (c - 1) / 2 -> val a c <= val a ((c - 1) / 2).

(** Ascending order by index. *)
Definition ascending (arr : list Z) : Prop :=
  forall i j x y, (i <= j)%nat -> arr !! i = Some x -> arr !! j = Some y -> x <= y.

End Algorithms.

(** ** The billing queue: [billQueue], [billFront], [billRear], [billSize] *)

Module BillQueue.
Section Queue.
Context {Bill : Type}.

Definition BILL_CAP : Z := 300.

Record t : Type := mk {
  billQueue : list Bill;
  billFront : Z;
  billRear : Z;
  billSize : Z
}.

Definition billIsFull (s : t) : bool := billSize s =? BILL_CAP.
Definition billIsEmpty (s : t) : bool := billSize s =? 0.

(** [enqueueBill(b)]:
    [if (billIsFull()) return;
     billQueue[billRear] = b; billRear = (billRear + 1) % BILL_CAP; billSize++;] *)
Definition enqueueBill (b : Bill) (s : t) : run t :=
  if billIsFull s then Ret s
  else
    q ← aset (billQueue s) (billRear s) b;
    r ← int_of (billRear s + 1);
    n ← int_of (billSize s + 1);
    Ret {| billQueue := q; billFront := billFront s;
           billRear := Z.rem r BILL_CAP; billSize := n |}.

(** [dequeueBill()]:
    [Bill b = billQueue[billFront]; billFront = (billFront + 1) % BILL_CAP;
     billSize--; return b;]  There is no test of [billIsEmpty]. *)
Definition dequeueBill (s : t) : run (Bill * t) :=
  b ← aget (billQueue s) (billFront s);
  f ← int_of (billFront s + 1);
  n ← int_of (billSize s - 1);
  Ret (b, {| billQueue := billQueue s; billFront := Z.rem f BILL_CAP;
             billRear := billRear s; billSize := n |}).

(** The array has [BILL_CAP] slots, [billSize] bills are waiting and
    [billRear] is [billSize] slots after [billFront], cyclically. *)
Definition wf (s : t) : Prop :=
  Z.of_nat (length (billQueue s)) = BILL_CAP /\
  0 <= billFront s < BILL_CAP /\ 0 <= billSize s <= BILL_CAP /\
  billRear s = (billFront s + billSize s) mod BILL_CAP.

(** The waiting bills, oldest first. *)
Definition waiting (s : t) : list Bill :=
  take (Z.to_nat (billSize s)) (rotate (Z.to_nat (billFront s)) (billQueue s)).

End Queue.

(** The queue before any bill, and a queue of two bills (each a bare
    amount). *)
Definition noBills : @t Z :=
  {| billQueue := replicate 300 0; billFront := 0; billRear := 0; billSize := 0 |}.
Definition twoBills : @t Z :=
  {| billQueue := [7; 8] ++ replicate 298 0; billFront := 0; billRear := 2;
     billSize := 2 |}.

End BillQueue.

(** ** [DataStructures::LRUCache] *)

Module LRUCache.
Section Cache.
Context `{Countable Key} `{Inhabited Key} {Value : Type} `{Inhabited Value}.

(** [struct Node]; a [Node*] is an address, 0 the null pointer. *)
Record Node : Type := mkNode {
  key : Key;
  value : Value;
  prev : nat;
  next : nat
}.

(** The object: the nodes now allocated, [cacheMap], the two sentinels and
    [capacity]; [fresh] is the address the next [new] returns. *)
Record t : Type := mk {
  nodes : gmap nat Node;
  cacheMap : gmap Key nat;
  head : nat;
  tail : nat;
  capacity : Z;
  fresh : nat
}.

Definition with_nodes (s : t) (m : gmap nat Node) : t :=
  {| nodes := m; cacheMap := cacheMap s; head := head s; tail := tail s;
     capacity := capacity s; fresh := fresh s |}.

(** [*p]: undefined for the null pointer and for a node already deleted. *)
Definition deref (s : t) (p : nat) : run Node :=
  match nodes s !! p with
  | Some n => Ret n
  | None => Undefined
  end.

(** [p->next = q] and [p->prev = q]. *)
Definition set_next (s : t) (p q : nat) : run t :=
  n ← deref s p;
  Ret (with_nodes s (<[p := mkNode (key n) (value n) (prev n) q]> (nodes s))).
Definition set_prev (s : t) (p q : nat) : run t :=
  n ← deref s p;
  Ret (with_nodes s (<[p := mkNode (key n) (value n) q (next n)]> (nodes s))).

(** [LRUCache(cap)]: [head] and [tail] are allocated and linked. *)
Definition create (cap : Z) : t :=
  {| nodes := <[2%nat := mkNode inhabitant inhabitant 1 0]>
                (<[1%nat := mkNode inhabitant inhabitant 0 2]> ∅);
     cacheMap := ∅; head := 1; tail := 2; capacity := cap; fresh := 3 |}.

(** [addToHead(node)]:
    [node->next = head->next; node->prev = head;
     head->next->prev = node; head->next = node;] *)
Definition addToHead (node : nat) (s : t) : run t :=
  h ← deref s (head s);
  s ← set_next s node (next h);
  s ← set_prev s node (head s);
  h ← deref s (head s);
  s ← set_prev s (next h) node;
  set_next s (head s) node.

(** [removeNode(node)]:
    [if (!node) return;
     node->prev->next = node->next; node->next->prev = node->prev;
     cacheMap.erase(node->key); delete node;] *)
Definition removeNode (node : nat) (s : t) : run t :=
  if decide (node = 0%nat) then Ret s
  else
    n ← deref s node;
    s ← set_next s (prev n) (next n);
    n ← deref s node;
    s ← set_prev s (next n) (prev n);
    n ← deref s node;
    Ret {| nodes := delete node (nodes s); cacheMap := delete (key n) (cacheMap s);
           head := head s; tail := tail s; capacity := capacity s; fresh := fresh s |}.

(** The [int] [capacity] converted to [size_t] for the comparison
    [cacheMap.size() >= capacity]. *)
Definition as_size_t (z : Z) : Z := z mod 2 ^ 64.

(** [put(key, value)] *)
Definition put (k : Key) (v : Value) (s : t) : run t :=
  s ← match cacheMap s !! k with
      | Some p => removeNode p s
      | None =>
          if Z.of_nat (size (cacheMap s)) >=? as_size_t (capacity s) then
            tl ← deref s (tail s); removeNode (prev tl) s
          else Ret s
      end;
  let newNode := fresh s in
  let s := {| nodes := <[newNode := mkNode k v 0 0]> (nodes s);
              cacheMap := cacheMap s; head := head s; tail := tail s;
              capacity := capacity s; fresh := S newNode |} in
  s ← addToHead newNode s;
  Ret {| nodes := nodes s; cacheMap := <[k := newNode]> (cacheMap s);
         head := head s; tail := tail s; capacity := capacity s; fresh := fresh s |}.

(** [get(key, value)]: the result, the value written through the
    reference (if any) and the object afterwards. *)
Definition get (k : Key) (s : t) : run (bool * option Value * t) :=
  match cacheMap s !! k with
  | None => Ret (false, None, s)
  | Some node =>
      s ← removeNode node s;
      s ← addToHead node s;
      n ← deref s node;
      Ret (true, Some (value n), s)
  end.

(** The null pointer is not the address of a node. *)
Definition null_free (s : t) : Prop := nodes s !! 0%nat = None /\ fresh s <> 0%nat.

(** A sequence of [put] calls. *)
Fixpoint putAll (kvs : list (Key * Value)) (s : t) : run t :=
  match kvs with
  | [] => Ret s
  | (k, v) :: rest => s' ← put k v s; putAll rest s'
  end.

(** The entries from [head] towards [tail], most recently used first;
    [n] bounds the number of nodes followed. *)
Fixpoint chain (n : nat) (s : t) (p : nat) : list (Key * Value) :=
  match n with
  | O => []
  | S n' =>
      if decide (p = tail s) then []
      else match nodes s !! p with
           | Some nd => (key nd, value nd) :: chain n' s (next nd)
           | None => []
           end
  end.

(** The entries of the cache, most recently used first. *)
Definition entries (s : t) : list (Key * Value) :=
  match nodes s !! head s with
  | Some h => chain (size (cacheMap s)) s (next h)
  | None => []
  end.

(** What [put] is meant to do to the list of entries, most recently used
    first: an entry under the same key is dropped, otherwise the last
    entry of a full cache is; the new entry goes to the front. *)
Definition lru_put (cap : Z) (l : list (Key * Value)) (kv : Key * Value)
    : list (Key * Value) :=
  kv :: (if decide (kv.1 ∈ l.*1) then filter (fun e => e.1 <> kv.1) l
         else if cap <=? Z.of_nat (length l) then take (length l - 1) l
         else l).

Definition lru (cap : Z) (kvs : list (Key * Value)) : list (Key * Value) :=
  foldl (lru_put cap) [] kvs.

(** The nodes at the addresses [c], in this order between [head] and
    [tail], hold the entries [es], and [cacheMap] maps each key to its
    node. *)
Definition rep (s : t) (c : list nat) (es : list (Key * Value)) : Prop :=
  let full := head s :: c ++ [tail s] in
  length c = length es /\
  NoDup full /\ (forall p, p ∈ full -> p <> 0%nat /\ (p < fresh s)%nat) /\
  (forall i a b, full !! i = Some a -> full !! S i = Some b ->
     exists na nb, nodes s !! a = Some na /\ nodes s !! b = Some nb /\
       next na = b /\ prev nb = a) /\
  (forall i a e, c !! i = Some a -> es !! i = Some e ->
     exists n, nodes s !! a = Some n /\ key n = e.1 /\ value n = e.2) /\
  (forall k a, cacheMap s !! k = Some a <->
     exists i v, c !! i = Some a /\ es !! i = Some (k, v)) /\
  NoDup es.*1 /\ size (cacheMap s) = length c.

End Cache.

(** A cache of capacity 2 after [put(1, "a")]. *)
Definition cachedOne : @t Z _ _ string :=
  Eval vm_compute in
    match put 1 "a"%string (create 2) with
    | Ret s => s
    | _ => create 2
    end.

End LRUCache.

(** ** Order management: [modifyOrder], [cancelOrder], [recordTransaction] *)

Module OrderManagement.

(** [enum class OrderState] *)
Inductive OrderState : Type := CREATED | PREPARING | READY | SERVED | CANCELLED.

#[global] Instance OrderState_eq_dec : EqDecision OrderState.
Proof. solve_decision. Defined.

Section Orders.

(** [double] amounts are only copied by this code. *)
Context {Amount : Type}.

(** [Domain::Order]; [items] is the array [string items[20]]. *)
Record Order : Type := mkOrder {
  orderId : Z;
  customerId : Z;
  tableNumber : Z;
  items : list string;
  itemCount : Z;
  totalAmount : Amount;
  priority : Z;
  status : OrderState;
  orderTime : Z
}.

Record OrderTransaction : Type := mkTransaction {
  transactionId : Z;
  transactionOrder : Z;
  action : string;
  timestamp : string;
  details : string
}.

Definition MAX_ORDERS : Z := 300.
Definition MAX_TRANSACTIONS : Z := 1000.
Definition MAX_ITEMS : Z := 20.

(** The globals [orderHeap], [orderHeapSize], [transactions],
    [transactionCount]. *)
Record t : Type := mk {
  orderHeap : list Order;
  orderHeapSize : Z;
  transactions : list OrderTransaction;
  transactionCount : Z
}.

(** [recordTransaction(orderId, action, details)]; [now] is the date and
    time read from the clock.  Log output is not modelled. *)
Definition recordTransaction (now : string) (id : Z) (act det : string) (s : t)
    : run t :=
  if transactionCount s >=? MAX_TRANSACTIONS then Ret s
  else
    n ← int_of (transactionCount s + 1);
    txs ← aset (transactions s) (transactionCount s)
             (mkTransaction n id act now det);
    Ret {| orderHeap := orderHeap s; orderHeapSize := orderHeapSize s;
           transactions := txs; transactionCount := n |}.

(** The search shared by both functions:
    [for (int i = 0; i < orderHeapSize; i++)
       if (orderHeap[i].orderId == orderId) { ... return ...; }]
    The body returns on every path, so the loop ends at the first index
    whose order has the id. *)
Fixpoint firstWithId (js : list Z) (heap : list Order) (id : Z) : run (option Z) :=
  match js with
  | [] => Ret None
  | i :: rest =>
      o ← aget heap i;
      if orderId o =? id then Ret (Some i) else firstWithId rest heap id
  end.

Definition findOrder (s : t) (id : Z) : run (option Z) :=
  firstWithId (seqZ 0 (orderHeapSize s)) (orderHeap s) id.

(** [for (int j = 0; j < (int)newItems.size(); j++)
       orderHeap[i].items[j] = newItems[j];] *)
Definition copyItems (newItems its : list string) : run (list string) :=
  n ← int_of (Z.of_nat (length newItems));
  for_range 0 n (fun j its => x ← aget newItems j; aset its j x) its.

(** [modifyOrder(orderId, newItems, newTotal)] *)
Definition modifyOrder (now : string) (id : Z) (newItems : list string)
    (newTotal : Amount) (s : t) : run (bool * t) :=
  found ← findOrder s id;
  match found with
  | None => Ret (false, s)
  | Some i =>
      o ← aget (orderHeap s) i;
      if decide (status o <> CREATED) then Ret (false, s)
      else
        n ← int_of (Z.of_nat (length newItems));
        its ← copyItems newItems (items o);
        let o' := mkOrder (orderId o) (customerId o) (tableNumber o) its n
                    newTotal (priority o) (status o) (orderTime o) in
        heap ← aset (orderHeap s) i o';
        s' ← recordTransaction now id "Modified" "Order items and amount updated"
               {| orderHeap := heap; orderHeapSize := orderHeapSize s;
                  transactions := transactions s;
                  transactionCount := transactionCount s |};
        Ret (true, s')
  end.

(** [cancelOrder(orderId, refundAmount)]: the result, the amount written
    to [refundAmount] (if any) and the globals afterwards.  [show] is
    [to_string] on [double]. *)
Definition cancelOrder (show : Amount -> string) (now : string) (id : Z) (s : t)
    : run (bool * option Amount * t) :=
  found ← findOrder s id;
  match found with
  | None => Ret (false, None, s)
  | Some i =>
      o ← aget (orderHeap s) i;
      if decide (status o = SERVED) then Ret (false, None, s)
      else
        let refundAmount := totalAmount o in
        let o' := mkOrder (orderId o) (customerId o) (tableNumber o) (items o)
                    (itemCount o) (totalAmount o) (priority o) CANCELLED
                    (orderTime o) in
        heap ← aset (orderHeap s) i o';
        s' ← recordTransaction now id "Cancelled"
               ("Full refund of $" +:+ show refundAmount)
               {| orderHeap := heap; orderHeapSize := orderHeapSize s;
                  transactions := transactions s;
                  transactionCount := transactionCount s |};
        Ret (true, Some refundAmount, s')
  end.

(** The arrays have their declared sizes and the counters are within
    them. *)
Definition wf (s : t) : Prop :=
  Z.of_nat (length (orderHeap s)) = MAX_ORDERS /\
  0 <= orderHeapSize s <= MAX_ORDERS /\
  Z.of_nat (length (transactions s)) = MAX_TRANSACTIONS /\
  0 <= transactionCount s <= MAX_TRANSACTIONS /\
  Forall (fun o => Z.of_nat (length (items o)) = MAX_ITEMS) (orderHeap s).

(** [o] is the first stored order with the id, at index [i]. *)
Definition firstOrder (s : t) (id : Z) (i : Z) (o : Order) : Prop :=
  0 <= i < orderHeapSize s /\ orderHeap s !! Z.to_nat i = Some o /\ orderId o = id /\
  forall j o', 0 <= j < i -> orderHeap s !! Z.to_nat j = Some o' -> orderId o' <> id.

End Orders.

(** Two stored orders (amounts as whole numbers): order 1 just created,
    order 2 served; the other slots of both arrays are blank. *)
Definition blankOrder : @Order Z :=
  mkOrder 0 0 0 (replicate 20 "-"%string) 0 0 0 CREATED 0.
Definition order1 : @Order Z :=
  mkOrder 1 7 3 (replicate 20 "-"%string) 0 25 1 CREATED 0.
Definition twoOrders : @t Z :=
  {| orderHeap := [order1;
                   mkOrder 2 8 4 (replicate 20 "-"%string) 0 40 1 SERVED 0]
                  ++ replicate 298 blankOrder;
     orderHeapSize := 2;
     transactions := replicate 1000 (mkTransaction 0 0 "-" "-" "-");
     transactionCount := 0 |}.

End OrderManagement.
(** ** Facts about runs *)

Lemma bind_Ret {A B} (m : run A) (k : A -> run B) (b : B) :
  m ≫= k = Ret b -> exists a, m = Ret a /\ k a = Ret b.
Proof. destruct m; simpl; intros H; try discriminate. eauto. Qed.

Lemma bind_Ret_l {A B} (a : A) (k : A -> run B) : Ret a ≫= k = k a.
Proof. reflexivity. Qed.

Lemma int_of_Ret (z z' : Z) :
  int_of z = Ret z' -> z' = z /\ INT_MIN <= z <= INT_MAX.
Proof.
  unfold int_of, in_int. destruct (INT_MIN <=? z) eqn:E1; simpl; [|discriminate].
  destruct (z <=? INT_MAX) eqn:E2; [|discriminate].
  intros [= <-]. lia.
Qed.

Lemma int_of_in (z : Z) : INT_MIN <= z <= INT_MAX -> int_of z = Ret z.
Proof.
  intros H. unfold int_of, in_int.
  by rewrite (proj2 (Z.leb_le _ _)), (proj2 (Z.leb_le _ _)) by lia.
Qed.

Lemma int_of_above (z : Z) : INT_MAX < z -> int_of z = Undefined.
Proof.
  intros H. unfold int_of, in_int.
  by rewrite (proj2 (Z.leb_gt z INT_MAX)), andb_false_r by lia.
Qed.

(** Splits a hypothesis [x ← m; k = Ret b] into its two steps. *)
Tactic Notation "run_inv" hyp(H) :=
  let a := fresh "a" in
  let Ha := fresh "Hrun" in
  apply bind_Ret in H as (a & Ha & H).

(** The same with chosen names. *)
Tactic Notation "run_inv" hyp(H) "as" ident(a) ident(Ha) :=
  apply bind_Ret in H as (a & Ha & H).


Lemma aget_in {A} (a : list A) i :
  0 <= i < Z.of_nat (length a) -> exists x, aget a i = Ret x /\ a !! Z.to_nat i = Some x.
Proof.
  intros H. unfold aget. rewrite (proj2 (Z.ltb_ge i 0)) by lia.
  destruct (lookup_lt_is_Some_2 a (Z.to_nat i) ltac:(lia)) as [x Hx].
  rewrite Hx. eauto.
Qed.

Lemma aget_lookup {A} (a : list A) i :
  0 <= i -> aget a i = match a !! Z.to_nat i with Some x => Ret x | None => Undefined end.
Proof. intros H. unfold aget. by rewrite (proj2 (Z.ltb_ge i 0)) by lia. Qed.

Lemma aset_in {A} (a : list A) i x :
  0 <= i < Z.of_nat (length a) -> aset a i x = Ret (<[Z.to_nat i := x]> a).
Proof.
  intros H. unfold aset.
  rewrite (proj2 (Z.leb_le 0 i)), (proj2 (Z.ltb_lt i _)) by lia. done.
Qed.

(** Invariant rule for a counted loop. *)
Lemma for_range_inv {S} (I : Z -> S -> Prop) lo hi (body : Z -> S -> run S) s :
  lo <= hi -> I lo s ->
  (forall j s, lo <= j < hi -> I j s -> exists s', body j s = Ret s' /\ I (j + 1) s') ->
  exists s', for_range lo hi body s = Ret s' /\ I hi s'.
Proof.
  unfold for_range. intros Hle.
  remember (Z.to_nat (hi - lo)) as k eqn:Hk. revert lo s Hle Hk.
  induction k as [|k IH]; intros lo s Hle Hk H0 Hstep.
  - assert (hi = lo) as -> by lia. rewrite Z.sub_diag. by exists s.
  - rewrite seqZ_cons by lia. cbn [for_each].
    destruct (Hstep lo s ltac:(lia) H0) as (s1 & -> & H1). rewrite bind_Ret_l.
    replace (Z.pred (hi - lo)) with (hi - Z.succ lo) by lia.
    apply IH; [lia|lia|by replace (Z.succ lo) with (lo + 1) by lia|].
    intros j s' Hj. apply Hstep. lia.
Qed.


(** The same rule for a loop that is only known to have returned. *)
Lemma for_range_Ret {S} (I : Z -> S -> Prop) lo hi (body : Z -> S -> run S) s s' :
  lo <= hi -> for_range lo hi body s = Ret s' -> I lo s ->
  (forall j s s1, lo <= j < hi -> I j s -> body j s = Ret s1 -> I (j + 1) s1) ->
  I hi s'.
Proof.
  unfold for_range. intros Hle.
  remember (Z.to_nat (hi - lo)) as k eqn:Hk. revert lo s Hle Hk.
  induction k as [|k IH]; intros lo s Hle Hk Hrun H0 Hstep.
  - assert (hi = lo) as -> by lia. rewrite Z.sub_diag in Hrun. by injection Hrun as <-.
  - rewrite seqZ_cons in Hrun by lia. cbn [for_each] in Hrun. run_inv Hrun.
    replace (Z.pred (hi - lo)) with (hi - Z.succ lo) in Hrun by lia.
    apply (IH (Z.succ lo) a); [lia|lia|done| |].
    + replace (Z.succ lo) with (lo + 1) by lia. apply (Hstep lo s); [lia|done|done].
    + intros j s1 s2 Hj. apply Hstep. lia.
Qed.
Module HashFacts.
Import DynamicInventoryTable.
Section Facts.
Context {InventoryItem : Type}.
#[local] Abbreviation t := (@t InventoryItem).
#[local] Abbreviation HashNode := (@HashNode InventoryItem).
Implicit Types (s : t) (tbl : list HashNode).

Lemma slot_Ret tbl idx n :
  slot tbl idx = Ret n -> 0 <= idx /\ tbl !! Z.to_nat idx = Some n.
Proof.
  unfold slot, aget. destruct (idx <? 0) eqn:E; [discriminate|].
  destruct (tbl !! Z.to_nat idx) eqn:L; [|discriminate].
  intros [= <-]. split; [lia|done].
Qed.

(** The probe leaves the loop only on an unused slot or on a slot that
    holds the probed name. *)
Lemma probe_Ret fuel tbl size name idx step i :
  probe fuel tbl size name idx step = Ret i ->
  0 <= i /\ exists n, tbl !! Z.to_nat i = Some n /\
    (n = Unused \/ exists item, n = Used name item).
Proof.
  revert idx step. induction fuel as [|fuel IH]; intros idx step H; [discriminate|].
  simpl in H. run_inv H. apply slot_Ret in Hrun as [Hge Hl].
  destruct a as [|name' item'].
  - injection H as <-. eauto.
  - destruct (String.eqb name' name) eqn:E.
    + injection H as <-. apply String.eqb_eq in E as ->. eauto 6.
    + run_inv H. run_inv H. destruct (size =? 0); [discriminate|]. eauto.
Qed.



Lemma nextPrime_ge fuel n p : nextPrime fuel n = Ret p -> n <= p.
Proof.
  revert n. induction fuel as [|fuel IH]; intros n H; [discriminate|].
  simpl in H. run_inv H. destruct a.
  - injection H as <-. lia.
  - run_inv H. apply int_of_Ret in Hrun0 as [-> _]. apply IH in H. lia.
Qed.

(** What [place] does to the table: one slot is written, and the counter
    moves exactly when that slot was unused. *)
Lemma place_Ret fuel name item s s' :
  place fuel name item s = Ret s' ->
  currentSize s' = currentSize s /\ resizeLog s' = resizeLog s /\
  exists idx n, 0 <= idx /\ table s !! Z.to_nat idx = Some n /\
    table s' = <[Z.to_nat idx := Used name item]> (table s) /\
    ((n = Unused /\ itemCount s' = itemCount s + 1) \/
     ((exists item', n = Used name item') /\ itemCount s' = itemCount s)).
Proof.
  unfold place. intros H. run_inv H. run_inv H. run_inv H. run_inv H.
  injection H as <-. simpl. split; [done|]. split; [done|].
  apply probe_Ret in Hrun0 as (Hge & n & Hl & Hn).
  apply slot_Ret in Hrun1 as [_ Hl']. rewrite Hl in Hl'. injection Hl' as <-.
  exists a0, n. split; [done|]. split; [done|]. split; [done|].
  destruct Hn as [-> | [item' ->]]; simpl in Hrun2.
  - apply int_of_Ret in Hrun2 as [-> _]. by left.
  - injection Hrun2 as <-. right. eauto.
Qed.

Lemma insert_not_overloaded fuel name item s :
  overloaded s = false -> insert (S fuel) name item s = place fuel name item s.
Proof. intros H. simpl. rewrite H. reflexivity. Qed.

Lemma place_quiet fuel name item s s' :
  place fuel name item s = Ret s' -> quiet_step s s'.
Proof.
  intros H. apply place_Ret in H as (Hc & Hl & idx & n & _ & _ & _ & Hn).
  unfold quiet_step. destruct Hn as [[_ ->] | [_ ->]]; repeat split; (done || lia).
Qed.

(** [insert] without and with a rehash. *)
Lemma insert_Ret fuel name item s s' :
  insert fuel name item s = Ret s' ->
  0 <= itemCount s -> 0 < currentSize s ->
  (overloaded s = false -> quiet_step s s') /\
  (overloaded s = true ->
     2 * currentSize s <= currentSize s' /\
     (exists f, nextPrime f (currentSize s * 2) = Ret (currentSize s')) /\
     resizeLog s' = resizeLog s ++ [currentSize s'] /\
     0 <= itemCount s' <= currentSize s + 1).
Proof.
  revert name item s s'. induction fuel as [|fuel IH]; intros name item s s' H H0 Hc;
    [discriminate|].
  simpl in H. destruct (overloaded s) eqn:Ho.
  - split; [discriminate|]. intros _.
    run_inv H as s1 Hre. unfold rehash in Hre.
    run_inv Hre as doubled Hd. run_inv Hre as newSize Hp. run_inv Hre as s2 Hloop.
    injection Hre as <-. apply place_quiet in H as (Hc' & Hl' & Hi'). simpl in *.
    apply int_of_Ret in Hd as [-> _].
    pose proof (nextPrime_ge _ _ _ Hp) as Hge.
    apply (for_range_Ret (fun j s1 =>
             currentSize s1 = newSize /\ resizeLog s1 = resizeLog s /\
             0 <= itemCount s1 <= j)) in Hloop as (Hc2 & Hl2 & Hi2); [|lia| |].
    + rewrite Hc', Hl', Hc2, Hl2. split; [lia|]. split; [eauto|]. split; [done|]. lia.
    + simpl. repeat split; (done || lia).
    + intros j t1 t2 Hj (Hc1 & Hl1 & Hi1) Hbody. run_inv Hbody as n Hn.
      destruct n as [|name' item'].
      * injection Hbody as <-. repeat split; (done || lia).
      * apply IH in Hbody as [Hq _]; [|lia|lia].
        destruct Hq as (Hc3 & Hl3 & Hi3); [unfold overloaded; lia|].
        repeat split; (congruence || lia).
  - split; [|discriminate]. intros _. simpl in H. by apply place_quiet in H.
Qed.

Lemma occupied_write s s' i n name item :
  table s !! i = Some n ->
  table s' = <[i := Used name item]> (table s) ->
  occupied s' = occupied s + (if used n then 0 else 1).
Proof.
  intros Hl Ht. unfold occupied. rewrite Ht.
  pose proof (lookup_lt_Some _ _ _ Hl) as Hlt.
  rewrite insert_take_drop by done.
  rewrite <- (take_drop_middle _ _ _ Hl) at 3.
  rewrite !filter_app, !filter_cons, !length_app. simpl.
  destruct n; simpl; repeat case_decide; try done; simpl; lia.
Qed.

Lemma insertAll_reachable fuel kvs s s' :
  reachable s -> insertAll fuel kvs s = Ret s' -> reachable s'.
Proof.
  revert s. induction kvs as [|[k v] kvs IH]; intros s Hr H.
  - by injection H as <-.
  - simpl in H. run_inv H. eapply IH; [|done]. by eapply reach_insert.
Qed.

Lemma reachable_inv s :
  reachable s ->
  0 <= itemCount s /\ 53 <= currentSize s /\
  10 * (itemCount s - 1) < 7 * currentSize s /\
  (resizeLog s = [] -> occupied s = itemCount s).
Proof.
  induction 1 as [|fuel name item s s' Hr (H0 & Hc & Hb & Ho) H].
  - vm_compute. repeat split; congruence.
  - pose proof (insert_Ret _ _ _ _ _ H H0 ltac:(lia)) as [Hq Hre].
    destruct (overloaded s) eqn:Hov.
    + destruct (Hre eq_refl) as (Hc' & _ & Hl' & Hi'). repeat split; try lia.
      rewrite Hl'. by intros ?%app_eq_nil%proj2.
    + destruct (Hq eq_refl) as (Hc' & Hl' & Hi'). unfold overloaded in Hov.
      repeat split; try lia. intros Hnil. rewrite Hl' in Hnil.
      destruct fuel as [|fuel]; [discriminate|].
      rewrite insert_not_overloaded in H by done.
      apply place_Ret in H as (_ & _ & idx & n & _ & Hl & Ht & Hn).
      rewrite (occupied_write _ _ _ _ _ _ Hl Ht), (Ho Hnil).
      destruct Hn as [[-> ->] | [[item' ->] ->]]; simpl; lia.
Qed.

(** C1, as amended.  After every [insert] that returns, in any sequence of
    inserts starting from the constructor, the item counter is at most one
    item past the threshold: [(itemCount - 1) / currentSize < 0.7].  The
    load test runs before the insert and on the count it finds, so the load
    after the insert may reach 0.7.  As long as no rehash has been logged
    the counter is the number of occupied slots. *)
Theorem insert_load_bound s :
  reachable s ->
  10 * (getSize s - 1) < 7 * getTableSize s /\
  (resizeLog s = [] -> occupied s = getSize s).
Proof.
  intros H. unfold getSize, getTableSize.
  destruct (reachable_inv s H) as (_ & _ & Hbound & Hocc). by split.
Qed.




End Facts.

Lemma path_blocked m : 0 <= m < 53 -> blocked m = true.
Proof.
  assert (forallb blocked (seqZ 0 53) = true) as H by (vm_compute; reflexivity).
  intros Hm. rewrite forallb_forall in H. apply H.
  apply list_elem_of_In, elem_of_seqZ. lia.
Qed.


Lemma probe_latecomer fuel idx step :
  1 <= step ->
  latecomerPath !! Z.to_nat ((step - 1) mod 53) = Some idx ->
  spins step fuel (probe fuel (table crowded) 53 latecomer idx step).
Proof.
  revert idx step. induction fuel as [|fuel IH]; intros idx step Hs Hp; [exact I|].
  pose proof (Z.mod_pos_bound (step - 1) 53 ltac:(lia)) as Hm.
  pose proof (path_blocked _ Hm) as Hb. unfold blocked in Hb. rewrite Hp in Hb.
  destruct (table crowded !! Z.to_nat idx) as [[|n item]|] eqn:Hl; try discriminate.
  apply andb_prop in Hb as [Hb Hnext]. apply andb_prop in Hb as [Hb Hlt].
  apply andb_prop in Hb as [Hne Hge].
  apply bool_decide_eq_true in Hnext. apply negb_true_iff in Hne.
  apply Z.leb_le in Hge. apply Z.ltb_lt in Hlt.
  cbn [probe]. unfold slot. rewrite aget_lookup, Hl, bind_Ret_l, Hne by done.
  destruct (decide (idx + step <= INT_MAX)) as [H1|H1];
    [|rewrite (int_of_above (idx + step)) by lia; cbn; unfold INT_MAX in *; lia].
  rewrite (int_of_in (idx + step)), bind_Ret_l by (unfold INT_MIN; lia).
  destruct (decide (step + 1 <= INT_MAX)) as [H2|H2];
    [|rewrite (int_of_above (step + 1)) by lia; cbn; unfold INT_MAX in *; lia].
  rewrite (int_of_in (step + 1)), bind_Ret_l by (unfold INT_MIN; lia). cbn [Z.eqb].
  assert (latecomerPath !! Z.to_nat ((step + 1 - 1) mod 53)
          = Some (Z.rem (idx + step) 53)) as Hp'.
  { replace (step + 1 - 1) with (step - 1 + 1) by lia.
    rewrite <- Zplus_mod_idemp_l, Hnext. f_equal.
    rewrite Z.rem_mod_nonneg by lia.
    replace (idx + step) with (idx + 1 + (step - 1)) by lia.
    rewrite <- (Zplus_mod_idemp_r (step - 1)). f_equal. lia. }
  specialize (IH _ (step + 1) ltac:(lia) Hp').
  destruct (probe fuel _ _ _ _ _); cbn in *; [done|unfold INT_MAX in *; lia|done].
Qed.

(** [place] and [retrieve] start the probe of the latecomer at slot 11
    with step 1. *)
Lemma hash_latecomer : hash latecomer 53 = Ret 11.
Proof. vm_compute. reflexivity. Qed.

Lemma place_latecomer fuel item : spins 1 fuel (place fuel latecomer item crowded).
Proof.
  unfold place. change (currentSize crowded) with 53. rewrite hash_latecomer, bind_Ret_l.
  pose proof (probe_latecomer fuel 11 1 ltac:(lia) eq_refl) as H.
  by destruct (probe fuel _ _ _ _ _).
Qed.

(** C6.  The table holding the 27 colliding keys is reachable, and on it
    [insert] of a 28th key with the same home slot never returns: the
    triangular probe sequence visits only 27 of the 53 slots, all taken by
    other keys, while the load (27/53) is below the rehash threshold.  For
    every amount of fuel up to 2 * 10^9 the loop is still running; beyond
    that the step counter overflows. *)
Theorem insert_never_returns :
  reachable crowded /\
  (forall fuel item s', insert fuel latecomer item crowded <> Ret s') /\
  (forall fuel item, Z.of_nat fuel <= 2000000000 ->
     insert fuel latecomer item crowded = OutOfFuel).
Proof.
  assert (forall fuel item, spins 1 fuel (insert fuel latecomer item crowded)) as Hspin.
  { intros [|fuel] item; [exact I|].
    rewrite insert_not_overloaded by (vm_compute; reflexivity).
    pose proof (place_latecomer fuel item) as H.
    destruct (place fuel _ _ _); cbn in *; [done|unfold INT_MAX in *; lia|done]. }
  split; [|split].
  - apply (insertAll_reachable 100 collidingKeys empty); [constructor|].
    vm_compute. reflexivity.
  - intros fuel item s' H. specialize (Hspin fuel item). by rewrite H in Hspin.
  - intros fuel item Hf. specialize (Hspin fuel item).
    destruct (insert fuel _ _ _); cbn in Hspin; [done| |done].
    unfold INT_MAX in Hspin. lia.
Qed.

(** C9.  On the same reachable table, [retrieve] of the key that was never
    inserted does not answer "not found": its probing loop never exits. *)
Theorem retrieve_never_returns :
  reachable crowded /\ (latecomer ∉ collidingKeys.*1) /\
  (forall fuel r, retrieve fuel latecomer crowded <> Ret r) /\
  (forall fuel, Z.of_nat fuel <= 2000000000 -> retrieve fuel latecomer crowded = OutOfFuel).
Proof.
  assert (forall fuel, spins 1 fuel (retrieve fuel latecomer crowded)) as Hspin.
  { intros fuel. unfold retrieve. change (currentSize crowded) with 53.
    rewrite hash_latecomer, bind_Ret_l.
    pose proof (probe_latecomer fuel 11 1 ltac:(lia) eq_refl) as H.
    by destruct (probe fuel _ _ _ _ _). }
  split; [|split; [|split]].
  - apply (insertAll_reachable 100 collidingKeys empty); [constructor|].
    vm_compute. reflexivity.
  - apply (bool_decide_unpack _). vm_compute. exact I.
  - intros fuel r H. specialize (Hspin fuel). by rewrite H in Hspin.
  - intros fuel Hf. specialize (Hspin fuel).
    destruct (retrieve fuel _ _); cbn in Hspin; [done| |done].
    unfold INT_MAX in Hspin. lia.
Qed.

(** C1, counterexample.  After 38 inserts of distinct keys into the empty
    table 38 of the 53 slots are occupied, and 38/53 is not below 0.7. *)
Lemma load_factor_reached_after_38 :
  (s ← insertAll 100 keys38 empty; Ret (occupied s, currentSize s)) = Ret (38, 53)
  /\ ~ (10 * 38 < 7 * 53).
Proof. split; [vm_compute; reflexivity | lia]. Qed.

(** C1, witness: the bound at the table reached by 39 inserts, the last of
    which rehashed. *)
Lemma insert_load_bound_witness :
  10 * (getSize loaded39 - 1) < 7 * getTableSize loaded39 /\
  (resizeLog loaded39 = [] -> occupied loaded39 = getSize loaded39).
Proof.
  apply insert_load_bound.
  apply (reach_insert 100 "p" 38 loaded38); [|vm_compute; reflexivity].
  apply (insertAll_reachable 100 keys38 empty); [constructor|].
  vm_compute. reflexivity.
Defined.

(** After a rehash the entries of the old table are still in their old
    slots ([table.resize] keeps them) next to their re-inserted copies:
    here 77 of 107 slots are occupied while the counter says 39. *)
Lemma stale_slots_after_rehash :
  (s ← insertAll 100 keys39 empty; Ret (occupied s, getSize s, getTableSize s))
  = Ret (77, 39, 107).
Proof. vm_compute. reflexivity. Qed.



End HashFacts.

(** ** More on the inventory table: lookups, stored entries, [nextPrime] *)

Module HashLookup.
Import DynamicInventoryTable HashFacts.
Section Lookup.
Context {InventoryItem : Type}.
#[local] Abbreviation t := (@t InventoryItem).
#[local] Abbreviation HashNode := (@HashNode InventoryItem).
Implicit Types (s : t) (tbl : list HashNode).

Lemma probe_S fuel tbl size name idx step :
  probe (S fuel) tbl size name idx step =
  n ← slot tbl idx;
  match n with
  | Unused => Ret idx
  | Used name' _ =>
      if String.eqb name' name then Ret idx
      else
        next ← int_of (idx + step);
        step' ← int_of (step + 1);
        if size =? 0 then Undefined
        else probe fuel tbl size name (Z.rem next size) step'
  end.
Proof. reflexivity. Qed.

Lemma probe_fuel_S fuel tbl size name idx step i :
  probe fuel tbl size name idx step = Ret i ->
  probe (S fuel) tbl size name idx step = Ret i.
Proof.
  revert idx step. induction fuel as [|fuel IH]; intros idx step H; [discriminate|].
  rewrite probe_S in H |- *. run_inv H as n Hn. rewrite Hn, bind_Ret_l.
  destruct n as [|name' item']; [done|].
  destruct (String.eqb name' name); [done|].
  run_inv H as next Hnext. run_inv H as step' Hstep. rewrite Hnext, bind_Ret_l, Hstep, bind_Ret_l.
  destruct (size =? 0); [done|]. by apply IH.
Qed.

Lemma probe_fuel_le fuel fuel' tbl size name idx step i :
  (fuel <= fuel')%nat ->
  probe fuel tbl size name idx step = Ret i ->
  probe fuel' tbl size name idx step = Ret i.
Proof. induction 1; [done|]. intros Hp. apply probe_fuel_S. auto. Qed.

(** Writing [name] into the slot where its probe ended does not move the
    end of that probe. *)
Lemma probe_after_own_write fuel tbl size name item idx step i :
  probe fuel tbl size name idx step = Ret i ->
  probe fuel (<[Z.to_nat i := Used name item]> tbl) size name idx step = Ret i.
Proof.
  revert idx step. induction fuel as [|fuel IH]; intros idx step H; [discriminate|].
  pose proof (probe_Ret _ _ _ _ _ _ _ H) as (Hi & ni & Hli & Hni).
  rewrite probe_S in H |- *. run_inv H as n Hn. apply slot_Ret in Hn as [Hge Hl].
  pose proof (lookup_lt_Some _ _ _ Hl) as Hlt.
  unfold slot. rewrite aget_lookup by done.
  destruct n as [|name' item'].
  - injection H as <-. rewrite list_lookup_insert_eq by done. rewrite bind_Ret_l.
    by rewrite String.eqb_refl.
  - destruct (String.eqb name' name) eqn:E.
    + injection H as <-. rewrite list_lookup_insert_eq by done. rewrite bind_Ret_l.
      by rewrite String.eqb_refl.
    + assert (Z.to_nat i <> Z.to_nat idx) as Hne.
      { intros Heq. rewrite Heq, Hl in Hli. injection Hli as <-.
        destruct Hni as [?|[? [= -> _]]]; [done|]. by rewrite String.eqb_refl in E. }
      rewrite list_lookup_insert_ne, Hl, bind_Ret_l, E by done.
      run_inv H as next Hnext. run_inv H as step' Hstep.
      rewrite Hnext, bind_Ret_l, Hstep, bind_Ret_l.
      destruct (size =? 0); [done|]. by apply IH.
Qed.

(** Writing another name into a slot that was unused or already held that
    name does not move the end of the probe of a stored key. *)
Lemma probe_after_other_write fuel tbl size name item k v idx step i j n0 :
  probe fuel tbl size k idx step = Ret j ->
  tbl !! Z.to_nat j = Some (Used k v) ->
  k <> name ->
  tbl !! i = Some n0 -> (n0 = Unused \/ exists item', n0 = Used name item') ->
  probe fuel (<[i := Used name item]> tbl) size k idx step = Ret j.
Proof.
  intros H Hj Hk Hi Hn0. revert idx step H.
  induction fuel as [|fuel IH]; intros idx step H; [discriminate|].
  rewrite probe_S in H |- *. run_inv H as n Hn. apply slot_Ret in Hn as [Hge Hl].
  unfold slot. rewrite aget_lookup by done.
  pose proof (lookup_lt_Some _ _ _ Hi) as Hlt.
  assert (String.eqb name k = false) as Hnk by (apply String.eqb_neq; congruence).
  destruct (decide (i = Z.to_nat idx)) as [->|Hne].
  - rewrite list_lookup_insert_eq, bind_Ret_l, Hnk by done.
    rewrite Hl in Hi. injection Hi as <-.
    destruct Hn0 as [->|[item' ->]].
    + injection H as <-. congruence.
    + rewrite Hnk in H. run_inv H as next Hnext. run_inv H as step' Hstep.
      rewrite Hnext, bind_Ret_l, Hstep, bind_Ret_l.
      destruct (size =? 0); [done|]. by apply IH.
  - rewrite list_lookup_insert_ne, Hl, bind_Ret_l by done.
    destruct n as [|name' item']; [done|].
    destruct (String.eqb name' k); [done|].
    run_inv H as next Hnext. run_inv H as step' Hstep.
    rewrite Hnext, bind_Ret_l, Hstep, bind_Ret_l.
    destruct (size =? 0); [done|]. by apply IH.
Qed.

(** What a returning [place] did, with the probe that chose the slot. *)
Lemma place_probe fuel name item s s' :
  place fuel name item s = Ret s' ->
  exists h idx n,
    hash name (currentSize s) = Ret h /\
    probe fuel (table s) (currentSize s) name h 1 = Ret idx /\
    0 <= idx /\ table s !! Z.to_nat idx = Some n /\
    (n = Unused \/ exists item', n = Used name item') /\
    table s' = <[Z.to_nat idx := Used name item]> (table s) /\
    currentSize s' = currentSize s /\ resizeLog s' = resizeLog s.
Proof.
  unfold place. intros H. run_inv H as h Hh. run_inv H as idx Hp. run_inv H as n Hn.
  run_inv H as count Hc. injection H as <-.
  pose proof (probe_Ret _ _ _ _ _ _ _ Hp) as (Hge & n' & Hl & Hn').
  exists h, idx, n'. by repeat split.
Qed.

Lemma place_retrieve fuel fuel' name item s s' :
  place fuel name item s = Ret s' -> (fuel <= fuel')%nat ->
  retrieve fuel' name s' = Ret (Some item).
Proof.
  intros H Hf. apply place_probe in H as (h & idx & n & Hh & Hp & Hge & Hl & _ & Ht & Hc & _).
  unfold retrieve. rewrite Hc, Hh, bind_Ret_l, Ht.
  rewrite (probe_fuel_le fuel fuel' _ _ _ _ _ idx Hf) by by apply probe_after_own_write.
  rewrite bind_Ret_l. unfold slot. rewrite aget_lookup by done.
  rewrite list_lookup_insert_eq by by eapply lookup_lt_Some.
  rewrite bind_Ret_l. by rewrite String.eqb_refl.
Qed.

(** X1.  Round trip: after an [insert] of [name] with [item] returns,
    with or without a rehash on the way, [retrieve] of [name] returns
    [item] (given at least the fuel the insert had). *)
Theorem insert_then_retrieve fuel fuel' name item s s' :
  insert fuel name item s = Ret s' -> (fuel <= fuel')%nat ->
  retrieve fuel' name s' = Ret (Some item).
Proof.
  destruct fuel as [|fuel]; [discriminate|]. cbn [insert]. intros H Hf.
  run_inv H as s1 Hs1. apply (place_retrieve fuel fuel' _ _ s1); [done|lia].
Qed.

Lemma retrieve_Some fuel k s v :
  retrieve fuel k s = Ret (Some v) ->
  exists h j, hash k (currentSize s) = Ret h /\
    probe fuel (table s) (currentSize s) k h 1 = Ret j /\
    0 <= j /\ table s !! Z.to_nat j = Some (Used k v).
Proof.
  unfold retrieve. intros H. run_inv H as h Hh. run_inv H as j Hp. run_inv H as n Hn.
  apply slot_Ret in Hn as [Hge Hl]. destruct n as [|k' v']; [discriminate|].
  destruct (String.eqb k' k) eqn:E; [|discriminate]. injection H as ->.
  apply String.eqb_eq in E as ->. eauto 10.
Qed.

Lemma place_keeps_others fuel fuel' name item s s' k v :
  place fuel name item s = Ret s' -> k <> name ->
  retrieve fuel' k s = Ret (Some v) -> retrieve fuel' k s' = Ret (Some v).
Proof.
  intros H Hk Hr.
  apply place_probe in H as (h0 & idx & n & _ & _ & _ & Hl & Hn & Ht & Hc & _).
  apply retrieve_Some in Hr as (h & j & Hh & Hp & Hge & Hj).
  unfold retrieve. rewrite Hc, Hh, bind_Ret_l, Ht.
  rewrite (probe_after_other_write _ _ _ _ _ _ _ _ _ _ _ _ Hp Hj Hk Hl Hn), bind_Ret_l.
  unfold slot. rewrite aget_lookup by done.
  assert (Z.to_nat idx <> Z.to_nat j) as Hne.
  { intros Heq. rewrite Heq, Hj in Hl. injection Hl as <-.
    destruct Hn as [?|[? [= ? _]]]; congruence. }
  rewrite list_lookup_insert_ne, Hj, bind_Ret_l by done. by rewrite String.eqb_refl.
Qed.

(** X2.  An [insert] that does not rehash leaves every other key's lookup
    as it was: a key found with value [v] before is found with [v] after. *)
Theorem insert_keeps_others fuel fuel' name item s s' k v :
  insert fuel name item s = Ret s' -> overloaded s = false -> k <> name ->
  retrieve fuel' k s = Ret (Some v) -> retrieve fuel' k s' = Ret (Some v).
Proof.
  destruct fuel as [|fuel]; [discriminate|]. intros H Ho.
  rewrite insert_not_overloaded in H by done. by apply (place_keeps_others fuel fuel' name item).
Qed.

Lemma insert_no_rehash fuel name item s s' :
  reachable s -> insert fuel name item s = Ret s' -> resizeLog s' = [] ->
  resizeLog s = [] /\ overloaded s = false.
Proof.
  intros Hr H Hlog. destruct (reachable_inv s Hr) as (H0 & Hc & _).
  destruct (insert_Ret _ _ _ _ _ H H0 ltac:(lia)) as [Hq Hre].
  destruct (overloaded s) eqn:Ho.
  - destruct (Hre eq_refl) as (_ & _ & Hl & _). rewrite Hl in Hlog.
    by apply app_eq_nil in Hlog as [_ ?].
  - destruct (Hq eq_refl) as (_ & Hl & _). split; [congruence|done].
Qed.

Lemma insertAll_no_rehash fuel kvs s s' :
  reachable s -> insertAll fuel kvs s = Ret s' -> resizeLog s' = [] -> resizeLog s = [].
Proof.
  revert s. induction kvs as [|[k v] kvs IH]; intros s Hr H Hlog.
  - by injection H as <-.
  - cbn [insertAll] in H. run_inv H as s1 Hs1.
    assert (reachable s1) as Hr1 by by eapply reach_insert.
    apply (insert_no_rehash _ _ _ _ _ Hr Hs1). by apply (IH s1).
Qed.

Lemma retrieve_latest_from fuel kvs s0 s k v :
  reachable s0 -> insertAll fuel kvs s0 = Ret s -> resizeLog s = [] ->
  lastValue kvs k = Some v \/
    (lastValue kvs k = None /\ retrieve fuel k s0 = Ret (Some v)) ->
  retrieve fuel k s = Ret (Some v).
Proof.
  revert s0. induction kvs as [|[k0 v0] kvs IH]; intros s0 Hr H Hlog Hv.
  - injection H as <-. by destruct Hv as [[=]|[_ ?]].
  - cbn [insertAll] in H. run_inv H as s1 Hs1.
    assert (reachable s1) as Hr1 by by eapply reach_insert.
    pose proof (insertAll_no_rehash _ _ _ _ Hr1 H Hlog) as Hlog1.
    destruct (insert_no_rehash _ _ _ _ _ Hr Hs1 Hlog1) as [_ Ho].
    apply (IH s1 Hr1 H Hlog). cbn [lastValue] in Hv.
    destruct (lastValue kvs k) as [v'|]; [left; by destruct Hv as [?|[[=] _]]|].
    right. split; [done|]. destruct (String.eqb k0 k) eqn:E.
    + apply String.eqb_eq in E as ->. destruct Hv as [[= ->]|[[=] _]].
      destruct fuel as [|fuel']; [discriminate|]. cbn [insert] in Hs1.
      run_inv Hs1 as s2 Hs2. apply (place_retrieve fuel' (S fuel') _ _ s2); [done|lia].
    + destruct Hv as [[=]|[_ Hv]]. apply String.eqb_neq in E.
      destruct fuel as [|fuel']; [discriminate|].
      rewrite insert_not_overloaded in Hs1 by done.
      apply (place_keeps_others fuel' (S fuel') k0 v0 s0); [done|congruence|done].
Qed.

(** X3.  After a sequence of inserts into the empty table during which no
    rehash ran, [retrieve] of a key returns the value of its last insert
    in the sequence: a repeated key is updated in place. *)
Theorem retrieve_latest fuel kvs s k v :
  insertAll fuel kvs empty = Ret s -> resizeLog s = [] ->
  lastValue kvs k = Some v ->
  retrieve fuel k s = Ret (Some v).
Proof.
  intros H Hlog Hv. apply (retrieve_latest_from fuel kvs empty); auto. constructor.
Qed.

Lemma probe_fuel_det fuel fuel' tbl size name idx step i i' :
  probe fuel tbl size name idx step = Ret i ->
  probe fuel' tbl size name idx step = Ret i' -> i = i'.
Proof.
  intros H H'.
  apply (probe_fuel_le fuel (Nat.max fuel fuel')) in H; [|lia].
  apply (probe_fuel_le fuel' (Nat.max fuel fuel')) in H'; [|lia].
  congruence.
Qed.

Lemma place_homed fuel name item s s' :
  place fuel name item s = Ret s' -> homed s -> homed s'.
Proof.
  intros H Hh j k v Hj.
  apply place_probe in H as (h0 & idx & n & Hh0 & Hp0 & Hge & Hl & Hn & Ht & Hc & _).
  rewrite Hc, Ht. rewrite Ht in Hj.
  pose proof (lookup_lt_Some _ _ _ Hl) as Hlt.
  destruct (decide (Z.to_nat idx = j)) as [<-|Hne].
  - rewrite list_lookup_insert_eq in Hj by done. injection Hj as <- <-.
    exists fuel, h0, idx. split; [done|]. split; [|done]. by apply probe_after_own_write.
  - rewrite list_lookup_insert_ne in Hj by done.
    destruct (Hh j k v Hj) as (f & h & i & Hhk & Hpk & Hi).
    assert (k <> name) as Hk.
    { intros ->. rewrite Hhk in Hh0. injection Hh0 as ->.
      pose proof (probe_fuel_det _ _ _ _ _ _ _ _ _ Hpk Hp0). congruence. }
    exists f, h, i. split; [done|]. split; [|done].
    apply (probe_after_other_write _ _ _ _ _ _ v _ _ _ _ n); try done.
    by rewrite Hi.
Qed.

Lemma reachable_homed s : reachable s -> resizeLog s = [] -> homed s.
Proof.
  induction 1 as [|fuel name item s s' Hr IH H]; intros Hlog.
  - intros j k v Hj. unfold empty in Hj. cbn [table] in Hj.
    by apply lookup_replicate_1 in Hj as [[=] _].
  - destruct (insert_no_rehash _ _ _ _ _ Hr H Hlog) as [Hlog0 Ho].
    destruct fuel as [|fuel]; [discriminate|].
    rewrite insert_not_overloaded in H by done.
    eapply place_homed; eauto.
Qed.

(** X4.  In a table reached by inserts with no rehash so far, a key
    occupies at most one slot, and every stored pair is found by
    [retrieve]. *)
Theorem stored_once_and_found s i j k v v' :
  reachable s -> resizeLog s = [] ->
  table s !! i = Some (Used k v) ->
  (table s !! j = Some (Used k v') -> i = j) /\
  exists fuel, retrieve fuel k s = Ret (Some v).
Proof.
  intros Hr Hlog Hi. pose proof (reachable_homed s Hr Hlog) as Hh.
  destruct (Hh i k v Hi) as (f & h & x & Hhk & Hp & Hx). split.
  - intros Hj. destruct (Hh j k v' Hj) as (f' & h' & x' & Hhk' & Hp' & Hx').
    rewrite Hhk in Hhk'. injection Hhk' as <-.
    pose proof (probe_fuel_det _ _ _ _ _ _ _ _ _ Hp Hp'). congruence.
  - exists f. unfold retrieve. rewrite Hhk, bind_Ret_l, Hp, bind_Ret_l.
    pose proof (probe_Ret _ _ _ _ _ _ _ Hp) as (Hge & _).
    unfold slot. rewrite aget_lookup, Hx, Hi, bind_Ret_l by done.
    by rewrite String.eqb_refl.
Qed.

Lemma entries_in_write tbl i name item kvs :
  entries_in tbl kvs -> (name, item) ∈ kvs ->
  entries_in (<[i := Used name item]> tbl) kvs.
Proof.
  intros Hn Hin j n it Hj. destruct (decide (i = j)) as [->|Hne].
  - destruct (decide (j < length tbl)%nat).
    + rewrite list_lookup_insert_eq in Hj by done. by injection Hj as <- <-.
    + rewrite list_insert_ge in Hj by lia. by apply Hn in Hj.
  - rewrite list_lookup_insert_ne in Hj by done. by apply Hn in Hj.
Qed.

Lemma entries_in_resize tbl n kvs :
  entries_in tbl kvs -> entries_in (resize n Unused tbl) kvs.
Proof.
  intros Hn j k v Hj. unfold resize in Hj. rewrite resize_spec in Hj.
  apply lookup_app_Some in Hj as [Hj|[_ Hj]].
  - apply lookup_take_Some in Hj as [Hj _]. by apply Hn in Hj.
  - by apply lookup_replicate_1 in Hj as [[=] _].
Qed.

Lemma entries_in_mono tbl kvs kvs' :
  entries_in tbl kvs -> kvs ⊆ kvs' -> entries_in tbl kvs'.
Proof. intros Hn Hsub j k v Hj. apply Hsub. by apply Hn in Hj. Qed.

(** [insert], with or without a rehash, only ever stores pairs that were
    given to it. *)
Lemma insert_entries fuel name item s s' kvs :
  insert fuel name item s = Ret s' ->
  entries_in (table s) kvs -> (name, item) ∈ kvs -> entries_in (table s') kvs.
Proof.
  revert name item s s'. induction fuel as [|fuel IH]; intros name item s s' H Hn Hin;
    [discriminate|].
  cbn [insert] in H. run_inv H as s1 Hs1.
  assert (entries_in (table s1) kvs) as Hn1.
  { destruct (overloaded s); [|by injection Hs1 as <-].
    unfold rehash in Hs1. run_inv Hs1 as doubled Hd. run_inv Hs1 as newSize Hp.
    run_inv Hs1 as s2 Hloop. injection Hs1 as <-. cbn [table].
    destruct (decide (0 <= currentSize s)) as [Hc|Hc].
    - apply (for_range_Ret (fun _ s2 => entries_in (table s2) kvs)) in Hloop; [done|done| |].
      + cbn [table]. by apply entries_in_resize.
      + intros j t1 t2 Hj Ht1 Hbody. run_inv Hbody as n Hnj.
        apply slot_Ret in Hnj as [_ Hl]. destruct n as [|k v]; [by injection Hbody as <-|].
        apply (IH _ _ _ _ Hbody Ht1). by apply Hn in Hl.
    - unfold for_range in Hloop. rewrite seqZ_nil in Hloop by lia.
      injection Hloop as <-. cbn [table]. by apply entries_in_resize. }
  apply place_probe in H as (_ & idx & _ & _ & _ & _ & _ & _ & Ht & _).
  rewrite Ht. by apply entries_in_write.
Qed.

Lemma insertAll_entries fuel kvs kvs0 s0 s :
  insertAll fuel kvs s0 = Ret s -> entries_in (table s0) kvs0 ->
  entries_in (table s) (kvs0 ++ kvs).
Proof.
  revert kvs0 s0. induction kvs as [|[k v] kvs IH]; intros kvs0 s0 H Hn.
  - injection H as <-. by rewrite app_nil_r.
  - cbn [insertAll] in H. run_inv H as s1 Hs1.
    rewrite cons_middle, app_assoc. apply (IH _ s1 H).
    apply (insert_entries _ _ _ _ _ _ Hs1).
    + eapply entries_in_mono; [done|]. set_solver.
    + set_solver.
Qed.

(** X5.  [retrieve] never makes up an entry: whatever it finds after a
    sequence of inserts into the empty table, rehashes included, is a
    pair that was inserted. *)
Theorem retrieve_only_inserted fuel fuel' kvs s k v :
  insertAll fuel kvs empty = Ret s ->
  retrieve fuel' k s = Ret (Some v) -> (k, v) ∈ kvs.
Proof.
  intros H Hr. apply retrieve_Some in Hr as (_ & j & _ & _ & _ & Hj).
  apply (insertAll_entries _ _ []) in H.
  - by apply H in Hj.
  - intros i k' v' Hi. unfold empty in Hi. cbn [table] in Hi.
    by apply lookup_replicate_1 in Hi as [[=] _].
Qed.
End Lookup.

Lemma trialDivision_true fuel n i :
  @trialDivision fuel n i = Ret true -> 0 < i ->
  forall d, i <= d -> d * d <= n -> Z.rem n d <> 0.
Proof.
  revert i. induction fuel as [|fuel IH]; intros i H Hi d Hd Hsq; [discriminate|].
  cbn [trialDivision] in H. run_inv H as sq Hq. apply int_of_Ret in Hq as [-> _].
  destruct (Z.leb_spec (i * i) n) as [Hle|Hgt]; [|nia].
  destruct (Z.eqb_spec (Z.rem n i) 0) as [|Hne]; [discriminate|].
  destruct (decide (d = i)) as [->|]; [done|]. apply (IH (i + 1)); [done|lia|lia|done].
Qed.

Lemma trialDivision_false fuel n i :
  @trialDivision fuel n i = Ret false -> 
  exists d, i <= d /\ d * d <= n /\ Z.rem n d = 0.
Proof.
  revert i. induction fuel as [|fuel IH]; intros i H; [discriminate|].
  cbn [trialDivision] in H. run_inv H as sq Hq. apply int_of_Ret in Hq as [-> _].
  destruct (Z.leb_spec (i * i) n) as [Hle|Hgt]; [|discriminate].
  destruct (Z.eqb_spec (Z.rem n i) 0) as [He|Hne].
  - exists i. lia.
  - destruct (IH _ H) as (d & ? & ? & ?). exists d. lia.
Qed.

Lemma no_small_divisor_prime p :
  2 <= p -> (forall d, 2 <= d -> d * d <= p -> Z.rem p d <> 0) -> prime p.
Proof.
  intros Hp Hnd. apply prime_alt. split; [lia|].
  intros n Hn [q Hq].
  assert (1 < q) as Hq1.
  { destruct (Z.le_gt_cases q 1) as [Hq1|Hq1]; [|lia]. exfalso.
    assert (q * n <= 1 * n) by (apply Z.mul_le_mono_nonneg_r; lia). lia. }
  destruct (Z.le_gt_cases (n * n) p) as [Hle|Hgt].
  - apply (Hnd n); [lia|done|]. rewrite Hq. apply Z.rem_mul; lia.
  - apply (Hnd q); [lia|nia|]. rewrite Hq, Z.mul_comm. apply Z.rem_mul; lia.
Qed.

Lemma small_divisor_not_prime m d :
  2 <= d -> d * d <= m -> Z.rem m d = 0 -> ~ prime m.
Proof.
  intros Hd Hsq Hrem Hprime. apply prime_alt in Hprime as [Hm Hno].
  apply (Hno d); [nia|]. apply Z.rem_divide; [lia|done].
Qed.

(** X6.  For [n >= 2], when [nextPrime] returns it returns the smallest
    prime that is at least [n]. *)
Theorem nextPrime_smallest_prime fuel n p :
  2 <= n -> @nextPrime fuel n = Ret p ->
  prime p /\ n <= p /\ forall m, n <= m < p -> ~ prime m.
Proof.
  revert n. induction fuel as [|fuel IH]; intros n Hn H; [discriminate|].
  cbn [nextPrime] in H. run_inv H as b Hb. destruct b.
  - injection H as <-. split; [|split; [lia|intros; lia]].
    apply no_small_divisor_prime; [done|]. intros d Hd. by apply (trialDivision_true fuel n 2).
  - run_inv H as n' Hn'. apply int_of_Ret in Hn' as [-> _].
    destruct (IH (n + 1) ltac:(lia) H) as (Hp & Hle & Hmin). split; [done|]. split; [lia|].
    intros m Hm. destruct (decide (m = n)) as [->|]; [|apply Hmin; lia].
    apply trialDivision_false in Hb as (d & ? & ? & ?). by apply (small_divisor_not_prime n d).
Qed.

(** X1, witness: the 39th insert, which rehashes to 107 slots. *)
Lemma insert_then_retrieve_witness :
  retrieve 100 "p" loaded39 = Ret (Some 38).
Proof.
  apply (insert_then_retrieve 100 100 "p" 38 loaded38); [vm_compute; reflexivity|lia].
Defined.

(** X2, witness: a new key inserted into the table of the 27 colliding
    keys. *)
Lemma insert_keeps_others_witness :
  retrieve 100 "0z" (match insert 100 "q" 7 crowded with Ret s => s | _ => empty end)
  = Ret (Some 0).
Proof.
  apply (insert_keeps_others 100 100 "q" 7 crowded).
  - vm_compute. reflexivity.
  - vm_compute. reflexivity.
  - discriminate.
  - vm_compute. reflexivity.
Defined.

(** X3, witness: the key inserted twice among three inserts. *)
Lemma retrieve_latest_witness :
  retrieve 100 "a" abaTable = Ret (Some 3).
Proof.
  apply (retrieve_latest 100 abaInserts); vm_compute; reflexivity.
Defined.

(** X4, witness: the first of 38 distinct keys, stored in slot 48. *)
Lemma stored_once_and_found_witness :
  (table loaded38 !! 48%nat = Some (Used "0" 0) -> 48%nat = 48%nat) /\
  exists fuel, retrieve fuel "0" loaded38 = Ret (Some 0).
Proof.
  apply (stored_once_and_found loaded38 48 48 "0" 0 0).
  - apply (insertAll_reachable 100 keys38 empty); [constructor|]. vm_compute. reflexivity.
  - reflexivity.
  - vm_compute. reflexivity.
Defined.

(** X5, witness: a lookup in the table of 38 distinct keys. *)
Lemma retrieve_only_inserted_witness : ("0"%string, 0) ∈ keys38.
Proof.
  apply (retrieve_only_inserted 100 100 keys38 loaded38); vm_compute; reflexivity.
Defined.

(** X6, witness: [nextPrime 106], the size chosen by the first rehash. *)
Lemma nextPrime_smallest_prime_witness :
  prime 107 /\ 106 <= 107 /\ forall m, 106 <= m < 107 -> ~ prime m.
Proof.
  apply (nextPrime_smallest_prime 20 106 107); [lia|vm_compute; reflexivity].
Defined.

End HashLookup.

Module HeapFacts.
Import OrderHeap.
Section Facts.
Context {Order : Type} (priority : Order -> Z).
#[local] Abbreviation t := (@t Order).
Implicit Types (a : list Order) (s : t).

Lemma parent_div index : parent index = (index - 1) / 2.
Proof. unfold parent. by rewrite Z.shiftr_div_pow2. Qed.

Lemma parent_bounds index : 0 < index -> 0 <= parent index < index.
Proof. rewrite parent_div. intros H. split; [apply Z.div_pos; lia|].
  apply Z.div_lt_upper_bound; lia. Qed.

Lemma read_in a i : 0 <= i < Z.of_nat (length a) -> exists x, read a i = Ret x /\ a !! Z.to_nat i = Some x.
Proof.
  intros H. unfold read, aget. rewrite (proj2 (Z.ltb_ge i 0)) by lia.
  destruct (lookup_lt_is_Some_2 a (Z.to_nat i) ltac:(lia)) as [x Hx].
  rewrite Hx. eauto.
Qed.

Lemma store_in a i x : 0 <= i < Z.of_nat (length a) -> store a i x = Ret (<[Z.to_nat i := x]> a).
Proof.
  intros H. unfold store, aset.
  rewrite (proj2 (Z.leb_le 0 i)), (proj2 (Z.ltb_lt i _)) by lia. done.
Qed.

Lemma prio_insert a i j x :
  0 <= i < Z.of_nat (length a) -> 0 <= j ->
  prio priority (<[Z.to_nat i := x]> a) j = if decide (j = i) then priority x else prio priority a j.
Proof.
  intros Hi Hj. unfold prio. case_decide as E.
  - subst. rewrite list_lookup_insert_eq by lia. done.
  - rewrite list_lookup_insert_ne by lia. done.
Qed.

(** [swap] inside the array exchanges the two priorities. *)
Lemma swap_in a i j :
  0 <= i < Z.of_nat (length a) -> 0 <= j < Z.of_nat (length a) ->
  exists a', swap a i j = Ret a' /\ length a' = length a /\
    forall k, 0 <= k -> prio priority a' k =
      if decide (k = j) then prio priority a i
      else if decide (k = i) then prio priority a j
      else prio priority a k.
Proof.
  intros Hi Hj. unfold swap.
  destruct (read_in a i Hi) as (x & -> & Hx). destruct (read_in a j Hj) as (y & -> & Hy).
  cbn. rewrite store_in by done. cbn. rewrite store_in by (rewrite length_insert; lia).
  eexists. split; [done|]. split; [by rewrite !length_insert|].
  intros k Hk. rewrite prio_insert by (rewrite ?length_insert; lia).
  rewrite prio_insert by lia.
  assert (prio priority a i = priority x) as -> by (unfold prio; by rewrite Hx).
  assert (prio priority a j = priority y) as -> by (unfold prio; by rewrite Hy).
  repeat case_decide; done.
Qed.

(** The sift-up loop: the heap order may fail only between [index] and its
    parent, and the parent of [index] dominates the children of [index]. *)
Lemma orderHeapifyUp_ok fuel a index n :
  0 <= index < n -> n <= Z.of_nat (length a) -> (Z.to_nat index <= fuel)%nat ->
  (forall i, 0 < i < n -> i <> index -> prio priority a i <= prio priority a (parent i)) ->
  (forall i, 0 < i < n -> parent i = index -> 0 < index ->
     prio priority a i <= prio priority a (parent index)) ->
  exists a', orderHeapifyUp priority fuel a index = Ret a' /\ length a' = length a /\
    forall i, 0 < i < n -> prio priority a' i <= prio priority a' (parent i).
Proof.
  revert a index. induction fuel as [|fuel IH]; intros a index Hi Hn Hf Ha Hb.
  - assert (index = 0) as -> by lia. simpl. exists a. split; [done|]. split; [done|].
    intros i Hin. apply Ha; lia.
  - cbn [orderHeapifyUp]. destruct (0 <? index) eqn:Hpos.
    2:{ assert (index = 0) as -> by lia. exists a. split; [done|]. split; [done|].
        intros i Hin. apply Ha; lia. }
    apply Z.ltb_lt in Hpos. pose proof (parent_bounds index Hpos) as Hp.
    destruct (read_in a (parent index) ltac:(lia)) as (p & -> & Hlp).
    destruct (read_in a index ltac:(lia)) as (x & -> & Hlx). cbn.
    assert (prio priority a index = priority x) as Hpx by (unfold prio; by rewrite Hlx).
    assert (prio priority a (parent index) = priority p) as Hpp by (unfold prio; by rewrite Hlp).
    rewrite Z.geb_leb. destruct (priority x <=? priority p) eqn:Hcmp.
    + apply Z.leb_le in Hcmp. exists a. split; [done|]. split; [done|].
      intros i Hin. destruct (decide (i = index)) as [->|Hne]; [lia|by apply Ha].
    + apply Z.leb_gt in Hcmp.
      destruct (swap_in a (parent index) index ltac:(lia) ltac:(lia)) as (a' & -> & Hlen & Hsw).
      cbn.
      destruct (IH a' (parent index)) as (a'' & Hrun & Hlen' & Hord); try lia.
      * intros i Hin Hne. pose proof (parent_bounds i ltac:(lia)) as Hpi.
        rewrite !Hsw by lia.
        destruct (decide (i = index)) as [->|Hi1].
        { rewrite decide_False by lia. rewrite decide_True by done. lia. }
        rewrite (decide_False (P := i = parent index)) by done.
        destruct (decide (parent i = index)) as [Hc|Hc].
        { specialize (Hb i Hin Hc Hpos). lia. }
        destruct (decide (parent i = parent index)) as [Hs|Hs].
        { specialize (Ha i Hin Hi1). rewrite Hs in Ha. lia. }
        by apply Ha.
      * intros i Hin Hpar Hppos. pose proof (parent_bounds _ Hppos) as Hpp'.
        rewrite !Hsw by lia.
        rewrite (decide_False (P := parent (parent index) = index)) by lia.
        rewrite (decide_False (P := parent (parent index) = parent index)) by lia.
        rewrite (decide_False (P := i = parent index)) by (pose proof (parent_bounds i); lia).
        pose proof (Ha (parent index) ltac:(lia) ltac:(lia)) as Hgp.
        destruct (decide (i = index)) as [->|Hi1]; [lia|].
        specialize (Ha i Hin Hi1). rewrite Hpar in Ha. lia.
      * exists a''. split; [done|]. split; [congruence|done].
Qed.

(** C8.  On a heap-ordered state with room left, the insertion (store at
    the end, then [orderHeapifyUp]) returns once the fuel covers the old
    size, and in the resulting state every index [i > 0] has
    [priority(parent(i)) >= priority(i)]. *)
Theorem placeOrder_heap_ordered fuel o s :
  wf s -> orderHeapSize s < MAX_ORDERS -> heap_ordered priority s ->
  (Z.to_nat (orderHeapSize s) <= fuel)%nat ->
  exists s', placeOrder priority fuel o s = Ret s' /\
    orderHeapSize s' = orderHeapSize s + 1 /\ wf s' /\ heap_ordered priority s'.
Proof.
  intros [Hlen Hsz] Hlt Hord Hfuel. unfold placeOrder, MAX_ORDERS in *.
  rewrite store_in by lia. cbn.
  unfold int_of, in_int, INT_MIN, INT_MAX.
  rewrite (proj2 (Z.leb_le _ _)), (proj2 (Z.leb_le _ _)) by lia. cbn.
  replace (orderHeapSize s + 1 - 1) with (orderHeapSize s) by lia.
  destruct (orderHeapifyUp_ok fuel (<[Z.to_nat (orderHeapSize s) := o]> (orderHeap s))
              (orderHeapSize s) (orderHeapSize s + 1)) as (a' & -> & Hlen' & Hord');
    try (rewrite ?length_insert; lia).
  - intros i Hi Hne. pose proof (parent_bounds i ltac:(lia)).
    rewrite !prio_insert by lia. rewrite !decide_False by lia. apply Hord. lia.
  - intros i Hi Hpar. pose proof (parent_bounds i ltac:(lia)). lia.
  - cbn. eexists. split; [done|]. cbn. rewrite length_insert in Hlen'.
    split; [done|]. split; [unfold wf, MAX_ORDERS; cbn; lia|]. exact Hord'.
Qed.

(** C3.  With [MAX_ORDERS] orders stored the insertion makes no capacity
    test: its first step writes [orderHeap[300]], past the end of the
    array. *)
Theorem placeOrder_at_capacity fuel o s :
  wf s -> orderHeapSize s = MAX_ORDERS ->
  placeOrder priority fuel o s = Undefined.
Proof.
  intros [Hlen _] Hfull. unfold placeOrder, store, aset.
  rewrite Hfull, Hlen, Z.ltb_irrefl, andb_false_r. reflexivity.
Qed.

End Facts.

(** C8, witness: priority 8 inserted into the heap [9, 7, 8, 3, 5]. *)
Lemma placeOrder_heap_ordered_witness :
  exists s', placeOrder id 10 8 smallHeap = Ret s' /\
    orderHeapSize s' = orderHeapSize smallHeap + 1 /\ wf s' /\ heap_ordered id s'.
Proof.
  apply placeOrder_heap_ordered.
  - split; vm_compute; [reflexivity | split; discriminate].
  - reflexivity.
  - intros i Hi. change (orderHeapSize smallHeap) with 5 in Hi.
    assert (i = 1 \/ i = 2 \/ i = 3 \/ i = 4) as [-> | [-> | [-> | ->]]] by lia;
      vm_compute; discriminate.
  - vm_compute. lia.
Defined.

(** C3, witness: the full heap. *)
Lemma placeOrder_at_capacity_witness :
  placeOrder id 300 1 fullHeap = Undefined.
Proof.
  apply placeOrder_at_capacity.
  - split; vm_compute; [reflexivity | split; discriminate].
  - reflexivity.
Defined.

End HeapFacts.

Module HeapMoreFacts.
Import OrderHeap OrderHeapMore HeapFacts.
Section Facts.
Context {Order : Type} (priority : Order -> Z).
#[local] Abbreviation t := (@t Order).
Implicit Types (a : list Order) (s : t).

(** The array left by [swap]. *)
Lemma swap_eq a i j x y :
  0 <= i -> 0 <= j -> a !! Z.to_nat i = Some x -> a !! Z.to_nat j = Some y ->
  swap a i j = Ret (<[Z.to_nat j := x]> (<[Z.to_nat i := y]> a)).
Proof.
  intros Hi Hj Hx Hy. unfold swap, read. rewrite !aget_lookup by done.
  rewrite Hx, Hy. cbn. apply lookup_lt_Some in Hx, Hy.
  rewrite store_in by lia. cbn. rewrite store_in by (rewrite length_insert; lia). done.
Qed.

(** A swap below [n] permutes the first [n] slots and leaves the rest. *)
Lemma swap_perm a i j n :
  0 <= i < n -> 0 <= j < n -> n <= Z.of_nat (length a) ->
  exists a', swap a i j = Ret a' /\ length a' = length a /\
    take (Z.to_nat n) a' ≡ₚ take (Z.to_nat n) a /\
    drop (Z.to_nat n) a' = drop (Z.to_nat n) a.
Proof.
  intros Hi Hj Hn.
  destruct (lookup_lt_is_Some_2 a (Z.to_nat i) ltac:(lia)) as [x Hx].
  destruct (lookup_lt_is_Some_2 a (Z.to_nat j) ltac:(lia)) as [y Hy].
  rewrite (swap_eq a i j x y) by (done || lia).
  eexists. split; [done|]. split; [by rewrite !length_insert|]. split.
  - rewrite !take_insert_lt by lia.
    apply Permutation_insert_swap; rewrite lookup_take_lt by lia; done.
  - rewrite !drop_insert_lt by lia. done.
Qed.

Lemma orderHeapifyUp_perm fuel a index n :
  0 <= index < n -> n <= Z.of_nat (length a) -> (Z.to_nat index <= fuel)%nat ->
  exists a', orderHeapifyUp priority fuel a index = Ret a' /\
    take (Z.to_nat n) a' ≡ₚ take (Z.to_nat n) a /\
    drop (Z.to_nat n) a' = drop (Z.to_nat n) a.
Proof.
  revert a index. induction fuel as [|fuel IH]; intros a index Hi Hn Hf.
  - assert (index = 0) as -> by lia. simpl. by exists a.
  - cbn [orderHeapifyUp]. destruct (0 <? index) eqn:Hpos; [|by exists a].
    apply Z.ltb_lt in Hpos. pose proof (parent_bounds index Hpos) as Hp.
    destruct (read_in a (parent index) ltac:(lia)) as (p & -> & _).
    destruct (read_in a index ltac:(lia)) as (x & -> & _). cbn.
    destruct (priority p >=? priority x); [by exists a|].
    destruct (swap_perm a (parent index) index n) as (a' & -> & Hlen & Hperm & Hdrop);
      [lia..|]. cbn.
    destruct (IH a' (parent index)) as (a'' & -> & Hperm' & Hdrop'); [lia..|].
    exists a''. split; [done|]. split; [by rewrite Hperm'|congruence].
Qed.

(** X7.  An insertion with room left returns (fuel at least the old size,
    whether or not the heap was ordered) and the stored orders afterwards
    are the old ones and the new one, each as often as before: sifting up
    only swaps.  The slots past the new size are untouched. *)
Theorem placeOrder_keeps_orders fuel o s :
  wf s -> orderHeapSize s < MAX_ORDERS ->
  (Z.to_nat (orderHeapSize s) <= fuel)%nat ->
  exists s', placeOrder priority fuel o s = Ret s' /\
    stored s' ≡ₚ o :: stored s /\
    drop (Z.to_nat (orderHeapSize s')) (orderHeap s') =
    drop (Z.to_nat (orderHeapSize s')) (orderHeap s).
Proof.
  intros [Hlen Hsz] Hlt Hfuel. unfold placeOrder, MAX_ORDERS in *.
  rewrite store_in by lia. cbn.
  rewrite int_of_in by (unfold INT_MIN, INT_MAX; lia). cbn.
  replace (orderHeapSize s + 1 - 1) with (orderHeapSize s) by lia.
  destruct (orderHeapifyUp_perm fuel (<[Z.to_nat (orderHeapSize s) := o]> (orderHeap s))
              (orderHeapSize s) (orderHeapSize s + 1)) as (a' & -> & Hperm & Hdrop);
    try (rewrite ?length_insert; lia).
  cbn. eexists. split; [done|]. unfold stored. cbn. split.
  - rewrite Hperm. replace (Z.to_nat (orderHeapSize s + 1)) with (S (Z.to_nat (orderHeapSize s))) by lia.
    rewrite (take_S_r _ _ o) by (apply list_lookup_insert_eq; lia).
    rewrite take_insert_ge by lia. by rewrite Permutation_app_comm.
  - rewrite Hdrop. rewrite drop_insert_lt by lia. done.
Qed.

(** In a heap-ordered array the root dominates every stored order. *)
Lemma root_is_max a n :
  (forall i, 0 < i < n -> prio priority a i <= prio priority a (parent i)) ->
  forall i, 0 <= i < n -> prio priority a i <= prio priority a 0.
Proof.
  intros Hord i Hi.
  assert (forall k : nat, forall i, 0 <= i < n -> i <= Z.of_nat k ->
            prio priority a i <= prio priority a 0) as Hall.
  { induction k as [|k IH]; intros j Hj Hk.
    - assert (j = 0) as -> by lia. lia.
    - destruct (decide (j = 0)) as [->|Hne]; [lia|].
      pose proof (parent_bounds j ltac:(lia)) as Hp.
      etrans; [apply Hord; lia|]. apply IH; lia. }
  apply (Hall (Z.to_nat i)); lia.
Qed.

(** One insertion into an ordered heap with room left: it returns, keeps
    the heap ordered and adds the new order to the stored ones. *)
Lemma placeOrder_step fuel o s :
  wf s -> orderHeapSize s < MAX_ORDERS -> heap_ordered priority s ->
  (Z.to_nat (orderHeapSize s) <= fuel)%nat ->
  exists s', placeOrder priority fuel o s = Ret s' /\
    orderHeapSize s' = orderHeapSize s + 1 /\ wf s' /\ heap_ordered priority s' /\
    stored s' ≡ₚ o :: stored s.
Proof.
  intros [Hlen Hsz] Hlt Hord Hfuel. unfold placeOrder, MAX_ORDERS in *.
  rewrite store_in by lia. cbn.
  rewrite int_of_in by (unfold INT_MIN, INT_MAX; lia). cbn.
  replace (orderHeapSize s + 1 - 1) with (orderHeapSize s) by lia.
  destruct (orderHeapifyUp_ok priority fuel (<[Z.to_nat (orderHeapSize s) := o]> (orderHeap s))
              (orderHeapSize s) (orderHeapSize s + 1)) as (a' & Hrun & Hlen' & Hord');
    try (rewrite ?length_insert; lia).
  { intros i Hi Hne. pose proof (parent_bounds i ltac:(lia)).
    rewrite !prio_insert by lia. rewrite !decide_False by lia. apply Hord. lia. }
  { intros i Hi Hpar. pose proof (parent_bounds i ltac:(lia)). lia. }
  destruct (orderHeapifyUp_perm fuel (<[Z.to_nat (orderHeapSize s) := o]> (orderHeap s))
              (orderHeapSize s) (orderHeapSize s + 1)) as (a'' & Hrun' & Hperm & _);
    try (rewrite ?length_insert; lia).
  rewrite Hrun in Hrun'. injection Hrun' as <-. rewrite Hrun.
  cbn. eexists. split; [done|]. cbn. rewrite length_insert in Hlen'.
  split; [done|]. split; [unfold wf, MAX_ORDERS; cbn; lia|]. split; [exact Hord'|].
  unfold stored. cbn. rewrite Hperm.
  replace (Z.to_nat (orderHeapSize s + 1)) with (S (Z.to_nat (orderHeapSize s))) by lia.
  rewrite (take_S_r _ _ o) by (apply list_lookup_insert_eq; lia).
  rewrite take_insert_ge by lia. by rewrite Permutation_app_comm.
Qed.

(** X8.  Starting with no stored order, any sequence of at most
    [MAX_ORDERS] insertions returns; the heap then stores exactly the
    inserted orders, and no inserted order has a higher priority than the
    one at index 0. *)
Theorem placeAll_root_is_max fuel os s0 :
  wf s0 -> orderHeapSize s0 = 0 ->
  Z.of_nat (length os) <= MAX_ORDERS -> (300 <= fuel)%nat ->
  exists s, placeAll priority fuel os s0 = Ret s /\
    orderHeapSize s = Z.of_nat (length os) /\
    stored s ≡ₚ os /\
    forall o, o ∈ os -> priority o <= prio priority (orderHeap s) 0.
Proof.
  intros Hwf H0 Hlen Hfuel.
  assert (forall os s, wf s -> heap_ordered priority s ->
            orderHeapSize s + Z.of_nat (length os) <= MAX_ORDERS ->
            exists s', placeAll priority fuel os s = Ret s' /\
              orderHeapSize s' = orderHeapSize s + Z.of_nat (length os) /\
              wf s' /\ heap_ordered priority s' /\
              stored s' ≡ₚ stored s ++ os) as Hgen.
  { clear os s0 Hwf H0 Hlen. induction os as [|o os IH]; intros s Hwf Hord Hlen.
    - exists s. cbn. rewrite app_nil_r. split; [done|]. split; [lia|]. done.
    - cbn [length placeAll] in *. unfold MAX_ORDERS in *. destruct Hwf as [Hl Hs].
      destruct (placeOrder_step fuel o s) as (s1 & Hrun & Hsz & Hwf1 & Hord1 & Hperm);
        [done|unfold MAX_ORDERS; lia|done|lia|].
      rewrite Hrun. cbn.
      assert (orderHeapSize s1 + Z.of_nat (length os) <= 300) as Hroom. { lia. }
      destruct (IH s1 Hwf1 Hord1 Hroom) as (s' & -> & Hsz' & Hwf' & Hord' & Hperm').
      exists s'. split; [done|]. split; [lia|]. split; [done|]. split; [done|].
      rewrite Hperm', Hperm. apply Permutation_middle. }
  destruct (Hgen os s0 Hwf) as (s & Hrun & Hsz & Hwf' & Hord & Hperm).
  { intros i Hi. lia. }
  { lia. }
  exists s. split; [done|]. split; [lia|].
  assert (stored s0 = []) as Hnil by (unfold stored; by rewrite H0).
  rewrite Hnil in Hperm. cbn in Hperm. split; [done|].
  intros o Ho. rewrite <- Hperm in Ho. unfold stored in Ho.
  apply list_elem_of_lookup in Ho as [k Hk].
  pose proof (lookup_lt_Some _ _ _ Hk) as Hklt. rewrite length_take in Hklt.
  rewrite lookup_take_lt in Hk by lia.
  pose proof (root_is_max (orderHeap s) (orderHeapSize s) Hord (Z.of_nat k) ltac:(lia)) as Hmax.
  unfold prio at 1 in Hmax. rewrite Nat2Z.id, Hk in Hmax. exact Hmax.
Qed.




End Facts.

(** X7, witness: priority 8 inserted into the heap [9, 7, 8, 3, 5]. *)
Lemma placeOrder_keeps_orders_witness :
  exists s', placeOrder id 10 8 smallHeap = Ret s' /\
    stored s' ≡ₚ 8 :: stored smallHeap /\
    drop (Z.to_nat (orderHeapSize s')) (orderHeap s') =
    drop (Z.to_nat (orderHeapSize s')) (orderHeap smallHeap).
Proof.
  apply placeOrder_keeps_orders.
  - split; vm_compute; [reflexivity | split; discriminate].
  - reflexivity.
  - vm_compute. lia.
Defined.

(** X8, witness: priorities 3, 9, 5 inserted into the empty heap. *)
Lemma placeAll_root_is_max_witness :
  exists s, placeAll id 300 [3; 9; 5] noOrders = Ret s /\
    orderHeapSize s = Z.of_nat (length [3; 9; 5]) /\
    stored s ≡ₚ [3; 9; 5] /\
    forall o, o ∈ [3; 9; 5] -> id o <= prio id (orderHeap s) 0.
Proof.
  apply placeAll_root_is_max.
  - split; vm_compute; [reflexivity | split; discriminate].
  - reflexivity.
  - vm_compute. discriminate.
  - lia.
Defined.


End HeapMoreFacts.

Module AVLFacts.
Import BalancedIndex.

Lemma depth_nonneg t : 0 <= depth t.
Proof. induction t; simpl; lia. Qed.

Lemma balanced_height t : balanced t -> height t = depth t.
Proof. destruct t; simpl; tauto. Qed.

Lemma rebalance_left k n l l' r h key :
  balanced l' -> balanced r -> key < k ->
  -1 <= depth l - depth r <= 1 ->
  depth l' = depth l \/ (depth l' = depth l + 1 /\ leans key l') ->
  exists t', rebalance (Node k n l' r h) key = Ret t' /\ balanced t' /\
    (depth t' = 1 + Z.max (depth l) (depth r) \/
     (depth t' = 2 + Z.max (depth l) (depth r) /\ leans key t')).
Proof.
  intros Hl' Hr Hk Hb Hd.
  pose proof (depth_nonneg l). pose proof (depth_nonneg r).
  unfold rebalance. cbn [balanceFactor].
  rewrite (balanced_height _ Hl'), (balanced_height _ Hr).
  destruct (Z.ltb_spec 1 (depth l' - depth r)) as [Hbf|Hbf].
  - destruct Hd as [Hd|[Hd Hlean]]; [lia|].
    rewrite (proj2 (Z.ltb_ge (depth l' - depth r) (-1))) by lia.
    destruct l' as [|lk ln ll lr lh]; [simpl in *; lia|].
    destruct Hl' as (Hll & Hlr & Hlh & Hlb).
    pose proof (depth_nonneg ll). pose proof (depth_nonneg lr).
    cbn [leans] in Hlean. cbn [depth] in *.
    destruct Hlean as [[-> ->]|[[Hlt Hdd]|[Hlt Hdd]]]; [simpl in *; lia| |].
    + cbn. rewrite (proj2 (Z.ltb_lt key lk)) by done. cbn.
      rewrite (balanced_height _ Hll), (balanced_height _ Hlr), (balanced_height _ Hr).
      eexists. split; [done|]. simpl. split; [repeat split; (done || lia)|]. lia.
    + cbn. rewrite (proj2 (Z.ltb_ge key lk)) by lia. cbn.
      rewrite Z.gtb_ltb, (proj2 (Z.ltb_lt lk key)) by done. cbn.
      destruct lr as [|mk mn ml mr mh]; [simpl in *; lia|].
      destruct Hlr as (Hml & Hmr & Hmh & Hmb).
      pose proof (depth_nonneg ml). pose proof (depth_nonneg mr).
      cbn [depth] in *. cbn.
      rewrite (balanced_height _ Hll), (balanced_height _ Hml), (balanced_height _ Hmr),
        (balanced_height _ Hr).
      eexists. split; [done|]. simpl. split; [repeat split; (done || lia)|]. lia.
  - cbn. rewrite (proj2 (Z.ltb_ge (depth l' - depth r) (-1))) by lia. cbn.
    eexists. split; [done|]. simpl. split; [repeat split; (done || lia)|].
    destruct Hd as [Hd|[Hd Hlean]]; [lia|].
    destruct (decide (depth l' = depth r + 1)); [right|left]; lia.
Qed.

Lemma rebalance_right k n l r r' h key :
  balanced l -> balanced r' -> k < key ->
  -1 <= depth l - depth r <= 1 ->
  depth r' = depth r \/ (depth r' = depth r + 1 /\ leans key r') ->
  exists t', rebalance (Node k n l r' h) key = Ret t' /\ balanced t' /\
    (depth t' = 1 + Z.max (depth l) (depth r) \/
     (depth t' = 2 + Z.max (depth l) (depth r) /\ leans key t')).
Proof.
  intros Hl Hr' Hk Hb Hd.
  pose proof (depth_nonneg l). pose proof (depth_nonneg r).
  unfold rebalance. cbn [balanceFactor].
  rewrite (balanced_height _ Hl), (balanced_height _ Hr').
  rewrite (proj2 (Z.ltb_ge 1 (depth l - depth r'))) by lia.
  destruct (Z.ltb_spec (depth l - depth r') (-1)) as [Hbf|Hbf].
  - destruct Hd as [Hd|[Hd Hlean]]; [lia|].
    destruct r' as [|rk rn rl rr rh]; [simpl in *; lia|].
    destruct Hr' as (Hrl & Hrr & Hrh & Hrb).
    pose proof (depth_nonneg rl). pose proof (depth_nonneg rr).
    cbn [leans] in Hlean. cbn [depth] in *.
    destruct Hlean as [[-> ->]|[[Hlt Hdd]|[Hlt Hdd]]]; [simpl in *; lia| |].
    + cbn. rewrite Z.gtb_ltb, (proj2 (Z.ltb_ge rk key)) by lia. cbn.
      rewrite (proj2 (Z.ltb_lt key rk)) by done. cbn.
      destruct rl as [|mk mn ml mr mh]; [simpl in *; lia|].
      destruct Hrl as (Hml & Hmr & Hmh & Hmb).
      pose proof (depth_nonneg ml). pose proof (depth_nonneg mr).
      cbn [depth] in *. cbn.
      rewrite (balanced_height _ Hrr), (balanced_height _ Hml), (balanced_height _ Hmr),
        (balanced_height _ Hl).
      eexists. split; [done|]. simpl. split; [repeat split; (done || lia)|]. lia.
    + cbn. rewrite Z.gtb_ltb, (proj2 (Z.ltb_lt rk key)) by done. cbn.
      rewrite (balanced_height _ Hrl), (balanced_height _ Hrr), (balanced_height _ Hl).
      eexists. split; [done|]. simpl. split; [repeat split; (done || lia)|]. lia.
  - cbn. eexists. split; [done|]. simpl. split; [repeat split; (done || lia)|].
    destruct Hd as [Hd|[Hd Hlean]]; [lia|].
    destruct (decide (depth r' = depth l + 1)); [right|left]; lia.
Qed.

(** [insertAVL] returns, keeps the tree balanced, and makes it at most one
    level taller. *)
Lemma insertAVL_balanced t key name :
  balanced t ->
  exists t', insertAVL t key name = Ret t' /\ balanced t' /\
    (depth t' = depth t \/ (depth t' = depth t + 1 /\ leans key t')).
Proof.
  induction t as [|k n l IHl r IHr h]; intros Hb.
  - eexists. split; [done|]. simpl. split; [repeat split; lia|]. right. tauto.
  - destruct Hb as (Hl & Hr & Hh & Hbal). cbn [insertAVL].
    destruct (Z.ltb_spec key k) as [Hlt|Hge].
    + destruct (IHl Hl) as (l' & -> & Hl' & Hd). rewrite bind_Ret_l.
      destruct (rebalance_left k n l l' r h key Hl' Hr Hlt Hbal Hd) as (t' & -> & Ht' & Hdt).
      exists t'. split; [done|]. split; [done|]. cbn [depth].
        destruct Hdt as [Hdt|[Hdt Hle]]; [left; lia | right; split; [lia|done]].
    + rewrite Z.gtb_ltb. destruct (Z.ltb_spec k key) as [Hgt|Hle].
      * destruct (IHr Hr) as (r' & -> & Hr' & Hd). rewrite bind_Ret_l.
        destruct (rebalance_right k n l r r' h key Hl Hr' Hgt Hbal Hd) as (t' & -> & Ht' & Hdt).
        exists t'. split; [done|]. split; [done|]. cbn [depth].
        destruct Hdt as [Hdt|[Hdt Hle]]; [left; lia | right; split; [lia|done]].
      * eexists. split; [done|]. split; [cbn [balanced]; repeat split; (done || lia)|]. by left.
Qed.

Lemma insertMany_balanced kvs t :
  balanced t -> exists t', insertMany kvs t = Ret t' /\ balanced t'.
Proof.
  revert t. induction kvs as [|[k n] kvs IH]; intros t Hb; [by exists t|].
  cbn [insertMany]. destruct (insertAVL_balanced t k n Hb) as (t1 & -> & Hb1 & _). rewrite bind_Ret_l.
  by apply IH.
Qed.

Lemma all_keys_impl (P Q : Z -> Prop) t :
  (forall x, P x -> Q x) -> all_keys P t -> all_keys Q t.
Proof. intros HPQ. induction t; simpl; [done|]. intros (? & ? & ?). auto. Qed.

Lemma all_keys_lt_trans a b t : a < b -> all_keys (fun x => x < a) t -> all_keys (fun x => x < b) t.
Proof. intros Hab. apply all_keys_impl. lia. Qed.

Lemma all_keys_gt_trans a b t : a < b -> all_keys (fun x => b < x) t -> all_keys (fun x => a < x) t.
Proof. intros Hab. apply all_keys_impl. lia. Qed.

Create HintDb avl.
#[local] Hint Resolve all_keys_lt_trans all_keys_gt_trans : avl.

Lemma rightRotate_ordered y t :
  rightRotate y = Ret t ->
  ordered y -> ordered t /\ forall P, all_keys P y -> all_keys P t.
Proof.
  destruct y as [|yk yn [|xk xn xl T2 xh] yr yh]; try discriminate.
  intros [= <-]. simpl. intros ((Hxl & HT2 & Hxl' & HT2') & Hyr & (Hx & Hxl'' & HT2'') & Hyr').
  split; [|tauto].
  repeat split; eauto with avl.
Qed.

Lemma leftRotate_ordered x t :
  leftRotate x = Ret t ->
  ordered x -> ordered t /\ forall P, all_keys P x -> all_keys P t.
Proof.
  destruct x as [|xk xn xl [|yk yn T2 yr yh] xh]; try discriminate.
  intros [= <-]. simpl. intros (Hxl & (HT2 & Hyr & HT2' & Hyr') & Hxl' & (Hy & HT2'' & Hyr'')).
  split; [|tauto].
  repeat split; eauto with avl.
Qed.

Lemma rebalance_ordered node key t :
  rebalance node key = Ret t ->
  ordered node -> ordered t /\ forall P, all_keys P node -> all_keys P t.
Proof.
  destruct node as [|k n l r h]; [discriminate|]. unfold rebalance.
  intros H Hord.
  run_inv H. destruct a.
  { eapply rightRotate_ordered in H; [|exact Hord]. exact H. }
  run_inv H. destruct a.
  { eapply leftRotate_ordered in H; [|exact Hord]. exact H. }
  run_inv H. destruct a.
  { run_inv H. destruct Hord as (Hl & Hr & Hl' & Hr').
    apply leftRotate_ordered in Hrun2 as [Ho Ha]; [|done].
    apply rightRotate_ordered in H as [Ho' Ha']; [|simpl; auto].
    split; [done|]. intros P (? & ? & ?). apply Ha'. simpl. auto. }
  run_inv H. destruct a.
  { run_inv H. destruct Hord as (Hl & Hr & Hl' & Hr').
    apply rightRotate_ordered in Hrun3 as [Ho Ha]; [|done].
    apply leftRotate_ordered in H as [Ho' Ha']; [|simpl; auto].
    split; [done|]. intros P (? & ? & ?). apply Ha'. simpl. auto. }
  injection H as <-. done.
Qed.

Lemma insertAVL_ordered t key name t' :
  insertAVL t key name = Ret t' ->
  ordered t -> ordered t' /\ forall P : Z -> Prop, all_keys P t -> P key -> all_keys P t'.
Proof.
  revert t'. induction t as [|k n l IHl r IHr h]; intros t' H Hord.
  - injection H as <-. simpl. tauto.
  - cbn [insertAVL] in H. destruct Hord as (Hl & Hr & Hl' & Hr').
    destruct (Z.ltb_spec key k) as [Hlt|Hge].
    + run_inv H. destruct (IHl _ Hrun Hl) as [Ho Ha].
      apply rebalance_ordered in H as [Ho' Ha']; [|simpl; auto].
      split; [done|]. intros P (? & ? & ?) ?. apply Ha'. simpl. auto.
    + rewrite Z.gtb_ltb in H. destruct (Z.ltb_spec k key) as [Hgt|Hle].
      * run_inv H. destruct (IHr _ Hrun Hr) as [Ho Ha].
        apply rebalance_ordered in H as [Ho' Ha']; [|simpl; auto].
        split; [done|]. intros P (? & ? & ?) ?. apply Ha'. simpl. auto.
      * injection H as <-. simpl. tauto.
Qed.

Lemma insertMany_ordered kvs t t' :
  insertMany kvs t = Ret t' -> ordered t -> ordered t'.
Proof.
  revert t. induction kvs as [|[k n] kvs IH]; intros t H Ho.
  - by injection H as <-.
  - cbn [insertMany] in H. run_inv H. apply insertAVL_ordered in Hrun as [Ho' _]; eauto.
Qed.

Lemma all_keys_elem P t x : all_keys P t -> x ∈ (inorderBST t).*1 -> P x.
Proof.
  induction t as [|k n l IHl r IHr h]; simpl.
  - by intros _ ?%elem_of_nil.
  - intros (Hk & Hl & Hr). rewrite fmap_app, fmap_cons, elem_of_app, elem_of_cons. simpl.
    intros [?|[->|?]]; auto.
Qed.

Lemma ordered_inorder t : ordered t -> StronglySorted Z.lt (inorderBST t).*1.
Proof.
  induction t as [|k n l IHl r IHr h]; simpl.
  - intros _. constructor.
  - intros (Hl & Hr & Hl' & Hr'). rewrite fmap_app, fmap_cons. simpl.
    apply StronglySorted_app. split; [|split; [auto|]].
    + intros x1 x2 H1 [->|H2]%elem_of_cons.
      * by apply (all_keys_elem _ _ _ Hl').
      * pose proof (all_keys_elem _ _ _ Hl' H1). pose proof (all_keys_elem _ _ _ Hr' H2).
        simpl in *. lia.
    + apply StronglySorted_cons. split; [|auto].
      apply Forall_forall. intros x Hx. by apply (all_keys_elem _ _ _ Hr').
Qed.

Lemma rightRotate_inorder y t : rightRotate y = Ret t -> inorderBST t = inorderBST y.
Proof.
  destruct y as [|yk yn [|xk xn xl T2 xh] yr yh]; try discriminate.
  intros [= <-]. simpl. by rewrite <- app_assoc.
Qed.

Lemma leftRotate_inorder x t : leftRotate x = Ret t -> inorderBST t = inorderBST x.
Proof.
  destruct x as [|xk xn xl [|yk yn T2 yr yh] xh]; try discriminate.
  intros [= <-]. simpl. by rewrite <- app_assoc.
Qed.

Lemma rebalance_inorder node key t :
  rebalance node key = Ret t -> inorderBST t = inorderBST node.
Proof.
  destruct node as [|k n l r h]; [discriminate|]. unfold rebalance. intros H.
  run_inv H. destruct a; [by apply rightRotate_inorder in H|].
  run_inv H. destruct a; [by apply leftRotate_inorder in H|].
  run_inv H. destruct a.
  { run_inv H. apply leftRotate_inorder in Hrun2. apply rightRotate_inorder in H.
    rewrite H. simpl. by rewrite Hrun2. }
  run_inv H. destruct a.
  { run_inv H. apply rightRotate_inorder in Hrun3. apply leftRotate_inorder in H.
    rewrite H. simpl. by rewrite Hrun3. }
  by injection H as <-.
Qed.

(** The keys of the tree after an insert: the old ones and the new one. *)
Lemma insertAVL_keys t key name t' x :
  insertAVL t key name = Ret t' ->
  x ∈ (inorderBST t').*1 <-> x = key \/ x ∈ (inorderBST t).*1.
Proof.
  revert t'. induction t as [|k n l IHl r IHr h]; intros t' H.
  - injection H as <-. simpl. rewrite list_elem_of_singleton, elem_of_nil. tauto.
  - cbn [insertAVL] in H. destruct (Z.ltb_spec key k) as [Hlt|Hge].
    + run_inv H. apply rebalance_inorder in H. rewrite H. simpl.
      rewrite !fmap_app, !fmap_cons, !elem_of_app, !elem_of_cons, (IHl _ Hrun). tauto.
    + rewrite Z.gtb_ltb in H. destruct (Z.ltb_spec k key) as [Hgt|Hle].
      * run_inv H. apply rebalance_inorder in H. rewrite H. simpl.
        rewrite !fmap_app, !fmap_cons, !elem_of_app, !elem_of_cons, (IHr _ Hrun). tauto.
      * injection H as <-. assert (key = k) as -> by lia. simpl.
        rewrite !fmap_app, !fmap_cons, !elem_of_app, !elem_of_cons. tauto.
Qed.

Lemma insertMany_keys kvs t t' x :
  insertMany kvs t = Ret t' ->
  x ∈ (inorderBST t').*1 <-> x ∈ kvs.*1 \/ x ∈ (inorderBST t).*1.
Proof.
  revert t. induction kvs as [|[k n] kvs IH]; intros t H.
  - injection H as <-. simpl. rewrite elem_of_nil. tauto.
  - cbn [insertMany] in H. run_inv H.
    rewrite (IH _ H), (insertAVL_keys _ _ _ _ _ Hrun), fmap_cons, elem_of_cons. simpl. tauto.
Qed.

(** C7.  Every sequence of inserts into the empty tree returns a tree in
    which each node caches its true height, the heights of the two subtrees
    of each node differ by at most one, and the in-order traversal lists
    the inserted keys in strictly ascending order. *)
Theorem insertMany_avl kvs :
  exists t, insertMany kvs Null = Ret t /\ balanced t /\
    StronglySorted Z.lt (inorderBST t).*1 /\
    forall x, x ∈ (inorderBST t).*1 <-> x ∈ kvs.*1.
Proof.
  destruct (insertMany_balanced kvs Null I) as (t & H & Hb).
  exists t. split; [done|]. split; [done|]. split.
  - apply ordered_inorder. by apply (insertMany_ordered kvs Null).
  - intros x. rewrite (insertMany_keys _ _ _ _ H). simpl. rewrite elem_of_nil. tauto.
Qed.

End AVLFacts.

Module AVLMoreFacts.
Import BalancedIndex BalancedIndexMore AVLFacts.

Lemma assoc_app x l1 l2 :
  assoc x (l1 ++ l2) = match assoc x l1 with Some p => Some p | None => assoc x l2 end.
Proof. induction l1 as [|[k n] l1 IH]; simpl; [done|]. by destruct (k =? x). Qed.

Lemma assoc_None x l : x ∉ l.*1 -> assoc x l = None.
Proof.
  induction l as [|[k n] l IH]; simpl; [done|]. rewrite not_elem_of_cons.
  intros [Hne Hl]. destruct (Z.eqb_spec k x); [done|auto].
Qed.

Lemma assoc_firstName x kvs : assoc x kvs = (fun n => (x, n)) <$> firstName kvs x.
Proof.
  induction kvs as [|[k n] kvs IH]; simpl; [done|].
  destruct (Z.eqb_spec k x); [by subst|done].
Qed.

(** On a search tree [searchBST] finds the first (and only) entry of the
    in-order listing that has the key. *)
Lemma searchBST_assoc t x :
  ordered t -> fields (searchBST t x) = assoc x (inorderBST t).
Proof.
  induction t as [|k n l IHl r IHr h]; simpl; [done|].
  intros (Hl & Hr & Hlt & Hgt). rewrite assoc_app. simpl.
  assert (forall y, k <= y -> assoc y (inorderBST l) = None) as Hnl.
  { intros y Hy. apply assoc_None. intros Hin.
    pose proof (all_keys_elem _ _ _ Hlt Hin). simpl in *. lia. }
  assert (forall y, y <= k -> assoc y (inorderBST r) = None) as Hnr.
  { intros y Hy. apply assoc_None. intros Hin.
    pose proof (all_keys_elem _ _ _ Hgt Hin). simpl in *. lia. }
  destruct (Z.eqb_spec x k) as [->|Hne].
  - rewrite Hnl by lia. by rewrite Z.eqb_refl.
  - destruct (Z.eqb_spec k x) as [?|_]; [lia|].
    destruct (Z.ltb_spec x k).
    + rewrite IHl by done. rewrite Hnr by lia. by destruct (assoc x (inorderBST l)).
    + rewrite IHr by done. by rewrite Hnl by lia.
Qed.

Lemma insertAVL_assoc t key name t' x :
  ordered t -> insertAVL t key name = Ret t' ->
  assoc x (inorderBST t') =
    match assoc x (inorderBST t) with
    | Some p => Some p
    | None => if key =? x then Some (key, name) else None
    end.
Proof.
  revert t'. induction t as [|k n l IHl r IHr h]; intros t' Hord H.
  - injection H as <-. done.
  - destruct Hord as (Hl & Hr & Hlt & Hgt).
    assert (forall y, k <= y -> assoc y (inorderBST l) = None) as Hnl.
    { intros y Hy. apply assoc_None. intros Hin.
      pose proof (all_keys_elem _ _ _ Hlt Hin). simpl in *. lia. }
    assert (forall y, y <= k -> assoc y (inorderBST r) = None) as Hnr.
    { intros y Hy. apply assoc_None. intros Hin.
      pose proof (all_keys_elem _ _ _ Hgt Hin). simpl in *. lia. }
    cbn [insertAVL] in H. destruct (Z.ltb_spec key k) as [Hlt'|Hge].
    + run_inv H as l' Hl'. apply rebalance_inorder in H. rewrite H. simpl.
      rewrite !assoc_app, (IHl _ Hl Hl'). simpl.
      destruct (assoc x (inorderBST l)); [done|].
      destruct (Z.eqb_spec key x) as [->|Hne].
      * destruct (Z.eqb_spec k x); [lia|]. by rewrite Hnr by lia.
      * destruct (k =? x); [done|]. by destruct (assoc x (inorderBST r)).
    + rewrite Z.gtb_ltb in H. destruct (Z.ltb_spec k key) as [Hgt'|Hle].
      * run_inv H as r' Hr'. apply rebalance_inorder in H. rewrite H. simpl.
        rewrite !assoc_app. simpl. rewrite (IHr _ Hr Hr').
        destruct (assoc x (inorderBST l)) eqn:El; [done|].
        destruct (k =? x); [done|]. done.
      * injection H as <-. assert (key = k) as -> by lia. simpl.
        rewrite !assoc_app. simpl.
        destruct (assoc x (inorderBST l)); [done|].
        destruct (Z.eqb_spec k x); [done|]. by destruct (assoc x (inorderBST r)).
Qed.

Lemma insertMany_assoc kvs t t' x :
  ordered t -> insertMany kvs t = Ret t' ->
  assoc x (inorderBST t') =
    match assoc x (inorderBST t) with
    | Some p => Some p
    | None => assoc x kvs
    end.
Proof.
  revert t. induction kvs as [|[k n] kvs IH]; intros t Hord H.
  - injection H as <-. simpl. by destruct (assoc x (inorderBST t)).
  - cbn [insertMany] in H. run_inv H as t1 Ht1.
    rewrite (IH t1); [|by apply (insertAVL_ordered _ _ _ _ Ht1)|done].
    rewrite (insertAVL_assoc _ _ _ _ x Hord Ht1). simpl.
    destruct (assoc x (inorderBST t)); [done|]. by destruct (k =? x).
Qed.

(** X10.  After any sequence of inserts into the empty tree, [searchBST]
    for a key returns a node carrying that key and the name given by the
    first insert under it (an insert under a key already present changes
    nothing), and the null pointer when no insert used the key. *)
Theorem searchBST_after_inserts kvs key :
  exists t, insertMany kvs Null = Ret t /\
    fields (searchBST t key) = (fun n => (key, n)) <$> firstName kvs key.
Proof.
  destruct (insertMany_balanced kvs Null I) as (t & H & _).
  exists t. split; [done|].
  rewrite searchBST_assoc by (by apply (insertMany_ordered kvs Null)).
  rewrite (insertMany_assoc kvs Null t key I H). simpl. apply assoc_firstName.
Qed.

Lemma size_inorder t : size t = Z.of_nat (length (inorderBST t)).
Proof. induction t; simpl; [done|]. rewrite length_app. simpl. lia. Qed.

Lemma pow_half_mono a b : 0 <= a <= b -> 2 ^ (a / 2) <= 2 ^ (b / 2).
Proof.
  intros H. apply Z.pow_le_mono_r; [lia|]. apply Z.div_le_mono; lia.
Qed.

Lemma sorted_lt_NoDup (l : list Z) : StronglySorted Z.lt l -> NoDup l.
Proof.
  induction 1 as [|x l Hl IH Hx]; constructor; [|done].
  intros Hin. rewrite Forall_forall in Hx. specialize (Hx x Hin). lia.
Qed.

Lemma size_nonneg t : 0 <= size t.
Proof. induction t; simpl; lia. Qed.

(** A tree with the AVL balance holds at least [2^(depth/2) - 1] nodes. *)
Lemma balanced_size t : balanced t -> 2 ^ (depth t / 2) <= size t + 1.
Proof.
  induction t as [|k n l IHl r IHr h]; [intros _; by vm_compute|].
  intros (Hl & Hr & _ & Hd). specialize (IHl Hl). specialize (IHr Hr).
  pose proof (depth_nonneg l). pose proof (depth_nonneg r).
  pose proof (size_nonneg l). pose proof (size_nonneg r).
  cbn [depth size].
  set (d := 1 + Z.max (depth l) (depth r)).
  destruct (decide (d <= 1)) as [Hsmall|Hbig].
  - replace (d / 2) with 0; [change (2 ^ 0) with 1; lia|].
    symmetry. apply Z.div_small. lia.
  - assert (d / 2 = (d - 2) / 2 + 1) as ->.
    { replace d with ((d - 2) + 1 * 2) at 1 by lia. by rewrite Z.div_add by lia. }
    rewrite Z.pow_add_r; [|apply Z.div_pos; lia|lia].
    pose proof (pow_half_mono (d - 2) (depth l) ltac:(lia)).
    pose proof (pow_half_mono (d - 2) (depth r) ltac:(lia)).
    lia.
Qed.

(** X11.  The height cached at the root after [n] inserts into the empty
    tree is logarithmic in [n]: [2^(height/2) <= n + 1]. *)
Theorem insertMany_height_logarithmic kvs :
  exists t, insertMany kvs Null = Ret t /\
    2 ^ (height t / 2) <= Z.of_nat (length kvs) + 1.
Proof.
  destruct (insertMany_balanced kvs Null I) as (t & H & Hb).
  exists t. split; [done|].
  rewrite (balanced_height t Hb). etrans; [by apply balanced_size|].
  rewrite size_inorder.
  assert (length (inorderBST t).*1 <= length kvs.*1)%nat as Hlen.
  { apply submseteq_length, NoDup_submseteq.
    - apply sorted_lt_NoDup, ordered_inorder.
      by apply (insertMany_ordered kvs Null).
    - intros x Hx. apply (insertMany_keys _ _ _ _ H) in Hx as [Hx|Hx]; [done|].
      simpl in Hx. by apply elem_of_nil in Hx. }
  rewrite !length_fmap in Hlen. lia.
Qed.

End AVLMoreFacts.

Module GraphFacts.
Import DeliveryGraph.

Lemma mget_in m i j :
  dims m -> 0 <= i < 20 -> 0 <= j < 20 -> exists w, mget m i j = Ret w.
Proof.
  intros [Hlen Hrows] Hi Hj. unfold mget.
  destruct (aget_in m i ltac:(lia)) as (row & -> & Hrow). rewrite bind_Ret_l.
  rewrite Forall_lookup in Hrows. specialize (Hrows _ _ Hrow).
  destruct (aget_in row j ltac:(lia)) as (w & -> & _). eauto.
Qed.

(** A write into the matrix changes the addressed entry only. *)
Lemma mset_in m i j w :
  dims m -> 0 <= i < 20 -> 0 <= j < 20 ->
  exists m', mset m i j w = Ret m' /\ dims m' /\
    forall i' j', 0 <= i' -> 0 <= j' ->
      mget m' i' j' = if decide (i' = i /\ j' = j) then Ret w else mget m i' j'.
Proof.
  intros [Hlen Hrows] Hi Hj. unfold mset.
  destruct (aget_in m i ltac:(lia)) as (row & Hget & Hrow). rewrite Hget, bind_Ret_l.
  pose proof Hrows as Hrows'. rewrite Forall_lookup in Hrows'.
  pose proof (Hrows' _ _ Hrow) as Hrl.
  rewrite aset_in by lia. rewrite bind_Ret_l. rewrite aset_in by lia.
  eexists. split; [done|]. split.
  - split; [by rewrite length_insert|]. apply Forall_insert; [done|].
    by rewrite length_insert.
  - intros i' j' Hi' Hj'. unfold mget. rewrite !(aget_lookup _ i') by done.
    destruct (decide (i' = i)) as [->|Hne].
    + rewrite list_lookup_insert_eq by lia. rewrite Hrow, !bind_Ret_l.
      rewrite !(aget_lookup _ j') by done.
      destruct (decide (j' = j)) as [->|Hne'].
      * rewrite list_lookup_insert_eq by lia. by rewrite decide_True.
      * rewrite list_lookup_insert_ne by lia. by rewrite decide_False by tauto.
    + rewrite list_lookup_insert_ne by lia. by rewrite decide_False by tauto.
Qed.

Lemma initDeliveryGraph_light n g :
  wf g -> 0 <= n <= MAX_LOCATIONS ->
  exists g', initDeliveryGraph n g = Ret g' /\ wf g' /\ light n (deliveryGraph g').
Proof.
  intros (Hlen & Hrows & Hadj) Hn. unfold MAX_LOCATIONS in Hn. unfold initDeliveryGraph.
  set (I := fun (i : Z) (g : t) =>
    wf g /\ forall i' j, 0 <= i' < i -> 0 <= j < n ->
      exists w, mget (deliveryGraph g) i' j = Ret w /\ w < INF).
  destruct (for_range_inv I 0 n
    (fun i g =>
       m ← for_range 0 n (fun j m => mset m i j (if i =? j then 0 else NO_EDGE))
            (deliveryGraph g);
       adj ← aset (adjList g) i [];
       Ret {| deliveryGraph := m; locationCount := locationCount g; adjList := adj |})
    {| deliveryGraph := deliveryGraph g; locationCount := n; adjList := adjList g |})
    as (g' & Hrun & [Hwf Hl]); [lia| | |].
  - split; [done|]. intros; lia.
  - intros i g1 Hi [(Hlen1 & Hrows1 & Hadj1) Hdone].
    set (J := fun (j : Z) (m : list (list Z)) =>
      dims m /\ forall i' j', 0 <= i' <= i -> 0 <= j' < n -> (i' = i -> j' < j) ->
        exists w, mget m i' j' = Ret w /\ w < INF).
    destruct (for_range_inv J 0 n
      (fun j m => mset m i j (if i =? j then 0 else NO_EDGE)) (deliveryGraph g1))
      as (m & -> & [Hdm Hm]); [lia| | |].
    + split; [done|]. intros i' j' Hi' Hj' Hlt. apply Hdone; [|done].
      destruct (decide (i' = i)) as [->|]; [specialize (Hlt eq_refl)|]; lia.
    + intros j m [Hdm Hm] [Hd Hprev].
      destruct (mset_in m i j (if i =? j then 0 else NO_EDGE) Hd ltac:(lia) ltac:(lia))
        as (m' & -> & Hd' & Hget).
      eexists. split; [done|]. split; [done|].
      intros i' j' Hi' Hj' Hlt. rewrite Hget by lia. case_decide as Hc.
      * eexists. split; [done|]. unfold INF, NO_EDGE. destruct (i =? j); lia.
      * apply Hprev; [done|done|]. intros ->. specialize (Hlt eq_refl). lia.
    + rewrite bind_Ret_l. rewrite aset_in by lia. rewrite bind_Ret_l.
      eexists. split; [done|]. destruct Hdm as [? ?]. split.
      * split; [done|]. split; [done|]. cbn. by rewrite length_insert.
      * intros i' j' Hi' Hj'. cbn. apply Hm; [lia|done|lia].
  - exists g'. split; [done|]. split; [done|]. intros i j Hi Hj. by apply Hl.
Qed.

Lemma addDeliveryEdge_light n u v w g :
  wf g -> light n (deliveryGraph g) -> 0 <= n <= MAX_LOCATIONS ->
  0 <= u < MAX_LOCATIONS -> 0 <= v < MAX_LOCATIONS -> w < INF ->
  exists g', addDeliveryEdge u v w g = Ret g' /\ wf g' /\ light n (deliveryGraph g').
Proof.
  intros (Hlen & Hrows & Hadj) Hl Hn Hu Hv Hw. unfold MAX_LOCATIONS in *.
  unfold addDeliveryEdge.
  destruct (mset_in (deliveryGraph g) u v w (conj Hlen Hrows) ltac:(lia) ltac:(lia))
    as (m1 & -> & Hd1 & Hg1). rewrite bind_Ret_l.
  destruct (mset_in m1 v u w Hd1 ltac:(lia) ltac:(lia)) as (m2 & -> & [? ?] & Hg2).
  rewrite bind_Ret_l.
  destruct (aget_in (adjList g) u ltac:(lia)) as (lu & -> & _). rewrite bind_Ret_l.
  rewrite aset_in by lia. rewrite bind_Ret_l.
  destruct (aget_in (<[Z.to_nat u := {| dest := v; weight := w |} :: lu]> (adjList g)) v
              ltac:(rewrite length_insert; lia)) as (lv & -> & _).
  rewrite bind_Ret_l. rewrite aset_in by (rewrite length_insert; lia). rewrite bind_Ret_l.
  eexists. split; [done|]. split.
  - split; [done|]. split; [done|]. cbn. by rewrite !length_insert.
  - intros i j Hi Hj. cbn. rewrite Hg2, Hg1 by lia.
    repeat case_decide; eauto.
Qed.

Lemma addEdges_light n edges g :
  wf g -> light n (deliveryGraph g) -> 0 <= n <= MAX_LOCATIONS ->
  Forall (fun '(u, v, w) =>
    0 <= u < MAX_LOCATIONS /\ 0 <= v < MAX_LOCATIONS /\ w < INF) edges ->
  exists g', addEdges edges g = Ret g' /\ wf g' /\ light n (deliveryGraph g').
Proof.
  intros Hwf Hl Hn Hall. revert g Hwf Hl.
  induction Hall as [|[[u v] w] edges (Hu & Hv & Hw) _ IH]; intros g Hwf Hl.
  - by exists g.
  - cbn [addEdges].
    destruct (addDeliveryEdge_light n u v w g Hwf Hl Hn Hu Hv Hw) as (g1 & -> & Hwf1 & Hl1).
    rewrite bind_Ret_l. by apply IH.
Qed.

(** The inner loop of the tour search finds an unvisited vertex whenever
    there is one. *)
Lemma nearest_found n m vis cur :
  light n m -> 0 <= cur < n -> Z.of_nat (length vis) = n ->
  exists best, for_range 0 n (nearer m vis cur) (-1, INF) = Ret best /\
    ((best.1 = -1 /\ forall j, 0 <= j < n -> vis !! Z.to_nat j = Some true) \/
     (0 <= best.1 < n /\ vis !! Z.to_nat best.1 = Some false)).
Proof.
  intros Hl Hc Hlen.
  set (K := fun (j : Z) (best : Z * Z) =>
    (best.1 = -1 /\ best.2 = INF /\
       forall j', 0 <= j' < j -> vis !! Z.to_nat j' = Some true) \/
    (0 <= best.1 < j /\ vis !! Z.to_nat best.1 = Some false)).
  destruct (for_range_inv K 0 n (nearer m vis cur) (-1, INF)) as (best & Hrun & HK);
    [lia| | |].
  - left. split; [done|]. split; [done|]. intros; lia.
  - intros j best Hj HKj. unfold nearer.
    destruct (aget_in vis j ltac:(lia)) as (seen & -> & Hseen). rewrite bind_Ret_l.
    destruct seen.
    + exists best. split; [done|]. destruct HKj as [(H1 & H2 & H3)|[H1 H2]].
      * left. split; [done|]. split; [done|]. intros j' Hj'.
        destruct (decide (j' = j)) as [->|]; [done|]. apply H3. lia.
      * right. split; [lia|done].
    + destruct (Hl cur j Hc Hj) as (w & -> & Hw). rewrite bind_Ret_l.
      destruct (Z.ltb_spec w best.2) as [Hlt|Hge].
      * eexists. split; [done|]. right. cbn. split; [lia|done].
      * exists best. split; [done|]. destruct HKj as [(H1 & H2 & H3)|[H1 H2]]; [lia|].
        right. split; [lia|done].
  - exists best. split; [done|]. destruct HK as [(H1 & H2 & H3)|H]; [left|right]; auto.
Qed.

Lemma covers_length n (l : list Z) :
  0 <= n -> (forall j, 0 <= j < n -> j ∈ l) -> n <= Z.of_nat (length l).
Proof.
  intros Hn Hall.
  assert (seqZ 0 n ⊆+ l) as Hsub.
  { apply NoDup_submseteq; [apply NoDup_seqZ|]. intros x Hx%elem_of_seqZ. apply Hall. lia. }
  apply submseteq_length in Hsub. rewrite length_seqZ in Hsub. lia.
Qed.

Lemma visit_nearest_inv n start m i st :
  light n m -> 1 <= i < n -> tour_inv n start i st ->
  exists st', visit_nearest m n i st = Ret st' /\ tour_inv n start (i + 1) st'.
Proof.
  intros Hl Hi (Hlen & Hrl & Hnd & Hmem & Hcur & Hhd). unfold visit_nearest.
  destruct (nearest_found n m (visited st) (current st) Hl Hcur Hlen)
    as (best & -> & Hbest). rewrite bind_Ret_l.
  destruct Hbest as [[_ Hall]|[Hb Hfree]].
  - exfalso. pose proof (covers_length n (route st) ltac:(lia)) as Hc.
    assert (n <= Z.of_nat (length (route st))); [|lia].
    apply Hc. intros j Hj. apply Hmem. auto.
  - rewrite (proj2 (Z.eqb_neq _ _)) by lia.
    rewrite aset_in by lia. rewrite bind_Ret_l.
    eexists. split; [done|]. unfold tour_inv. cbn.
    assert (best.1 ∉ route st) as Hnew.
    { intros [_ Hv]%Hmem. congruence. }
    split; [by rewrite length_insert|].
    split; [rewrite length_app; cbn; lia|].
    split.
    { apply NoDup_app. split; [done|]. split; [|apply NoDup_singleton].
      intros x Hx Hx'%list_elem_of_singleton. by subst. }
    split; [|split; [lia|by destruct (route st)]].
    intros v. rewrite elem_of_app, list_elem_of_singleton, Hmem.
    destruct (decide (v = best.1)) as [->|Hne].
    + rewrite list_lookup_insert_eq by lia. split; [intros _; split; [lia|done]|auto].
    + split.
      * intros [[Hv Hlk]|?]; [|done]. split; [done|].
        rewrite list_lookup_insert_ne by lia. done.
      * intros [Hv Hlk]. left. split; [done|].
        rewrite list_lookup_insert_ne in Hlk by lia. done.
Qed.

(** C10, as amended.  For [1 <= n <= 20], a start vertex in [[0, n)] and a
    graph built by [initDeliveryGraph(n)] and any [addDeliveryEdge] calls
    (on vertex numbers inside the arrays) whose weights are below [10^9],
    the tour has [n + 1] entries, begins and ends at the start vertex, and
    lists every vertex of [[0, n)] exactly once before the closing entry. *)
Theorem tour_visits_every_vertex n start edges g0 :
  wf g0 -> 1 <= n <= MAX_LOCATIONS -> 0 <= start < n ->
  Forall (fun '(u, v, w) =>
    0 <= u < MAX_LOCATIONS /\ 0 <= v < MAX_LOCATIONS /\ w < INF) edges ->
  exists g tour,
    build n edges g0 = Ret g /\
    tspApproximation g start n = Ret (tour ++ [start]) /\
    length (tour ++ [start]) = Z.to_nat (n + 1) /\
    head tour = Some start /\
    tour ≡ₚ seqZ 0 n.
Proof.
  intros Hwf Hn Hs Hedges. unfold build.
  destruct (initDeliveryGraph_light n g0 Hwf ltac:(lia)) as (g1 & -> & Hwf1 & Hl1).
  rewrite bind_Ret_l.
  destruct (addEdges_light n edges g1 Hwf1 Hl1 ltac:(lia) Hedges) as (g & -> & Hwfg & Hl).
  exists g. unfold tspApproximation.
  rewrite aset_in by (rewrite length_replicate; lia). rewrite bind_Ret_l.
  destruct (for_range_inv (tour_inv n start) 1 n (visit_nearest (deliveryGraph g) n)
    {| route := [start];
       visited := <[Z.to_nat start := true]> (replicate (Z.to_nat n) false);
       current := start |}) as (st & -> & Hinv); [lia| | |].
  - unfold tour_inv. cbn.
    split; [rewrite length_insert, length_replicate; lia|].
    split; [done|]. split; [apply NoDup_singleton|]. split; [|split; [lia|done]].
    intros v. rewrite list_elem_of_singleton.
    destruct (decide (v = start)) as [->|Hne].
    + rewrite list_lookup_insert_eq by (rewrite length_replicate; lia).
      split; [intros _; split; [lia|done]|done].
    + split; [done|]. intros [Hv Hlk].
      rewrite list_lookup_insert_ne in Hlk by lia.
      by apply lookup_replicate_1 in Hlk as [[=] _].
  - intros i st Hi Hinv. by apply visit_nearest_inv.
  - rewrite bind_Ret_l. exists (route st).
    destruct Hinv as (Hlen & Hrl & Hnd & Hmem & Hcur & Hhd).
    split; [done|]. split; [done|]. split; [rewrite length_app; cbn; lia|].
    split; [done|].
    apply submseteq_length_Permutation.
    + apply NoDup_submseteq; [done|]. intros x Hx%Hmem. apply elem_of_seqZ. lia.
    + rewrite length_seqZ. lia.
Qed.

(** C10, counterexample.  With two vertices joined by an edge of weight
    [10^9] the tour from 0 is [0, 0]: vertex 1 is never visited. *)
Lemma heavy_edge_cuts_tour_short :
  (g ← heavyGraph; tspApproximation g 0 2) = Ret [0; 0].
Proof. vm_compute. reflexivity. Qed.

(** C10, witness: the demonstration graph, from vertex 0. *)
Lemma tour_visits_every_vertex_witness :
  exists g tour,
    build 6 demoEdges initial = Ret g /\
    tspApproximation g 0 6 = Ret (tour ++ [0]) /\
    length (tour ++ [0]) = Z.to_nat (6 + 1) /\
    head tour = Some 0 /\
    tour ≡ₚ seqZ 0 6.
Proof.
  apply tour_visits_every_vertex.
  - split; [reflexivity|]. split; [|reflexivity].
    vm_compute. repeat constructor.
  - unfold MAX_LOCATIONS. lia.
  - lia.
  - unfold demoEdges, INF, MAX_LOCATIONS. repeat constructor; lia.
Defined.

(** C5, counterexample.  The last leg printed for the demonstration graph
    is [3 -> 0] with the finite distance 99999. *)
Lemma closing_leg_reported_finite :
  (g ← demoGraph; r ← tspApproximation g 0 6; d ← displayTSPRoute g r; Ret (last d.1))
  = Ret (Some (3, 0, 99999)).
Proof. vm_compute. reflexivity. Qed.

(** C5, as amended.  On the demonstration graph the tour from vertex 0 is
    [0, 1, 2, 5, 4, 3, 0]; the matrix holds the no-edge marker 99999 for the
    pair (3, 0), and the closing leg is printed with that marker as its
    distance and counted into the printed total. *)
Theorem demo_tour_and_legs :
  (g ← demoGraph; r ← tspApproximation g 0 6; d ← displayTSPRoute g r; Ret (r, d))
  = Ret ([0; 1; 2; 5; 4; 3; 0],
         ([(0, 1, 7); (1, 2, 10); (2, 5, 2); (5, 4, 9); (4, 3, 6); (3, 0, NO_EDGE)],
          7 + 10 + 2 + 9 + 6 + NO_EDGE))
  /\ (g ← demoGraph; mget (deliveryGraph g) 3 0) = Ret NO_EDGE.
Proof. split; vm_compute; reflexivity. Qed.

(** C4.  Vertex 2 of the three-vertex graph has no edge, hence no path
    from vertex 0, yet [dijkstraOptimized] prints distance 99999 "via 0"
    for it: the no-edge marker is relaxed like an edge weight, and the
    [-1] that the print loop keeps for [dist == 1e9] is never produced. *)
Theorem isolated_vertex_gets_marker_distance :
  (g ← isolatedGraph; aget (adjList g) 2) = Ret [] /\
  (g ← isolatedGraph; dijkstraOptimized 100 g 0 3)
  = Ret [ {| location := 0; distance := 0; via := None |};
          {| location := 1; distance := 5; via := Some 0 |};
          {| location := 2; distance := NO_EDGE; via := Some 0 |} ].
Proof. split; vm_compute; reflexivity. Qed.

End GraphFacts.

Module GraphMoreFacts.
Import DeliveryGraph DeliveryGraphMore GraphFacts.

Lemma initDeliveryGraph_entries n g :
  wf g -> 0 <= n <= MAX_LOCATIONS ->
  exists g', initDeliveryGraph n g = Ret g' /\ wf g' /\ locationCount g' = n /\
    (forall i j, 0 <= i < n -> 0 <= j < n ->
       mget (deliveryGraph g') i j = Ret (if i =? j then 0 else NO_EDGE)) /\
    (forall i, 0 <= i < n -> adjList g' !! Z.to_nat i = Some []).
Proof.
  intros (Hlen & Hrows & Hadj) Hn. unfold MAX_LOCATIONS in Hn. unfold initDeliveryGraph.
  set (I := fun (i : Z) (g : t) =>
    wf g /\ locationCount g = n /\
    (forall i' j, 0 <= i' < i -> 0 <= j < n ->
       mget (deliveryGraph g) i' j = Ret (if i' =? j then 0 else NO_EDGE)) /\
    (forall i', 0 <= i' < i -> adjList g !! Z.to_nat i' = Some [])).
  destruct (for_range_inv I 0 n
    (fun i g =>
       m ← for_range 0 n (fun j m => mset m i j (if i =? j then 0 else NO_EDGE))
            (deliveryGraph g);
       adj ← aset (adjList g) i [];
       Ret {| deliveryGraph := m; locationCount := locationCount g; adjList := adj |})
    {| deliveryGraph := deliveryGraph g; locationCount := n; adjList := adjList g |})
    as (g' & Hrun & Hwf & Hcount & Hm & Ha); [lia| | |].
  - split; [done|]. split; [done|]. split; intros; lia.
  - intros i g1 Hi ((Hlen1 & Hrows1 & Hadj1) & Hc1 & Hdone & Hadone).
    set (J := fun (j : Z) (m : list (list Z)) =>
      dims m /\ forall i' j', 0 <= i' <= i -> 0 <= j' < n -> (i' = i -> j' < j) ->
        mget m i' j' = Ret (if i' =? j' then 0 else NO_EDGE)).
    destruct (for_range_inv J 0 n
      (fun j m => mset m i j (if i =? j then 0 else NO_EDGE)) (deliveryGraph g1))
      as (m & -> & [Hdm Hm]); [lia| | |].
    + split; [done|]. intros i' j' Hi' Hj' Hlt. apply Hdone; [|done].
      destruct (decide (i' = i)) as [->|]; [specialize (Hlt eq_refl)|]; lia.
    + intros j m Hj [Hd Hprev].
      destruct (mset_in m i j (if i =? j then 0 else NO_EDGE) Hd ltac:(lia) ltac:(lia))
        as (m' & -> & Hd' & Hget).
      eexists. split; [done|]. split; [done|].
      intros i' j' Hi' Hj' Hlt. rewrite Hget by lia. case_decide as Hc.
      * destruct Hc as [-> ->]. done.
      * apply Hprev; [done|done|]. intros ->. specialize (Hlt eq_refl). lia.
    + rewrite bind_Ret_l. rewrite aset_in by lia. rewrite bind_Ret_l.
      eexists. split; [done|]. destruct Hdm as [? ?]. split; [|split; [|split]].
      * split; [done|]. split; [done|]. cbn. by rewrite length_insert.
      * done.
      * intros i' j' Hi' Hj'. cbn. apply Hm; [lia|done|lia].
      * intros i' Hi'. cbn. destruct (decide (i' = i)) as [->|Hne].
        { apply list_lookup_insert_eq. lia. }
        rewrite list_lookup_insert_ne by lia. apply Hadone. lia.
  - exists g'. done.
Qed.

Lemma addDeliveryEdge_entries u v w g :
  wf g -> 0 <= u < MAX_LOCATIONS -> 0 <= v < MAX_LOCATIONS ->
  exists g', addDeliveryEdge u v w g = Ret g' /\ wf g' /\
    locationCount g' = locationCount g /\
    (forall i j, 0 <= i -> 0 <= j ->
       mget (deliveryGraph g') i j =
         if joins (u, v, w) i j then Ret w else mget (deliveryGraph g) i j) /\
    (forall i cell, 0 <= i ->
       cell ∈ neighbours g' i <->
       cell ∈ neighbours g i \/ (i = u /\ cell = {| dest := v; weight := w |}) \/
       (i = v /\ cell = {| dest := u; weight := w |})).
Proof.
  intros (Hlen & Hrows & Hadj) Hu Hv. unfold MAX_LOCATIONS in *.
  unfold addDeliveryEdge.
  destruct (mset_in (deliveryGraph g) u v w (conj Hlen Hrows) ltac:(lia) ltac:(lia))
    as (m1 & -> & Hd1 & Hg1). rewrite bind_Ret_l.
  destruct (mset_in m1 v u w Hd1 ltac:(lia) ltac:(lia)) as (m2 & -> & [? ?] & Hg2).
  rewrite bind_Ret_l.
  destruct (aget_in (adjList g) u ltac:(lia)) as (lu & -> & Hlu). rewrite bind_Ret_l.
  rewrite aset_in by lia. rewrite bind_Ret_l.
  destruct (aget_in (<[Z.to_nat u := {| dest := v; weight := w |} :: lu]> (adjList g)) v
              ltac:(rewrite length_insert; lia)) as (lv & -> & Hlv).
  rewrite bind_Ret_l. rewrite aset_in by (rewrite length_insert; lia). rewrite bind_Ret_l.
  eexists. split; [done|]. split; [|split; [done|split]].
  - split; [done|]. split; [done|]. cbn. by rewrite !length_insert.
  - intros i j Hi Hj. cbn. rewrite Hg2, Hg1 by lia.
    destruct (Z.eqb_spec u i), (Z.eqb_spec v j), (Z.eqb_spec u j), (Z.eqb_spec v i);
      cbn; repeat case_decide; (done || lia).
  - intros i cell Hi. unfold neighbours. cbn.
    destruct (decide (i = v)) as [->|Hiv].
    + rewrite list_lookup_insert_eq by (rewrite length_insert; lia). cbn.
      destruct (decide (v = u)) as [->|Huv].
      * rewrite list_lookup_insert_eq in Hlv by lia. injection Hlv as <-.
        rewrite Hlu. cbn. rewrite !elem_of_cons. tauto.
      * rewrite list_lookup_insert_ne in Hlv by lia. rewrite Hlv. cbn.
        rewrite !elem_of_cons. intuition congruence.
    + rewrite list_lookup_insert_ne by lia.
      destruct (decide (i = u)) as [->|Hiu].
      * rewrite list_lookup_insert_eq by lia. rewrite Hlu. cbn.
        rewrite !elem_of_cons. intuition congruence.
      * rewrite list_lookup_insert_ne by lia. intuition congruence.
Qed.

Lemma addEdges_entries edges g :
  wf g ->
  Forall (fun '(u, v, _) => 0 <= u < MAX_LOCATIONS /\ 0 <= v < MAX_LOCATIONS) edges ->
  exists g', addEdges edges g = Ret g' /\ wf g' /\ locationCount g' = locationCount g /\
    (forall i j, 0 <= i -> 0 <= j ->
       mget (deliveryGraph g') i j =
         match lastWeight edges i j with
         | Some w => Ret w
         | None => mget (deliveryGraph g) i j
         end) /\
    (forall i cell, 0 <= i ->
       cell ∈ neighbours g' i <->
       cell ∈ neighbours g i \/ (i, dest cell, weight cell) ∈ edges \/
       (dest cell, i, weight cell) ∈ edges).
Proof.
  intros Hwf Hall. revert g Hwf.
  induction Hall as [|[[u v] w] edges (Hu & Hv) _ IH]; intros g Hwf.
  - exists g. split; [done|]. split; [done|]. split; [done|]. split; [done|].
    intros i cell Hi. rewrite !elem_of_nil. tauto.
  - cbn [addEdges lastWeight].
    destruct (addDeliveryEdge_entries u v w g Hwf Hu Hv)
      as (g1 & -> & Hwf1 & Hc1 & Hm1 & Ha1).
    rewrite bind_Ret_l.
    destruct (IH g1 Hwf1) as (g' & -> & Hwf' & Hc' & Hm' & Ha').
    exists g'. split; [done|]. split; [done|]. split; [congruence|]. split.
    + intros i j Hi Hj. rewrite Hm' by done.
      destruct (lastWeight edges i j); [done|]. rewrite Hm1 by done.
      by destruct (joins (u, v, w) i j).
    + intros i cell Hi. rewrite Ha', Ha1 by done. rewrite !elem_of_cons.
      destruct cell as [d wt]. cbn. split.
      * intros H; destruct_or!; destruct_and?; simplify_eq; auto.
      * intros H; destruct_or!; simplify_eq; auto 6.
Qed.

Lemma lastWeight_sym edges i j : lastWeight edges j i = lastWeight edges i j.
Proof.
  induction edges as [|[[u v] w] edges IH]; [done|].
  cbn [lastWeight]. rewrite IH.
  destruct (lastWeight edges i j); [done|]. unfold joins.
  by rewrite orb_comm.
Qed.

(** X19.  [initDeliveryGraph(n)] followed by [addDeliveryEdge] calls with
    endpoints below [n] returns; the matrix entry of [i], [j] is the weight
    of the last edge added between them (in either direction), else 0 on
    the diagonal and 99999 elsewhere, so the matrix is symmetric; and the
    chain [adjList[i]] holds a cell [(j, w)] exactly for the added edges
    [(i, j, w)] and [(j, i, w)]. *)
Theorem build_represents_edges n edges g :
  wf g -> 0 <= n <= MAX_LOCATIONS ->
  Forall (fun '(u, v, _) => 0 <= u < n /\ 0 <= v < n) edges ->
  exists g', build n edges g = Ret g' /\ wf g' /\ locationCount g' = n /\
    (forall i j, 0 <= i < n -> 0 <= j < n ->
       mget (deliveryGraph g') i j =
         Ret (default (if i =? j then 0 else NO_EDGE) (lastWeight edges i j)) /\
       mget (deliveryGraph g') j i = mget (deliveryGraph g') i j) /\
    (forall i cell, 0 <= i < n ->
       cell ∈ neighbours g' i <->
       (i, dest cell, weight cell) ∈ edges \/ (dest cell, i, weight cell) ∈ edges).
Proof.
  intros Hwf Hn Hall. unfold build.
  destruct (initDeliveryGraph_entries n g Hwf Hn) as (g0 & -> & Hwf0 & Hc0 & Hm0 & Ha0).
  rewrite bind_Ret_l.
  destruct (addEdges_entries edges g0 Hwf0) as (g' & -> & Hwf' & Hc' & Hm' & Ha').
  { eapply Forall_impl; [exact Hall|]. intros [[u v] w]. unfold MAX_LOCATIONS in *. lia. }
  pose proof (lastWeight_sym edges) as Hsym.
  exists g'. split; [done|]. split; [done|]. split; [congruence|]. split.
  - intros i j Hi Hj.
    assert (forall i j, 0 <= i < n -> 0 <= j < n ->
      mget (deliveryGraph g') i j =
        Ret (default (if i =? j then 0 else NO_EDGE) (lastWeight edges i j))) as Hentry.
    { intros i' j' Hi' Hj'. rewrite Hm' by lia.
      destruct (lastWeight edges i' j'); [done|]. by apply Hm0. }
    split; [by apply Hentry|]. rewrite !Hentry by done. rewrite Hsym.
    by rewrite (Z.eqb_sym j i).
  - intros i cell Hi. rewrite Ha' by lia. unfold neighbours at 1.
    rewrite Ha0 by done. cbn. rewrite elem_of_nil. tauto.
Qed.

(** X19, witness: the graph of the built-in demonstration. *)
Lemma build_represents_edges_witness :
  exists g', build 6 demoEdges initial = Ret g' /\ wf g' /\ locationCount g' = 6 /\
    (forall i j, 0 <= i < 6 -> 0 <= j < 6 ->
       mget (deliveryGraph g') i j =
         Ret (default (if i =? j then 0 else NO_EDGE) (lastWeight demoEdges i j)) /\
       mget (deliveryGraph g') j i = mget (deliveryGraph g') i j) /\
    (forall i cell, 0 <= i < 6 ->
       cell ∈ neighbours g' i <->
       (i, dest cell, weight cell) ∈ demoEdges \/ (dest cell, i, weight cell) ∈ demoEdges).
Proof.
  apply build_represents_edges.
  - split; [reflexivity|]. split; [|reflexivity]. repeat constructor.
  - vm_compute. split; discriminate.
  - unfold demoEdges. repeat (constructor; [lia|]). constructor.
Defined.

End GraphMoreFacts.

(** ** Shortest routes: [dijkstraOptimized] *)

Module DijkstraFacts.
Import DeliveryGraph DeliveryGraphMore GraphFacts.

Lemma pq_push_elem x y pq : x ∈ pq_push y pq <-> x = y \/ x ∈ pq.
Proof.
  induction pq as [|z pq IH]; cbn.
  - rewrite elem_of_cons, elem_of_nil. tauto.
  - destruct (pair_le y z); rewrite !elem_of_cons; [tauto|]. rewrite IH. tauto.
Qed.

Lemma pq_push_length y pq : length (pq_push y pq) = S (length pq).
Proof.
  induction pq as [|z pq IH]; cbn; [done|].
  destruct (pair_le y z); cbn; congruence.
Qed.

Lemma pq_push_NoDup y pq : y ∉ pq -> NoDup pq -> NoDup (pq_push y pq).
Proof.
  induction pq as [|z pq IH]; intros Hy Hnd; cbn.
  - apply NoDup_singleton.
  - destruct (pair_le y z); [by apply NoDup_cons|].
    apply NoDup_cons in Hnd as [Hz Hnd]. apply not_elem_of_cons in Hy as [Hyz Hy].
    apply NoDup_cons. split; [|by apply IH].
    rewrite pq_push_elem. intros [->|?]; done.
Qed.

Lemma pq_push_sorted y pq :
  StronglySorted by_key pq -> StronglySorted by_key (pq_push y pq).
Proof.
  induction pq as [|z pq IH]; intros Hs; cbn.
  - repeat constructor.
  - apply StronglySorted_cons in Hs as [Hz Hs]. unfold pair_le.
    destruct ((y.1 <? z.1) || (y.1 =? z.1) && (y.2 <=? z.2)) eqn:Hle.
    + assert (y.1 <= z.1) as Hyz.
      { apply orb_true_iff in Hle as [Hlt|Heq]; [apply Z.ltb_lt in Hlt; lia|].
        apply andb_true_iff in Heq as [Heq _]. apply Z.eqb_eq in Heq. lia. }
      apply StronglySorted_cons. split; [|by apply StronglySorted_cons].
      constructor; [done|]. eapply Forall_impl; [exact Hz|].
      intros x Hx. unfold by_key in *. lia.
    + apply orb_false_iff in Hle as [Hlt _]. apply Z.ltb_ge in Hlt.
      apply StronglySorted_cons. split; [|by apply IH].
      apply Forall_forall. intros x Hx. apply pq_push_elem in Hx as [->|Hx]; [done|].
      rewrite Forall_forall in Hz. by apply Hz.
Qed.

Lemma in_range_length n (P : list Z) :
  NoDup P -> Forall (fun x => 0 <= x < n) P -> Z.of_nat (length P) <= Z.max 0 n.
Proof.
  intros Hnd Hall.
  assert (P ⊆+ seqZ 0 n) as Hsub.
  { apply NoDup_submseteq; [done|]. intros x Hx. rewrite Forall_forall in Hall.
    apply elem_of_seqZ. specialize (Hall x Hx). lia. }
  apply submseteq_length in Hsub. rewrite length_seqZ in Hsub. lia.
Qed.

Lemma route_end_snoc u p v : route_end u (p ++ [v]) = v.
Proof. unfold route_end. by rewrite last_snoc. Qed.

Lemma route_end_cons u v p : route_end u (v :: p) = route_end v p.
Proof.
  unfold route_end. rewrite last_cons. by destruct (last p).
Qed.

Section Graph.
Variables (m : list (list Z)) (n src : Z).
Hypothesis Hdims : dims m.
Hypothesis Hn : n <= MAX_LOCATIONS.
Hypothesis Hsrc : 0 <= src < n.
Hypothesis Hweights : weights_in n m = true.

Lemma weight_in i j :
  0 <= i < n -> 0 <= j < n -> exists w, mget m i j = Ret w /\ 0 <= w <= INT_MAX - INF.
Proof using Hweights.
  intros Hi Hj. unfold weights_in in Hweights.
  rewrite forallb_forall in Hweights.
  assert (In i (seqZ 0 n)) as Hini. { apply list_elem_of_In, elem_of_seqZ. lia. }
  specialize (Hweights i Hini). rewrite forallb_forall in Hweights.
  assert (In j (seqZ 0 n)) as Hinj. { apply list_elem_of_In, elem_of_seqZ. lia. }
  specialize (Hweights j Hinj).
  destruct (mget m i j) as [w| |]; try discriminate.
  exists w. split; [done|]. lia.
Qed.

Lemma route_length_snoc u p v L w :
  route_length m n u p = Some L -> 0 <= v < n ->
  mget m (route_end u p) v = Ret w -> w <> 0 ->
  route_length m n u (p ++ [v]) = Some (L + w).
Proof.
  revert u L. induction p as [|x p IH]; intros u L HL Hv Hw Hne.
  - injection HL as <-. cbn in *. unfold route_end in Hw. cbn in Hw.
    rewrite (proj2 (Z.leb_le 0 v)), (proj2 (Z.ltb_lt v n)) by lia. cbn.
    rewrite Hw. rewrite (proj2 (Z.eqb_neq w 0)) by done. cbn. f_equal. lia.
  - cbn [app route_length] in *. destruct ((0 <=? x) && (x <? n)); [|discriminate].
    destruct (mget m u x) as [wx| |]; try discriminate.
    destruct (wx =? 0); [discriminate|].
    destruct (route_length m n x p) as [L'|] eqn:HL'; [|discriminate].
    injection HL as <-. rewrite route_end_cons in Hw.
    rewrite (IH x L' HL' Hv Hw Hne). cbn. f_equal. lia.
Qed.

Lemma route_length_nonneg u p L :
  0 <= u < n -> route_length m n u p = Some L -> 0 <= L.
Proof using Hweights.
  revert u L. induction p as [|x p IH]; intros u L Hu HL.
  - injection HL as <-. lia.
  - cbn [route_length] in HL. destruct ((0 <=? x) && (x <? n)) eqn:Hx; [|discriminate].
    apply andb_true_iff in Hx as [Hx1 Hx2].
    apply Z.leb_le in Hx1. apply Z.ltb_lt in Hx2.
    destruct (weight_in u x Hu ltac:(lia)) as (w & Hw & Hwb). rewrite Hw in HL.
    destruct (w =? 0); [discriminate|].
    destruct (route_length m n x p) as [L'|] eqn:HL'; [|discriminate].
    injection HL as <-. specialize (IH x L' ltac:(lia) HL'). lia.
Qed.

(** With every finite vertex closed, no route beats the recorded distance. *)
Lemma closed_lower_bound dist p :
  (forall u du, 0 <= u < n -> dist !! Z.to_nat u = Some du -> du < INF -> closed m n dist u) ->
  forall u du D L, 0 <= u < n -> dist !! Z.to_nat u = Some du -> du <= D ->
    route_length m n u p = Some L -> D + L < INF ->
    exists dv, dist !! Z.to_nat (route_end u p) = Some dv /\ dv <= D + L.
Proof using Hweights.
  intros Hclosed. induction p as [|x p IH]; intros u du D L Hu Hdu HD HL Hlt.
  - injection HL as <-. exists du. split; [done|lia].
  - cbn [route_length] in HL. destruct ((0 <=? x) && (x <? n)) eqn:Hx; [|discriminate].
    apply andb_true_iff in Hx as [Hx1 Hx2].
    apply Z.leb_le in Hx1. apply Z.ltb_lt in Hx2.
    destruct (weight_in u x Hu ltac:(lia)) as (w & Hw & Hwb). rewrite Hw in HL.
    destruct (w =? 0) eqn:Hw0; [discriminate|]. apply Z.eqb_neq in Hw0.
    destruct (route_length m n x p) as [L'|] eqn:HL'; [|discriminate].
    injection HL as <-.
    pose proof (route_length_nonneg x p L' ltac:(lia) HL') as HL0.
    destruct (Hclosed u du Hu Hdu ltac:(lia) x w du ltac:(lia) Hw Hw0 Hdu)
      as (dx & Hdx & Hle).
    rewrite route_end_cons.
    destruct (IH x dx (D + w) L' ltac:(lia) Hdx ltac:(lia) HL' ltac:(lia))
      as (dv & Hdv & Hle').
    exists dv. split; [done|lia].
Qed.

Lemma relax_step u du P bound j st :
  0 <= u < n -> du < INF -> 0 <= j < n ->
  relaxing m n src u du P bound j st ->
  exists st', relax m u j st = Ret st' /\ relaxing m n src u du P bound (j + 1) st'.
Proof using Hdims Hn Hsrc Hweights.
  intros Hu Hdu Hj (Hinv & Hdistu & Hset & Hdone & Hq & HP & Hkeys & Hbound).
  destruct Hq as (Hnd & Hsorted & HndP & HPn & Hproc).
  destruct Hinv as [Hld Hlp Hs Hpq Hroute Hpar].
  unfold relax. destruct (weight_in u j Hu Hj) as (w & Hw & Hwb). rewrite Hw, bind_Ret_l.
  destruct (w =? 0) eqn:Hw0.
  { apply Z.eqb_eq in Hw0 as ->. exists st. split; [done|].
    split; [by constructor|]. split; [done|]. split; [done|].
    split; [|split; [done|split; [done|split; [done|lia]]]].
    intros v w' Hv Hw' Hne. destruct (decide (v = j)) as [->|Hvj].
    - rewrite Hw in Hw'. by injection Hw' as <-.
    - apply Hdone; [lia|done|done]. }
  apply Z.eqb_neq in Hw0.
  rewrite (aget_lookup _ u) by lia. rewrite Hdistu, bind_Ret_l.
  destruct (Hroute u du ltac:(lia) Hdistu) as [Hdu0 Hru].
  rewrite (int_of_in (du + w)) by (unfold INT_MIN, INT_MAX, INF in *; lia).
  rewrite bind_Ret_l.
  destruct (aget_in (dist st) j ltac:(lia)) as (dv & -> & Hdv). rewrite bind_Ret_l.
  destruct (Hroute j dv ltac:(lia) Hdv) as [Hdv0 _].
  destruct (du + w <? dv) eqn:Hlt.
  2:{ apply Z.ltb_ge in Hlt. exists st. split; [done|].
      split; [by constructor|]. split; [done|]. split; [done|].
      split; [|split; [done|split; [done|split; [done|lia]]]].
      intros v w' Hv Hw' Hne. destruct (decide (v = j)) as [->|Hvj].
      - rewrite Hw in Hw'. injection Hw' as <-. eauto.
      - apply Hdone; [lia|done|done]. }
  apply Z.ltb_lt in Hlt.
  assert (j <> u) as Hju. { intros ->. rewrite Hdistu in Hdv. injection Hdv as <-. lia. }
  assert (j <> src) as Hjs. { intros ->. rewrite Hs in Hdv. injection Hdv as <-. lia. }
  rewrite (aset_in (dist st) j (du + w)) by lia. rewrite bind_Ret_l.
  rewrite (aset_in (parent st) j u) by lia. rewrite bind_Ret_l.
  eexists. split; [done|].
  set (dist' := <[Z.to_nat j := du + w]> (dist st)).
  assert (forall x dx', 0 <= x -> dist' !! Z.to_nat x = Some dx' ->
            (x = j /\ dx' = du + w) \/ (x <> j /\ dist st !! Z.to_nat x = Some dx')) as Hcases.
  { intros x dx' Hx Hl. unfold dist' in Hl. destruct (decide (x = j)) as [->|Hxj].
    - rewrite list_lookup_insert_eq in Hl by lia. injection Hl as <-. by left.
    - rewrite list_lookup_insert_ne in Hl by lia. by right. }
  assert (forall x dx, 0 <= x -> dist st !! Z.to_nat x = Some dx ->
            exists dx', dist' !! Z.to_nat x = Some dx' /\ dx' <= dx) as Hdown.
  { intros x dx Hx Hl. unfold dist'. destruct (decide (x = j)) as [->|Hxj].
    - rewrite list_lookup_insert_eq by lia. rewrite Hdv in Hl. injection Hl as <-.
      exists (du + w). split; [done|lia].
    - rewrite list_lookup_insert_ne by lia. exists dx. split; [done|lia]. }
  assert (forall x, 0 <= x -> x <> j -> dist' !! Z.to_nat x = dist st !! Z.to_nat x) as Hsame.
  { intros x Hx Hxj. unfold dist'. by rewrite list_lookup_insert_ne by lia. }
  assert (dist' !! Z.to_nat j = Some (du + w)) as Hnew.
  { unfold dist'. by rewrite list_lookup_insert_eq by lia. }
  assert (forall x, x ∈ P -> x <> j) as HPj.
  { intros x Hx ->. specialize (HP j dv Hx Hdv). lia. }
  split; [|split; [|split; [|split; [|split; [|split; [|split]]]]]].
  - constructor; cbn [dist parent pq]; fold dist'.
    + unfold dist'. by rewrite length_insert.
    + by rewrite length_insert.
    + by rewrite Hsame by lia.
    + intros d x Hin. apply pq_push_elem in Hin as [[= -> ->]|Hin].
      * split; [lia|]. split; [lia|]. exists (du + w). split; [done|lia].
      * destruct (Hpq d x Hin) as (Hx & Hd & dx & Hdx & Hle). split; [done|]. split; [done|].
        destruct (Hdown x dx ltac:(lia) Hdx) as (dx' & Hdx' & Hle'). exists dx'. split; [done|lia].
    + intros v dv' Hv Hl. destruct (Hcases v dv' Hv Hl) as [[-> ->]|[Hvj Hl']].
      * split; [lia|]. intros _. destruct (Hru Hdu) as (p & Hend & Hlen).
        exists (p ++ [j]). split; [apply route_end_snoc|].
        apply route_length_snoc; [done|done|by rewrite Hend|done].
      * by apply Hroute.
    + intros v p Hv Hl. destruct (decide (v = j)) as [->|Hvj].
      * rewrite list_lookup_insert_eq in Hl by lia. injection Hl as <-.
        rewrite (proj2 (Z.eqb_neq u (-1))) by lia. split; [done|]. split; [done|].
        rewrite (Hsame u) by lia. exists du, w, (du + w). repeat split; try done; lia.
      * rewrite list_lookup_insert_ne in Hl by lia. specialize (Hpar v p Hv Hl).
        destruct (p =? -1); [by rewrite Hsame by lia|].
        destruct Hpar as (Hp & Hvs & dp & w' & dv' & Hdp & Hw' & Hw'0 & Hdv' & Hle & Hfin).
        split; [done|]. split; [done|].
        destruct (Hdown p dp ltac:(lia) Hdp) as (dp' & Hdp' & Hle').
        exists dp', w', dv'. rewrite (Hsame v) by lia. repeat split; try done; lia.
  - cbn [dist]. fold dist'. by rewrite Hsame by lia.
  - intros x Hx Hxu dx. cbn [dist pq]. fold dist'. intros Hl Hfin.
    destruct (Hcases x dx ltac:(lia) Hl) as [[-> ->]|[Hxj Hl']].
    + left. apply pq_push_elem. by left.
    + destruct (Hset x Hx Hxu dx Hl' Hfin) as [Hin|Hcl].
      * left. apply pq_push_elem. by right.
      * right. intros v wv dx0 Hv Hwv Hwv0 Hl0. rewrite Hsame in Hl0 by lia.
        destruct (Hcl v wv dx0 Hv Hwv Hwv0 Hl0) as (dv0 & Hdv0' & Hle).
        destruct (Hdown v dv0 ltac:(lia) Hdv0') as (dv1 & Hdv1 & Hle1).
        exists dv1. split; [done|lia].
  - intros v w' Hv Hw' Hne. cbn [dist]. fold dist'.
    destruct (decide (v = j)) as [->|Hvj].
    + rewrite Hw in Hw'. injection Hw' as <-. exists (du + w). split; [done|lia].
    + destruct (Hdone v w' ltac:(lia) Hw' Hne) as (dv0 & Hdv0' & Hle).
      destruct (Hdown v dv0 ltac:(lia) Hdv0') as (dv1 & Hdv1 & Hle1).
      exists dv1. split; [done|lia].
  - unfold queue_inv. cbn [dist pq]. fold dist'. split; [|split; [|split; [|split]]].
    + apply pq_push_NoDup; [|done]. intros Hin.
      destruct (Hpq _ _ Hin) as (_ & _ & dj & Hdj & Hle).
      rewrite Hdv in Hdj. injection Hdj as <-. lia.
    + by apply pq_push_sorted.
    + done.
    + done.
    + intros x dx d y Hx Hl Hin. cbn [dist pq] in *. fold dist' in Hl.
      rewrite Forall_forall in HPn. pose proof (HPn x Hx) as Hxn.
      rewrite (Hsame x) in Hl by (pose proof (HPj x Hx); lia).
      apply pq_push_elem in Hin as [[= -> ->]|Hin].
      * specialize (HP x dx Hx Hl). lia.
      * by apply (Hproc x dx d y).
  - intros x dx Hx. cbn [dist]. fold dist'. intros Hl.
    rewrite Forall_forall in HPn. pose proof (HPn x Hx) as Hxn.
    rewrite (Hsame x) in Hl by (pose proof (HPj x Hx); lia). by apply (HP x).
  - intros d y Hin. cbn [pq] in Hin. apply pq_push_elem in Hin as [[= -> ->]|Hin].
    + lia.
    + by apply Hkeys.
  - cbn [pq]. rewrite pq_push_length. lia.
Qed.

Lemma dijkstra_loop_ok fuel st P :
  dijkstra_inv m n src st -> (forall x, 0 <= x < n -> settled m n st x) ->
  queue_inv n st P ->
  Z.of_nat (length (pq st)) + n * (n - Z.of_nat (length P)) <= Z.of_nat fuel ->
  exists st', dijkstra_loop fuel m n st = Ret st' /\ dijkstra_inv m n src st' /\
    pq st' = [] /\ forall x, 0 <= x < n -> settled m n st' x.
Proof using Hdims Hn Hsrc Hweights.
  revert st P. induction fuel as [|fuel IH]; intros st P Hinv Hset Hq Hfuel.
  - destruct Hq as (_ & _ & HndP & HPn & _). pose proof (in_range_length n P HndP HPn).
    destruct st as [d p [|x q]]; cbn [pq length] in *; [|nia].
    eexists. split; [done|]. done.
  - destruct st as [ds ps [|[d u] rest]]; cbn [dijkstra_loop pq dist parent] in *.
    { eexists. split; [done|]. done. }
    pose proof Hinv as [Hld Hlp Hs Hpq Hroute Hpar].
    destruct Hq as (Hnd & Hsorted & HndP & HPn & Hproc).
    cbn [dist parent pq length] in *.
    destruct (Hpq d u ltac:(left)) as (Hu & Hd & du & Hdu & Hle).
    rewrite (aget_lookup _ u) by lia. rewrite Hdu, bind_Ret_l.
    set (st0 := {| dist := ds; parent := ps; pq := rest |}).
    assert (dijkstra_inv m n src st0) as Hinv0.
    { constructor; cbn [dist parent pq]; try done.
      intros d' u' Hin. apply Hpq. by right. }
    apply NoDup_cons in Hnd as [Hfresh Hnd].
    apply StronglySorted_cons in Hsorted as [Hmin Hsorted].
    assert (queue_inv n st0 P) as Hq0.
    { split; [done|]. split; [done|]. split; [done|]. split; [done|].
      intros x dx d' y Hx Hl Hin. apply (Hproc x dx d' y Hx Hl). by right. }
    pose proof (in_range_length n P HndP HPn) as HlenP.
    destruct (d >? du) eqn:Hgt.
    + apply Z.gtb_lt in Hgt. apply (IH st0 P); [done| |done|unfold st0; cbn [dist pq]; lia].
      intros x Hx dx Hdx Hfin. unfold st0 in *. cbn [dist pq] in *.
      destruct (Hset x Hx dx Hdx Hfin) as [Hin|Hcl]; [|by right]. left.
      apply elem_of_cons in Hin as [Heq|Hin]; [|done].
      injection Heq as Hd1 Hu1. rewrite Hu1, Hdu in Hdx. injection Hdx as Hd2. lia.
    + assert (d = du) as -> by lia.
      assert (u ∉ P) as HuP.
      { intros Hin. destruct (Hproc u du du u Hin Hdu ltac:(left)) as [_ Hlt].
        specialize (Hlt eq_refl). lia. }
      destruct (for_range_inv (relaxing m n src u du P (Z.of_nat (length rest))) 0 n
                  (relax m u) st0)
        as (st1 & -> & Hinv1 & Hdu1 & Hset1 & Hdone1 & Hq1 & HP1 & Hkeys1 & Hbound1);
        [lia| | |].
      * split; [done|]. split; [done|].
        split; [|split; [intros; lia|split; [done|split; [|split]]]].
        -- intros x Hx Hxu dx Hdx Hfin. unfold st0 in *. cbn [dist pq] in *.
           destruct (Hset x Hx dx Hdx Hfin) as [Hin|Hcl]; [|by right]. left.
           apply elem_of_cons in Hin as [Heq|Hin]; [|done].
           injection Heq as Hd1 Hu1. lia.
        -- intros x dx Hx Hl. by destruct (Hproc x dx du u Hx Hl ltac:(left)).
        -- intros d' y Hin. unfold st0 in Hin. cbn [pq] in Hin.
           rewrite Forall_forall in Hmin. pose proof (Hmin _ Hin) as Hkey.
           unfold by_key in Hkey. cbn in Hkey. split; [done|]. intros ->.
           destruct (decide (d' = du)) as [->|Hne]; [done|lia].
        -- unfold st0. cbn [pq]. lia.
      * intros j s Hj Hrel. by apply relax_step.
      * rewrite bind_Ret_l. destruct Hq1 as (Hnd1 & Hsorted1 & _ & _ & Hproc1).
        apply (IH st1 (u :: P)); [done| | |].
        -- intros x Hx. destruct (decide (x = u)) as [->|Hxu]; [|by apply Hset1].
           intros dx Hdx Hfin. right. intros v w du0 Hv Hw Hw0 Hdu0.
           rewrite Hdu1 in Hdu0. injection Hdu0 as <-. by apply Hdone1.
        -- split; [done|]. split; [done|]. split; [by apply NoDup_cons|].
           split; [by constructor|].
           intros x dx d' y Hx Hl Hin. apply elem_of_cons in Hx as [->|Hx].
           ++ rewrite Hdu1 in Hl. injection Hl as <-. by apply Hkeys1.
           ++ by apply (Hproc1 x dx d' y).
        -- cbn [length]. nia.
Qed.

Lemma dijkstra_start :
  let st := {| dist := <[Z.to_nat src := 0]> (replicate (Z.to_nat n) INF);
               parent := replicate (Z.to_nat n) (-1);
               pq := [(0, src)] |} in
  dijkstra_inv m n src st /\ (forall x, 0 <= x < n -> settled m n st x) /\
  queue_inv n st [].
Proof using Hsrc.
  cbn zeta. split; [|split].
  - constructor; cbn [dist parent pq].
    + rewrite length_insert, length_replicate. lia.
    + rewrite length_replicate. lia.
    + apply list_lookup_insert_eq. rewrite length_replicate. lia.
    + intros d u Hin. apply list_elem_of_singleton in Hin. injection Hin as -> ->.
      split; [done|]. split; [done|]. exists 0. split; [|done].
      apply list_lookup_insert_eq. rewrite length_replicate. lia.
    + intros v dv Hv Hl. destruct (decide (v = src)) as [->|Hne].
      * rewrite list_lookup_insert_eq in Hl by (rewrite length_replicate; lia).
        injection Hl as <-. split; [done|]. intros _. by exists [].
      * rewrite list_lookup_insert_ne in Hl by lia.
        apply lookup_replicate_1 in Hl as [-> _]. split; [done|]. lia.
    + intros v p Hv Hl. apply lookup_replicate_1 in Hl as [-> Hlt]. cbn.
      destruct (decide (v = src)) as [->|Hne]; [by left|]. right.
      rewrite list_lookup_insert_ne by lia. apply lookup_replicate_2. lia.
  - intros x Hx dx. cbn [dist pq]. intros Hl Hfin.
    destruct (decide (x = src)) as [->|Hne].
    + rewrite list_lookup_insert_eq in Hl by (rewrite length_replicate; lia).
      injection Hl as <-. left. by apply list_elem_of_singleton.
    + rewrite list_lookup_insert_ne in Hl by lia.
      apply lookup_replicate_1 in Hl as [-> _]. lia.
  - split; [apply NoDup_singleton|]. split; [repeat constructor|].
    split; [apply NoDup_nil_2|]. split; [constructor|].
    intros x dx d y Hx. by apply elem_of_nil in Hx.
Qed.

(** What [dist] and [parent] hold when the queue has run empty. *)
Lemma dijkstra_end st i :
  dijkstra_inv m n src st -> pq st = [] -> (forall x, 0 <= x < n -> settled m n st x) ->
  0 <= i < n ->
  exists d p, dist st !! Z.to_nat i = Some d /\ parent st !! Z.to_nat i = Some p /\
    0 <= d <= INF /\
    (d < INF -> exists r, route_end src r = i /\ route_length m n src r = Some d) /\
    (forall r L, route_end src r = i -> route_length m n src r = Some L ->
       d <= L /\ (d = INF -> INF <= L)) /\
    (p = -1 <-> i = src \/ d = INF) /\
    (p <> -1 -> 0 <= p < n /\ exists dp w, dist st !! Z.to_nat p = Some dp /\
       dp < INF /\ mget m p i = Ret w /\ w <> 0 /\ d = dp + w).
Proof using Hsrc Hweights.
  intros Hinv Hempty Hset Hi. pose proof Hinv as [Hld Hlp Hs Hpq Hroute Hpar].
  assert (forall u du, 0 <= u < n -> dist st !! Z.to_nat u = Some du -> du < INF ->
            closed m n (dist st) u) as Hclosed.
  { intros u du Hu Hdu Hfin. destruct (Hset u Hu du Hdu Hfin) as [Hin|Hcl]; [|done].
    rewrite Hempty in Hin. by apply elem_of_nil in Hin. }
  destruct (lookup_lt_is_Some_2 (dist st) (Z.to_nat i) ltac:(lia)) as [d Hd].
  destruct (lookup_lt_is_Some_2 (parent st) (Z.to_nat i) ltac:(lia)) as [p Hp].
  destruct (Hroute i d ltac:(lia) Hd) as [Hd0 Hr].
  exists d, p. split; [done|]. split; [done|]. split; [done|]. split; [done|].
  assert (forall r L, route_end src r = i -> route_length m n src r = Some L ->
            L < INF -> d <= L) as Hlow.
  { intros r L Hend HL HLfin.
    destruct (closed_lower_bound (dist st) r Hclosed src 0 0 L Hsrc Hs ltac:(lia) HL ltac:(lia))
      as (dv & Hdv & Hle).
    rewrite Hend, Hd in Hdv. injection Hdv as <-. lia. }
  split; [|split].
  - intros r L Hend HL. destruct (decide (L < INF)) as [HLfin|HLinf].
    + specialize (Hlow r L Hend HL HLfin). lia.
    + lia.
  - specialize (Hpar i p ltac:(lia) Hp). destruct (p =? -1) eqn:Hp1.
    + apply Z.eqb_eq in Hp1. split; [|done]. intros _.
      destruct Hpar as [?|Hinf]; [by left|right]. rewrite Hd in Hinf. by injection Hinf.
    + apply Z.eqb_neq in Hp1. split; [done|].
      destruct Hpar as (_ & Hne & dp & w & dv & _ & _ & _ & Hdv & _ & Hfin).
      rewrite Hd in Hdv. injection Hdv as <-. intros [?|?]; [done|lia].
  - intros Hp1. specialize (Hpar i p ltac:(lia) Hp).
    rewrite (proj2 (Z.eqb_neq p (-1))) in Hpar by done.
    destruct Hpar as (Hpn & Hne & dp & w & dv & Hdp & Hw & Hw0 & Hdv & Hle & Hfin).
    rewrite Hd in Hdv. injection Hdv as <-. split; [done|].
    destruct (weight_in p i Hpn Hi) as (w' & Hw' & Hwb). rewrite Hw in Hw'. injection Hw' as <-.
    destruct (Hclosed p dp Hpn Hdp ltac:(lia) i w dp Hi Hw Hw0 Hdp) as (d' & Hd' & Hle').
    rewrite Hd in Hd'. injection Hd' as <-.
    exists dp, w. repeat split; try done; lia.
Qed.

End Graph.

(** The printed line for vertex [i]. *)
Lemma report_lines st n :
  0 <= n -> Z.of_nat (length (dist st)) = n -> Z.of_nat (length (parent st)) = n ->
  exists lines,
    for_range 0 n (fun i lines =>
      d ← aget (dist st) i;
      p ← aget (parent st) i;
      Ret (lines ++ [{| location := i;
                        distance := if d =? INF then -1 else d;
                        via := if p =? -1 then None else Some p |}])) [] = Ret lines /\
    length lines = Z.to_nat n /\
    forall i, 0 <= i < n -> exists d p,
      dist st !! Z.to_nat i = Some d /\ parent st !! Z.to_nat i = Some p /\
      lines !! Z.to_nat i = Some {| location := i;
                                    distance := if d =? INF then -1 else d;
                                    via := if p =? -1 then None else Some p |}.
Proof.
  intros Hn Hld Hlp.
  destruct (for_range_inv (fun j lines => length lines = Z.to_nat j /\
     forall i, 0 <= i < j -> exists d p,
      dist st !! Z.to_nat i = Some d /\ parent st !! Z.to_nat i = Some p /\
      lines !! Z.to_nat i = Some {| location := i;
                                    distance := if d =? INF then -1 else d;
                                    via := if p =? -1 then None else Some p |})
    0 n (fun i lines =>
      d ← aget (dist st) i;
      p ← aget (parent st) i;
      Ret (lines ++ [{| location := i;
                        distance := if d =? INF then -1 else d;
                        via := if p =? -1 then None else Some p |}])) [])
    as (lines & Hrun & Hlen & Hall); [lia| | |by exists lines].
  - split; [done|]. intros; lia.
  - intros j lines Hj [Hlen Hall].
    destruct (aget_in (dist st) j ltac:(lia)) as (d & -> & Hd). rewrite bind_Ret_l.
    destruct (aget_in (parent st) j ltac:(lia)) as (p & -> & Hp). rewrite bind_Ret_l.
    eexists. split; [done|]. split; [rewrite length_app; cbn; lia|].
    intros i Hi. destruct (decide (i = j)) as [->|Hne].
    + exists d, p. split; [done|]. split; [done|].
      rewrite lookup_app_r by lia. by rewrite Hlen, Nat.sub_diag.
    + destruct (Hall i ltac:(lia)) as (d' & p' & Hd' & Hp' & Hl).
      exists d', p'. split; [done|]. split; [done|]. by rewrite lookup_app_l by lia.
Qed.

(** X29.  On a matrix whose entries among the first [n] vertices lie
    between 0 and [INT_MAX - 10^9], [dijkstraOptimized] returns once the
    fuel covers [n * n + 1] rounds of its loop, and prints one line per
    vertex.  Reading every nonzero entry as an
    edge, the distance shown for [i] is the least total weight of a route
    from [src] to [i], and [-1] exactly when every such route weighs
    [10^9] or more; the vertex shown as [via] is the last step of such a
    least route: its own distance plus the entry to [i] is the distance
    of [i], and no [via] is shown only for [src] and for distance [-1]. *)
Theorem dijkstraOptimized_shortest_routes fuel g src n :
  dims (deliveryGraph g) -> n <= MAX_LOCATIONS -> 0 <= src < n ->
  weights_in n (deliveryGraph g) = true ->
  n * n + 1 <= Z.of_nat fuel ->
  exists lines, dijkstraOptimized fuel g src n = Ret lines /\
    length lines = Z.to_nat n /\
    forall i, 0 <= i < n -> exists line,
      lines !! Z.to_nat i = Some line /\ location line = i /\
      (distance line = -1 ->
         forall r L, route_end src r = i ->
           route_length (deliveryGraph g) n src r = Some L -> INF <= L) /\
      (distance line <> -1 ->
         0 <= distance line < INF /\
         (exists r, route_end src r = i /\
            route_length (deliveryGraph g) n src r = Some (distance line)) /\
         forall r L, route_end src r = i ->
           route_length (deliveryGraph g) n src r = Some L -> distance line <= L) /\
      (via line = None <-> i = src \/ distance line = -1) /\
      (forall p, via line = Some p ->
         0 <= p < n /\ exists lp w,
           lines !! Z.to_nat p = Some lp /\ mget (deliveryGraph g) p i = Ret w /\
           w <> 0 /\ distance lp <> -1 /\ distance line = distance lp + w).
Proof.
  intros Hdims Hn Hsrc Hweights Hfuel. unfold dijkstraOptimized.
  rewrite aset_in by (rewrite length_replicate; lia). rewrite bind_Ret_l.
  destruct (dijkstra_start (deliveryGraph g) n src Hsrc) as (Hinv0 & Hset0 & Hq0).
  destruct (dijkstra_loop_ok (deliveryGraph g) n src Hdims Hn Hsrc Hweights fuel _ []
              Hinv0 Hset0 Hq0 ltac:(cbn [pq length]; lia)) as (st & -> & Hinv & Hempty & Hset).
  rewrite bind_Ret_l.
  destruct (report_lines st n ltac:(lia) (inv_dist_size _ _ _ _ Hinv)
              (inv_parent_size _ _ _ _ Hinv)) as (lines & -> & Hlen & Hlines).
  exists lines. split; [done|]. split; [done|]. intros i Hi.
  destruct (Hlines i Hi) as (d & p & Hd & Hp & Hline).
  destruct (dijkstra_end (deliveryGraph g) n src Hsrc Hweights st i Hinv Hempty Hset Hi)
    as (d' & p' & Hd' & Hp' & Hd0 & Hroute & Hlow & Hvia & Hpar).
  rewrite Hd in Hd'. injection Hd' as <-. rewrite Hp in Hp'. injection Hp' as <-.
  eexists. split; [exact Hline|]. cbn [location distance via]. split; [done|].
  destruct (d =? INF) eqn:Hinf.
  - apply Z.eqb_eq in Hinf. split; [|split; [done|split]].
    + intros _ r L Hend HL. by apply (Hlow r L Hend HL).
    + destruct (p =? -1) eqn:Hp1.
      * apply Z.eqb_eq in Hp1. split; [by right|done].
      * apply Z.eqb_neq in Hp1. split; [done|]. intros _. exfalso. apply Hp1, Hvia. by right.
    + intros q Hq. destruct (p =? -1) eqn:Hp1; [done|]. injection Hq as <-.
      apply Z.eqb_neq in Hp1. exfalso. apply Hp1, Hvia. by right.
  - apply Z.eqb_neq in Hinf. split; [intros; lia|]. split; [|split].
    + intros _. split; [lia|]. split; [apply Hroute; lia|].
      intros r L Hend HL. by apply (Hlow r L Hend HL).
    + destruct (p =? -1) eqn:Hp1.
      * apply Z.eqb_eq in Hp1. split; [|done]. intros _.
        destruct (proj1 Hvia Hp1) as [?|?]; [by left|done].
      * apply Z.eqb_neq in Hp1. split; [done|]. intros [Hs|Hneg]; [|lia].
        exfalso. apply Hp1, Hvia. by left.
    + intros q Hq. destruct (p =? -1) eqn:Hp1; [done|]. injection Hq as <-.
      apply Z.eqb_neq in Hp1.
      destruct (Hpar Hp1) as (Hpn & dp & w & Hdp & Hdpfin & Hw & Hw0 & Hdw).
      split; [done|].
      destruct (Hlines p Hpn) as (dp' & pp & Hdp' & _ & Hlp).
      rewrite Hdp in Hdp'. injection Hdp' as <-.
      eexists _, w. split; [exact Hlp|]. cbn [distance].
      rewrite (proj2 (Z.eqb_neq dp INF)) by lia.
      pose proof (inv_route _ _ _ _ Hinv p dp ltac:(lia) Hdp) as [Hdp0 _].
      repeat split; try done; lia.
Qed.

(** X29, witness: the graph of the demonstration, routes from vertex 0. *)
Lemma dijkstraOptimized_shortest_routes_witness :
  exists lines,
    dijkstraOptimized 37 demoBuilt 0 6 = Ret lines /\
    length lines = Z.to_nat 6 /\
    forall i, 0 <= i < 6 -> exists line,
      lines !! Z.to_nat i = Some line /\ location line = i /\
      (distance line = -1 ->
         forall r L, route_end 0 r = i ->
           route_length (deliveryGraph demoBuilt) 6 0 r = Some L -> INF <= L) /\
      (distance line <> -1 ->
         0 <= distance line < INF /\
         (exists r, route_end 0 r = i /\
            route_length (deliveryGraph demoBuilt) 6 0 r = Some (distance line)) /\
         forall r L, route_end 0 r = i ->
           route_length (deliveryGraph demoBuilt) 6 0 r = Some L -> distance line <= L) /\
      (via line = None <-> i = 0 \/ distance line = -1) /\
      (forall p, via line = Some p ->
         0 <= p < 6 /\ exists lp w,
           lines !! Z.to_nat p = Some lp /\ mget (deliveryGraph demoBuilt) p i = Ret w /\
           w <> 0 /\ distance lp <> -1 /\ distance line = distance lp + w).
Proof.
  apply dijkstraOptimized_shortest_routes.
  - split; [reflexivity|]. repeat constructor.
  - unfold MAX_LOCATIONS. lia.
  - lia.
  - vm_compute. reflexivity.
  - lia.
Defined.

End DijkstraFacts.

(** ** Breadth-first traversal: [bfsDelivery] *)

Module TraversalFacts.
Import DeliveryGraph DeliveryGraphMore Traversal DijkstraFacts.

Lemma take_snoc_insert {A} (l : list A) k x :
  (k < length l)%nat -> take (S k) (<[k := x]> l) = take k l ++ [x].
Proof.
  intros Hk. rewrite (take_S_r _ _ x) by (by apply list_lookup_insert_eq).
  by rewrite take_insert_ge by lia.
Qed.

Section Graph.
Variables (g : t) (n start : Z).
Hypothesis Hwf : wf g.
Hypothesis Hn : n <= MAX_LOCATIONS.
Hypothesis Hchains : chains_in n g = true.

Lemma chain_in u c : 0 <= u < n -> c ∈ neighbours g u -> 0 <= dest c < n.
Proof using Hchains.
  intros Hu Hc. unfold chains_in in Hchains. rewrite forallb_forall in Hchains.
  assert (In u (seqZ 0 n)) as Hin. { apply list_elem_of_In, elem_of_seqZ. lia. }
  specialize (Hchains u Hin). rewrite forallb_forall in Hchains.
  apply list_elem_of_In in Hc. specialize (Hchains c Hc).
  apply andb_true_iff in Hchains as [H1 H2]. apply Z.leb_le in H1. apply Z.ltb_lt in H2. lia.
Qed.

Lemma queued_length st :
  bfs_inv g n start st -> Z.of_nat (length (queued st)) = rear st.
Proof using Hn.
  intros Hinv. unfold queued. rewrite length_take, (inv_q_size _ _ _ _ Hinv).
  pose proof (inv_rear _ _ _ _ Hinv). unfold MAX_LOCATIONS in *. lia.
Qed.

(** One cell of the chain of a queued vertex [u]. *)
Lemma visit_cell_ok u c st :
  bfs_inv g n start st -> rtc (linked g) start u -> c ∈ neighbours g u ->
  0 <= dest c < n ->
  exists st', visit_cell c st = Ret st' /\ bfs_inv g n start st' /\
    front st' = front st /\ printed st' = printed st /\
    (forall v, v ∈ queued st -> v ∈ queued st') /\ dest c ∈ queued st'.
Proof using Hn.
  intros Hinv Hu Hc Hd. pose proof (queued_length st Hinv) as Hql.
  destruct Hinv as [Hlv Hlq Hf Hr H0 Hnd Hrange Hmarks Hpr Hreach].
  unfold MAX_LOCATIONS in *. unfold visit_cell.
  destruct (aget_in (visited st) (dest c) ltac:(lia)) as (seen & -> & Hseen).
  rewrite bind_Ret_l. destruct seen.
  { exists st. split; [done|]. split; [by constructor|]. split; [done|]. split; [done|].
    split; [done|]. apply Hmarks; [lia|done]. }
  assert (dest c ∉ queued st) as Hnew.
  { intros Hin. apply Hmarks in Hin; [|lia]. congruence. }
  assert (rear st < n) as Hroom.
  { assert (Z.of_nat (length (dest c :: queued st)) <= Z.max 0 n) as Hle.
    { apply in_range_length; [by apply NoDup_cons|by constructor]. }
    cbn [length] in Hle. lia. }
  rewrite (aset_in (visited st)) by lia. rewrite bind_Ret_l.
  rewrite (aset_in (q st)) by lia. rewrite bind_Ret_l.
  rewrite (int_of_in (rear st + 1)) by (unfold INT_MIN, INT_MAX; lia). rewrite bind_Ret_l.
  eexists. split; [done|].
  assert (queued {| visited := <[Z.to_nat (dest c) := true]> (visited st);
                    q := <[Z.to_nat (rear st) := dest c]> (q st);
                    front := front st; rear := rear st + 1; printed := printed st |}
          = queued st ++ [dest c]) as Hq.
  { unfold queued. cbn [q rear].
    replace (Z.to_nat (rear st + 1)) with (S (Z.to_nat (rear st))) by lia.
    apply take_snoc_insert. lia. }
  split; [|split; [done|split; [done|split]]].
  - constructor; rewrite ?Hq; cbn [visited q front rear printed].
    + by rewrite length_insert.
    + by rewrite length_insert.
    + lia.
    + lia.
    + rewrite list_lookup_insert_ne by lia. done.
    + apply NoDup_app. split; [done|]. split; [|apply NoDup_singleton].
      intros x Hx Hx'. apply list_elem_of_singleton in Hx' as ->. done.
    + apply Forall_app. split; [done|]. constructor; [done|constructor].
    + intros v Hv. rewrite elem_of_app, list_elem_of_singleton.
      destruct (decide (v = dest c)) as [->|Hne].
      * rewrite list_lookup_insert_eq by lia. tauto.
      * rewrite list_lookup_insert_ne by lia. rewrite (Hmarks v Hv). tauto.
    + rewrite take_insert_ge by lia. done.
    + intros v Hv. apply elem_of_app in Hv as [Hv|Hv]; [by apply Hreach|].
      apply list_elem_of_singleton in Hv as ->.
      eapply rtc_r; [exact Hu|]. by exists c.
  - intros v Hv. rewrite Hq. apply elem_of_app. by left.
  - rewrite Hq. apply elem_of_app. right. by apply list_elem_of_singleton.
Qed.

(** The whole chain of [u]. *)
Lemma visit_chain_ok u cells st :
  bfs_inv g n start st -> rtc (linked g) start u ->
  (forall c, c ∈ cells -> c ∈ neighbours g u /\ 0 <= dest c < n) ->
  exists st', visit_chain cells st = Ret st' /\ bfs_inv g n start st' /\
    front st' = front st /\ printed st' = printed st /\
    (forall v, v ∈ queued st -> v ∈ queued st') /\
    forall c, c ∈ cells -> dest c ∈ queued st'.
Proof using Hn.
  revert st. induction cells as [|c cells IH]; intros st Hinv Hu Hcells.
  - exists st. split; [done|]. split; [done|]. split; [done|]. split; [done|].
    split; [done|]. intros c Hc. by apply elem_of_nil in Hc.
  - cbn [visit_chain].
    destruct (Hcells c ltac:(left)) as [Hc Hd].
    destruct (visit_cell_ok u c st Hinv Hu Hc Hd)
      as (st1 & -> & Hinv1 & Hf1 & Hp1 & Hmono1 & Hin1).
    rewrite bind_Ret_l.
    destruct (IH st1 Hinv1 Hu) as (st2 & -> & Hinv2 & Hf2 & Hp2 & Hmono2 & Hin2).
    { intros c' Hc'. apply Hcells. by right. }
    exists st2. split; [done|]. split; [done|]. split; [congruence|]. split; [congruence|].
    split; [by auto|]. intros c' Hc'. apply elem_of_cons in Hc' as [->|Hc']; auto.
Qed.

Lemma bfs_loop_ok fuel st :
  bfs_inv g n start st -> explored g st ->
  n - front st <= Z.of_nat fuel ->
  exists st', bfs_loop fuel g st = Ret st' /\ bfs_inv g n start st' /\
    explored g st' /\ front st' = rear st'.
Proof using Hwf Hn Hchains.
  revert st. induction fuel as [|fuel IH]; intros st Hinv Hex Hfuel.
  - pose proof (inv_front _ _ _ _ Hinv). pose proof (inv_rear _ _ _ _ Hinv).
    cbn [bfs_loop]. rewrite (proj2 (Z.ltb_ge (front st) (rear st))) by lia.
    exists st. split; [done|]. split; [done|]. split; [done|]. lia.
  - cbn [bfs_loop]. destruct (front st <? rear st) eqn:Hlt.
    2:{ apply Z.ltb_ge in Hlt. pose proof (inv_front _ _ _ _ Hinv).
        exists st. split; [done|]. split; [done|]. split; [done|]. lia. }
    apply Z.ltb_lt in Hlt. pose proof (queued_length st Hinv) as Hql.
    pose proof Hinv as [Hlv Hlq Hf Hr H0 Hnd Hrange Hmarks Hpr Hreach].
    unfold MAX_LOCATIONS in *.
    destruct (aget_in (q st) (front st) ltac:(lia)) as (u & -> & Hu). rewrite bind_Ret_l.
    rewrite (int_of_in (front st + 1)) by (unfold INT_MIN, INT_MAX; lia). rewrite bind_Ret_l.
    assert (u ∈ queued st) as Huq.
    { unfold queued. apply list_elem_of_lookup. exists (Z.to_nat (front st)).
      rewrite lookup_take_lt by lia. done. }
    rewrite Forall_forall in Hrange. pose proof (Hrange u Huq) as Hun.
    destruct Hwf as (_ & _ & Hla).
    destruct (aget_in (adjList g) u ltac:(lia)) as (chain & -> & Hchain). rewrite bind_Ret_l.
    assert (neighbours g u = chain) as Hnb. { unfold neighbours. by rewrite Hchain. }
    set (st0 := {| visited := visited st; q := q st; front := front st + 1;
                   rear := rear st; printed := printed st ++ [u] |}).
    assert (bfs_inv g n start st0) as Hinv0.
    { constructor; unfold st0, queued; cbn [visited q front rear printed].
      - done.
      - done.
      - lia.
      - done.
      - done.
      - done.
      - by apply Forall_forall.
      - done.
      - replace (Z.to_nat (front st + 1)) with (S (Z.to_nat (front st))) by lia.
        rewrite (take_S_r _ _ u) by done. by rewrite Hpr.
      - done. }
    destruct (visit_chain_ok u chain st0 Hinv0 (Hreach u Huq))
      as (st1 & -> & Hinv1 & Hf1 & Hp1 & Hmono1 & Hin1).
    { intros c Hc. rewrite Hnb. split; [done|]. apply (chain_in u); [lia|by rewrite Hnb]. }
    rewrite bind_Ret_l. apply IH; [done| |rewrite Hf1; unfold st0; cbn [front]; lia].
    intros x c Hx Hc. rewrite Hp1 in Hx. unfold st0 in Hx. cbn [printed] in Hx.
    apply elem_of_app in Hx as [Hx|Hx].
    + apply Hmono1. by apply (Hex x c).
    + apply list_elem_of_singleton in Hx as ->. rewrite Hnb in Hc. by apply Hin1.
Qed.

End Graph.

(** X30.  On a graph whose adjacency chains stay below [n] (at most 20),
    [bfsDelivery(start)] returns after at most [n] rounds of its loop, never
    writing past the 20 slots of its queue; it prints [start] first, prints
    no vertex twice, and prints exactly the vertices that can be reached
    from [start] along the chains. *)
Theorem bfsDelivery_prints_reachable fuel g start n :
  wf g -> n <= MAX_LOCATIONS -> 0 <= start < n -> chains_in n g = true ->
  (Z.to_nat n <= fuel)%nat ->
  exists out, bfsDelivery fuel g start = Ret out /\
    head out = Some start /\ NoDup out /\
    forall v, v ∈ out <-> rtc (linked g) start v.
Proof.
  intros Hwf Hn Hstart Hchains Hfuel. unfold bfsDelivery, MAX_LOCATIONS in *.
  rewrite (aset_in (replicate 20 false) start) by (rewrite length_replicate; lia).
  rewrite bind_Ret_l.
  rewrite (aset_in (replicate 20 0) 0) by (rewrite length_replicate; lia).
  rewrite bind_Ret_l.
  set (st0 := {| visited := <[Z.to_nat start := true]> (replicate 20 false);
                 q := <[Z.to_nat 0 := start]> (replicate 20 0);
                 front := 0; rear := 1; printed := [] |}).
  assert (queued st0 = [start]) as Hq0 by reflexivity.
  assert (bfs_inv g n start st0) as Hinv0.
  { constructor; rewrite ?Hq0; unfold st0; cbn [visited q front rear printed].
    - by rewrite length_insert, length_replicate.
    - by rewrite length_insert, length_replicate.
    - lia.
    - lia.
    - reflexivity.
    - apply NoDup_singleton.
    - constructor; [done|constructor].
    - intros v Hv. rewrite list_elem_of_singleton.
      destruct (decide (v = start)) as [->|Hne].
      + rewrite list_lookup_insert_eq by (rewrite length_replicate; lia). tauto.
      + rewrite list_lookup_insert_ne by lia. split; [|done].
        intros Hl. apply lookup_replicate_1 in Hl as [[=] _].
    - reflexivity.
    - intros v Hv. apply list_elem_of_singleton in Hv as ->. done. }
  destruct (bfs_loop_ok g n start Hwf Hn Hchains fuel st0 Hinv0)
    as (st & -> & Hinv & Hex & Hend).
  { intros u c Hu. by apply elem_of_nil in Hu. }
  { unfold st0. cbn [front]. lia. }
  rewrite bind_Ret_l. exists (printed st). split; [done|].
  pose proof Hinv as [Hlv Hlq Hf Hr H0 Hnd Hrange Hmarks Hpr Hreach].
  assert (printed st = queued st) as Hall. { unfold queued. by rewrite Hpr, Hend. }
  split; [|split].
  - rewrite Hall. unfold queued. rewrite head_lookup. rewrite lookup_take_lt by lia. done.
  - by rewrite Hall.
  - intros v. split.
    + rewrite Hall. apply Hreach.
    + revert v. apply rtc_ind_r; [|intros x y Hx [c [Hc Hd]] IH].
      * rewrite Hall. unfold queued. apply list_elem_of_lookup. exists 0%nat.
        rewrite lookup_take_lt by lia. done.
      * rewrite Hall, <- Hd. apply (Hex x c); [done|done].
Qed.

(** X30, witness: the graph of the demonstration, from vertex 0. *)
Lemma bfsDelivery_prints_reachable_witness :
  exists out, bfsDelivery 6 demoBuilt 0 = Ret out /\
    head out = Some 0 /\ NoDup out /\
    forall v, v ∈ out <-> rtc (linked demoBuilt) 0 v.
Proof.
  apply (bfsDelivery_prints_reachable 6 demoBuilt 0 6).
  - split; [reflexivity|]. split; [|reflexivity]. repeat constructor.
  - unfold MAX_LOCATIONS. lia.
  - lia.
  - vm_compute. reflexivity.
  - vm_compute. lia.
Defined.

End TraversalFacts.

Module AlgorithmFacts.
Import Algorithms.

Lemma binarySearchLoop_spec fuel arr target l r :
  0 <= l -> r < Z.of_nat (length arr) -> Z.of_nat (length arr) <= INT_MAX ->
  r - l + 1 < 2 ^ Z.of_nat fuel ->
  exists res, binarySearchLoop fuel arr target l r = Ret res /\
    (res = -1 \/ (l <= res <= r /\ arr !! Z.to_nat res = Some target)) /\
    (ascending arr ->
     (exists i, l <= i <= r /\ arr !! Z.to_nat i = Some target) -> res <> -1).
Proof.
  unfold INT_MAX. revert l r. induction fuel as [|fuel IH]; intros l r Hl Hr Hmax Hf.
  - change (2 ^ Z.of_nat 0) with 1 in Hf. assert (r < l) by lia. simpl. rewrite (proj2 (Z.leb_gt l r)) by lia.
    exists (-1). split; [done|]. split; [by left|]. intros _ (i & Hi & _). lia.
  - cbn [binarySearchLoop]. destruct (Z.leb_spec l r) as [Hle|Hgt].
    2:{ exists (-1). split; [done|]. split; [by left|]. intros _ (i & Hi & _). lia. }
    rewrite int_of_in by (unfold INT_MIN, INT_MAX; lia). rewrite bind_Ret_l.
    rewrite Nat2Z.inj_succ, Z.pow_succ_r in Hf by lia.
    assert (2 * ((r - l) ÷ 2) <= r - l <= 2 * ((r - l) ÷ 2) + 1) as Hq.
    { rewrite Z.quot_div_nonneg by lia.
      pose proof (Z.div_mod (r - l) 2 ltac:(lia)).
      pose proof (Z.mod_pos_bound (r - l) 2 ltac:(lia)). lia. }
    rewrite int_of_in by (unfold INT_MIN, INT_MAX; lia). rewrite bind_Ret_l.
    set (mid := l + (r - l) ÷ 2) in *.
    destruct (aget_in arr mid ltac:(lia)) as (x & -> & Hx). rewrite bind_Ret_l.
    destruct (Z.eqb_spec x target) as [->|Hne].
    { exists mid. split; [done|]. split; [right; split; [lia|done]|]. lia. }
    destruct (Z.ltb_spec x target) as [Hlt|Hge].
    + rewrite int_of_in by (unfold INT_MIN, INT_MAX; lia). rewrite bind_Ret_l.
      destruct (IH (mid + 1) r) as (res & -> & Hres & Hfound); [lia..|].
      exists res. split; [done|]. split.
      * destruct Hres as [?|[? ?]]; [by left|right; split; [lia|done]].
      * intros Hasc (i & Hi & Hti). apply Hfound; [done|]. exists i. split; [|done].
        destruct (decide (i <= mid)) as [Him|?]; [|lia].
        pose proof (Hasc (Z.to_nat i) (Z.to_nat mid) target x ltac:(lia) Hti Hx). lia.
    + rewrite int_of_in by (unfold INT_MIN, INT_MAX; lia). rewrite bind_Ret_l.
      destruct (IH l (mid - 1)) as (res & -> & Hres & Hfound); [lia..|].
      exists res. split; [done|]. split.
      * destruct Hres as [?|[? ?]]; [by left|right; split; [lia|done]].
      * intros Hasc (i & Hi & Hti). apply Hfound; [done|]. exists i. split; [|done].
        destruct (decide (mid <= i)) as [Him|?]; [|lia].
        pose proof (Hasc (Z.to_nat mid) (Z.to_nat i) x target ltac:(lia) Hx Hti). lia.
Qed.

(** X12.  [binarySearch] returns once the fuel exceeds the binary logarithm
    of the size; the result is -1 or an index holding [target]; on an
    ascending array it is -1 only when [target] does not occur. *)
Theorem binarySearch_spec fuel arr target :
  Z.of_nat (length arr) <= INT_MAX -> Z.of_nat (length arr) < 2 ^ Z.of_nat fuel ->
  exists res, binarySearch fuel arr target = Ret res /\
    (res = -1 \/ (0 <= res /\ arr !! Z.to_nat res = Some target)) /\
    (ascending arr -> target ∈ arr -> res <> -1).
Proof.
  intros Hmax Hfuel. unfold binarySearch, size_int.
  rewrite int_of_in by (unfold INT_MIN, INT_MAX in *; lia). rewrite bind_Ret_l.
  rewrite int_of_in by (unfold INT_MIN, INT_MAX in *; lia). rewrite bind_Ret_l.
  destruct (binarySearchLoop_spec fuel arr target 0 (Z.of_nat (length arr) - 1))
    as (res & -> & Hres & Hfound); [lia..|].
  exists res. split; [done|]. split.
  - destruct Hres as [?|[? ?]]; [by left|right; split; [lia|done]].
  - intros Hasc Hin. apply Hfound; [done|].
    apply list_elem_of_lookup in Hin as [i Hi]. pose proof (lookup_lt_Some _ _ _ Hi).
    exists (Z.of_nat i). split; [lia|]. by rewrite Nat2Z.id.
Qed.

Lemma changeValue_insert take denoms j q t d :
  take !! j = Some t -> denoms !! j = Some d ->
  changeValue (<[j := q]> take) denoms = changeValue take denoms + (q - t) * d.
Proof.
  revert take denoms. induction j as [|j IH]; intros [|t0 take] [|d0 denoms] Ht Hd;
    try discriminate; simpl in *.
  - injection Ht as ->. injection Hd as ->. lia.
  - rewrite (IH _ _ Ht Hd). lia.
Qed.

Lemma changeValue_zero n denoms : changeValue (replicate n 0) denoms = 0.
Proof.
  revert denoms. induction n as [|n IH]; intros [|d denoms]; simpl; try done.
  by rewrite IH.
Qed.

(** X13.  For a non-negative amount and positive denominations
    [greedyChange] returns one non-negative count per denomination, worth
    at most [amount] in total, and exactly [amount] when 1 is among the
    denominations. *)
Theorem greedyChange_spec amount denoms :
  0 <= amount <= INT_MAX -> Forall (fun d => 0 < d) denoms ->
  exists take, greedyChange amount denoms = Ret take /\
    length take = length denoms /\ Forall (fun t => 0 <= t) take /\
    changeValue take denoms <= amount /\
    (1 ∈ denoms -> changeValue take denoms = amount).
Proof.
  intros Ham Hpos. unfold greedyChange, greedyLoop.
  destruct (for_range_inv
    (fun j (s : Z * list Z) =>
       length s.2 = length denoms /\ Forall (fun t => 0 <= t) s.2 /\
       0 <= s.1 <= amount /\ changeValue s.2 denoms + s.1 = amount /\
       (forall i, j <= Z.of_nat i -> (i < length denoms)%nat -> s.2 !! i = Some 0) /\
       (forall i, Z.of_nat i < j -> denoms !! i = Some 1 -> s.1 = 0))
    0 (Z.of_nat (length denoms)) (greedyStep denoms)
    (amount, replicate (length denoms) 0)) as ([amt take] & -> & Hinv).
  - lia.
  - simpl. rewrite length_replicate, changeValue_zero.
    split; [done|]. split; [by apply Forall_replicate|]. split; [lia|]. split; [lia|].
    split; [|lia]. intros i _ Hi. by apply lookup_replicate_2.
  - intros j [amt take] Hj (Hlen & Hnn & Hamt & Hval & Hzero & Hone). simpl in *.
    unfold greedyStep.
    destruct (aget_in denoms j ltac:(lia)) as (d & -> & Hd). rewrite bind_Ret_l.
    assert (0 < d) as Hdpos by (rewrite Forall_forall in Hpos; eapply Hpos, list_elem_of_lookup_2, Hd).
    pose proof (Z.quot_rem' amt d) as Hqr.
    pose proof (Z.rem_bound_pos amt d ltac:(lia) ltac:(lia)) as Hrb.
    assert (0 <= amt ÷ d <= amt) as Hqb.
    { split; [apply Z.quot_pos; lia|]. nia. }
    unfold int_div, int_rem. rewrite (proj2 (Z.eqb_neq d 0)) by lia.
    rewrite int_of_in by (unfold INT_MIN, INT_MAX in *; lia). rewrite bind_Ret_l.
    rewrite aset_in by lia. rewrite !bind_Ret_l.
    eexists. split; [done|]. simpl. rewrite length_insert.
    split; [done|]. split.
    { apply Forall_insert; [done|lia]. }
    split; [lia|]. split.
    { rewrite (changeValue_insert take denoms (Z.to_nat j) _ 0 d);
        [lia|apply Hzero; lia|done]. }
    split.
    { intros i Hi Hil. rewrite list_lookup_insert_ne by lia. apply Hzero; lia. }
    intros i Hi Hdi. destruct (decide (Z.of_nat i < j)) as [Hlt|Hge].
    + rewrite (Hone i Hlt Hdi). apply Z.rem_0_l. lia.
    + assert (Z.to_nat j = i) as E by lia. rewrite E, Hdi in Hd. injection Hd as <-.
      apply Z.rem_1_r.
  - rewrite bind_Ret_l. simpl in *.
    destruct Hinv as (Hlen & Hnn & Hamt & Hval & _ & Hone).
    exists take. split; [done|]. split; [done|]. split; [done|]. split; [lia|].
    intros Hin. apply list_elem_of_lookup in Hin as [i Hi].
    pose proof (lookup_lt_Some _ _ _ Hi). rewrite (Hone i) in Hval by (lia || done). lia.
Qed.

(** X12, witness: a lookup in five ascending values with three rounds. *)
Lemma binarySearch_spec_witness :
  exists res, binarySearch 3 [1; 3; 5; 7; 9] 7 = Ret res /\
    (res = -1 \/ (0 <= res /\ [1; 3; 5; 7; 9] !! Z.to_nat res = Some 7)) /\
    (ascending [1; 3; 5; 7; 9] -> 7 ∈ [1; 3; 5; 7; 9] -> res <> -1).
Proof. apply binarySearch_spec; vm_compute; [discriminate|reflexivity]. Defined.

(** X13, witness: 289 in coins of 100, 25, 10, 5, 1. *)
Lemma greedyChange_spec_witness :
  exists take, greedyChange 289 [100; 25; 10; 5; 1] = Ret take /\
    length take = length [100; 25; 10; 5; 1] /\ Forall (fun t => 0 <= t) take /\
    changeValue take [100; 25; 10; 5; 1] <= 289 /\
    (1 ∈ [100; 25; 10; 5; 1] -> changeValue take [100; 25; 10; 5; 1] = 289).
Proof.
  apply greedyChange_spec.
  - vm_compute. split; discriminate.
  - repeat constructor.
Defined.

End AlgorithmFacts.

Module MergeSortFacts.
Import Algorithms.

Local Abbreviation len l := (Z.of_nat (length l)).

Lemma aset_middle (pre junk post : list Z) y x :
  aset (pre ++ (y :: junk) ++ post) (len pre) x = Ret ((pre ++ [x]) ++ junk ++ post).
Proof.
  rewrite aset_in by (rewrite !length_app; simpl; lia).
  rewrite Nat2Z.id. f_equal.
  rewrite insert_app_r_alt by lia. rewrite Nat.sub_diag. simpl.
  by rewrite <- app_assoc.
Qed.

Lemma mergeRest_spec fuel src pre junk post i :
  0 <= i <= len src -> len junk = len src - i -> len src - i <= Z.of_nat fuel ->
  len (pre ++ junk ++ post) <= INT_MAX -> len src <= INT_MAX ->
  mergeRest fuel src (pre ++ junk ++ post) i (len pre)
  = Ret (pre ++ drop (Z.to_nat i) src ++ post, len pre + len junk).
Proof.
  unfold INT_MAX. revert pre junk i.
  induction fuel as [|fuel IH]; intros pre junk i Hi Hj Hf Hmax Hsrc.
  - assert (i = len src) as -> by lia. cbn [mergeRest]. rewrite Z.ltb_irrefl.
    rewrite Nat2Z.id, drop_all. destruct junk; [|simpl in Hj; lia].
    simpl. do 2 f_equal. lia.
  - cbn [mergeRest]. destruct (Z.ltb_spec i (len src)) as [Hlt|Hge].
    2:{ assert (i = len src) as -> by lia.
        rewrite Nat2Z.id, drop_all. destruct junk; [|simpl in Hj; lia].
        simpl. do 2 f_equal. lia. }
    destruct (aget_in src i ltac:(lia)) as (x & -> & Hx). rewrite bind_Ret_l.
    destruct junk as [|y junk]; [simpl in Hj; lia|].
    rewrite aset_middle, bind_Ret_l.
    rewrite !length_app in Hmax. simpl in Hmax, Hj.
    rewrite (int_of_in (len pre + 1)) by (unfold INT_MIN, INT_MAX; lia). rewrite bind_Ret_l.
    rewrite (int_of_in (i + 1)) by (unfold INT_MIN, INT_MAX; lia). rewrite bind_Ret_l.
    replace (len pre + 1) with (len (pre ++ [x])) by (rewrite length_app; simpl; lia).
    rewrite IH; [|lia|lia|lia|rewrite !length_app in *; simpl; lia|lia].
    rewrite (drop_S src x (Z.to_nat i)) by done.
    replace (Z.to_nat (i + 1)) with (S (Z.to_nat i)) by lia.
    rewrite <- !app_assoc. simpl. do 2 f_equal. rewrite length_app. simpl. lia.
Qed.

(** The three loops of [merge] write the merge of the unread parts of
    [left] and [right] over the slots from [k] on. *)
Lemma merge_loops fuel F left right pre junk post i j :
  0 <= i <= len left -> 0 <= j <= len right ->
  len junk = (len left - i) + (len right - j) ->
  len junk <= Z.of_nat fuel -> len left <= Z.of_nat F -> len right <= Z.of_nat F ->
  len left <= INT_MAX -> len right <= INT_MAX ->
  len (pre ++ junk ++ post) <= INT_MAX ->
  ('(a1, i', j', k) ← mergeBoth fuel left right (pre ++ junk ++ post) i j (len pre);
   '(a2, k2) ← mergeRest F left a1 i' k;
   '(a3, _) ← mergeRest F right a2 j' k2;
   Ret a3)
  = Ret (pre ++ list_merge Z.le (drop (Z.to_nat i) left) (drop (Z.to_nat j) right) ++ post).
Proof.
  unfold INT_MAX. revert pre junk i j.
  assert (forall pre junk i j,
    0 <= i <= len left -> 0 <= j <= len right ->
    len junk = (len left - i) + (len right - j) ->
    len left <= Z.of_nat F -> len right <= Z.of_nat F ->
    len left <= 2147483647 -> len right <= 2147483647 ->
    len (pre ++ junk ++ post) <= 2147483647 ->
    i = len left \/ j = len right ->
    ('(a2, k2) ← mergeRest F left (pre ++ junk ++ post) i (len pre);
     '(a3, _) ← mergeRest F right a2 j k2;
     Ret a3)
    = Ret (pre ++ list_merge Z.le (drop (Z.to_nat i) left) (drop (Z.to_nat j) right) ++ post))
    as Hdone.
  { intros pre junk i j Hi Hj Hlen HF1 HF2 Hml Hmr Hmax Hend.
    rewrite <- (take_drop (Z.to_nat (len left - i)) junk).
    set (junk1 := take (Z.to_nat (len left - i)) junk).
    set (junk2 := drop (Z.to_nat (len left - i)) junk).
    assert (len junk1 = len left - i) as H1 by (subst junk1; rewrite length_take; lia).
    assert (len junk2 = len right - j) as H2 by (subst junk2; rewrite length_drop; lia).
    assert (len (pre ++ junk1 ++ junk2 ++ post) <= 2147483647) as Hmax'.
    { rewrite !length_app in *. lia. }
    rewrite <- (app_assoc junk1).
    rewrite mergeRest_spec; [|lia|lia|lia|unfold INT_MAX; lia|unfold INT_MAX; lia].
    rewrite bind_Ret_l. cbv beta iota.
    replace (len pre + len junk1) with (len (pre ++ drop (Z.to_nat i) left)).
    2:{ rewrite length_app, length_drop. lia. }
    rewrite (app_assoc pre).
    rewrite mergeRest_spec; [|lia|lia|lia| |unfold INT_MAX; lia].
    2:{ unfold INT_MAX. rewrite !length_app, length_drop in *. lia. }
    rewrite bind_Ret_l. cbv beta iota. f_equal. rewrite <- !app_assoc. f_equal.
    rewrite app_assoc. f_equal.
    destruct Hend as [-> | ->]; rewrite Nat2Z.id, drop_all.
    - by rewrite list_merge_nil_l.
    - by rewrite list_merge_nil_r, app_nil_r. }
  induction fuel as [|fuel IH]; intros pre junk i j Hi Hj Hlen Hf HF1 HF2 Hml Hmr Hmax.
  - assert (i = len left /\ j = len right) as [-> ->] by lia.
    cbn [mergeBoth]. rewrite Z.ltb_irrefl. cbn [andb]. rewrite bind_Ret_l. cbv beta iota.
    apply Hdone; first [lia | by left].
  - cbn [mergeBoth].
    destruct (Z.ltb_spec i (len left)) as [Hil|Hil]; cbn [andb].
    2:{ rewrite bind_Ret_l. cbv beta iota. apply Hdone; first [lia | left; lia]. }
    destruct (Z.ltb_spec j (len right)) as [Hjl|Hjl].
    2:{ rewrite bind_Ret_l. cbv beta iota. apply Hdone; first [lia | right; lia]. }
    destruct (aget_in left i ltac:(lia)) as (x & -> & Hx). rewrite bind_Ret_l.
    destruct (aget_in right j ltac:(lia)) as (y & -> & Hy). rewrite bind_Ret_l.
    destruct junk as [|z junk]; [simpl in Hlen; lia|].
    rewrite !length_app in Hmax. simpl in Hmax, Hlen, Hf.
    rewrite (drop_S left x (Z.to_nat i)) by done.
    rewrite (drop_S right y (Z.to_nat j)) by done.
    rewrite list_merge_cons.
    destruct (Z.leb_spec x y) as [Hxy|Hxy].
    + rewrite decide_True by done.
      rewrite aset_middle, bind_Ret_l.
      rewrite (int_of_in (len pre + 1)) by (unfold INT_MIN, INT_MAX; lia). rewrite bind_Ret_l.
      rewrite (int_of_in (i + 1)) by (unfold INT_MIN, INT_MAX; lia). rewrite bind_Ret_l.
      replace (len pre + 1) with (len (pre ++ [x])) by (rewrite length_app; simpl; lia).
      rewrite IH; [|lia|lia|lia|lia|lia|lia|lia|lia|rewrite !length_app in *; simpl; lia].
      replace (Z.to_nat (i + 1)) with (S (Z.to_nat i)) by lia.
      rewrite (drop_S right y (Z.to_nat j)) by done.
      by rewrite <- !app_assoc.
    + rewrite decide_False by lia.
      rewrite aset_middle, bind_Ret_l.
      rewrite (int_of_in (len pre + 1)) by (unfold INT_MIN, INT_MAX; lia). rewrite bind_Ret_l.
      rewrite (int_of_in (j + 1)) by (unfold INT_MIN, INT_MAX; lia). rewrite bind_Ret_l.
      replace (len pre + 1) with (len (pre ++ [y])) by (rewrite length_app; simpl; lia).
      rewrite IH; [|lia|lia|lia|lia|lia|lia|lia|lia|rewrite !length_app in *; simpl; lia].
      replace (Z.to_nat (j + 1)) with (S (Z.to_nat j)) by lia.
      rewrite (drop_S left x (Z.to_nat i)) by done.
      by rewrite <- !app_assoc.
Qed.

Lemma slice_middle (pre mid post : list Z) :
  slice (pre ++ mid ++ post) (len pre) (len pre + len mid) = Ret mid.
Proof.
  unfold slice. rewrite !length_app.
  rewrite (proj2 (Z.leb_le 0 _)), (proj2 (Z.leb_le (len pre) _)), (proj2 (Z.leb_le _ _)) by lia.
  cbn [andb]. f_equal. rewrite Nat2Z.id, drop_app_length.
  replace (Z.to_nat (len pre + len mid - len pre)) with (length mid) by lia.
  by rewrite take_app_length.
Qed.

(** [merge] on two adjacent runs [s1], [s2]. *)
Lemma merge_spec fuel pre s1 s2 post :
  len (s1 ++ s2) <= Z.of_nat fuel -> len (pre ++ s1 ++ s2 ++ post) <= INT_MAX ->
  merge fuel (pre ++ s1 ++ s2 ++ post) (len pre) (len pre + len s1 - 1)
        (len pre + len s1 + len s2 - 1)
  = Ret (pre ++ list_merge Z.le s1 s2 ++ post).
Proof.
  intros Hf Hmax. unfold merge.
  replace (len pre + len s1 - 1 + 1) with (len pre + len s1) by lia.
  replace (len pre + len s1 + len s2 - 1 + 1) with (len pre + len s1 + len s2) by lia.
  rewrite (slice_middle pre s1 (s2 ++ post)), bind_Ret_l.
  replace (pre ++ s1 ++ s2 ++ post) with ((pre ++ s1) ++ s2 ++ post) at 1
    by (by rewrite <- app_assoc).
  replace (len pre + len s1) with (len (pre ++ s1)) by (rewrite length_app; lia).
  rewrite (slice_middle (pre ++ s1) s2 post), bind_Ret_l.
  replace (pre ++ s1 ++ s2 ++ post) with (pre ++ (s1 ++ s2) ++ post)
    by (by rewrite <- app_assoc).
  rewrite length_app in Hf.
  rewrite (merge_loops fuel fuel s1 s2 pre (s1 ++ s2) post 0 0);
    [done|lia|lia|rewrite length_app; lia|rewrite length_app; lia|lia|lia| | |];
    unfold INT_MAX in *; rewrite !length_app in *; lia.
Qed.

Lemma mergeSortRec_spec fuel pre mid post :
  mid <> [] -> len mid <= Z.of_nat fuel -> len (pre ++ mid ++ post) <= INT_MAX ->
  exists s, mergeSortRec fuel (pre ++ mid ++ post) (len pre) (len pre + len mid - 1)
            = Ret (pre ++ s ++ post) /\ Sorted Z.le s /\ s ≡ₚ mid.
Proof.
  revert pre mid post. induction fuel as [|fuel IH]; intros pre mid post Hne Hf Hmax.
  - destruct mid; [done|simpl in Hf; lia].
  - cbn [mergeSortRec]. rewrite Z.geb_leb.
    destruct (Z.leb_spec (len pre + len mid - 1) (len pre)) as [Hone|Hmany].
    { exists mid. split; [done|]. split; [|done].
      destruct mid as [|x [|y mid]]; [done|repeat constructor|simpl in Hone; lia]. }
    assert (len (pre ++ mid ++ post) = len pre + len mid + len post) as Hlen
      by (rewrite !length_app; lia).
    unfold INT_MAX in Hmax.
    rewrite int_of_in by (unfold INT_MIN, INT_MAX; lia). rewrite bind_Ret_l.
    set (d := len pre + len mid - 1 - len pre).
    assert (2 * (d ÷ 2) <= d <= 2 * (d ÷ 2) + 1) as Hq.
    { rewrite Z.quot_div_nonneg by lia.
      pose proof (Z.div_mod d 2 ltac:(lia)).
      pose proof (Z.mod_pos_bound d 2 ltac:(lia)). lia. }
    rewrite int_of_in by (unfold INT_MIN, INT_MAX; lia). rewrite bind_Ret_l.
    set (n1 := Z.to_nat (d ÷ 2 + 1)).
    rewrite <- (take_drop n1 mid).
    set (mid1 := take n1 mid). set (mid2 := drop n1 mid).
    assert (len mid1 = d ÷ 2 + 1) as H1 by (subst mid1 n1; rewrite length_take; lia).
    assert (len mid2 = len mid - (d ÷ 2 + 1)) as H2 by (subst mid2 n1; rewrite length_drop; lia).
    assert (mid1 <> []) as Hne1 by (intros E; rewrite E in H1; simpl in H1; lia).
    assert (mid2 <> []) as Hne2 by (intros E; rewrite E in H2; simpl in H2; lia).
    replace (len pre + d ÷ 2) with (len pre + len mid1 - 1) by lia.
    rewrite <- (app_assoc mid1).
    destruct (IH pre mid1 (mid2 ++ post) Hne1) as (s1 & -> & Hs1 & Hp1); [lia| |].
    { unfold INT_MAX. rewrite !length_app in *. lia. }
    rewrite bind_Ret_l.
    rewrite int_of_in by (unfold INT_MIN, INT_MAX; lia). rewrite bind_Ret_l.
    assert (len s1 = len mid1) as Hl1 by (by rewrite Hp1).
    replace (len pre + len mid1 - 1 + 1) with (len (pre ++ s1)) by (rewrite length_app; lia).
    rewrite (app_assoc pre s1).
    replace (len pre + len (mid1 ++ mid2) - 1)
      with (len (pre ++ s1) + len mid2 - 1) by (rewrite !length_app; lia).
    destruct (IH (pre ++ s1) mid2 post Hne2) as (s2 & -> & Hs2 & Hp2); [lia| |].
    { unfold INT_MAX. rewrite !length_app in *. lia. }
    rewrite bind_Ret_l.
    assert (len s2 = len mid2) as Hl2 by (by rewrite Hp2).
    rewrite <- (app_assoc pre s1).
    replace (len pre + len mid1 - 1) with (len pre + len s1 - 1) by lia.
    replace (len (pre ++ s1) + len mid2 - 1) with (len pre + len s1 + len s2 - 1)
      by (rewrite length_app; lia).
    rewrite merge_spec; [| rewrite length_app; lia | unfold INT_MAX; rewrite !length_app in *; lia].
    exists (list_merge Z.le s1 s2). split; [done|]. split.
    + apply (Sorted_list_merge _); done.
    + rewrite merge_Permutation, Hp1, Hp2. done.
Qed.

(** X14.  [mergeSort] returns (fuel at least the size) the elements of its
    argument in ascending order. *)
Theorem mergeSort_sorts fuel a :
  Z.of_nat (length a) <= INT_MAX -> (length a <= fuel)%nat ->
  exists a', mergeSort fuel a = Ret a' /\ Sorted Z.le a' /\ a' ≡ₚ a.
Proof.
  intros Hmax Hf. destruct a as [|x a]; [exists []; by repeat constructor|].
  unfold mergeSort, size_int. set (b := x :: a) in *.
  rewrite int_of_in by (unfold INT_MIN, INT_MAX in *; lia). rewrite bind_Ret_l.
  rewrite int_of_in by (unfold INT_MIN, INT_MAX in *; lia). rewrite bind_Ret_l.
  destruct (mergeSortRec_spec fuel [] b []) as (s & Hrun & Hs & Hp);
    [done|lia|by rewrite app_nil_r|].
  rewrite app_nil_l, !app_nil_r in Hrun. change (len []) with 0 in Hrun.
  rewrite Z.add_0_l in Hrun. rewrite Hrun. exists s. done.
Qed.

(** X14, witness. *)
Lemma mergeSort_sorts_witness :
  exists a', mergeSort 8 [5; 3; 9; 1; 1; 7; 0; -4] = Ret a' /\
    Sorted Z.le a' /\ a' ≡ₚ [5; 3; 9; 1; 1; 7; 0; -4].
Proof. apply mergeSort_sorts; vm_compute; [discriminate|lia]. Defined.

End MergeSortFacts.

Module QuickSortFacts.
Import Algorithms.

Local Abbreviation len l := (Z.of_nat (length l)).

Lemma within_refl a l r : within a a l r.
Proof. by repeat split. Qed.

Lemma within_trans a b c l r : within a b l r -> within b c l r -> within a c l r.
Proof.
  intros (H1 & H2 & H3 & H4) (G1 & G2 & G3 & G4). split; [congruence|].
  split; [by etrans|]. split; [|auto].
  intros k Hk. by rewrite G3, H3.
Qed.

Lemma within_wider a b l r l' r' :
  l' <= l -> r <= r' -> within a b l r -> within a b l' r'.
Proof.
  intros Hl Hr (H1 & H2 & H3 & H4). split; [done|]. split; [done|]. split.
  - intros k Hk. apply H3. lia.
  - intros P HP k x Hk Hx.
    destruct (decide (l <= Z.of_nat k <= r)) as [Hin|Hout].
    + apply (H4 P) with k; [|done..]. intros k' x' Hk'. apply HP. lia.
    + rewrite H3 in Hx by lia. by apply (HP k).
Qed.

Lemma swap_within a i j l r :
  l <= i <= r -> l <= j <= r -> 0 <= l -> r < len a ->
  exists a' x y, swap a i j = Ret a' /\ within a a' l r /\
    a !! Z.to_nat i = Some x /\ a !! Z.to_nat j = Some y /\
    a' !! Z.to_nat j = Some x /\ a' !! Z.to_nat i = Some (if decide (i = j) then x else y) /\
    forall k : nat, k <> Z.to_nat i -> k <> Z.to_nat j -> a' !! k = a !! k.
Proof.
  intros Hi Hj Hl Hr. unfold swap.
  destruct (aget_in a i ltac:(lia)) as (x & -> & Hx). rewrite bind_Ret_l.
  destruct (aget_in a j ltac:(lia)) as (y & -> & Hy). rewrite bind_Ret_l.
  rewrite aset_in by lia. rewrite bind_Ret_l.
  rewrite aset_in by (rewrite length_insert; lia).
  assert (forall k : nat, k <> Z.to_nat i -> k <> Z.to_nat j ->
            <[Z.to_nat j:=x]> (<[Z.to_nat i:=y]> a) !! k = a !! k) as Hother.
  { intros k H1 H2. by rewrite !list_lookup_insert_ne by done. }
  assert (<[Z.to_nat j:=x]> (<[Z.to_nat i:=y]> a) !! Z.to_nat j = Some x) as Hnj.
  { rewrite list_lookup_insert_eq; [done|]. rewrite length_insert. lia. }
  assert (<[Z.to_nat j:=x]> (<[Z.to_nat i:=y]> a) !! Z.to_nat i
          = Some (if decide (i = j) then x else y)) as Hni.
  { case_decide as E; [by subst|].
    rewrite list_lookup_insert_ne by lia. rewrite list_lookup_insert_eq; [done|lia]. }
  exists (<[Z.to_nat j:=x]> (<[Z.to_nat i:=y]> a)), x, y.
  split; [done|]. split; [|done].
  split; [by rewrite !length_insert|]. split; [by apply Permutation_insert_swap|].
  split.
  - intros k Hk. apply Hother; lia.
  - intros P HP k z Hk Hz.
    destruct (decide (k = Z.to_nat j)) as [->|Hkj].
    { rewrite Hnj in Hz. injection Hz as <-. apply (HP (Z.to_nat i)); [lia|done]. }
    destruct (decide (k = Z.to_nat i)) as [->|Hki].
    { rewrite Hni in Hz. injection Hz as <-.
      case_decide; [apply (HP (Z.to_nat i))|apply (HP (Z.to_nat j))]; (lia || done). }
    rewrite Hother in Hz by done. by apply (HP k).
Qed.

Lemma partition_spec a l r :
  0 <= l <= r -> r < len a -> len a <= INT_MAX ->
  exists a' p pv, partition a l r = Ret (a', p) /\ l <= p <= r /\
    within a a' l r /\ a' !! Z.to_nat p = Some pv /\
    seg_all (fun x => x <= pv) a' l (p - 1) /\
    seg_all (fun x => pv < x) a' (p + 1) r.
Proof.
  intros Hl Hr Hmax. unfold partition, INT_MAX in *.
  destruct (aget_in a r ltac:(lia)) as (pv & -> & Hpv). rewrite bind_Ret_l.
  destruct (for_range_inv
    (fun j (s : list Z * Z) =>
       within a s.1 l r /\ l <= s.2 <= j /\ s.1 !! Z.to_nat r = Some pv /\
       seg_all (fun x => x <= pv) s.1 l (s.2 - 1) /\
       seg_all (fun x => pv < x) s.1 s.2 (j - 1))
    l r (partitionStep pv) (a, l)) as ([a1 i] & -> & Hinv).
  - lia.
  - simpl. split; [apply within_refl|]. split; [lia|]. split; [done|].
    split; intros k x Hk; lia.
  - intros j [b i] Hj (Hw & Hi & Hbr & Hlo & Hhi). cbn [fst snd] in *.
    assert (length b = length a) as Hlen by apply Hw.
    unfold partitionStep.
    destruct (aget_in b j ltac:(lia)) as (x & -> & Hx). rewrite bind_Ret_l.
    destruct (Z.leb_spec x pv) as [Hle|Hgt].
    + destruct (swap_within b i j l r) as (b' & u & v & -> & Hw' & Hu & Hv & Hbj & Hbi & Hoth);
        [lia..|].
      rewrite bind_Ret_l. rewrite int_of_in by (unfold INT_MIN, INT_MAX; lia).
      rewrite bind_Ret_l. eexists. split; [done|]. simpl.
      assert (v = x) as -> by congruence.
      split; [by apply (within_trans a b b')|]. split; [lia|]. split.
      { rewrite Hoth by lia. done. }
      split.
      * intros k z Hk Hz. destruct (decide (k = Z.to_nat i)) as [->|Hki].
        { rewrite Hbi in Hz. injection Hz as <-. case_decide; [congruence|done]. }
        rewrite Hoth in Hz by lia. apply (Hlo k z); [lia|done].
      * intros k z Hk Hz. destruct (decide (k = Z.to_nat j)) as [->|Hkj].
        { rewrite Hbj in Hz. injection Hz as <-. apply (Hhi (Z.to_nat i) u); [lia|done]. }
        rewrite Hoth in Hz by lia. apply (Hhi k z); [lia|done].
    + eexists. split; [done|]. simpl. split; [done|]. split; [lia|]. split; [done|].
      split; [done|]. intros k z Hk Hz.
      destruct (decide (Z.of_nat k = j)) as [E|E].
      * replace k with (Z.to_nat j) in Hz by lia. congruence.
      * apply (Hhi k z); [lia|done].
  - destruct Hinv as (Hw & Hi & Hbr & Hlo & Hhi). cbn [fst snd] in *.
    assert (length a1 = length a) as Hlen by apply Hw.
    rewrite bind_Ret_l. cbv beta iota.
    destruct (swap_within a1 i r l r) as (a2 & u & v & -> & Hw' & Hu & Hv & Hbj & Hbi & Hoth);
      [lia..|].
    rewrite bind_Ret_l. assert (v = pv) as -> by congruence.
    exists a2, i, pv. split; [done|]. split; [lia|].
    split; [by apply (within_trans a a1 a2)|]. split.
    { rewrite Hbi. case_decide; [congruence|done]. }
    split.
    + intros k z Hk Hz. rewrite Hoth in Hz by lia. apply (Hlo k z); [lia|done].
    + intros k z Hk Hz. destruct (decide (k = Z.to_nat r)) as [->|Hkr].
      * rewrite Hbj in Hz. injection Hz as <-. apply (Hhi (Z.to_nat i) u); [lia|done].
      * rewrite Hoth in Hz by lia. apply (Hhi k z); [lia|done].
Qed.

Lemma quickSortRec_spec fuel a l r :
  0 <= l -> r < len a -> len a <= INT_MAX -> r - l <= Z.of_nat fuel ->
  exists a', quickSortRec fuel a l r = Ret a' /\ within a a' l r /\ sorted_seg a' l r.
Proof.
  revert a l r. induction fuel as [|fuel IH]; intros a l r Hl Hr Hmax Hf.
  - cbn [quickSortRec]. rewrite (proj2 (Z.ltb_ge l r)) by lia.
    exists a. split; [done|]. split; [apply within_refl|].
    intros k1 k2 x y H1 H12 H2 Hx Hy. assert (k1 = k2) as -> by lia. assert (x = y) by congruence. lia.
  - cbn [quickSortRec]. destruct (Z.ltb_spec l r) as [Hlt|Hge].
    2:{ exists a. split; [done|]. split; [apply within_refl|].
        intros k1 k2 x y H1 H12 H2 Hx Hy. assert (k1 = k2) as -> by lia. assert (x = y) by congruence. lia. }
    destruct (partition_spec a l r) as (a1 & p & pv & -> & Hp & Hw1 & Hpv & Hlo & Hhi); [lia..|].
    rewrite bind_Ret_l. cbv beta iota.
    assert (length a1 = length a) as Hlen1 by apply Hw1.
    unfold INT_MAX in Hmax.
    rewrite (int_of_in (p - 1)) by (unfold INT_MIN, INT_MAX; lia). rewrite bind_Ret_l.
    destruct (IH a1 l (p - 1)) as (a2 & -> & Hw2 & Hs2); [unfold INT_MAX; lia..|].
    rewrite bind_Ret_l.
    assert (length a2 = length a1) as Hlen2 by apply Hw2.
    rewrite (int_of_in (p + 1)) by (unfold INT_MIN, INT_MAX; lia). rewrite bind_Ret_l.
    destruct (IH a2 (p + 1) r) as (a3 & -> & Hw3 & Hs3); [unfold INT_MAX; lia..|].
    exists a3. split; [done|]. split.
    { apply (within_trans a a1 a3); [done|]. apply (within_trans a1 a2 a3).
      - by apply (within_wider a1 a2 l (p - 1)); [lia..|].
      - by apply (within_wider a2 a3 (p + 1) r); [lia..|]. }
    destruct Hw2 as (_ & _ & Ho2 & Hp2). destruct Hw3 as (_ & _ & Ho3 & Hp3).
    assert (seg_all (fun x => x <= pv) a3 l (p - 1)) as F1.
    { intros k z Hk Hz. rewrite Ho3 in Hz by lia. by apply (Hp2 _ Hlo k z). }
    assert (a3 !! Z.to_nat p = Some pv) as F2.
    { rewrite Ho3 by lia. rewrite Ho2 by lia. done. }
    assert (seg_all (fun x => pv < x) a3 (p + 1) r) as F3.
    { apply Hp3. intros k z Hk Hz. rewrite Ho2 in Hz by lia. by apply (Hhi k z). }
    intros k1 k2 x y H1 H12 H2 Hx Hy.
    destruct (decide (Z.of_nat k2 < p)) as [C2|C2].
    { rewrite Ho3 in Hx, Hy by lia. apply (Hs2 k1 k2); (lia || done). }
    destruct (decide (p < Z.of_nat k1)) as [C1|C1].
    { apply (Hs3 k1 k2); (lia || done). }
    assert (x <= pv) as Hxp.
    { destruct (decide (Z.of_nat k1 = p)) as [E|E].
      - replace k1 with (Z.to_nat p) in Hx by lia. assert (x = pv) by congruence. lia.
      - apply (F1 k1 x); [lia|done]. }
    assert (pv <= y) as Hpy.
    { destruct (decide (Z.of_nat k2 = p)) as [E|E].
      - replace k2 with (Z.to_nat p) in Hy by lia. assert (y = pv) by congruence. lia.
      - pose proof (F3 k2 y ltac:(lia) Hy). simpl in *. lia. }
    lia.
Qed.

Lemma sorted_seg_Sorted a : sorted_seg a 0 (len a - 1) -> Sorted Z.le a.
Proof.
  induction a as [|x a IH]; [constructor|]. intros Hs. constructor.
  - apply IH. intros k1 k2 u v H1 H12 H2 Hu Hv.
    apply (Hs (S k1) (S k2) u v); simpl in *; (lia || done).
  - destruct a as [|y a]; constructor.
    apply (Hs 0%nat 1%nat x y); simpl; (lia || done).
Qed.

(** X15.  [quickSort] returns (fuel at least the size) the elements of its
    argument in ascending order. *)
Theorem quickSort_sorts fuel a :
  Z.of_nat (length a) <= INT_MAX -> (length a <= fuel)%nat ->
  exists a', quickSort fuel a = Ret a' /\ Sorted Z.le a' /\ a' ≡ₚ a.
Proof.
  intros Hmax Hf. destruct a as [|x a]; [exists []; by repeat constructor|].
  unfold quickSort, size_int. set (b := x :: a) in *.
  rewrite int_of_in by (unfold INT_MIN, INT_MAX in *; lia). rewrite bind_Ret_l.
  rewrite int_of_in by (unfold INT_MIN, INT_MAX in *; lia). rewrite bind_Ret_l.
  destruct (quickSortRec_spec fuel b 0 (len b - 1)) as (a' & -> & Hw & Hs); [lia..|].
  exists a'. split; [done|]. destruct Hw as (Hlen & Hperm & _). split; [|done].
  apply sorted_seg_Sorted. by rewrite Hlen.
Qed.

(** X15, witness. *)
Lemma quickSort_sorts_witness :
  exists a', quickSort 8 [5; 3; 9; 1; 1; 7; 0; -4] = Ret a' /\
    Sorted Z.le a' /\ a' ≡ₚ [5; 3; 9; 1; 1; 7; 0; -4].
Proof. apply quickSort_sorts; vm_compute; [discriminate|lia]. Defined.

End QuickSortFacts.

Module RabinKarpFacts.
Import Algorithms.

Local Abbreviation len l := (Z.of_nat (length l)).

Section Bounds.
Variables (base md : Z).
Hypothesis Hmd : 1 < md.
Hypothesis Hbase : 0 <= base.
Hypothesis Hfit : 3 * base * md + 128 <= INT_MAX.
Hypothesis Hfit' : 128 * md <= INT_MAX.

Lemma int_rem_ok a :
  INT_MIN <= a <= INT_MAX ->
  int_rem a md = Ret (Z.rem a md) /\ - md < Z.rem a md < md /\
  (0 <= a -> Z.rem a md = a mod md /\ 0 <= Z.rem a md).
Proof.
  intros Ha. unfold int_rem. rewrite (proj2 (Z.eqb_neq md 0)) by lia.
  assert (INT_MIN <= a ÷ md <= INT_MAX) as Hq.
  { destruct (Z.le_gt_cases 0 a) as [Hpos|Hneg].
    - pose proof (Z.quot_pos a md Hpos ltac:(lia)).
      assert (a <= md * a) as Hle by nia.
      pose proof (Z.quot_le_upper_bound a md a ltac:(lia) Hle).
      unfold INT_MIN, INT_MAX in *. lia.
    - replace a with (- - a) by lia. rewrite Z.quot_opp_l by lia.
      pose proof (Z.quot_pos (- a) md ltac:(lia) ltac:(lia)).
      assert (- a <= md * - a) as Hle by nia.
      pose proof (Z.quot_le_upper_bound (- a) md (- a) ltac:(lia) Hle).
      unfold INT_MIN, INT_MAX in *. lia. }
  rewrite int_of_in by done. rewrite bind_Ret_l.
  split; [done|].
  pose proof (Z.rem_bound_abs a md ltac:(lia)) as Hb.
  split; [lia|]. intros Hpos. rewrite Z.rem_mod_nonneg by lia.
  split; [done|]. apply Z.mod_pos_bound. lia.
Qed.

Lemma rkStep_ok p c :
  - md < p < md -> -128 <= c <= 127 ->
  rkStep base md p c = Ret (Z.rem (base * p + c) md) /\
  - md < Z.rem (base * p + c) md < md /\
  (0 <= p -> 0 <= c ->
   Z.rem (base * p + c) md = (base * p + c) mod md /\ 0 <= Z.rem (base * p + c) md).
Proof.
  intros Hp Hc. unfold rkStep, INT_MAX in *.
  assert (- (base * md) <= base * p <= base * md) as Hbp by nia.
  rewrite int_of_in by (unfold INT_MIN, INT_MAX; nia). rewrite bind_Ret_l.
  rewrite int_of_in by (unfold INT_MIN, INT_MAX; nia). rewrite bind_Ret_l.
  destruct (int_rem_ok (base * p + c)) as (-> & Hb & Hnn);
    [unfold INT_MIN, INT_MAX; nia|].
  split; [done|]. split; [done|]. intros H1 H2. apply Hnn. nia.
Qed.

Lemma rkPower_ok m :
  1 <= m ->
  exists h, rkPower m base md = Ret h /\ 0 <= h < md /\ h = base ^ (m - 1) mod md.
Proof.
  intros Hm. unfold rkPower.
  destruct (for_range_inv (fun i h => 0 <= h < md /\ h = base ^ i mod md)
    0 (m - 1) (fun _ h => x ← int_of (h * base); int_rem x md) 1)
    as (h & -> & Hh); [lia| | |by exists h].
  - change (base ^ 0) with 1. rewrite Z.mod_small by lia. lia.
  - intros i h Hi [Hb ->]. unfold INT_MAX in *.
    rewrite int_of_in by (unfold INT_MIN, INT_MAX; nia). rewrite bind_Ret_l.
    destruct (int_rem_ok (base ^ i mod md * base)) as (-> & _ & Hnn);
      [unfold INT_MIN, INT_MAX; nia|].
    destruct Hnn as [Heq Hpos]; [nia|].
    eexists. split; [done|]. rewrite Heq.
    split; [apply Z.mod_pos_bound; lia|].
    rewrite Z.pow_add_r by lia. rewrite Z.pow_1_r.
    by rewrite Z.mul_mod_idemp_l by lia.
Qed.

Lemma polyValue_snoc l c : polyValue base (l ++ [c]) = base * polyValue base l + c.
Proof. unfold polyValue. by rewrite fold_left_app. Qed.

Lemma polyValue_cons c l :
  polyValue base (c :: l) = c * base ^ len l + polyValue base l.
Proof.
  unfold polyValue. cbn. rewrite Z.mul_0_r, Z.add_0_l.
  assert (forall a, fold_left (fun acc c0 : Z => base * acc + c0) l a
                    = a * base ^ len l + fold_left (fun acc c0 : Z => base * acc + c0) l 0)
    as Hgen.
  { induction l as [|d l IH]; intros a.
    - cbn. lia.
    - cbn [fold_left length]. rewrite IH. rewrite (IH (base * 0 + d)).
      rewrite Nat2Z.inj_succ, Z.pow_succ_r by lia. lia. }
  apply Hgen.
Qed.

Lemma step_mod P c : (base * (P mod md) + c) mod md = (base * P + c) mod md.
Proof.
  rewrite <- Z.add_mod_idemp_l by lia. rewrite Z.mul_mod_idemp_r by lia.
  by rewrite Z.add_mod_idemp_l by lia.
Qed.

Lemma rkHashes_ok txt ptn :
  chars txt -> chars ptn -> len ptn <= len txt ->
  exists p t, rkHashes txt ptn (len ptn) base md = Ret (p, t) /\
    - md < p < md /\ - md < t < md /\
    (chars7 ptn -> p = polyValue base ptn mod md) /\
    (chars7 txt -> 0 <= t /\ t = polyValue base (take (length ptn) txt) mod md).
Proof.
  intros Htxt Hpat Hle. unfold rkHashes.
  destruct (for_range_inv
    (fun i (s : Z * Z) =>
       - md < s.1 < md /\ - md < s.2 < md /\
       (chars7 ptn -> 0 <= s.1 /\ s.1 = polyValue base (take (Z.to_nat i) ptn) mod md) /\
       (chars7 txt -> 0 <= s.2 /\ s.2 = polyValue base (take (Z.to_nat i) txt) mod md))
    0 (len ptn)
    (fun i '(p, t) =>
       pc ← aget ptn i; p' ← rkStep base md p pc;
       tc ← aget txt i; t' ← rkStep base md t tc; Ret (p', t')) (0, 0))
    as ([p t] & -> & Hp & Ht & Hp7 & Ht7); [lia| | |].
  - cbn. split; [lia|]. split; [lia|]. split; intros _; (split; [lia|]);
      by rewrite Z.mod_0_l by lia.
  - intros i [p t] Hi (Hp & Ht & Hp7 & Ht7). cbn [fst snd] in *.
    destruct (aget_in ptn i ltac:(lia)) as (pc & -> & Hpc). rewrite bind_Ret_l.
    destruct (aget_in txt i ltac:(lia)) as (tc & Htcr & Htc).
    assert (-128 <= pc <= 127) as Hpcb.
    { unfold chars in Hpat. rewrite Forall_lookup in Hpat. by apply (Hpat _ _ Hpc). }
    assert (-128 <= tc <= 127) as Htcb.
    { unfold chars in Htxt. rewrite Forall_lookup in Htxt. by apply (Htxt _ _ Htc). }
    destruct (rkStep_ok p pc Hp Hpcb) as (-> & Hp' & Hp7'). rewrite bind_Ret_l.
    rewrite Htcr, bind_Ret_l.
    destruct (rkStep_ok t tc Ht Htcb) as (-> & Ht' & Ht7'). rewrite bind_Ret_l.
    eexists. split; [done|]. cbn [fst snd].
    split; [done|]. split; [done|].
    replace (Z.to_nat (i + 1)) with (S (Z.to_nat i)) by lia.
    split.
    + intros H7. destruct (Hp7 H7) as [Hp0 ->].
      assert (0 <= pc) as Hpc0.
      { unfold chars7 in H7. rewrite Forall_lookup in H7. by apply (H7 _ _ Hpc). }
      destruct (Hp7' Hp0 Hpc0) as [Heq Hnn]. split; [done|].
      rewrite Heq. rewrite (take_S_r _ _ pc) by done.
      by rewrite polyValue_snoc, step_mod.
    + intros H7. destruct (Ht7 H7) as [Ht0 ->].
      assert (0 <= tc) as Htc0.
      { unfold chars7 in H7. rewrite Forall_lookup in H7. by apply (H7 _ _ Htc). }
      destruct (Ht7' Ht0 Htc0) as [Heq Hnn]. split; [done|].
      rewrite Heq. rewrite (take_S_r _ _ tc) by done.
      by rewrite polyValue_snoc, step_mod.
  - cbn [fst snd] in *. exists p, t. split; [done|]. split; [done|]. split; [done|].
    rewrite Nat2Z.id in Hp7, Ht7. split.
    + intros H7. destruct (Hp7 H7) as [_ ->]. by rewrite firstn_all.
    + done.
Qed.

Lemma rkCompare_spec txt ptn i :
  0 <= i -> i + len ptn <= len txt -> len txt <= INT_MAX ->
  exists b, rkCompare (seqZ 0 (len ptn)) txt ptn i = Ret b /\
    (b = true <-> occurs_at txt ptn i).
Proof.
  intros Hi Hroom Hmax.
  assert (forall k : nat, forall j, 0 <= j -> Z.of_nat k = len ptn - j ->
    exists b, rkCompare (seqZ j (len ptn - j)) txt ptn i = Ret b /\
      (b = true <->
       forall x : nat, j <= Z.of_nat x < len ptn ->
         txt !! (Z.to_nat i + x)%nat = ptn !! x)) as Hgen.
  { induction k as [|k IH]; intros j Hj Hk.
    - replace (len ptn - j) with 0 by lia. cbn. exists true. split; [done|].
      split; [|done]. intros _ x Hx. lia.
    - rewrite seqZ_cons by lia. cbn [rkCompare].
      rewrite int_of_in by (unfold INT_MIN, INT_MAX in *; lia). rewrite bind_Ret_l.
      destruct (aget_in txt (i + j) ltac:(lia)) as (a & -> & Ha). rewrite bind_Ret_l.
      destruct (aget_in ptn j ltac:(lia)) as (b & -> & Hb). rewrite bind_Ret_l.
      replace (Z.to_nat (i + j)) with (Z.to_nat i + Z.to_nat j)%nat in Ha by lia.
      destruct (Z.eqb_spec a b) as [->|Hne].
      + replace (Z.pred (len ptn - j)) with (len ptn - Z.succ j) by lia.
        destruct (IH (Z.succ j)) as (r & -> & Hr); [lia..|].
        exists r. split; [done|]. rewrite Hr. split.
        * intros Hall x Hx. destruct (decide (Z.of_nat x = j)) as [E|E].
          { replace x with (Z.to_nat j) by lia. congruence. }
          apply Hall. lia.
        * intros Hall x Hx. apply Hall. lia.
      + exists false. split; [done|]. split; [done|]. intros Hall.
        specialize (Hall (Z.to_nat j) ltac:(lia)). congruence. }
  destruct (Hgen (length ptn) 0) as (b & Hrun & Hb); [lia..|].
  rewrite Z.sub_0_r in Hrun. exists b. split; [done|]. rewrite Hb.
  unfold occurs_at. split.
  - intros Hall. split; [done|]. apply list_eq. intros x.
    destruct (decide (x < length ptn)%nat) as [Hx|Hx].
    + rewrite lookup_take_lt by done. rewrite lookup_drop. apply Hall. lia.
    + rewrite lookup_take_ge by lia. symmetry. apply lookup_ge_None. lia.
  - intros [_ Heq] x Hx.
    transitivity (take (length ptn) (drop (Z.to_nat i) txt) !! x); [|by rewrite Heq].
    rewrite lookup_take_lt by lia. by rewrite lookup_drop.
Qed.

Lemma rkRoll_ok txt m h i t :
  chars txt -> 0 <= i -> 1 <= m -> i + m < len txt -> len txt <= INT_MAX ->
  - md < t < md -> 0 <= h < md ->
  exists t', rkRoll txt m base md h i t = Ret t' /\ - md < t' < md /\
    (chars7 txt -> 0 <= t -> h = base ^ (m - 1) mod md ->
     t = polyValue base (take (Z.to_nat m) (drop (Z.to_nat i) txt)) mod md ->
     0 <= t' /\
     t' = polyValue base (take (Z.to_nat m) (drop (Z.to_nat (i + 1)) txt)) mod md).
Proof.
  intros Htxt Hi Hm Hroom Hmax Ht Hh. unfold rkRoll.
  destruct (aget_in txt i ltac:(lia)) as (c & -> & Hc). rewrite bind_Ret_l.
  assert (-128 <= c <= 127) as Hcb.
  { unfold chars in Htxt. rewrite Forall_lookup in Htxt. by apply (Htxt _ _ Hc). }
  unfold INT_MAX in *.
  rewrite (int_of_in (c * h)) by (unfold INT_MIN, INT_MAX; nia). rewrite bind_Ret_l.
  destruct (int_rem_ok (c * h)) as (-> & Hx & Hx7); [unfold INT_MIN, INT_MAX; nia|].
  rewrite bind_Ret_l.
  rewrite (int_of_in (t - _)) by (unfold INT_MIN, INT_MAX; nia). rewrite bind_Ret_l.
  rewrite (int_of_in (t - _ + md)) by (unfold INT_MIN, INT_MAX; nia). rewrite bind_Ret_l.
  set (y := t - Z.rem (c * h) md + md) in *.
  assert (- md < y < 3 * md) as Hy by lia.
  rewrite (int_of_in (base * y)) by (unfold INT_MIN, INT_MAX; nia). rewrite bind_Ret_l.
  rewrite (int_of_in (i + m)) by (unfold INT_MIN, INT_MAX; lia). rewrite bind_Ret_l.
  destruct (aget_in txt (i + m) ltac:(lia)) as (d & -> & Hd). rewrite bind_Ret_l.
  assert (-128 <= d <= 127) as Hdb.
  { unfold chars in Htxt. rewrite Forall_lookup in Htxt. by apply (Htxt _ _ Hd). }
  rewrite (int_of_in (base * y + d)) by (unfold INT_MIN, INT_MAX; nia). rewrite bind_Ret_l.
  destruct (int_rem_ok (base * y + d)) as (-> & Hz & Hz7); [unfold INT_MIN, INT_MAX; nia|].
  eexists. split; [done|]. split; [done|].
  intros H7 Ht0 Hhv Htv.
  assert (0 <= c) as Hc0.
  { unfold chars7 in H7. rewrite Forall_lookup in H7. by apply (H7 _ _ Hc). }
  assert (0 <= d) as Hd0.
  { unfold chars7 in H7. rewrite Forall_lookup in H7. by apply (H7 _ _ Hd). }
  destruct Hx7 as [Hxe Hx0]; [nia|].
  assert (0 <= y) as Hy0 by lia.
  destruct Hz7 as [Hze Hz0]; [nia|]. split; [done|]. rewrite Hze.
  (* the window before and after *)
  set (w' := take (Z.to_nat m - 1) (drop (Z.to_nat (i + 1)) txt)).
  assert (take (Z.to_nat m) (drop (Z.to_nat i) txt) = c :: w') as Hw.
  { rewrite (drop_S txt c (Z.to_nat i)) by done.
    replace (Z.to_nat m) with (S (Z.to_nat m - 1)) at 1 by lia. cbn.
    subst w'. by replace (Z.to_nat (i + 1)) with (S (Z.to_nat i)) by lia. }
  assert (take (Z.to_nat m) (drop (Z.to_nat (i + 1)) txt) = w' ++ [d]) as Hw2.
  { replace (Z.to_nat m) with (S (Z.to_nat m - 1)) at 1 by lia.
    rewrite (take_S_r _ _ d); [done|].
    rewrite lookup_drop. rewrite <- Hd. f_equal. lia. }
  assert (len w' = m - 1) as Hlw.
  { subst w'. rewrite length_take, length_drop. lia. }
  rewrite Hw2, polyValue_snoc. rewrite Hw, polyValue_cons, Hlw in Htv.
  subst y. rewrite Hxe, Htv, Hhv.
  set (A := c * base ^ (m - 1) + polyValue base w').
  set (Y := A mod md - (c * (base ^ (m - 1) mod md)) mod md + md).
  transitivity ((base * (Y mod md) + d) mod md); [symmetry; apply step_mod|].
  transitivity ((base * (polyValue base w' mod md) + d) mod md); [|apply step_mod].
  do 3 f_equal. subst Y.
  rewrite Z.mul_mod_idemp_r by lia.
  replace (A mod md - (c * base ^ (m - 1)) mod md + md)
    with (A mod md - (c * base ^ (m - 1)) mod md + 1 * md) by lia.
  rewrite Z.mod_add by lia.
  rewrite Zminus_mod_idemp_l, Zminus_mod_idemp_r. f_equal. subst A. lia.
Qed.

End Bounds.
Lemma sorted_snoc (res : list Z) i :
  StronglySorted Z.lt res -> (forall x, x ∈ res -> x < i) ->
  StronglySorted Z.lt (res ++ [i]).
Proof.
  induction 1 as [|y res Hs IH Hy]; intros Hlt; cbn.
  - repeat constructor.
  - constructor.
    + apply IH. intros x Hx. apply Hlt. by right.
    + apply Forall_app. split; [done|]. constructor; [|done]. apply Hlt. by left.
Qed.

Lemma occurs_at_fits txt ptn i :
  occurs_at txt ptn i -> Z.of_nat (length ptn) + i <= Z.of_nat (length txt) \/ ptn = [].
Proof.
  intros [Hi Heq]. destruct ptn as [|c ptn]; [by right|left].
  apply (f_equal length) in Heq. rewrite length_take, length_drop in Heq.
  cbn [length] in *. lia.
Qed.

(** X25.  For a modulus above 1 and a non-negative base small enough for
    the products to fit an [int], [rabinKarpSearch] returns the start
    indices of occurrences of the pattern, in ascending order and each
    once; when every [char] of text and pattern is a 7-bit character, it
    returns all of them. *)
Theorem rabinKarpSearch_spec txt ptn base md :
  1 < md -> 0 <= base -> 3 * base * md + 128 <= INT_MAX -> 128 * md <= INT_MAX ->
  chars txt -> chars ptn ->
  Z.of_nat (length txt) <= INT_MAX -> Z.of_nat (length ptn) <= INT_MAX ->
  exists res, rabinKarpSearch txt ptn base md = Ret res /\
    StronglySorted Z.lt res /\
    (forall i, i ∈ res -> ptn <> [] /\ occurs_at txt ptn i) /\
    (chars7 txt -> chars7 ptn ->
     forall i, ptn <> [] -> occurs_at txt ptn i -> i ∈ res).
Proof.
  intros Hmd Hbase Hfit Hfit' Htxt Hptn Hmax Hmaxp. unfold rabinKarpSearch, size_int.
  rewrite (int_of_in (len txt)) by (unfold INT_MIN, INT_MAX in *; lia).
  rewrite bind_Ret_l.
  rewrite (int_of_in (len ptn)) by (unfold INT_MIN, INT_MAX in *; lia).
  rewrite bind_Ret_l.
  destruct (Z.gtb_spec (len ptn) (len txt)) as [Hlong|Hshort].
  {
    rewrite orb_true_r.
    exists []. split; [done|]. split; [constructor|]. split.
    - intros i Hi. by apply elem_of_nil in Hi.
    - intros _ _ i Hne Hocc. destruct (occurs_at_fits _ _ _ Hocc) as [?|?]; [|done].
      destruct Hocc as [? _]. lia. }
  destruct (Z.eqb_spec (len ptn) 0) as [Hzero|Hpos].
  { cbn [orb]. exists []. split; [done|]. split; [constructor|]. split.
    - intros i Hi. by apply elem_of_nil in Hi.
    - intros _ _ i Hne _. destruct ptn; [done|simpl in Hzero; lia]. }
  assert (ptn <> []) as Hne by (intros ->; simpl in Hpos; lia).
  cbn [orb].
  destruct (rkPower_ok base md Hmd Hbase Hfit (len ptn) ltac:(lia)) as (h & -> & Hh & Hhv).
  rewrite bind_Ret_l.
  destruct (rkHashes_ok base md Hmd Hbase Hfit txt ptn Htxt Hptn ltac:(lia))
    as (p & t0 & -> & Hp & Ht0 & Hpv & Ht0v).
  rewrite bind_Ret_l. cbv beta iota.
  rewrite int_of_in by (unfold INT_MIN, INT_MAX in *; lia). rewrite bind_Ret_l.
  set (n := len txt) in *. set (m := len ptn) in *.
  destruct (for_range_inv
    (fun i (s : list Z * Z) =>
       - md < s.2 < md /\ StronglySorted Z.lt s.1 /\
       (forall x, x ∈ s.1 -> occurs_at txt ptn x /\ x < i) /\
       (chars7 txt -> chars7 ptn ->
        (i <= n - m ->
         0 <= s.2 /\
         s.2 = polyValue base (take (length ptn) (drop (Z.to_nat i) txt)) mod md) /\
        (forall x, 0 <= x < i -> occurs_at txt ptn x -> x ∈ s.1)))
    0 (n - m + 1) (rkShift txt ptn n m base md h p) ([], t0))
    as ([res t] & -> & Hinv); [lia| | |].
  - cbn [fst snd]. split; [done|]. split; [constructor|]. split.
    + intros x Hx. by apply elem_of_nil in Hx.
    + intros H7t H7p. split; [|intros; lia]. intros _. cbn. by apply Ht0v.
  - intros i [res t] Hi (Ht & Hsorted & Hsound & Hcomplete). cbn [fst snd] in *.
    unfold rkShift.
    destruct (rkCompare_spec txt ptn i ltac:(lia) ltac:(lia) Hmax) as (b & Hcmp & Hb).
    assert (exists res',
      (if p =? t then
         found ← rkCompare (seqZ 0 m) txt ptn i;
         Ret (if (found : bool) then res ++ [i] else res)
       else Ret res) = Ret res' /\
      StronglySorted Z.lt res' /\
      (forall x, x ∈ res' -> occurs_at txt ptn x /\ x < i + 1) /\
      (forall x, x ∈ res -> x ∈ res') /\
      (p = t -> occurs_at txt ptn i -> i ∈ res')) as (res' & -> & Hs' & Hsound' & Hmono & Hhit).
    { destruct (Z.eqb_spec p t) as [Heq|Hneq].
      - subst m. rewrite Hcmp, bind_Ret_l. destruct b.
        + exists (res ++ [i]). split; [done|]. split.
          { apply sorted_snoc; [done|]. intros x Hx. by apply Hsound. }
          split.
          { intros x Hx. apply elem_of_app in Hx as [Hx|Hx].
            - destruct (Hsound x Hx). split; [done|lia].
            - apply list_elem_of_singleton in Hx as ->. split; [by apply Hb|lia]. }
          split; [intros x Hx; apply elem_of_app; by left|].
          intros _ _. apply elem_of_app. right. by apply list_elem_of_singleton.
        + exists res. split; [done|]. split; [done|]. split.
          { intros x Hx. destruct (Hsound x Hx). split; [done|lia]. }
          split; [done|]. intros _ Hocc. apply Hb in Hocc. done.
      - exists res. split; [done|]. split; [done|]. split.
        { intros x Hx. destruct (Hsound x Hx). split; [done|lia]. }
        split; [done|]. intros ?. done. }
    rewrite bind_Ret_l.
    assert (forall H7t : chars7 txt, forall H7p : chars7 ptn,
              forall x, 0 <= x < i + 1 -> occurs_at txt ptn x -> x ∈ res') as Hcomplete'.
    { intros H7t H7p x Hx Hocc. destruct (Hcomplete H7t H7p) as [Hhash Hprev].
      destruct (decide (x = i)) as [->|Hxi]; [|apply Hmono, Hprev; [lia|done]].
      apply Hhit; [|done]. destruct (Hhash ltac:(lia)) as [_ ->].
      rewrite (Hpv H7p). destruct Hocc as [_ ->]. done. }
    destruct (Z.ltb_spec i (n - m)) as [Hmore|Hlast].
    + destruct (rkRoll_ok base md Hmd Hbase Hfit Hfit' txt m h i t Htxt
                  ltac:(lia) ltac:(lia) ltac:(lia) Hmax Ht Hh) as (t' & -> & Ht' & Hroll).
      rewrite bind_Ret_l. eexists. split; [done|]. cbn [fst snd].
      split; [done|]. split; [done|]. split; [done|].
      intros H7t H7p. split; [|by apply Hcomplete'].
      intros _. destruct (Hcomplete H7t H7p) as [Hhash _].
      destruct (Hhash ltac:(lia)) as [Ht0' Htv].
      subst m. rewrite Nat2Z.id in Hroll. apply Hroll; done.
    + rewrite bind_Ret_l. eexists. split; [done|]. cbn [fst snd].
      split; [done|]. split; [done|]. split; [done|].
      intros H7t H7p. split; [intros; lia|by apply Hcomplete'].
  - rewrite bind_Ret_l. cbv beta iota. cbn [fst snd] in Hinv.
    destruct Hinv as (_ & Hsorted & Hsound & Hcomplete).
    exists res. split; [done|]. split; [done|]. split.
    + intros i Hi. split; [done|]. by apply Hsound.
    + intros H7t H7p i _ Hocc. destruct (Hcomplete H7t H7p) as [_ Hall].
      apply Hall; [|done]. destruct (occurs_at_fits _ _ _ Hocc) as [?|?]; [|done].
      destruct Hocc as [? _]. lia.
Qed.

Lemma for_range_0 {S} (body : Z -> S -> run S) s : for_range 0 0 body s = Ret s.
Proof. done. Qed.

Lemma for_range_1 {S} (body : Z -> S -> run S) s : for_range 0 1 body s = (s' ← body 0 s; Ret s').
Proof. done. Qed.

Lemma for_range_2 {S} (body : Z -> S -> run S) s :
  for_range 0 2 body s = (s' ← body 0 s; s'' ← body 1 s'; Ret s'').
Proof. done. Qed.

(** X26.  With a negative [char] value (a byte above 127 where plain
    [char] is signed) an occurrence is missed: the pattern hash is
    negative, the rolled text hash is the non-negative residue of the same
    class, and the two are compared with [==].  For the text [c, -1] and
    the pattern [-1] nothing is reported although the pattern occurs at
    index 1. *)
Theorem rabinKarpSearch_misses_negative_char c base md :
  0 <= c <= 127 -> 1 <= base -> 1 < md ->
  3 * base * md + 128 <= INT_MAX -> 128 * md <= INT_MAX ->
  rabinKarpSearch [c; -1] [-1] base md = Ret [] /\ occurs_at [c; -1] [-1] 1.
Proof.
  intros Hc Hbase Hmd Hfit Hfit'. split; [|by split].
  assert (forall a, INT_MIN <= a <= INT_MAX -> int_rem a md = Ret (Z.rem a md)) as Hrem.
  { intros a Ha. by destruct (int_rem_ok md Hmd a Ha) as [-> _]. }
  assert (Z.rem (-1) md = -1) as Hm1.
  { apply Z.rem_small_iff; lia. }
  assert (0 <= Z.rem c md < md) as Hcm by (apply Z.rem_bound_pos; lia).
  unfold INT_MAX in *.
  unfold rabinKarpSearch, size_int. cbn [length].
  rewrite !int_of_in by (unfold INT_MIN, INT_MAX; lia). rewrite !bind_Ret_l.
  change (Z.of_nat 1 =? 0) with false. change (Z.of_nat 1 >? Z.of_nat 2) with false.
  cbn [orb]. unfold rkPower. change (Z.of_nat 1 - 1) with 0.
  rewrite for_range_0, bind_Ret_l.
  unfold rkHashes. change (Z.of_nat 1) with 1. rewrite for_range_1.
  change (aget [-1] 0) with (Ret (-1)). change (aget [c; -1] 0) with (Ret c).
  rewrite !bind_Ret_l.
  destruct (rkStep_ok base md Hmd ltac:(lia) ltac:(unfold INT_MAX; lia) 0 (-1)
              ltac:(lia) ltac:(lia)) as (-> & _).
  rewrite !bind_Ret_l.
  destruct (rkStep_ok base md Hmd ltac:(lia) ltac:(unfold INT_MAX; lia) 0 c
              ltac:(lia) ltac:(lia)) as (-> & _).
  rewrite !bind_Ret_l. cbv beta iota.
  rewrite Z.mul_0_r, !Z.add_0_l, Hm1.
  change (Z.of_nat 2 - 1) with 1.
  rewrite int_of_in by (unfold INT_MIN, INT_MAX; lia). rewrite bind_Ret_l.
  change (1 + 1) with 2. rewrite for_range_2.
  assert (rkRoll [c; -1] 1 base md 1 0 (Z.rem c md) = Ret (md - 1)) as Hroll.
  { unfold rkRoll. change (aget [c; -1] 0) with (Ret c). rewrite bind_Ret_l.
    rewrite Z.mul_1_r.
    rewrite (int_of_in c) by (unfold INT_MIN, INT_MAX; lia). rewrite bind_Ret_l.
    rewrite (Hrem c) by (unfold INT_MIN, INT_MAX; lia). rewrite bind_Ret_l.
    rewrite Z.sub_diag.
    rewrite (int_of_in 0) by (unfold INT_MIN, INT_MAX; lia). rewrite bind_Ret_l.
    rewrite (int_of_in (0 + md)) by (unfold INT_MIN, INT_MAX; lia). rewrite bind_Ret_l.
    rewrite (Z.add_0_l md).
    rewrite (int_of_in (base * md)) by (unfold INT_MIN, INT_MAX; nia). rewrite bind_Ret_l.
    change (0 + 1) with 1.
    rewrite (int_of_in 1) by (unfold INT_MIN, INT_MAX; lia). rewrite bind_Ret_l.
    change (aget [c; -1] 1) with (Ret (-1)). rewrite bind_Ret_l.
    rewrite (int_of_in (base * md + -1)) by (unfold INT_MIN, INT_MAX; nia).
    rewrite bind_Ret_l.
    rewrite (Hrem (base * md + -1)) by (unfold INT_MIN, INT_MAX; nia). f_equal.
    rewrite Z.rem_mod_nonneg by nia.
    replace (base * md + -1) with ((md - 1) + (base - 1) * md) by lia.
    rewrite Z.mod_add by lia. apply Z.mod_small. lia. }
  assert (rkShift [c; -1] [-1] (Z.of_nat 2) 1 base md 1 (-1) 0 ([], Z.rem c md)
          = Ret ([], md - 1)) as ->.
  { unfold rkShift. rewrite (proj2 (Z.eqb_neq (-1) (Z.rem c md))) by lia.
    rewrite bind_Ret_l. change (0 <? Z.of_nat 2 - 1) with true. cbv iota.
    by rewrite Hroll, bind_Ret_l. }
  rewrite bind_Ret_l.
  assert (rkShift [c; -1] [-1] (Z.of_nat 2) 1 base md 1 (-1) 1 ([], md - 1)
          = Ret ([], md - 1)) as ->.
  { unfold rkShift. rewrite (proj2 (Z.eqb_neq (-1) (md - 1))) by lia.
    rewrite bind_Ret_l. change (1 <? Z.of_nat 2 - 1) with false. cbv iota.
    by rewrite bind_Ret_l. }
  by rewrite !bind_Ret_l.
Qed.

(** X25, witness: a four-letter pattern in an eleven-letter text, base 256
    and modulus 101. *)
Lemma rabinKarpSearch_spec_witness :
  exists res,
    rabinKarpSearch [97; 98; 114; 97; 99; 97; 100; 97; 98; 114; 97] [97; 98; 114; 97]
      256 101 = Ret res /\
    StronglySorted Z.lt res /\
    (forall i, i ∈ res -> [97; 98; 114; 97] <> [] /\
       occurs_at [97; 98; 114; 97; 99; 97; 100; 97; 98; 114; 97] [97; 98; 114; 97] i) /\
    (chars7 [97; 98; 114; 97; 99; 97; 100; 97; 98; 114; 97] ->
     chars7 [97; 98; 114; 97] ->
     forall i, [97; 98; 114; 97] <> [] ->
       occurs_at [97; 98; 114; 97; 99; 97; 100; 97; 98; 114; 97] [97; 98; 114; 97] i ->
       i ∈ res).
Proof.
  apply rabinKarpSearch_spec.
  - lia.
  - lia.
  - vm_compute. discriminate.
  - vm_compute. discriminate.
  - repeat (constructor; [lia|]). constructor.
  - repeat (constructor; [lia|]). constructor.
  - vm_compute. discriminate.
  - vm_compute. discriminate.
Defined.

(** X26, witness: the letter [a] followed by the byte 255. *)
Lemma rabinKarpSearch_misses_negative_char_witness :
  rabinKarpSearch [97; -1] [-1] 256 101 = Ret [] /\ occurs_at [97; -1] [-1] 1.
Proof.
  apply rabinKarpSearch_misses_negative_char.
  - lia.
  - lia.
  - lia.
  - vm_compute. discriminate.
  - vm_compute. discriminate.
Defined.

End RabinKarpFacts.

Module HeapSortFacts.
Import Algorithms QuickSortFacts.

Local Abbreviation len l := (Z.of_nat (length l)).
Local Abbreviation parent c := ((c - 1) / 2).

Lemma for_down_done {St} hi lo (body : Z -> St -> run St) s :
  hi < lo -> for_down hi lo body s = Ret s.
Proof. intros H. unfold for_down. by rewrite seqZ_nil by lia. Qed.

Lemma for_down_step {St} hi lo (body : Z -> St -> run St) s :
  lo <= hi -> for_down hi lo body s = (s' ← body hi s; for_down (hi - 1) lo body s').
Proof.
  intros H. unfold for_down.
  replace (hi - lo + 1) with (Z.of_nat (S (Z.to_nat (hi - lo)))) by lia.
  rewrite seqZ_S, reverse_snoc. cbn [for_each].
  replace (lo + Z.of_nat (Z.to_nat (hi - lo))) with hi by lia.
  replace (hi - 1 - lo + 1) with (Z.of_nat (Z.to_nat (hi - lo))) by lia. done.
Qed.

(** Invariant rule for a descending loop. *)
Lemma for_down_inv {St} (I : Z -> St -> Prop) hi lo (body : Z -> St -> run St) s :
  lo <= hi + 1 -> I hi s ->
  (forall j s, lo <= j <= hi -> I j s -> exists s', body j s = Ret s' /\ I (j - 1) s') ->
  exists s', for_down hi lo body s = Ret s' /\ I (lo - 1) s'.
Proof.
  intros Hle. remember (Z.to_nat (hi - lo + 1)) as k eqn:Hk. revert hi s Hle Hk.
  induction k as [|k IH]; intros hi s Hle Hk H0 Hstep.
  - rewrite for_down_done by lia. exists s. split; [done|].
    by replace (lo - 1) with hi by lia.
  - rewrite for_down_step by lia.
    destruct (Hstep hi s ltac:(lia) H0) as (s1 & -> & H1). rewrite bind_Ret_l.
    apply IH; [lia|lia|done|]. intros j s' Hj. apply Hstep. lia.
Qed.

Lemma val_lookup a i x : 0 <= i -> a !! Z.to_nat i = Some x -> val a i = x.
Proof. intros _ H. unfold val. by rewrite H. Qed.

Lemma aget_val a i : 0 <= i < len a -> aget a i = Ret (val a i).
Proof.
  intros Hi. destruct (aget_in a i Hi) as (x & -> & Hx).
  by rewrite (val_lookup a i x) by (lia || done).
Qed.

Lemma lookup_val a (k : nat) x : a !! k = Some x -> val a (Z.of_nat k) = x.
Proof. intros H. unfold val. by rewrite Nat2Z.id, H. Qed.

(** [swap] in terms of values. *)
Lemma swap_val a i j l r :
  l <= i <= r -> l <= j <= r -> 0 <= l -> r < len a ->
  exists a', swap a i j = Ret a' /\ within a a' l r /\
    forall k, 0 <= k -> val a' k =
      if decide (k = j) then val a i
      else if decide (k = i) then val a j else val a k.
Proof.
  intros Hi Hj Hl Hr.
  destruct (swap_within a i j l r Hi Hj Hl Hr)
    as (a' & x & y & Hrun & Hw & Hx & Hy & Hnj & Hni & Hoth).
  exists a'. split; [done|]. split; [done|]. intros k Hk.
  rewrite (val_lookup a i x), (val_lookup a j y) by (lia || done).
  destruct (decide (k = j)) as [->|Hkj]; [by apply val_lookup; [lia|]|].
  destruct (decide (k = i)) as [->|Hki].
  - apply val_lookup; [lia|]. rewrite Hni. by rewrite decide_False by done.
  - unfold val. rewrite Hoth by lia. done.
Qed.

Lemma pick a n c cur :
  0 <= c -> 0 <= cur < len a -> n <= len a ->
  (if c <? n then x ← aget a c; y ← aget a cur; Ret (if x >? y then c else cur)
   else Ret cur)
  = Ret (if (c <? n) && (val a c >? val a cur) then c else cur).
Proof.
  intros Hc Hcur Hn. destruct (Z.ltb_spec c n) as [Hlt|Hge]; [|done].
  rewrite !aget_val by lia. by rewrite !bind_Ret_l.
Qed.

Lemma parent_facts c : 2 * parent c <= c - 1 <= 2 * parent c + 1.
Proof.
  pose proof (Z.div_mod (c - 1) 2 ltac:(lia)).
  pose proof (Z.mod_pos_bound (c - 1) 2 ltac:(lia)). lia.
Qed.

Lemma heapify_ok fuel a n i lo :
  0 <= lo <= i -> i < n -> n <= len a -> 2 * len a + 2 <= INT_MAX ->
  n - i <= Z.of_nat fuel ->
  (forall c, 0 < c < n -> lo <= parent c -> parent c <> i ->
     val a c <= val a (parent c)) ->
  (forall c, 0 < c < n -> parent c = i -> 0 < i -> lo <= parent i ->
     val a c <= val a (parent i)) ->
  exists a', heapify fuel a n i = Ret a' /\ within a a' i (n - 1) /\ heap_from a' n lo.
Proof.
  unfold INT_MAX.
  revert a i. induction fuel as [|fuel IH]; intros a i Hlo Hi Hn Hmax Hf Ha Hb; [lia|].
  cbn [heapify].
  rewrite (int_of_in (2 * i + 1)) by (unfold INT_MIN, INT_MAX; lia). rewrite bind_Ret_l.
  rewrite (int_of_in (2 * i + 2)) by (unfold INT_MIN, INT_MAX; lia). rewrite bind_Ret_l.
  rewrite pick by lia. rewrite bind_Ret_l.
  set (l1 := if (2 * i + 1 <? n) && (val a (2 * i + 1) >? val a i)
             then 2 * i + 1 else i).
  assert (l1 = i /\ (2 * i + 1 < n -> val a (2 * i + 1) <= val a i) \/
          l1 = 2 * i + 1 /\ l1 < n /\ val a i < val a l1) as Hl1.
  { subst l1. destruct (Z.ltb_spec (2 * i + 1) n); cbn [andb]; cbv iota; [|left; lia].
    rewrite Z.gtb_ltb. destruct (Z.ltb_spec (val a i) (val a (2 * i + 1)));
      cbv iota; [right|left]; lia. }
  clearbody l1.
  rewrite pick by lia. rewrite bind_Ret_l.
  set (big := if (2 * i + 2 <? n) && (val a (2 * i + 2) >? val a l1)
              then 2 * i + 2 else l1).
  assert ((big = i \/
           (big = 2 * i + 1 \/ big = 2 * i + 2) /\ big < n /\ val a i < val a big) /\
          forall c, 0 < c < n -> parent c = i -> val a c <= val a big) as [Hbig Hkids].
  { assert (forall c, 0 < c < n -> parent c = i -> c = 2 * i + 1 \/ c = 2 * i + 2)
      as Hchild.
    { intros c Hc Hp. pose proof (parent_facts c). lia. }
    subst big. destruct (Z.ltb_spec (2 * i + 2) n); cbn [andb]; cbv iota.
    - rewrite Z.gtb_ltb. destruct (Z.ltb_spec (val a l1) (val a (2 * i + 2))); cbv iota.
      + split; [right; destruct Hl1 as [[-> ?]|(-> & ? & ?)]; lia|].
        intros c Hc Hp. destruct (Hchild c Hc Hp) as [-> | ->]; [|lia].
        destruct Hl1 as [[-> ?]|(-> & ? & ?)]; lia.
      + split; [destruct Hl1 as [[-> ?]|(-> & ? & ?)]; [by left|right; lia]|].
        intros c Hc Hp. destruct (Hchild c Hc Hp) as [-> | ->];
          destruct Hl1 as [[-> ?]|(-> & ? & ?)]; lia.
    - split; [destruct Hl1 as [[-> ?]|(-> & ? & ?)]; [by left|right; lia]|].
      intros c Hc Hp. destruct (Hchild c Hc Hp) as [-> | ->]; [|lia].
      destruct Hl1 as [[-> ?]|(-> & ? & ?)]; lia. }
  clearbody big. clear l1 Hl1.
  destruct (Z.eqb_spec big i) as [->|Hbi].
  - exists a. split; [done|]. split; [apply within_refl|].
    intros c Hc Hp. destruct (decide (parent c = i)) as [E|E];
      [rewrite E; by apply Hkids|by apply Ha].
  - destruct Hbig as [?|(Hwhich & Hlt & Hgt)]; [done|].
    assert (parent big = i) as Hpb by (pose proof (parent_facts big); lia).
    destruct (swap_val a i big i (n - 1)) as (a' & -> & Hw & Hv); [lia..|].
    rewrite bind_Ret_l.
    assert (length a' = length a) as Hlen by apply Hw.
    destruct (IH a' big) as (b & -> & Hw' & Hheap); [lia..| | |].
    + intros c Hc Hp Hne. pose proof (parent_facts c).
      rewrite !Hv by lia.
      destruct (decide (c = big)) as [->|Hc1].
      { rewrite (decide_False (P := parent big = big)) by lia.
        rewrite (decide_True (P := parent big = i)) by done. lia. }
      destruct (decide (c = i)) as [->|Hc2].
      { rewrite (decide_False (P := parent i = big)) by lia.
        rewrite (decide_False (P := parent i = i)) by lia.
        apply (Hb big); lia. }
      rewrite (decide_False (P := parent c = big)) by done.
      destruct (decide (parent c = i)) as [E|E]; [by apply Hkids|by apply Ha].
    + intros c Hc Hp Hpos Hlop. pose proof (parent_facts c).
      rewrite !Hv by lia. rewrite Hpb.
      rewrite (decide_False (P := i = big)) by lia.
      rewrite (decide_True (P := i = i)) by done.
      rewrite (decide_False (P := c = big)) by lia.
      rewrite (decide_False (P := c = i)) by lia.
      rewrite <- Hp. apply Ha; lia.
    + exists b. split; [done|]. split; [|done].
      apply (within_trans a a' b); [done|].
      by apply (within_wider a' b big (n - 1)); [lia..|].
Qed.

(** The root of a heap holds its largest value. *)
Lemma root_max a n :
  heap_from a n 0 -> forall c, 0 <= c < n -> val a c <= val a 0.
Proof.
  intros Hheap.
  assert (forall k : nat, forall c, 0 <= c < n -> c <= Z.of_nat k -> val a c <= val a 0)
    as Hall.
  { induction k as [|k IH]; intros c Hc Hk.
    - assert (c = 0) as -> by lia. lia.
    - destruct (decide (c = 0)) as [->|Hne]; [lia|].
      pose proof (parent_facts c).
      etrans; [apply Hheap; lia|]. apply IH; lia. }
  intros c Hc. apply (Hall (Z.to_nat c)); lia.
Qed.

Lemma build_heap fuel a :
  2 * len a + 2 <= INT_MAX -> len a <= Z.of_nat fuel ->
  exists a1, for_down (Z.quot (len a) 2 - 1) 0
               (fun i a0 => heapify fuel a0 (len a) i) a = Ret a1 /\
    within a a1 0 (len a - 1) /\ heap_from a1 (len a) 0.
Proof.
  intros Hmax Hf. set (n := len a) in *.
  assert (2 * (n ÷ 2) <= n <= 2 * (n ÷ 2) + 1) as Hq.
  { rewrite Z.quot_div_nonneg by lia.
    pose proof (Z.div_mod n 2 ltac:(lia)).
    pose proof (Z.mod_pos_bound n 2 ltac:(lia)). lia. }
  destruct (for_down_inv
    (fun j (b : list Z) => within a b 0 (n - 1) /\ heap_from b n (j + 1))
    (n ÷ 2 - 1) 0 (fun i a0 => heapify fuel a0 n i) a) as (a1 & -> & Hw & Hh).
  - lia.
  - split; [apply within_refl|]. intros c Hc Hp. pose proof (parent_facts c). lia.
  - intros j b Hj [Hw Hh].
    assert (length b = length a) as Hlen by apply Hw.
    destruct (heapify_ok fuel b n j j) as (b' & -> & Hw' & Hh'); [lia..| | |].
    + intros c Hc Hp Hne. apply Hh; lia.
    + intros c Hc Hp Hpos Hlo. pose proof (parent_facts j). lia.
    + exists b'. split; [done|]. split.
      * apply (within_trans a b b'); [done|].
        by apply (within_wider b b' j (n - 1)); [lia..|].
      * by replace (j - 1 + 1) with j by lia.
  - exists a1. split; [done|]. split; [done|]. by replace (0 - 1 + 1) with 0 in Hh by lia.
Qed.

(** X27.  [heapSort] returns (fuel at least the size, and the size small
    enough for the child indices [2 * i + 2] to fit an [int]) the elements
    of its argument in ascending order. *)
Theorem heapSort_sorts fuel a :
  2 * Z.of_nat (length a) + 2 <= INT_MAX -> (length a <= fuel)%nat ->
  exists a', heapSort fuel a = Ret a' /\ Sorted Z.le a' /\ a' ≡ₚ a.
Proof.
  intros Hmax Hf.
  destruct (decide (a = [])) as [->|Hnil].
  { exists []. split; [done|]. split; [constructor|done]. }
  assert (1 <= len a) as Hpos by (destruct a; [done|simpl; lia]).
  unfold heapSort, size_int.
  rewrite int_of_in by (unfold INT_MIN, INT_MAX in *; lia). rewrite bind_Ret_l.
  destruct (build_heap fuel a Hmax ltac:(lia)) as (a1 & -> & Hw1 & Hh1).
  rewrite bind_Ret_l. set (n := len a) in *.
  assert (length a1 = length a) as Hlen1 by apply Hw1.
  destruct (for_down_inv
    (fun j (b : list Z) =>
       within a b 0 (n - 1) /\ heap_from b (j + 1) 0 /\
       sorted_seg b (j + 1) (n - 1) /\
       forall k1 k2 : nat, Z.of_nat k1 <= j -> j < Z.of_nat k2 -> Z.of_nat k2 < n ->
         val b (Z.of_nat k1) <= val b (Z.of_nat k2))
    (n - 1) 1 (fun i a0 => a' ← swap a0 0 i; heapify fuel a' i 0) a1)
    as (a2 & -> & Hw2 & Hh2 & Hs2 & Hc2).
  - lia.
  - split; [done|]. split; [by replace (n - 1 + 1) with n by lia|].
    split; [|intros; lia]. intros k1 k2 x y Hk1 Hk12 Hk2 Hx Hy. lia.
  - intros j b Hj (Hw & Hh & Hs & Hc).
    assert (length b = length a) as Hlen by apply Hw.
    destruct (swap_val b 0 j 0 j) as (b1 & -> & Hwb & Hv); [lia..|].
    rewrite bind_Ret_l.
    assert (length b1 = length b) as Hlenb by apply Hwb.
    pose proof (root_max b (j + 1) Hh) as Hroot.
    destruct (heapify_ok fuel b1 j 0 0) as (b2 & -> & Hwb2 & Hh').
    + lia.
    + lia.
    + lia.
    + lia.
    + lia.
    + intros c Hc' Hp Hne. pose proof (parent_facts c).
      rewrite !Hv by lia. rewrite !decide_False by lia. apply Hh; lia.
    + intros; lia.
    + assert (length b2 = length b1) as Hlenb2 by apply Hwb2.
      destruct Hwb2 as (_ & Hperm2 & Hout2 & Hpres2).
      assert (forall k : nat, j <= Z.of_nat k -> val b2 (Z.of_nat k) = val b1 (Z.of_nat k))
        as Hsame.
      { intros k Hk. unfold val. rewrite !Nat2Z.id. by rewrite Hout2 by lia. }
      assert (forall k : nat, Z.of_nat k < j ->
                val b2 (Z.of_nat k) <= val b (0)) as Hsmall.
      { intros k Hk.
        destruct (lookup_lt_is_Some_2 b2 k ltac:(lia)) as [x Hx].
        rewrite (lookup_val _ _ _ Hx).
        apply (Hpres2 (fun x => x <= val b 0)) with k; [|lia|done].
        intros k' x' Hk' Hx'. rewrite <- (lookup_val _ _ _ Hx').
        rewrite Hv by lia.
        destruct (decide (Z.of_nat k' = j)) as [?|?]; [lia|].
        destruct (decide (Z.of_nat k' = 0)) as [?|?]; apply Hroot; lia. }
      exists b2. split; [done|]. split; [|split; [|split]].
      * apply (within_trans a b b2); [done|].
        apply (within_trans b b1 b2).
        { by apply (within_wider b b1 0 j); [lia..|]. }
        apply (within_wider b1 b2 0 (j - 1)); [lia..|]. by repeat split.
      * by replace (j - 1 + 1) with j by lia.
      * intros k1 k2 x y Hk1 Hk12 Hk2 Hx Hy.
        rewrite <- (lookup_val _ _ _ Hx), <- (lookup_val _ _ _ Hy).
        rewrite !Hsame by lia. rewrite !Hv by lia.
        destruct (decide (Z.of_nat k2 = j)) as [E2|E2].
        { assert (k1 = k2) as -> by lia. rewrite decide_True by done. lia. }
        rewrite (decide_False (P := Z.of_nat k2 = 0)) by lia.
        destruct (decide (Z.of_nat k1 = j)) as [E1|E1].
        { replace (val b 0) with (val b (Z.of_nat 0)) by done.
          apply Hc; lia. }
        rewrite (decide_False (P := Z.of_nat k1 = 0)) by lia.
        destruct (lookup_lt_is_Some_2 b k1 ltac:(lia)) as [x' Hx'].
        destruct (lookup_lt_is_Some_2 b k2 ltac:(lia)) as [y' Hy'].
        rewrite (lookup_val _ _ _ Hx'), (lookup_val _ _ _ Hy').
        apply (Hs k1 k2); (lia || done).
      * intros k1 k2 Hk1 Hk2 Hk2n.
        rewrite (Hsame k2) by lia. rewrite (Hv (Z.of_nat k2)) by lia.
        destruct (decide (Z.of_nat k2 = j)) as [E2|E2].
        { apply Hsmall. lia. }
        rewrite (decide_False (P := Z.of_nat k2 = 0)) by lia.
        etrans; [apply Hsmall; lia|].
        replace (val b 0) with (val b (Z.of_nat 0)) by done. apply Hc; lia.
  - replace (1 - 1 + 1) with 1 in * by lia. replace (1 - 1) with 0 in * by lia.
    exists a2. split; [done|]. destruct Hw2 as (Hlen2 & Hperm2 & _). split; [|done].
    apply sorted_seg_Sorted. rewrite Hlen2. fold n.
    intros k1 k2 x y Hk1 Hk12 Hk2 Hx Hy.
    destruct (decide (k1 = k2)) as [->|Hne]; [assert (x = y) by congruence; lia|].
    destruct (decide (k1 = 0%nat)) as [->|Hk0].
    + rewrite <- (lookup_val _ _ _ Hx), <- (lookup_val _ _ _ Hy). apply Hc2; lia.
    + apply (Hs2 k1 k2); (lia || done).
Qed.

(** X27, witness. *)
Lemma heapSort_sorts_witness :
  exists a', heapSort 8 [5; 3; 9; 1; 1; 7; 0; -4] = Ret a' /\
    Sorted Z.le a' /\ a' ≡ₚ [5; 3; 9; 1; 1; 7; 0; -4].
Proof. apply heapSort_sorts; vm_compute; [discriminate|lia]. Defined.

End HeapSortFacts.

Module BillQueueFacts.
Import BillQueue.
Section Facts.
Context {Bill : Type}.
Implicit Types (s : @t Bill) (b : Bill).

Lemma rotate_add_Z (base offset len : nat) :
  (0 < len)%nat -> Z.of_nat (rotate_nat_add base offset len)
                   = (Z.of_nat base + Z.of_nat offset) mod Z.of_nat len.
Proof.
  intros H. unfold rotate_nat_add. rewrite Z2Nat.id; [done|].
  apply Z.mod_pos_bound. lia.
Qed.

(** X16.  [enqueueBill] on a well-formed queue keeps it well-formed and
    appends the bill behind the waiting ones; on a queue holding [BILL_CAP]
    bills it changes nothing. *)
Theorem enqueueBill_fifo b s :
  wf s ->
  exists s', enqueueBill b s = Ret s' /\ wf s' /\
    waiting s' = if billIsFull s then waiting s else waiting s ++ [b].
Proof.
  intros (Hlen & Hf & Hn & Hr). unfold enqueueBill, billIsFull, BILL_CAP in *.
  destruct (Z.eqb_spec (billSize s) 300) as [Hfull|Hroom].
  { exists s. split; [done|]. split; [|done]. unfold wf, BILL_CAP. done. }
  pose proof (Z.mod_pos_bound (billFront s + billSize s) 300 ltac:(lia)) as Hrb.
  rewrite aset_in by lia. rewrite bind_Ret_l.
  rewrite (int_of_in (billRear s + 1)) by (unfold INT_MIN, INT_MAX; lia). rewrite bind_Ret_l.
  rewrite int_of_in by (unfold INT_MIN, INT_MAX; lia). rewrite bind_Ret_l.
  eexists. split; [done|]. split.
  - unfold wf, BILL_CAP. cbn. rewrite length_insert.
    split; [done|]. split; [done|]. split; [lia|].
    rewrite Z.rem_mod_nonneg by lia. rewrite Hr.
    rewrite Zplus_mod_idemp_l. f_equal. lia.
  - unfold waiting. cbn.
    assert (Z.to_nat (billRear s)
            = rotate_nat_add (Z.to_nat (billFront s)) (Z.to_nat (billSize s))
                (length (billQueue s))) as ->.
    { apply Nat2Z.inj. rewrite rotate_add_Z by lia. rewrite !Z2Nat.id by lia.
      rewrite Hlen. done. }
    rewrite rotate_insert_l by lia.
    replace (Z.to_nat (billSize s + 1)) with (S (Z.to_nat (billSize s))) by lia.
    rewrite (take_S_r _ _ b).
    + by rewrite take_insert_ge by lia.
    + apply list_lookup_insert_eq. rewrite length_rotate. lia.
Qed.

(** X17.  [dequeueBill] on a well-formed queue with a waiting bill returns
    the oldest one and leaves the others waiting in their order. *)
Theorem dequeueBill_fifo s b rest :
  wf s -> waiting s = b :: rest ->
  exists s', dequeueBill s = Ret (b, s') /\ wf s' /\ waiting s' = rest.
Proof.
  intros (Hlen & Hf & Hn & Hr) Hw. unfold dequeueBill, BILL_CAP in *.
  assert (0 < billSize s) as Hpos.
  { destruct (decide (billSize s = 0)) as [E|]; [|lia].
    unfold waiting in Hw. rewrite E in Hw. done. }
  assert (billQueue s !! Z.to_nat (billFront s) = Some b) as Hb.
  { assert (waiting s !! 0%nat = Some b) as H0 by (by rewrite Hw).
    unfold waiting in H0. rewrite lookup_take_lt in H0 by lia.
    rewrite lookup_rotate_r in H0 by lia. rewrite rotate_nat_add_0 in H0 by lia. done. }
  rewrite aget_lookup by lia. rewrite Hb, bind_Ret_l.
  rewrite (int_of_in (billFront s + 1)) by (unfold INT_MIN, INT_MAX; lia). rewrite bind_Ret_l.
  rewrite int_of_in by (unfold INT_MIN, INT_MAX; lia). rewrite bind_Ret_l.
  eexists. split; [done|].
  pose proof (Z.mod_pos_bound (billFront s + 1) 300 ltac:(lia)) as Hfb.
  split.
  - unfold wf, BILL_CAP. cbn. rewrite Z.rem_mod_nonneg by lia.
    split; [done|]. split; [done|]. split; [lia|].
    rewrite Hr, Zplus_mod_idemp_l. f_equal. lia.
  - assert (rest = drop 1 (waiting s)) as -> by (by rewrite Hw).
    unfold waiting. cbn. rewrite Z.rem_mod_nonneg by lia.
    apply list_eq. intros i. rewrite lookup_drop.
    destruct (decide (i < Z.to_nat (billSize s - 1))%nat) as [Hi|Hi].
    + rewrite !lookup_take_lt by lia. rewrite !lookup_rotate_r by lia. f_equal.
      apply Nat2Z.inj. rewrite !rotate_add_Z by lia. rewrite Hlen.
      rewrite Z2Nat.id by lia. rewrite Zplus_mod_idemp_l.
      rewrite Z2Nat.id by lia. f_equal. lia.
    + rewrite !lookup_take_ge by lia. done.
Qed.

(** X18.  [dequeueBill] makes no emptiness test: on an empty queue it
    returns the stale content of the front slot and leaves [billSize] at
    -1; a bill enqueued next is stored, but the queue then reports empty
    and its front has moved past the slot of that bill. *)
Theorem dequeueBill_on_empty_queue s b :
  wf s -> billIsEmpty s = true ->
  exists stale s1 s2,
    dequeueBill s = Ret (stale, s1) /\ billSize s1 = -1 /\
    enqueueBill b s1 = Ret s2 /\ billIsEmpty s2 = true /\
    billQueue s2 !! Z.to_nat (billRear s) = Some b /\
    billFront s2 <> billRear s.
Proof.
  intros (Hlen & Hf & Hn & Hr) He. unfold billIsEmpty in He. apply Z.eqb_eq in He.
  unfold dequeueBill, BILL_CAP in *. rewrite He in *. rewrite Z.add_0_r in Hr.
  rewrite Z.mod_small in Hr by lia.
  destruct (aget_in (billQueue s) (billFront s) ltac:(lia)) as (x & -> & Hx).
  rewrite bind_Ret_l.
  rewrite (int_of_in (billFront s + 1)) by (unfold INT_MIN, INT_MAX; lia). rewrite bind_Ret_l.
  rewrite int_of_in by (unfold INT_MIN, INT_MAX; lia). rewrite bind_Ret_l.
  eexists x, _, _. split; [done|]. split; [done|].
  unfold enqueueBill, billIsFull, BILL_CAP. cbn.
  rewrite aset_in by lia. rewrite bind_Ret_l.
  rewrite (int_of_in (billRear s + 1)) by (unfold INT_MIN, INT_MAX; lia). rewrite bind_Ret_l.
  rewrite int_of_in by (unfold INT_MIN, INT_MAX; lia). rewrite bind_Ret_l.
  split; [done|]. cbn. split; [done|]. split.
  - apply list_lookup_insert_eq. lia.
  - rewrite Z.rem_mod_nonneg by lia. rewrite Hr.
    destruct (decide (billFront s = 299)) as [->|Hne]; [done|].
    rewrite Z.mod_small by lia. lia.
Qed.

End Facts.

Local Ltac wf_by_computation :=
  vm_compute; repeat split; first [reflexivity | discriminate].

(** X16, witness: a bill enqueued behind two waiting ones. *)
Lemma enqueueBill_fifo_witness :
  exists s', enqueueBill 9 twoBills = Ret s' /\ wf s' /\
    waiting s' = if billIsFull twoBills then waiting twoBills else waiting twoBills ++ [9].
Proof. apply enqueueBill_fifo. wf_by_computation. Defined.

(** X17, witness: the older of two waiting bills is served. *)
Lemma dequeueBill_fifo_witness :
  exists s', dequeueBill twoBills = Ret (7, s') /\ wf s' /\ waiting s' = [8].
Proof. apply dequeueBill_fifo; [wf_by_computation | reflexivity]. Defined.

(** X18, witness: the queue before any bill. *)
Lemma dequeueBill_on_empty_queue_witness :
  exists stale s1 s2,
    dequeueBill noBills = Ret (stale, s1) /\ billSize s1 = -1 /\
    enqueueBill 9 s1 = Ret s2 /\ billIsEmpty s2 = true /\
    billQueue s2 !! Z.to_nat (billRear noBills) = Some 9 /\
    billFront s2 <> billRear noBills.
Proof. apply dequeueBill_on_empty_queue; [wf_by_computation | reflexivity]. Defined.

End BillQueueFacts.

Module LRUFacts.
Import LRUCache.
Section Facts.
Context `{Countable Key} `{Inhabited Key} {Value : Type} `{Inhabited Value}.
#[local] Abbreviation t := (@t Key _ _ Value).
Implicit Types (s : t) (k : Key) (v : Value) (p q : nat).

Lemma set_next_null_free s p q s' :
  set_next s p q = Ret s' -> null_free s -> null_free s'.
Proof.
  unfold set_next, deref. destruct (nodes s !! p) eqn:E; [|done].
  rewrite bind_Ret_l. intros [= <-] [Hz0 Hf]. split; [|done]. cbn.
  rewrite lookup_insert_ne; [done|]. intros ->. congruence.
Qed.

Lemma set_prev_null_free s p q s' :
  set_prev s p q = Ret s' -> null_free s -> null_free s'.
Proof.
  unfold set_prev, deref. destruct (nodes s !! p) eqn:E; [|done].
  rewrite bind_Ret_l. intros [= <-] [Hz0 Hf]. split; [|done]. cbn.
  rewrite lookup_insert_ne; [done|]. intros ->. congruence.
Qed.

Lemma set_next_fields s p q s' :
  set_next s p q = Ret s' ->
  cacheMap s' = cacheMap s /\ head s' = head s /\ tail s' = tail s /\
  capacity s' = capacity s /\ fresh s' = fresh s /\
  forall r, is_Some (nodes s' !! r) <-> is_Some (nodes s !! r).
Proof.
  unfold set_next, deref. destruct (nodes s !! p) eqn:E; [|done].
  rewrite bind_Ret_l. intros [= <-]. cbn. repeat split; try done.
  - destruct (decide (r = p)) as [->|?]; [by rewrite E|by rewrite lookup_insert_ne].
  - destruct (decide (r = p)) as [->|?];
      [by rewrite lookup_insert_eq|by rewrite lookup_insert_ne].
Qed.

Lemma set_prev_fields s p q s' :
  set_prev s p q = Ret s' ->
  cacheMap s' = cacheMap s /\ head s' = head s /\ tail s' = tail s /\
  capacity s' = capacity s /\ fresh s' = fresh s /\
  forall r, is_Some (nodes s' !! r) <-> is_Some (nodes s !! r).
Proof.
  unfold set_prev, deref. destruct (nodes s !! p) eqn:E; [|done].
  rewrite bind_Ret_l. intros [= <-]. cbn. repeat split; try done.
  - destruct (decide (r = p)) as [->|?]; [by rewrite E|by rewrite lookup_insert_ne].
  - destruct (decide (r = p)) as [->|?];
      [by rewrite lookup_insert_eq|by rewrite lookup_insert_ne].
Qed.

(** After [removeNode(node)] has returned for a non-null [node], the node
    is deleted. *)
Lemma removeNode_deleted node s s' :
  node <> 0%nat -> removeNode node s = Ret s' -> nodes s' !! node = None.
Proof.
  intros Hne. unfold removeNode. rewrite decide_False by done. intros Hrun.
  run_inv Hrun as n1 Hs1. run_inv Hrun as s1 Hs2. run_inv Hrun as n2 Hs3.
  run_inv Hrun as s2 Hs4. run_inv Hrun as n3 Hs5. injection Hrun as <-. cbn.
  apply lookup_delete_eq.
Qed.

Lemma removeNode_null_free node s s' :
  removeNode node s = Ret s' -> null_free s -> null_free s'.
Proof.
  unfold removeNode. case_decide as Hz; [by intros [= <-]|]. intros Hrun Hnf.
  run_inv Hrun as n1 Hs1. run_inv Hrun as s1 Hs2. run_inv Hrun as n2 Hs3.
  run_inv Hrun as s2 Hs4. run_inv Hrun as n3 Hs5. injection Hrun as <-.
  apply set_next_null_free in Hs2; [|done]. apply set_prev_null_free in Hs4; [|done].
  destruct Hs4 as [Hz0 Hf]. split; [|done]. cbn. by rewrite lookup_delete_ne.
Qed.

Lemma deref_cases s p : (exists n, deref s p = Ret n) \/ deref s p = Undefined.
Proof. unfold deref. destruct (nodes s !! p); eauto. Qed.

Lemma addToHead_dangling node s :
  nodes s !! node = None -> addToHead node s = Undefined.
Proof.
  intros Hnone. unfold addToHead.
  destruct (deref_cases s (head s)) as [[h ->]| ->]; [|done].
  rewrite bind_Ret_l.
  assert (set_next s node (next h) = Undefined) as ->; [|done].
  unfold set_next, deref. by rewrite Hnone.
Qed.

Lemma addToHead_null_free node s s' :
  addToHead node s = Ret s' -> null_free s -> null_free s'.
Proof.
  unfold addToHead. intros Hrun Hnf.
  run_inv Hrun as h1 Hs1. run_inv Hrun as s1 Hs2. run_inv Hrun as s2 Hs3.
  run_inv Hrun as h2 Hs4. run_inv Hrun as s3 Hs5.
  apply set_next_null_free in Hs2; [|done]. apply set_prev_null_free in Hs3; [|done].
  apply set_prev_null_free in Hs5; [|done]. by apply set_next_null_free in Hrun.
Qed.

Lemma put_null_free k v s s' : put k v s = Ret s' -> null_free s -> null_free s'.
Proof.
  unfold put. intros Hrun Hnf. run_inv Hrun as s1 Hs1. run_inv Hrun as s2 Hs2.
  injection Hrun as <-.
  assert (null_free s1) as Hnf1.
  { destruct (cacheMap s !! k) as [p|].
    - by apply (removeNode_null_free p s).
    - destruct (_ >=? _); [|by injection Hs1 as <-].
      run_inv Hs1 as tl Htl. by apply (removeNode_null_free (prev tl) s). }
  apply addToHead_null_free in Hs2.
  - destruct Hs2 as [? ?]. by split.
  - destruct Hnf1 as [Hz0 Hf]. split; cbn; [|done].
    by rewrite lookup_insert_ne.
Qed.

Lemma putAll_null_free kvs s s' : putAll kvs s = Ret s' -> null_free s -> null_free s'.
Proof.
  revert s. induction kvs as [|[k v] kvs IH]; intros s Hrun Hnf.
  - by injection Hrun as <-.
  - cbn [putAll] in Hrun. run_inv Hrun as s1 Hs1.
    apply (IH s1); [done|]. by apply (put_null_free k v s).
Qed.

Lemma set_next_cases s p q :
  (exists s', set_next s p q = Ret s') \/ set_next s p q = Undefined.
Proof. unfold set_next. destruct (deref_cases s p) as [[n ->]| ->]; eauto. Qed.

Lemma set_prev_cases s p q :
  (exists s', set_prev s p q = Ret s') \/ set_prev s p q = Undefined.
Proof. unfold set_prev. destruct (deref_cases s p) as [[n ->]| ->]; eauto. Qed.

Lemma removeNode_cases node s :
  (exists s', removeNode node s = Ret s') \/ removeNode node s = Undefined.
Proof.
  unfold removeNode. case_decide; [eauto|].
  destruct (deref_cases s node) as [[n1 ->]| ->]; [|by right]. rewrite bind_Ret_l.
  destruct (set_next_cases s (prev n1) (next n1)) as [[s1 ->]| ->]; [|by right].
  rewrite bind_Ret_l.
  destruct (deref_cases s1 node) as [[n3 ->]| ->]; [|by right]. rewrite bind_Ret_l.
  destruct (set_prev_cases s1 (next n3) (prev n3)) as [[s2 ->]| ->]; [|by right].
  rewrite bind_Ret_l.
  destruct (deref_cases s2 node) as [[n5 ->]| ->]; [|by right].
  rewrite bind_Ret_l. eauto.
Qed.

(** X20.  In every cache built by [put] calls, [get] for a key that is in
    the cache has undefined behaviour: [removeNode] deletes the node and
    [addToHead] then writes through the dangling pointer.  [get] can
    therefore only ever return [false]. *)
Theorem get_of_cached_key_undefined cap kvs s k node :
  putAll kvs (create cap) = Ret s -> cacheMap s !! k = Some node ->
  get k s = Undefined.
Proof.
  intros Hrun Hk. unfold get. rewrite Hk.
  assert (null_free s) as Hnf.
  { apply (putAll_null_free kvs (create cap)); [done|]. split; [|done]. cbn.
    rewrite !lookup_insert_ne by done. apply lookup_empty. }
  destruct (removeNode_cases node s) as [[s1 Hrm]|Hrm]; rewrite Hrm; [|done].
  rewrite bind_Ret_l. rewrite addToHead_dangling; [done|].
  destruct (decide (node = 0%nat)) as [->|Hne].
  - unfold removeNode in Hrm. rewrite decide_True in Hrm by done.
    injection Hrm as <-. apply Hnf.
  - by apply (removeNode_deleted node s).
Qed.

(** X21.  On a cache created with capacity 0 the first [put] has undefined
    behaviour: the eviction branch calls [removeNode(tail->prev)] on the
    [head] sentinel, whose [prev] is the null pointer. *)
Theorem put_with_capacity_zero k v :
  put k v (create 0) = Undefined.
Proof.
  unfold put. cbn. unfold as_size_t. rewrite Z.mod_0_l by lia.
  rewrite map_size_empty. cbn. unfold deref. cbn.
  rewrite lookup_insert_eq. rewrite bind_Ret_l. cbn.
  unfold removeNode. rewrite decide_False by done. unfold deref. cbn.
  rewrite lookup_insert_ne by done. rewrite lookup_insert_eq. rewrite bind_Ret_l.
  cbn. unfold set_next, deref. cbn. rewrite lookup_insert_ne by done.
  rewrite lookup_insert_ne by done. by rewrite lookup_empty.
Qed.

End Facts.

(** X20, witness: one entry cached, then looked up. *)
Lemma get_of_cached_key_undefined_witness : get 1 cachedOne = Undefined.
Proof.
  apply (get_of_cached_key_undefined 2 [(1, "a"%string)] cachedOne 1 3%nat).
  - vm_compute. reflexivity.
  - vm_compute. reflexivity.
Defined.

End LRUFacts.

Module LRUOrderFacts.
Import LRUCache.
Section Facts.
Context `{Countable Key} `{Inhabited Key} {Value : Type} `{Inhabited Value}.
#[local] Abbreviation t := (@t Key _ _ Value).
#[local] Abbreviation Node := (@Node Key Value).
Implicit Types (s : t) (k : Key) (v : Value) (p q a b : nat) (c : list nat)
  (es : list (Key * Value)) (n : Node).

Lemma set_next_at s p q n :
  nodes s !! p = Some n ->
  set_next s p q = Ret (with_nodes s (<[p := mkNode (key n) (value n) (prev n) q]> (nodes s))).
Proof. intros Hn. unfold set_next, deref. by rewrite Hn. Qed.

Lemma set_prev_at s p q n :
  nodes s !! p = Some n ->
  set_prev s p q = Ret (with_nodes s (<[p := mkNode (key n) (value n) q (next n)]> (nodes s))).
Proof. intros Hn. unfold set_prev, deref. by rewrite Hn. Qed.

Lemma deref_at s p n : nodes s !! p = Some n -> deref s p = Ret n.
Proof. intros Hn. unfold deref. by rewrite Hn. Qed.

(** [removeNode] on a node linked between [pa] and [nx]. *)
Lemma removeNode_at s a pa nx na npa nnx :
  a <> 0%nat -> a <> pa -> a <> nx -> pa <> nx ->
  nodes s !! a = Some na -> nodes s !! pa = Some npa -> nodes s !! nx = Some nnx ->
  prev na = pa -> next na = nx ->
  removeNode a s =
    Ret {| nodes := delete a
             (<[nx := mkNode (key nnx) (value nnx) pa (next nnx)]>
                (<[pa := mkNode (key npa) (value npa) (prev npa) nx]> (nodes s)));
           cacheMap := delete (key na) (cacheMap s);
           head := head s; tail := tail s; capacity := capacity s; fresh := fresh s |}.
Proof.
  intros Ha0 Hapa Hanx Hpn Hna Hnpa Hnnx Hprev Hnext.
  unfold removeNode. rewrite decide_False by done.
  rewrite (deref_at s a na Hna), bind_Ret_l. rewrite Hprev, Hnext.
  rewrite (set_next_at s pa nx npa Hnpa), bind_Ret_l.
  set (s1 := with_nodes s _).
  assert (nodes s1 !! a = Some na) as Hna1.
  { subst s1. cbn. by rewrite lookup_insert_ne. }
  rewrite (deref_at s1 a na Hna1), bind_Ret_l. rewrite Hprev, Hnext.
  assert (nodes s1 !! nx = Some nnx) as Hnnx1.
  { subst s1. cbn. by rewrite lookup_insert_ne. }
  rewrite (set_prev_at s1 nx pa nnx Hnnx1), bind_Ret_l.
  set (s2 := with_nodes s1 _).
  assert (nodes s2 !! a = Some na) as Hna2.
  { subst s2. cbn. by rewrite lookup_insert_ne. }
  rewrite (deref_at s2 a na Hna2), bind_Ret_l. done.
Qed.

(** [addToHead] of a node just allocated, [hd] being the first node after
    [head]. *)
Lemma addToHead_at s a hd nh nhd na :
  a <> head s -> a <> hd -> hd <> head s ->
  nodes s !! head s = Some nh -> nodes s !! hd = Some nhd -> nodes s !! a = Some na ->
  next nh = hd ->
  addToHead a s =
    Ret (with_nodes s
           (<[head s := mkNode (key nh) (value nh) (prev nh) a]>
              (<[hd := mkNode (key nhd) (value nhd) a (next nhd)]>
                 (<[a := mkNode (key na) (value na) (head s) hd]> (nodes s))))).
Proof.
  intros Hah Hahd Hhdh Hnh Hnhd Hna Hnext. unfold addToHead.
  rewrite (deref_at s _ nh Hnh), bind_Ret_l. rewrite Hnext.
  rewrite (set_next_at s a hd na Hna), bind_Ret_l.
  set (s1 := with_nodes s _).
  assert (nodes s1 !! a = Some (mkNode (key na) (value na) (prev na) hd)) as Hna1.
  { subst s1. cbn. by rewrite lookup_insert_eq. }
  rewrite (set_prev_at s1 a (head s1) _ Hna1), bind_Ret_l. cbn [key value next prev].
  set (s2 := with_nodes s1 _).
  assert (nodes s2 !! head s2 = Some nh) as Hnh2.
  { subst s2 s1. cbn. by rewrite !lookup_insert_ne by done. }
  rewrite (deref_at s2 _ nh Hnh2), bind_Ret_l. rewrite Hnext.
  assert (nodes s2 !! hd = Some nhd) as Hnhd2.
  { subst s2 s1. cbn. by rewrite !lookup_insert_ne by done. }
  rewrite (set_prev_at s2 hd a nhd Hnhd2), bind_Ret_l.
  set (s3 := with_nodes s2 _).
  assert (nodes s3 !! head s3 = Some nh) as Hnh3.
  { subst s3 s2 s1. cbn. by rewrite !lookup_insert_ne by done. }
  rewrite (set_next_at s3 (head s3) a nh Hnh3).
  subst s3 s2 s1. cbn. unfold with_nodes. cbn. do 3 f_equal.
  by rewrite insert_insert_eq.
Qed.

Lemma delete_snoc {A} (l : list A) (x : A) i :
  (i < length l)%nat -> delete i (l ++ [x]) = delete i l ++ [x].
Proof.
  intros Hi. rewrite !delete_take_drop.
  rewrite take_app_le by lia. rewrite drop_app_le by lia. by rewrite <- app_assoc.
Qed.

Lemma lookup_delete_cases {A} (l : list A) i j :
  delete i l !! j = if decide (j < i)%nat then l !! j else l !! S j.
Proof.
  case_decide; [by apply list_lookup_delete_lt|apply list_lookup_delete_ge; lia].
Qed.

Lemma remove_rep s c es i a :
  rep s c es -> c !! i = Some a ->
  exists s', removeNode a s = Ret s' /\ rep s' (delete i c) (delete i es) /\
    head s' = head s /\ tail s' = tail s /\ capacity s' = capacity s /\
    fresh s' = fresh s /\
    (forall e, es !! i = Some e -> cacheMap s' = delete e.1 (cacheMap s)).
Proof.
  intros (Hlen & Hnd & Hrange & Hlink & Hent & Hmap & Hkeys & Hsize) Hci.
  set (full := head s :: c ++ [tail s]) in *.
  pose proof (lookup_lt_Some _ _ _ Hci) as Hilt.
  assert (length full = S (S (length c))) as Hfl.
  { subst full. cbn. rewrite length_app. cbn. lia. }
  assert (full !! S i = Some a) as Hfa.
  { change (full !! S i) with ((c ++ [tail s]) !! i). by rewrite lookup_app_l by done. }
  destruct (lookup_lt_is_Some_2 full i ltac:(lia)) as [pa Hpa].
  destruct (lookup_lt_is_Some_2 full (S (S i)) ltac:(lia)) as [nx Hnx].
  destruct (Hlink i pa a Hpa Hfa) as (npa & na & Hnpa & Hna & Hnext_pa & Hprev_a).
  destruct (Hlink (S i) a nx Hfa Hnx) as (na' & nnx & Hna' & Hnnx & Hnext_a & Hprev_nx).
  assert (na' = na) as -> by congruence.
  assert (a <> pa) as Hapa.
  { intros ->. pose proof (NoDup_lookup _ _ _ _ Hnd Hpa Hfa). lia. }
  assert (a <> nx) as Hanx.
  { intros ->. pose proof (NoDup_lookup _ _ _ _ Hnd Hnx Hfa). lia. }
  assert (pa <> nx) as Hpn.
  { intros ->. pose proof (NoDup_lookup _ _ _ _ Hnd Hnx Hpa). lia. }
  assert (a <> 0%nat) as Ha0.
  { apply Hrange. by apply list_elem_of_lookup_2 in Hfa. }
  rewrite (removeNode_at s a pa nx na npa nnx) by done.
  eexists. split; [done|]. cbn [head tail capacity fresh cacheMap].
  destruct (lookup_lt_is_Some_2 es i ltac:(lia)) as [ei Hei].
  destruct (Hent i a ei Hci Hei) as (na2 & Hna2 & Hkey & Hval).
  assert (na2 = na) as -> by congruence.
  split; [|repeat split; try done; intros e He; congruence].
  set (nodes' := delete a _).
  assert (forall x n, x <> a -> nodes s !! x = Some n ->
    nodes' !! x = Some (mkNode (key n) (value n)
                          (if decide (x = nx) then pa else prev n)
                          (if decide (x = pa) then nx else next n))) as Hnodes.
  { intros x n Hxa Hx. subst nodes'. rewrite lookup_delete_ne by done.
    destruct (decide (x = nx)) as [->|Hxn].
    - rewrite lookup_insert_eq. rewrite decide_False by done.
      by replace n with nnx by congruence.
    - rewrite lookup_insert_ne by done.
      destruct (decide (x = pa)) as [->|Hxp].
      + rewrite lookup_insert_eq. by replace n with npa by congruence.
      + rewrite lookup_insert_ne by done. rewrite Hx. by destruct n. }
  assert (head s :: delete i c ++ [tail s] = delete (S i) full) as Hfull'.
  { subst full.
    change (delete (S i) (head s :: c ++ [tail s]))
      with (head s :: delete i (c ++ [tail s])).
    by rewrite delete_snoc. }
  unfold rep. cbn [head tail fresh nodes cacheMap]. rewrite Hfull'.
  assert (forall j x, delete (S i) full !! j = Some x ->
            x <> a /\ full !! (if decide (j < S i)%nat then j else S j) = Some x) as Hshift.
  { intros j x Hx. rewrite lookup_delete_cases in Hx. split; [|by case_decide].
    intros ->. case_decide.
    - pose proof (NoDup_lookup _ _ _ _ Hnd Hx Hfa). lia.
    - pose proof (NoDup_lookup _ _ _ _ Hnd Hx Hfa). lia. }
  split.
  { rewrite (length_delete c i) by (by eexists).
    rewrite (length_delete es i) by (by eexists). lia. }
  split; [eapply sublist_NoDup; [done|apply sublist_delete]|].
  split.
  { intros x Hx. apply Hrange. eapply elem_of_sublist; [done|apply sublist_delete]. }
  split.
  { intros j x y Hx Hy.
    destruct (Hshift j x Hx) as [Hxa Hx']. destruct (Hshift (S j) y Hy) as [Hya Hy'].
    destruct (decide (j < i)%nat) as [Hji|Hji].
    - rewrite decide_True in Hx' by lia. rewrite decide_True in Hy' by lia.
      destruct (Hlink j x y Hx' Hy') as (n1 & n2 & Hn1 & Hn2 & Hnx1 & Hpv2).
      eexists _, _. split; [by apply Hnodes|]. split; [by apply Hnodes|]. cbn.
      split.
      + rewrite decide_False; [done|]. intros ->.
        pose proof (NoDup_lookup _ _ _ _ Hnd Hx' Hpa). lia.
      + rewrite decide_False; [done|]. intros ->.
        pose proof (NoDup_lookup _ _ _ _ Hnd Hy' Hnx). lia.
    - destruct (decide (j = i)) as [->|Hji'].
      + rewrite decide_True in Hx' by lia. rewrite decide_False in Hy' by lia.
        assert (x = pa) as -> by congruence. assert (y = nx) as -> by congruence.
        eexists _, _. split; [by apply Hnodes|]. split; [by apply Hnodes|]. cbn.
        by rewrite !decide_True by done.
      + rewrite decide_False in Hx' by lia. rewrite decide_False in Hy' by lia.
        destruct (Hlink (S j) x y Hx' Hy') as (n1 & n2 & Hn1 & Hn2 & Hnx1 & Hpv2).
        eexists _, _. split; [by apply Hnodes|]. split; [by apply Hnodes|]. cbn.
        split.
        * rewrite decide_False; [done|]. intros ->.
          pose proof (NoDup_lookup _ _ _ _ Hnd Hx' Hpa). lia.
        * rewrite decide_False; [done|]. intros ->.
          pose proof (NoDup_lookup _ _ _ _ Hnd Hy' Hnx). lia. }
  assert (forall j b, c !! j = Some b -> j <> i -> b <> a) as Hdistinct.
  { intros j b Hb Hji ->.
    assert (full !! S j = Some a) as Hfj.
    { change (full !! S j) with ((c ++ [tail s]) !! j).
      rewrite lookup_app_l; [done|]. by eapply lookup_lt_Some. }
    pose proof (NoDup_lookup _ _ _ _ Hnd Hfj Hfa). lia. }
  assert (forall j k0 v0, es !! j = Some (k0, v0) -> j <> i -> k0 <> ei.1) as Hkdistinct.
  { intros j k0 v0 Hj Hji ->.
    assert (es.*1 !! j = Some ei.1) as E1 by (by rewrite list_lookup_fmap, Hj).
    assert (es.*1 !! i = Some ei.1) as E2 by (by rewrite list_lookup_fmap, Hei).
    pose proof (NoDup_lookup _ _ _ _ Hkeys E1 E2). lia. }
  split.
  { intros j b e Hb He. rewrite lookup_delete_cases in Hb. rewrite lookup_delete_cases in He.
    destruct (decide (j < i)%nat) as [Hji|Hji].
    - destruct (Hent j b e Hb He) as (n & Hn & Hk & Hv).
      eexists. split; [apply Hnodes; [apply (Hdistinct j); [done|lia]|done]|]. done.
    - destruct (Hent (S j) b e Hb He) as (n & Hn & Hk & Hv).
      eexists. split; [apply Hnodes; [apply (Hdistinct (S j)); [done|lia]|done]|]. done. }
  split.
  { intros k0 b. rewrite Hkey. rewrite lookup_delete_Some. rewrite Hmap. split.
    - intros (Hne & j & v0 & Hb & He).
      assert (j <> i) as Hji by (intros ->; rewrite Hei in He; by injection He as ->).
      destruct (decide (j < i)%nat) as [Hlt|Hge].
      + exists j, v0. rewrite !lookup_delete_cases. by rewrite !decide_True by done.
      + exists (pred j), v0. rewrite !lookup_delete_cases.
        rewrite !decide_False by lia. by replace (S (pred j)) with j by lia.
    - intros (j & v0 & Hb & He). rewrite lookup_delete_cases in Hb. rewrite lookup_delete_cases in He.
      destruct (decide (j < i)%nat) as [Hlt|Hge].
      + split; [|by exists j, v0]. intros E. symmetry in E. revert E.
        apply (Hkdistinct j k0 v0); [done|lia].
      + split; [|by exists (S j), v0]. intros E. symmetry in E. revert E.
        apply (Hkdistinct (S j) k0 v0); [done|lia]. }
  split.
  { rewrite list_fmap_delete. eapply sublist_NoDup; [done|apply sublist_delete]. }
  rewrite length_delete by (by eexists). rewrite Hkey.
  rewrite map_size_delete_Some; [lia|].
  exists a. apply Hmap. exists i, ei.2. split; [done|]. by destruct ei.
Qed.

Lemma push_rep s c es k v :
  rep s c es -> k ∉ es.*1 ->
  exists s1,
    addToHead (fresh s)
      {| nodes := <[fresh s := mkNode k v 0 0]> (nodes s); cacheMap := cacheMap s;
         head := head s; tail := tail s; capacity := capacity s;
         fresh := S (fresh s) |} = Ret s1 /\
    rep {| nodes := nodes s1; cacheMap := <[k := fresh s]> (cacheMap s1);
           head := head s1; tail := tail s1; capacity := capacity s1;
           fresh := fresh s1 |} (fresh s :: c) ((k, v) :: es) /\
    capacity s1 = capacity s.
Proof.
  intros (Hlen & Hnd & Hrange & Hlink & Hent & Hmap & Hkeys & Hsize) Hk.
  set (full := head s :: c ++ [tail s]) in *.
  set (a := fresh s).
  assert (length full = S (S (length c))) as Hfl.
  { subst full. cbn. rewrite length_app. cbn. lia. }
  assert (full !! 0%nat = Some (head s)) as Hf0 by done.
  destruct (lookup_lt_is_Some_2 full 1 ltac:(lia)) as [hd Hhd].
  destruct (Hlink 0%nat (head s) hd Hf0 Hhd) as (nh & nhd & Hnh & Hnhd & Hnext & Hprev).
  assert (a ∉ full) as Hafull.
  { intros Hin. apply Hrange in Hin. subst a. lia. }
  assert (a <> head s) as Hah.
  { intros E. apply Hafull. rewrite E. by apply list_elem_of_lookup_2 in Hf0. }
  assert (a <> hd) as Hahd.
  { intros E. apply Hafull. rewrite E. by apply list_elem_of_lookup_2 in Hhd. }
  assert (hd <> head s) as Hhdh.
  { intros E. rewrite E in Hhd. pose proof (NoDup_lookup _ _ _ _ Hnd Hhd Hf0). lia. }
  set (s0 := {| nodes := <[a := mkNode k v 0 0]> (nodes s); cacheMap := cacheMap s;
                head := head s; tail := tail s; capacity := capacity s;
                fresh := S a |}).
  rewrite (addToHead_at s0 a hd nh nhd (mkNode k v 0 0)); try done.
  2:{ subst s0. cbn. by rewrite lookup_insert_ne. }
  2:{ subst s0. cbn. by rewrite lookup_insert_ne. }
  2:{ subst s0. cbn. by rewrite lookup_insert_eq. }
  eexists. split; [done|]. split; [|done].
  subst s0. cbn [with_nodes nodes cacheMap head tail capacity fresh key value].
  set (nodes' := <[head s := _]> _).
  assert (nodes' !! a = Some (mkNode k v (head s) hd)) as Hna.
  { subst nodes'. rewrite !lookup_insert_ne by done. by rewrite lookup_insert_eq. }
  assert (forall x n, x <> a -> nodes s !! x = Some n ->
    nodes' !! x = Some (mkNode (key n) (value n)
                          (if decide (x = hd) then a else prev n)
                          (if decide (x = head s) then a else next n))) as Hnodes.
  { intros x n Hxa Hx. subst nodes'.
    destruct (decide (x = head s)) as [->|Hxh].
    - rewrite lookup_insert_eq. rewrite decide_False by done.
      by replace n with nh by congruence.
    - rewrite lookup_insert_ne by done.
      destruct (decide (x = hd)) as [->|Hxd].
      + rewrite lookup_insert_eq. by replace n with nhd by congruence.
      + rewrite !lookup_insert_ne by done. rewrite Hx. by destruct n. }
  unfold rep. cbn [head tail fresh nodes cacheMap].
  change (head s :: (a :: c) ++ [tail s]) with (head s :: a :: c ++ [tail s]).
  assert (forall j x, (head s :: a :: c ++ [tail s]) !! S (S j) = Some x ->
            full !! S j = Some x) as Hold by done.
  split; [cbn; lia|]. split.
  { apply NoDup_cons. split.
    - intros Hin. apply elem_of_cons in Hin as [E|Hin]; [by symmetry in E|].
      apply NoDup_cons in Hnd as [Hnh' _]. by apply Hnh'.
    - apply NoDup_cons. split.
      + intros Hin. apply Hafull. subst full. by right.
      + by apply NoDup_cons in Hnd as [_ ?]. }
  split.
  { intros x Hx. apply elem_of_cons in Hx as [->|Hx].
    - destruct (Hrange (head s)) as [? ?]; [by left|]. split; [done|lia].
    - apply elem_of_cons in Hx as [->|Hx]; [subst a; split; [|lia]|].
      + intros E. destruct (Hrange (head s)) as [? ?]; [by left|]. lia.
      + destruct (Hrange x) as [? ?]; [by right|]. split; [done|lia]. }
  split.
  { intros j x y Hx Hy. destruct j as [|[|j]].
    - injection Hx as <-. injection Hy as <-.
      eexists _, _. split; [apply Hnodes; [done|exact Hnh]|]. split; [exact Hna|].
      cbn. by rewrite decide_True by done.
    - injection Hx as <-. apply Hold in Hy.
      assert (y = hd) as -> by congruence.
      eexists _, _. split; [exact Hna|]. split; [apply Hnodes; [done|exact Hnhd]|].
      cbn. by rewrite decide_True by done.
    - apply Hold in Hx. apply Hold in Hy.
      destruct (Hlink (S j) x y Hx Hy) as (n1 & n2 & Hn1 & Hn2 & Hnx1 & Hpv2).
      assert (x <> a) as Hxa.
      { intros ->. apply Hafull. by apply list_elem_of_lookup_2 in Hx. }
      assert (y <> a) as Hya.
      { intros ->. apply Hafull. by apply list_elem_of_lookup_2 in Hy. }
      eexists _, _. split; [by apply Hnodes|]. split; [by apply Hnodes|]. cbn.
      split.
      + rewrite decide_False; [done|]. intros ->.
        pose proof (NoDup_lookup _ _ _ _ Hnd Hx Hf0). lia.
      + rewrite decide_False; [done|]. intros ->.
        pose proof (NoDup_lookup _ _ _ _ Hnd Hy Hhd). lia. }
  split.
  { intros j b e Hb He. destruct j as [|j].
    - injection Hb as <-. injection He as <-. eexists. split; [exact Hna|done].
    - cbn in Hb, He. destruct (Hent j b e Hb He) as (n & Hn & Hkn & Hvn).
      assert (b <> a) as Hba.
      { intros ->. apply Hafull. subst full. right. apply elem_of_app. left.
        by apply list_elem_of_lookup_2 in Hb. }
      eexists. split; [by apply Hnodes|]. done. }
  split.
  { intros k0 b. rewrite lookup_insert_Some. rewrite Hmap. split.
    - intros [[-> <-]|[Hne (j & v0 & Hb & He)]].
      + by exists 0%nat, v.
      + by exists (S j), v0.
    - intros (j & v0 & Hb & He). destruct j as [|j].
      + injection Hb as <-. injection He as <- <-. by left.
      + cbn in Hb, He. right. split; [|by exists j, v0].
        intros <-. apply Hk. apply list_elem_of_fmap. exists (k, v0).
        split; [done|]. by apply list_elem_of_lookup_2 in He. }
  split.
  { cbn. apply NoDup_cons. by split. }
  cbn [length]. rewrite map_size_insert_None; [lia|].
  destruct (cacheMap s !! k) as [b|] eqn:E; [|done].
  apply Hmap in E as (j & v0 & _ & He). exfalso. apply Hk.
  apply list_elem_of_fmap. exists (k, v0). split; [done|].
  by apply list_elem_of_lookup_2 in He.
Qed.

Lemma filter_absent_key es k : k ∉ es.*1 -> filter (fun e => e.1 <> k) es = es.
Proof.
  induction es as [|[k1 v1] es IH]; [done|]. rewrite fmap_cons, not_elem_of_cons.
  intros [Hne Hk]. rewrite filter_cons_True by (cbn; auto). by rewrite IH.
Qed.

Lemma delete_by_key es i k v0 :
  NoDup es.*1 -> es !! i = Some (k, v0) ->
  delete i es = filter (fun e => e.1 <> k) es.
Proof.
  revert i. induction es as [|[k1 v1] es IH]; intros i Hnd Hi; [done|].
  cbn in Hnd. apply NoDup_cons in Hnd as [Hk1 Hnd].
  destruct i as [|i].
  - injection Hi as -> ->. cbn [delete list_delete].
    rewrite filter_cons_False by (cbn; auto).
    by rewrite filter_absent_key.
  - cbn in Hi. cbn [delete list_delete].
    rewrite filter_cons_True.
    + f_equal. by apply (IH i).
    + cbn. intros ->. apply Hk1. apply list_elem_of_fmap. exists (k, v0).
      split; [done|]. by apply list_elem_of_lookup_2 in Hi.
Qed.

Lemma delete_last {A} (l : list A) :
  delete (length l - 1)%nat l = take (length l - 1)%nat l.
Proof.
  rewrite delete_take_drop. rewrite drop_ge by lia. by rewrite app_nil_r.
Qed.

Lemma put_rep s c es k v :
  rep s c es -> 1 <= capacity s < 2 ^ 64 ->
  exists s' c', put k v s = Ret s' /\ rep s' c' (lru_put (capacity s) es (k, v)) /\
    capacity s' = capacity s.
Proof.
  intros Hrep Hcap. pose proof Hrep as Hrep0.
  destruct Hrep as (Hlen & Hnd & Hrange & Hlink & Hent & Hmap & Hkeys & Hsize).
  unfold put, lru_put. cbn [fst].
  destruct (cacheMap s !! k) as [a|] eqn:Hk.
  - apply Hmap in Hk as (i & v0 & Hci & Hei).
    destruct (remove_rep s c es i a Hrep0 Hci)
      as (s1 & -> & Hrep1 & Hh1 & Ht1 & Hc1 & Hf1 & _).
    rewrite bind_Ret_l.
    rewrite decide_True.
    2:{ apply list_elem_of_fmap. exists (k, v0). split; [done|].
        by apply list_elem_of_lookup_2 in Hei. }
    rewrite (delete_by_key es i k v0 Hkeys Hei) in Hrep1.
    destruct (push_rep s1 _ _ k v Hrep1) as (s2 & -> & Hrep2 & Hc2).
    { intros Hin. apply list_elem_of_fmap in Hin as ([k1 v1] & -> & Hin).
      apply list_elem_of_filter in Hin as [Hne _]. by apply Hne. }
    rewrite bind_Ret_l. eexists _, _. split; [done|]. split; [exact Hrep2|].
    cbn. congruence.
  - assert (k ∉ es.*1) as Hkes.
    { intros Hin. apply list_elem_of_fmap in Hin as ([k1 v1] & -> & Hin).
      apply list_elem_of_lookup in Hin as [i Hi].
      destruct (lookup_lt_is_Some_2 c i) as [a Ha].
      { rewrite Hlen. by eapply lookup_lt_Some. }
      assert (cacheMap s !! k1 = Some a) as E by (apply Hmap; by exists i, v1).
      cbn in Hk. congruence. }
    rewrite decide_False by done.
    unfold as_size_t. rewrite Z.mod_small by lia.
    rewrite Z.geb_leb, Hsize, Hlen.
    destruct (Z.leb_spec (capacity s) (Z.of_nat (length es))) as [Hfull|Hroom].
    + set (full := head s :: c ++ [tail s]) in *.
      assert (length c - 1 < length c)%nat as Hlast by lia.
      destruct (lookup_lt_is_Some_2 c (length c - 1) Hlast) as [a Ha].
      assert (full !! length c = Some a) as Hfa.
      { replace (length c) with (S (length c - 1)) at 1 by lia.
        change (full !! S (length c - 1)) with ((c ++ [tail s]) !! (length c - 1)%nat).
        by rewrite lookup_app_l by lia. }
      assert (full !! S (length c) = Some (tail s)) as Hft.
      { change (full !! S (length c)) with ((c ++ [tail s]) !! length c).
        rewrite lookup_app_r by lia. by rewrite Nat.sub_diag. }
      destruct (Hlink (length c) a (tail s) Hfa Hft) as (na & ntl & Hna & Hntl & _ & Hprev).
      unfold deref. rewrite Hntl, bind_Ret_l, Hprev.
      destruct (remove_rep s c es (length c - 1) a Hrep0 Ha)
        as (s1 & -> & Hrep1 & Hh1 & Ht1 & Hc1 & Hf1 & _).
      rewrite bind_Ret_l.
      assert (delete (length c - 1)%nat es = take (length es - 1)%nat es) as Hdel
        by (rewrite Hlen; apply delete_last).
      rewrite Hdel in Hrep1.
      destruct (push_rep s1 _ _ k v Hrep1) as (s2 & -> & Hrep2 & Hc2).
      { intros Hin. apply Hkes. apply list_elem_of_fmap in Hin as (e & -> & Hin).
        apply list_elem_of_fmap. exists e. split; [done|].
        by apply elem_of_take in Hin as (j & Hj & _); apply list_elem_of_lookup_2 in Hj. }
      rewrite bind_Ret_l. eexists _, _. split; [done|]. split; [exact Hrep2|].
      cbn. congruence.
    + rewrite bind_Ret_l.
      destruct (push_rep s c es k v Hrep0 Hkes) as (s2 & -> & Hrep2 & Hc2).
      rewrite bind_Ret_l. eexists _, _. split; [done|]. split; [exact Hrep2|]. done.
Qed.

Lemma entries_rep s c es : rep s c es -> entries s = es.
Proof.
  intros (Hlen & Hnd & Hrange & Hlink & Hent & Hmap & Hkeys & Hsize).
  set (full := head s :: c ++ [tail s]) in *.
  assert (length full = S (S (length c))) as Hfl.
  { subst full. cbn. rewrite length_app. cbn. lia. }
  assert (full !! S (length c) = Some (tail s)) as Hft.
  { change (full !! S (length c)) with ((c ++ [tail s]) !! length c).
    rewrite lookup_app_r by lia. by rewrite Nat.sub_diag. }
  assert (forall m j p, (j + m = length c)%nat -> full !! S j = Some p ->
            chain m s p = drop j es) as Hchain.
  { induction m as [|m IH]; intros j p Hj Hp.
    - cbn. rewrite drop_ge by lia. done.
    - cbn [chain].
      assert (p <> tail s) as Hpt.
      { intros ->. pose proof (NoDup_lookup _ _ _ _ Hnd Hp Hft). lia. }
      rewrite decide_False by done.
      assert (c !! j = Some p) as Hcj.
      { change (full !! S j) with ((c ++ [tail s]) !! j) in Hp.
        by rewrite lookup_app_l in Hp by lia. }
      destruct (lookup_lt_is_Some_2 es j ltac:(lia)) as [e He].
      destruct (Hent j p e Hcj He) as (n & Hn & Hkn & Hvn).
      destruct (lookup_lt_is_Some_2 full (S (S j)) ltac:(lia)) as [q Hq].
      destruct (Hlink (S j) p q Hp Hq) as (n' & nq & Hn' & _ & Hnext & _).
      assert (n' = n) as -> by congruence.
      rewrite Hn. rewrite Hnext. rewrite (IH (S j) q) by (lia || done).
      rewrite (drop_S es e j He). f_equal. destruct e. cbn in *. congruence. }
  unfold entries.
  assert (full !! 0%nat = Some (head s)) as Hf0 by done.
  destruct (lookup_lt_is_Some_2 full 1 ltac:(lia)) as [hd Hhd].
  destruct (Hlink 0%nat (head s) hd Hf0 Hhd) as (nh & _ & -> & _ & -> & _).
  rewrite Hsize. by rewrite (Hchain (length c) 0%nat hd) by (lia || done).
Qed.

Lemma create_rep cap : rep (create cap : t) [] [].
Proof.
  unfold rep. cbn. split; [done|]. split.
  { apply NoDup_cons. split; [rewrite list_elem_of_singleton; lia|apply NoDup_singleton]. }
  split.
  { intros p Hp. rewrite !elem_of_cons, elem_of_nil in Hp.
    destruct Hp as [->|[->|[]]]; lia. }
  split.
  { intros i a b Ha Hb. destruct i as [|[|i]]; [|done..].
    injection Ha as <-. injection Hb as <-.
    eexists _, _. split; [by rewrite lookup_insert_ne, lookup_insert_eq|].
    split; [by rewrite lookup_insert_eq|]. done. }
  split; [done|]. split.
  { intros k a. rewrite lookup_empty. split; [done|]. by intros (i & v & ? & ?). }
  split; [constructor|]. apply map_size_empty.
Qed.

Lemma lru_put_length cap (l : list (Key * Value)) kv :
  1 <= cap -> Z.of_nat (length l) <= cap ->
  Z.of_nat (length (lru_put cap l kv)) <= cap.
Proof.
  intros Hcap Hl. unfold lru_put. cbn [length]. case_decide as Hin.
  - apply list_elem_of_fmap in Hin as (e & Hk & Hin).
    pose proof (length_filter_lt (fun e0 : Key * Value => e0.1 <> kv.1) l e Hin) as Hlt.
    specialize (Hlt ltac:(intros Hne; by apply Hne)). lia.
  - destruct (Z.leb_spec cap (Z.of_nat (length l))); [rewrite length_take|]; lia.
Qed.

(** X28.  For a capacity of at least 1, every sequence of [put] calls on a
    new cache returns, and the entries linked from [head] to [tail] are
    then those of the list model [lru]: the most recent entry first, one
    entry per key, an entry under the key just put or else the last entry
    of a full cache having been dropped; never more than [capacity]
    entries. *)
Theorem putAll_keeps_most_recent cap kvs :
  1 <= cap <= INT_MAX ->
  exists s : t, putAll kvs (create cap) = Ret s /\
    entries s = lru cap kvs /\
    NoDup (entries s).*1 /\ Z.of_nat (length (entries s)) <= cap.
Proof.
  intros Hcap.
  assert (forall s c es, rep s c es -> capacity s = cap ->
            Z.of_nat (length es) <= cap ->
            exists s' c', putAll kvs s = Ret s' /\
              rep s' c' (foldl (lru_put cap) es kvs) /\
              Z.of_nat (length (foldl (lru_put cap) es kvs)) <= cap) as Hgen.
  { induction kvs as [|[k v] kvs IH]; intros s c es Hrep Hc Hl.
    - exists s, c. done.
    - cbn [putAll foldl].
      destruct (put_rep s c es k v Hrep) as (s1 & c1 & -> & Hrep1 & Hc1).
      { rewrite Hc. unfold INT_MAX in Hcap. lia. }
      rewrite bind_Ret_l. rewrite Hc in Hrep1.
      apply (IH s1 c1); [done|congruence|].
      apply lru_put_length; lia. }
  destruct (Hgen (create cap) [] [] (create_rep cap) eq_refl) as (s & c & Hrun & Hrep & Hl).
  { cbn. lia. }
  exists s. split; [done|]. rewrite (entries_rep s c _ Hrep).
  split; [done|]. split; [apply Hrep|done].
Qed.

End Facts.

(** X28, witness: three keys put into a cache of capacity 2. *)
Lemma putAll_keeps_most_recent_witness :
  exists s : @t Z _ _ string,
    putAll [(1, "a"); (2, "b"); (3, "c")]%string (create 2) = Ret s /\
    entries s = lru 2 [(1, "a"); (2, "b"); (3, "c")]%string /\
    NoDup (entries s).*1 /\ Z.of_nat (length (entries s)) <= 2.
Proof. apply putAll_keeps_most_recent. vm_compute. split; discriminate. Defined.

End LRUOrderFacts.

Module OrderFacts.
Import OrderManagement.
Section Facts.
Context {Amount : Type}.
#[local] Abbreviation t := (@t Amount).
#[local] Abbreviation Order := (@Order Amount).
Implicit Types (s : t) (o : Order).

Lemma firstWithId_found heap id lo n i o :
  0 <= lo <= i -> i < lo + n -> lo + n <= Z.of_nat (length heap) ->
  heap !! Z.to_nat i = Some o -> orderId o = id ->
  (forall j o', lo <= j < i -> heap !! Z.to_nat j = Some o' -> orderId o' <> id) ->
  firstWithId (seqZ lo n) heap id = Ret (Some i).
Proof.
  intros Hlo Hi Hlen Ho Hid Hfirst.
  remember (Z.to_nat (i - lo)) as k eqn:Hk. revert lo n Hlo Hi Hlen Hfirst Hk.
  induction k as [|k IH]; intros lo n Hlo Hi Hlen Hfirst Hk.
  - assert (lo = i) as -> by lia. rewrite seqZ_cons by lia. cbn [firstWithId].
    rewrite aget_lookup by lia. rewrite Ho, bind_Ret_l. by rewrite Hid, Z.eqb_refl.
  - rewrite seqZ_cons by lia. cbn [firstWithId].
    destruct (aget_in heap lo ltac:(lia)) as (o' & -> & Ho'). rewrite bind_Ret_l.
    rewrite (proj2 (Z.eqb_neq _ _)) by (apply (Hfirst lo); [lia|done]).
    apply IH; [lia..| |lia]. intros j o'' Hj. apply Hfirst. lia.
Qed.

Lemma findOrder_first s id i o :
  wf s -> firstOrder s id i o -> findOrder s id = Ret (Some i).
Proof.
  intros (Hlen & Hsz & _) (Hi & Ho & Hid & Hfirst). unfold findOrder.
  apply (firstWithId_found _ _ 0 _ i o); try (lia || done).
Qed.

Lemma copyItems_fits (newItems its : list string) :
  (length newItems <= length its)%nat -> Z.of_nat (length its) <= INT_MAX ->
  copyItems newItems its = Ret (newItems ++ drop (length newItems) its).
Proof.
  intros Hle Hmax. unfold copyItems.
  rewrite int_of_in by (unfold INT_MIN, INT_MAX in *; lia). rewrite bind_Ret_l.
  destruct (for_range_inv
    (fun j (l : list string) =>
       l = take (Z.to_nat j) newItems ++ drop (Z.to_nat j) its)
    0 (Z.of_nat (length newItems))
    (fun j its => x ← aget newItems j; aset its j x) its) as (l & -> & Hl).
  - lia.
  - done.
  - intros j l Hj ->.
    destruct (aget_in newItems j ltac:(lia)) as (x & -> & Hx). rewrite bind_Ret_l.
    rewrite aset_in by (rewrite length_app, length_take, length_drop; lia).
    eexists. split; [done|].
    replace (Z.to_nat (j + 1)) with (S (Z.to_nat j)) by lia.
    rewrite (take_S_r _ _ x) by done.
    rewrite insert_app_r_alt by (rewrite length_take; lia).
    rewrite length_take. replace (Z.to_nat j - Z.to_nat j `min` length newItems)%nat
      with 0%nat by lia.
    destruct (drop (Z.to_nat j) its) as [|y rest] eqn:Hd.
    { apply (f_equal length) in Hd. rewrite length_drop in Hd. simpl in Hd. lia. }
    assert (drop (S (Z.to_nat j)) its = rest) as ->.
    { replace (S (Z.to_nat j)) with (Z.to_nat j + 1)%nat by lia.
      by rewrite <- drop_drop, Hd. }
    cbn. by rewrite <- app_assoc.
  - rewrite Hl, Nat2Z.id. by rewrite firstn_all.
Qed.

Lemma copyItems_overflows (newItems its : list string) :
  (length its < length newItems)%nat -> Z.of_nat (length newItems) <= INT_MAX ->
  copyItems newItems its = Undefined.
Proof.
  intros Hlt Hmax. unfold copyItems.
  rewrite int_of_in by (unfold INT_MIN, INT_MAX in *; lia). rewrite bind_Ret_l.
  unfold for_range. rewrite Z.sub_0_r.
  replace (Z.of_nat (length newItems))
    with (Z.of_nat (length its) + (Z.of_nat (length newItems) - Z.of_nat (length its)))
    by lia.
  rewrite seqZ_app by lia. rewrite Z.add_0_l.
  assert (forall js1 js2 (body : Z -> list string -> run (list string)) a,
    for_each (js1 ++ js2) body a = a' ← for_each js1 body a; for_each js2 body a') as Happ.
  { induction js1 as [|j js1 IH]; intros js2 body a; [done|]. cbn.
    destruct (body j a); [|done..]. cbn. apply IH. }
  rewrite Happ.
  destruct (for_range_inv (fun _ (l : list string) => length l = length its)
    0 (Z.of_nat (length its))
    (fun j its => x ← aget newItems j; aset its j x) its) as (l & Hl & Hlen); [lia|done| |].
  - intros j l Hj Hlen.
    destruct (aget_in newItems j ltac:(lia)) as (x & -> & Hx). rewrite bind_Ret_l.
    rewrite aset_in by lia. eexists. split; [done|]. by rewrite length_insert.
  - unfold for_range in Hl. rewrite Z.sub_0_r in Hl. rewrite Hl, bind_Ret_l.
    rewrite seqZ_cons by lia. cbn [for_each].
    destruct (aget_in newItems (Z.of_nat (length its)) ltac:(lia)) as (x & -> & Hx).
    rewrite bind_Ret_l. unfold aset. rewrite Hlen, Z.ltb_irrefl, andb_false_r. done.
Qed.

(** X22.  [modifyOrder] copies [newItems] into [items[20]] without a bound
    test: on an order in state [CREATED] a list of more than 20 items is
    written past the end of the array (undefined behaviour). *)
Theorem modifyOrder_more_items_than_slots now id newItems newTotal s i o :
  wf s -> firstOrder s id i o -> status o = CREATED ->
  MAX_ITEMS < Z.of_nat (length newItems) <= INT_MAX ->
  modifyOrder now id newItems newTotal s = Undefined.
Proof.
  intros Hwf Hfirst Hst Hn. unfold modifyOrder.
  rewrite (findOrder_first s id i o Hwf Hfirst), bind_Ret_l.
  destruct Hfirst as (Hi & Ho & _). destruct Hwf as (Hlen & Hsz & _ & _ & Hitems).
  rewrite aget_lookup by lia. rewrite Ho, bind_Ret_l.
  rewrite decide_False by (by rewrite Hst; intros ?).
  rewrite int_of_in by (unfold INT_MIN, INT_MAX in *; lia). rewrite bind_Ret_l.
  rewrite copyItems_overflows; [done| |lia].
  rewrite Forall_lookup in Hitems. specialize (Hitems _ _ Ho). unfold MAX_ITEMS in *. lia.
Qed.

(** X23.  [modifyOrder] with at most 20 items on the first order carrying
    the id, in state [CREATED], returns [true]; the order then has the new
    items followed by the old ones beyond their number (these are not
    cleared), the new count and total; nothing else of the heap changes,
    and one transaction is recorded while the buffer has room. *)
Theorem modifyOrder_keeps_stale_items now id newItems newTotal s i o :
  wf s -> firstOrder s id i o -> status o = CREATED ->
  Z.of_nat (length newItems) <= MAX_ITEMS ->
  exists s', modifyOrder now id newItems newTotal s = Ret (true, s') /\
    orderHeap s' = <[Z.to_nat i :=
       mkOrder (orderId o) (customerId o) (tableNumber o)
         (newItems ++ drop (length newItems) (items o))
         (Z.of_nat (length newItems)) newTotal (priority o) (status o) (orderTime o)]>
       (orderHeap s) /\
    orderHeapSize s' = orderHeapSize s /\ wf s' /\
    transactionCount s' = Z.min MAX_TRANSACTIONS (transactionCount s + 1).
Proof.
  intros Hwf Hfirst Hst Hn. unfold modifyOrder.
  rewrite (findOrder_first s id i o Hwf Hfirst), bind_Ret_l.
  destruct Hfirst as (Hi & Ho & _).
  destruct Hwf as (Hlen & Hsz & Htl & Htc & Hitems).
  unfold MAX_ITEMS, MAX_ORDERS, MAX_TRANSACTIONS in *.
  rewrite aget_lookup by lia. rewrite Ho, bind_Ret_l.
  rewrite decide_False by (by rewrite Hst; intros ?).
  rewrite int_of_in by (unfold INT_MIN, INT_MAX in *; lia). rewrite bind_Ret_l.
  pose proof Hitems as Hitems'. rewrite Forall_lookup in Hitems'.
  specialize (Hitems' _ _ Ho).
  rewrite copyItems_fits by (unfold INT_MAX; lia). rewrite bind_Ret_l.
  rewrite aset_in by lia. rewrite bind_Ret_l.
  unfold recordTransaction, MAX_TRANSACTIONS. cbn.
  assert (Forall (fun o0 : Order => Z.of_nat (length (items o0)) = 20)
    (<[Z.to_nat i := mkOrder (orderId o) (customerId o) (tableNumber o)
         (newItems ++ drop (length newItems) (items o))
         (Z.of_nat (length newItems)) newTotal (priority o) (status o) (orderTime o)]>
       (orderHeap s))) as Hitems2.
  { apply Forall_insert; [done|]. cbn. rewrite length_app, length_drop. lia. }
  rewrite Z.geb_leb. destruct (Z.leb_spec 1000 (transactionCount s)) as [Hfull|Hroom].
  - rewrite bind_Ret_l. eexists. split; [done|]. cbn. split; [done|]. split; [done|].
    split; [|lia]. unfold wf, MAX_ITEMS, MAX_ORDERS, MAX_TRANSACTIONS. cbn.
    rewrite length_insert. done.
  - rewrite int_of_in by (unfold INT_MIN, INT_MAX in *; lia). rewrite bind_Ret_l.
    rewrite aset_in by lia. rewrite !bind_Ret_l.
    eexists. split; [done|]. cbn. split; [done|]. split; [done|].
    split; [|lia]. unfold wf, MAX_ITEMS, MAX_ORDERS, MAX_TRANSACTIONS. cbn.
    rewrite !length_insert. repeat split; (done || lia).
Qed.

(** X24.  [cancelOrder] refuses only orders in state [SERVED]: on any other
    order it returns [true] with the order's total as refund and marks the
    order [CANCELLED]; called again on the now cancelled order it returns
    [true] with the same refund once more. *)
Theorem cancelOrder_can_be_repeated show now now' id s i o :
  wf s -> firstOrder s id i o -> status o <> SERVED ->
  exists s1 s2,
    cancelOrder show now id s = Ret (true, Some (totalAmount o), s1) /\
    (exists o1, orderHeap s1 !! Z.to_nat i = Some o1 /\ status o1 = CANCELLED) /\
    cancelOrder show now' id s1 = Ret (true, Some (totalAmount o), s2) /\
    transactionCount s2 = Z.min MAX_TRANSACTIONS (transactionCount s + 2).
Proof.
  intros Hwf Hfirst Hst.
  assert (forall now s o, wf s -> firstOrder s id i o -> status o <> SERVED ->
    exists s1, cancelOrder show now id s = Ret (true, Some (totalAmount o), s1) /\
      wf s1 /\
      firstOrder s1 id i
        (mkOrder (orderId o) (customerId o) (tableNumber o) (items o)
           (itemCount o) (totalAmount o) (priority o) CANCELLED (orderTime o)) /\
      transactionCount s1 = Z.min MAX_TRANSACTIONS (transactionCount s + 1)) as Hone.
  { clear. intros now s o Hwf Hfirst Hst. unfold cancelOrder.
    rewrite (findOrder_first s id i o Hwf Hfirst), bind_Ret_l.
    destruct Hfirst as (Hi & Ho & Hid & Hbefore).
    destruct Hwf as (Hlen & Hsz & Htl & Htc & Hitems).
    unfold MAX_ITEMS, MAX_ORDERS, MAX_TRANSACTIONS in *.
    rewrite aget_lookup by lia. rewrite Ho, bind_Ret_l.
    rewrite decide_False by done.
    rewrite aset_in by lia. rewrite bind_Ret_l.
    set (o' := mkOrder _ _ _ _ _ _ _ CANCELLED _).
    assert (Forall (fun o0 : Order => Z.of_nat (length (items o0)) = 20)
              (<[Z.to_nat i := o']> (orderHeap s))) as Hitems2.
    { apply Forall_insert; [done|]. cbn. rewrite Forall_lookup in Hitems.
      apply (Hitems _ _ Ho). }
    assert (forall hp, hp = <[Z.to_nat i := o']> (orderHeap s) ->
      forall j o'', 0 <= j < i -> hp !! Z.to_nat j = Some o'' -> orderId o'' <> id) as Hb2.
    { intros hp -> j o'' Hj Hl. rewrite list_lookup_insert_ne in Hl by lia.
      by apply (Hbefore j). }
    unfold recordTransaction, MAX_TRANSACTIONS. cbn.
    rewrite Z.geb_leb. destruct (Z.leb_spec 1000 (transactionCount s)) as [Hfull|Hroom].
    - rewrite bind_Ret_l. eexists. split; [done|]. split; [|split].
      + unfold wf, MAX_ITEMS, MAX_ORDERS, MAX_TRANSACTIONS. cbn.
        rewrite length_insert. done.
      + unfold firstOrder. cbn. split; [done|]. split.
        { apply list_lookup_insert_eq. lia. }
        split; [done|]. by apply Hb2.
      + cbn. lia.
    - rewrite int_of_in by (unfold INT_MIN, INT_MAX in *; lia). rewrite bind_Ret_l.
      rewrite aset_in by lia. rewrite !bind_Ret_l.
      eexists. split; [done|]. split; [|split].
      + unfold wf, MAX_ITEMS, MAX_ORDERS, MAX_TRANSACTIONS. cbn.
        rewrite !length_insert. repeat split; (done || lia).
      + unfold firstOrder. cbn. split; [done|]. split.
        { apply list_lookup_insert_eq. lia. }
        split; [done|]. by apply Hb2.
      + cbn. lia. }
  destruct (Hone now s o Hwf Hfirst Hst) as (s1 & Hrun1 & Hwf1 & Hfirst1 & Hc1).
  destruct (Hone now' s1 _ Hwf1 Hfirst1) as (s2 & Hrun2 & _ & _ & Hc2); [done|].
  exists s1, s2. split; [done|]. split.
  - eexists. split; [apply Hfirst1|done].
  - split; [done|]. unfold MAX_TRANSACTIONS in *. lia.
Qed.

End Facts.

Lemma twoOrders_wf : wf twoOrders.
Proof.
  split; [reflexivity|]. split; [vm_compute; split; discriminate|].
  split; [reflexivity|]. split; [vm_compute; split; discriminate|].
  apply Forall_app. split; [by repeat constructor|]. by apply Forall_replicate.
Qed.

Lemma twoOrders_first :
  firstOrder twoOrders 1 0 order1.
Proof. split; [vm_compute; by split|]. split; [done|]. split; [done|]. intros; lia. Qed.

(** X22, witness: 21 items for order 1. *)
Lemma modifyOrder_more_items_than_slots_witness :
  modifyOrder "now" 1 (replicate 21 "dish"%string) 30 twoOrders = Undefined.
Proof.
  apply (modifyOrder_more_items_than_slots _ _ _ _ _ _ _ twoOrders_wf twoOrders_first).
  - reflexivity.
  - vm_compute. split; [reflexivity|discriminate].
Defined.

(** X23, witness: two items for order 1. *)
Lemma modifyOrder_keeps_stale_items_witness :
  exists s', modifyOrder "now" 1 ["soup"; "rice"]%string 30 twoOrders = Ret (true, s') /\
    orderHeap s' = <[Z.to_nat 0 :=
       mkOrder (orderId order1) (customerId order1) (tableNumber order1)
         (["soup"; "rice"]%string ++ drop (length ["soup"; "rice"]%string) (items order1))
         (Z.of_nat (length ["soup"; "rice"]%string)) 30 (priority order1)
         (status order1) (orderTime order1)]> (orderHeap twoOrders) /\
    orderHeapSize s' = orderHeapSize twoOrders /\ wf s' /\
    transactionCount s' = Z.min MAX_TRANSACTIONS (transactionCount twoOrders + 1).
Proof.
  apply (modifyOrder_keeps_stale_items _ _ _ _ _ _ _ twoOrders_wf twoOrders_first).
  - reflexivity.
  - vm_compute. discriminate.
Defined.

(** X24, witness: order 1 cancelled twice. *)
Lemma cancelOrder_can_be_repeated_witness :
  exists s1 s2,
    cancelOrder (fun _ => "25"%string) "now" 1 twoOrders
      = Ret (true, Some (totalAmount order1), s1) /\
    (exists o1, orderHeap s1 !! Z.to_nat 0 = Some o1 /\ status o1 = CANCELLED) /\
    cancelOrder (fun _ => "25"%string) "later" 1 s1
      = Ret (true, Some (totalAmount order1), s2) /\
    transactionCount s2 = Z.min MAX_TRANSACTIONS (transactionCount twoOrders + 2).
Proof.
  apply (cancelOrder_can_be_repeated _ _ _ _ _ _ _ twoOrders_wf twoOrders_first).
  discriminate.
Defined.

End OrderFacts.
